(** * Functional Tetris: the game-state transition engine

    A shallow embedding of the engine of yi-yangg/Functional-Tetris
    (the state module with [initialState], [Move], [Tick], [Rotate],
    [Hold], [Drop], [Collision]; the utility module with [RNG],
    [hasBlocksAround], [hasBoundaryAround], [boundaryX], [boundaryY],
    [collisionDetection], [lineClearCheck], [createBlock]; the constant
    tables; and, of the main module, the scan of the keyboard state and the
    lookup of the falling speed), followed by the properties of the engine.

    Conventions of the embedding.

    - A JavaScript [number] that holds an integer is a [Z].  Coordinates,
      counters and scores are sums and products of small integers, where
      double-precision arithmetic is exact.  The one place where the
      magnitude leaves the exact range (the product inside [RNG.hash]) has
      the rounding of binary64 written out, see [fl].
    - A JavaScript array is a [list]; [a[i]] is [lookup a i], which is
      [None] (JavaScript's [undefined]) out of range.
    - An optional field is an [option].  Reading a property of [undefined]
      throws a [TypeError]; a function that can throw returns an [option],
      with [None] for the exception.
    - [{...s, f: v}] is the setter [with_f v s]. *)

From Stdlib Require Import String.
From Stdlib Require Import ZArith List Bool Lia Arith.
From Stdlib Require Import DecimalString.
From Stdlib Require Import Floats.SpecFloat.
Import ListNotations.

Local Open Scope Z_scope.

(** ** Small library: arrays, exceptions *)

(** [a[i]] for a numeric index: [undefined] when [i] is negative or past
    the end. *)
Definition lookup {A : Type} (l : list A) (i : Z) : option A :=
  if i <? 0 then None else nth_error l (Z.to_nat i).

(** [a.length] as a number. *)
Definition len {A : Type} (l : list A) : Z := Z.of_nat (length l).
Arguments len : simpl never.

(** [a.map((v, index) => f index v)], the index counted from [i]. *)
Fixpoint mapi_from {A B : Type} (f : Z -> A -> B) (i : Z) (l : list A) : list B :=
  match l with
  | [] => []
  | a :: l' => f i a :: mapi_from f (i + 1) l'
  end.

Definition mapi {A B : Type} (f : Z -> A -> B) (l : list A) : list B :=
  mapi_from f 0 l.

(** The exception monad: [None] is a thrown [TypeError]. *)
Definition bind {A B : Type} (m : option A) (k : A -> option B) : option B :=
  match m with
  | Some a => k a
  | None => None
  end.

Notation "'let?' x ':=' m 'in' k" := (bind m (fun x => k))
  (at level 10, x name, m at level 100, k at level 200).

(** [a.map((v, index) => f index v)] where the callback can throw: the first
    exception aborts the whole map. *)
Fixpoint mapiM_from {A B : Type} (f : Z -> A -> option B) (i : Z) (l : list A)
  : option (list B) :=
  match l with
  | [] => Some []
  | a :: l' =>
      let? b := f i a in
      let? bs := mapiM_from f (i + 1) l' in
      Some (b :: bs)
  end.

Definition mapiM {A B : Type} (f : Z -> A -> option B) (l : list A)
  : option (list B) :=
  mapiM_from f 0 l.

(** [a.reduce((acc, v, index) => f acc v index, init)]. *)
Fixpoint reducei_from {A B : Type} (f : B -> A -> Z -> B) (i : Z) (l : list A)
  (acc : B) : B :=
  match l with
  | [] => acc
  | a :: l' => reducei_from f (i + 1) l' (f acc a i)
  end.

(** [Math.min(...l)]; [None] stands for the [Infinity] of the empty call. *)
Definition Math_min (l : list Z) : option Z :=
  match l with
  | [] => None
  | v :: l' => Some (fold_left Z.min l' v)
  end.

(** The decimal text of an integer, as string concatenation prints it. *)
Definition string_of_number (n : Z) : string :=
  NilZero.string_of_int (Z.to_int n).

(** ** Double precision *)

(** [fl n] is the binary64 number nearest to the integer [n], ties to even:
    integers below [2^53] in magnitude are kept, larger ones are rounded to
    53 significant bits.  (Overflow past [2^1024] is not modelled.) *)
Definition fl (n : Z) : Z :=
  let a := Z.abs n in
  if a <? 2 ^ 53 then n
  else
    let u := 2 ^ (Z.log2 a - 52) in
    let q := a / u in
    let r := a mod u in
    let q' :=
      if 2 * r <? u then q
      else if u <? 2 * r then q + 1
      else if Z.even q then q else q + 1 in
    Z.sgn n * (q' * u).

(** Doubles by the IEEE 754 specification of the Standard Library, used to
    cross-check [fl], [RNG.hash] and [RNG.scale] on concrete numbers: the
    double nearest to an integer, and the floor of a finite double. *)
Definition float_of_Z (n : Z) : spec_float :=
  binary_normalize 53 1024 n 0 false.

Definition floor_of_float (f : spec_float) : option Z :=
  match f with
  | S754_zero _ => Some 0
  | S754_finite s m e =>
      let v := if s then Z.neg m else Z.pos m in
      Some (if e <? 0 then v / 2 ^ (- e) else v * 2 ^ e)
  | _ => None
  end.

Definition fl_ieee (n : Z) : option Z := floor_of_float (float_of_Z n).

(** ** Pseudo-random number generator (class [RNG]) *)

Module RNG.

Definition m : Z := 2147483648. (* 0x80000000 *)
Definition a : Z := 1103515245.
Definition c : Z := 12345.

(** [(RNG.a * seed + RNG.c) % RNG.m]: the product and the sum are rounded
    to double precision, the remainder [%] is exact and takes the sign of
    the dividend. *)
Definition hash (seed : Z) : Z := Z.rem (fl (fl (a * seed) + c)) m.

(** [Math.floor((hash / (RNG.m - 1)) * 7)].  For an integer [hash] in
    [0, 2^31) the exact quotient [7 * hash / (m - 1)] is an integer only
    at [hash = 0] and [hash = m - 1] ([m - 1] is prime), where the double
    computation is exact, and is otherwise at least [1 / (m - 1)] away
    from an integer, far more than the rounding error of the division and
    the product: the floor of the doubles is the floor of the exact
    quotient. *)
Definition scale (hash : Z) : Z := (7 * hash) / (m - 1).

End RNG.

(** [RNG.hash] and [RNG.scale] computed on IEEE 754 doubles, operation by
    operation. *)
Definition hash_ieee (seed : Z) : option Z :=
  option_map (fun v => Z.rem v RNG.m)
    (floor_of_float
       (SFadd 53 1024 (SFmul 53 1024 (float_of_Z RNG.a) (float_of_Z seed))
          (float_of_Z RNG.c))).

Definition scale_ieee (hash : Z) : option Z :=
  floor_of_float
    (SFmul 53 1024 (SFdiv 53 1024 (float_of_Z hash) (float_of_Z (RNG.m - 1)))
       (float_of_Z 7)).

(** ** Constants *)

Module Viewport.
Definition CANVAS_WIDTH : Z := 200.
Definition CANVAS_HEIGHT : Z := 400.
Definition PREVIEW_WIDTH : Z := 160.
Definition PREVIEW_HEIGHT : Z := 80.
End Viewport.

Module Constants.
Definition TICK_RATE_MS : Z := 500.
Definition GRID_WIDTH : Z := 10.
Definition GRID_HEIGHT : Z := 20.
End Constants.

Module Block.
Definition WIDTH : Z := Viewport.CANVAS_WIDTH / Constants.GRID_WIDTH.
Definition HEIGHT : Z := Viewport.CANVAS_HEIGHT / Constants.GRID_HEIGHT.
End Block.

(** The shape letters ["I" | "T" | "J" | "L" | "O" | "S" | "Z"]; the bare
    letters are taken in Rocq. *)
Inductive ShapeLetters : Type :=
| ShI | ShT | ShJ | ShL | ShO | ShS | ShZ.

(** [{ x, y }] of the rotation and wall-kick tables. *)
Record PieceStartLocation : Type := loc { ox : Z; oy : Z }.

Definition PieceLocation : Type := list PieceStartLocation.
Definition WallKickData : Type := list (list PieceStartLocation).

Definition TetroShapes : list ShapeLetters :=
  [ShI; ShT; ShJ; ShL; ShO; ShS; ShZ].

Definition TetroColorMap (s : ShapeLetters) : string :=
  match s with
  | ShI => "cyan"%string
  | ShT => "purple"%string
  | ShJ => "blue"%string
  | ShL => "orange"%string
  | ShO => "yellow"%string
  | ShS => "lime"%string
  | ShZ => "red"%string
  end.

Definition TetroStartPosMap (s : ShapeLetters) : list PieceLocation :=
  match s with
  | ShI =>
      [ [loc (-1) 0; loc 0 0; loc 1 0; loc 2 0];
        [loc 1 (-1); loc 1 0; loc 1 1; loc 1 2];
        [loc 2 1; loc 1 1; loc 0 1; loc (-1) 1];
        [loc 0 2; loc 0 1; loc 0 0; loc 0 (-1)] ]
  | ShT =>
      [ [loc (-1) 0; loc 0 0; loc 0 (-1); loc 1 0];
        [loc 0 (-1); loc 0 0; loc 1 0; loc 0 1];
        [loc 1 0; loc 0 0; loc 0 1; loc (-1) 0];
        [loc 0 1; loc 0 0; loc (-1) 0; loc 0 (-1)] ]
  | ShS =>
      [ [loc (-1) 0; loc 0 0; loc 0 (-1); loc 1 (-1)];
        [loc 0 (-1); loc 0 0; loc 1 0; loc 1 1];
        [loc 1 0; loc 0 0; loc 0 1; loc (-1) 1];
        [loc 0 1; loc 0 0; loc (-1) 0; loc (-1) (-1)] ]
  | ShZ =>
      [ [loc (-1) (-1); loc 0 0; loc 0 (-1); loc 1 0];
        [loc 1 (-1); loc 0 0; loc 1 0; loc 0 1];
        [loc 1 1; loc 0 0; loc 0 1; loc (-1) 0];
        [loc (-1) 1; loc 0 0; loc (-1) 0; loc 0 (-1)] ]
  | ShO =>
      [ [loc 0 (-1); loc 0 0; loc 1 (-1); loc 1 0] ]
  | ShJ =>
      [ [loc (-1) (-1); loc 0 0; loc (-1) 0; loc 1 0];
        [loc 1 (-1); loc 0 0; loc 0 (-1); loc 0 1];
        [loc 1 1; loc 0 0; loc 1 0; loc (-1) 0];
        [loc (-1) 1; loc 0 0; loc 0 1; loc 0 (-1)] ]
  | ShL =>
      [ [loc 1 (-1); loc 0 0; loc (-1) 0; loc 1 0];
        [loc 1 1; loc 0 0; loc 0 (-1); loc 0 1];
        [loc (-1) 1; loc 0 0; loc 1 0; loc (-1) 0];
        [loc (-1) (-1); loc 0 0; loc 0 1; loc 0 (-1)] ]
  end.

Definition JLTSZWallKickData : WallKickData :=
  [ [loc 0 0; loc (-1) 0; loc (-1) (-1); loc 0 2; loc (-1) 2];
    [loc 0 0; loc (-1) 0; loc (-1) 1; loc 0 (-2); loc (-1) (-2)];
    [loc 0 0; loc 1 0; loc 1 (-1); loc 0 2; loc 1 2];
    [loc 0 0; loc 1 0; loc 1 1; loc 0 (-2); loc 1 (-2)] ].

Definition IWallKickData : WallKickData :=
  [ [loc 0 0; loc 1 0; loc (-2) 0; loc 1 (-2); loc (-2) 1];
    [loc 0 0; loc (-2) 0; loc 1 0; loc (-2) (-1); loc 1 2];
    [loc 0 0; loc (-1) 0; loc 2 0; loc (-1) 2; loc 2 (-1)];
    [loc 0 0; loc 2 0; loc (-1) 0; loc 2 1; loc (-1) (-2)] ].

Definition OWallKickData : WallKickData := [ [loc 0 0] ].

Definition PieceWallKickMap (s : ShapeLetters) : WallKickData :=
  match s with
  | ShI => IWallKickData
  | ShJ => JLTSZWallKickData
  | ShL => JLTSZWallKickData
  | ShO => OWallKickData
  | ShS => JLTSZWallKickData
  | ShT => JLTSZWallKickData
  | ShZ => JLTSZWallKickData
  end.

(** ** Types *)

Inductive Direction : Type := DirX | DirY. (* "x" | "y" *)

Record Cell : Type := mkCell {
  x : Z;
  y : Z;
  width : Z;
  height : Z;
  id : string;
  color : string
}.

(** [originBlock] is read from an array position and can be [undefined].
    The field [seed] of the piece is [pieceSeed] here, [seed] being the
    field of the state. *)
Record Tetro : Type := mkTetro {
  cells : list Cell;
  originBlock : option Cell;
  collided : bool;
  rotation : Z;
  shape : ShapeLetters;
  pieceSeed : Z;
  blockStartCount : Z
}.

Record State : Type := mkState {
  currentBlock : option Tetro;
  blocks : list Cell;
  nextBlock : option Tetro;
  heldBlock : option Tetro;
  ghostBlock : option Tetro;
  blockCount : Z;
  lineClears : Z;
  level : Z;
  points : Z;
  highscore : Z;
  clearedBlocks : list Cell;
  gameEnd : bool;
  seed : Z;
  canHoldAgain : bool;
  changeInLevel : bool
}.

(** Object spread with one field replaced. *)
Definition with_x (v : Z) (c : Cell) : Cell :=
  mkCell v (y c) (width c) (height c) (id c) (color c).
Definition with_y (v : Z) (c : Cell) : Cell :=
  mkCell (x c) v (width c) (height c) (id c) (color c).
Definition with_color (v : string) (c : Cell) : Cell :=
  mkCell (x c) (y c) (width c) (height c) (id c) v.

Definition with_cells (v : list Cell) (t : Tetro) : Tetro :=
  mkTetro v (originBlock t) (collided t) (rotation t) (shape t) (pieceSeed t)
    (blockStartCount t).
Definition with_originBlock (v : option Cell) (t : Tetro) : Tetro :=
  mkTetro (cells t) v (collided t) (rotation t) (shape t) (pieceSeed t)
    (blockStartCount t).
Definition with_collided (v : bool) (t : Tetro) : Tetro :=
  mkTetro (cells t) (originBlock t) v (rotation t) (shape t) (pieceSeed t)
    (blockStartCount t).
Definition with_rotation (v : Z) (t : Tetro) : Tetro :=
  mkTetro (cells t) (originBlock t) (collided t) v (shape t) (pieceSeed t)
    (blockStartCount t).

Definition with_currentBlock (v : option Tetro) (s : State) : State :=
  mkState v (blocks s) (nextBlock s) (heldBlock s) (ghostBlock s)
    (blockCount s) (lineClears s) (level s) (points s) (highscore s)
    (clearedBlocks s) (gameEnd s) (seed s) (canHoldAgain s) (changeInLevel s).
Definition with_blocks (v : list Cell) (s : State) : State :=
  mkState (currentBlock s) v (nextBlock s) (heldBlock s) (ghostBlock s)
    (blockCount s) (lineClears s) (level s) (points s) (highscore s)
    (clearedBlocks s) (gameEnd s) (seed s) (canHoldAgain s) (changeInLevel s).
Definition with_nextBlock (v : option Tetro) (s : State) : State :=
  mkState (currentBlock s) (blocks s) v (heldBlock s) (ghostBlock s)
    (blockCount s) (lineClears s) (level s) (points s) (highscore s)
    (clearedBlocks s) (gameEnd s) (seed s) (canHoldAgain s) (changeInLevel s).
Definition with_heldBlock (v : option Tetro) (s : State) : State :=
  mkState (currentBlock s) (blocks s) (nextBlock s) v (ghostBlock s)
    (blockCount s) (lineClears s) (level s) (points s) (highscore s)
    (clearedBlocks s) (gameEnd s) (seed s) (canHoldAgain s) (changeInLevel s).
Definition with_ghostBlock (v : option Tetro) (s : State) : State :=
  mkState (currentBlock s) (blocks s) (nextBlock s) (heldBlock s) v
    (blockCount s) (lineClears s) (level s) (points s) (highscore s)
    (clearedBlocks s) (gameEnd s) (seed s) (canHoldAgain s) (changeInLevel s).
Definition with_blockCount (v : Z) (s : State) : State :=
  mkState (currentBlock s) (blocks s) (nextBlock s) (heldBlock s) (ghostBlock s)
    v (lineClears s) (level s) (points s) (highscore s)
    (clearedBlocks s) (gameEnd s) (seed s) (canHoldAgain s) (changeInLevel s).
Definition with_lineClears (v : Z) (s : State) : State :=
  mkState (currentBlock s) (blocks s) (nextBlock s) (heldBlock s) (ghostBlock s)
    (blockCount s) v (level s) (points s) (highscore s)
    (clearedBlocks s) (gameEnd s) (seed s) (canHoldAgain s) (changeInLevel s).
Definition with_level (v : Z) (s : State) : State :=
  mkState (currentBlock s) (blocks s) (nextBlock s) (heldBlock s) (ghostBlock s)
    (blockCount s) (lineClears s) v (points s) (highscore s)
    (clearedBlocks s) (gameEnd s) (seed s) (canHoldAgain s) (changeInLevel s).
Definition with_points (v : Z) (s : State) : State :=
  mkState (currentBlock s) (blocks s) (nextBlock s) (heldBlock s) (ghostBlock s)
    (blockCount s) (lineClears s) (level s) v (highscore s)
    (clearedBlocks s) (gameEnd s) (seed s) (canHoldAgain s) (changeInLevel s).
Definition with_highscore (v : Z) (s : State) : State :=
  mkState (currentBlock s) (blocks s) (nextBlock s) (heldBlock s) (ghostBlock s)
    (blockCount s) (lineClears s) (level s) (points s) v
    (clearedBlocks s) (gameEnd s) (seed s) (canHoldAgain s) (changeInLevel s).
Definition with_clearedBlocks (v : list Cell) (s : State) : State :=
  mkState (currentBlock s) (blocks s) (nextBlock s) (heldBlock s) (ghostBlock s)
    (blockCount s) (lineClears s) (level s) (points s) (highscore s)
    v (gameEnd s) (seed s) (canHoldAgain s) (changeInLevel s).
Definition with_gameEnd (v : bool) (s : State) : State :=
  mkState (currentBlock s) (blocks s) (nextBlock s) (heldBlock s) (ghostBlock s)
    (blockCount s) (lineClears s) (level s) (points s) (highscore s)
    (clearedBlocks s) v (seed s) (canHoldAgain s) (changeInLevel s).
Definition with_seed (v : Z) (s : State) : State :=
  mkState (currentBlock s) (blocks s) (nextBlock s) (heldBlock s) (ghostBlock s)
    (blockCount s) (lineClears s) (level s) (points s) (highscore s)
    (clearedBlocks s) (gameEnd s) v (canHoldAgain s) (changeInLevel s).
Definition with_canHoldAgain (v : bool) (s : State) : State :=
  mkState (currentBlock s) (blocks s) (nextBlock s) (heldBlock s) (ghostBlock s)
    (blockCount s) (lineClears s) (level s) (points s) (highscore s)
    (clearedBlocks s) (gameEnd s) (seed s) v (changeInLevel s).
Definition with_changeInLevel (v : bool) (s : State) : State :=
  mkState (currentBlock s) (blocks s) (nextBlock s) (heldBlock s) (ghostBlock s)
    (blockCount s) (lineClears s) (level s) (points s) (highscore s)
    (clearedBlocks s) (gameEnd s) (seed s) (canHoldAgain s) v.

(** ** Utility functions *)

Definition createBlock (x y : Z) (blockId color : string) : Cell :=
  mkCell x y Block.WIDTH Block.HEIGHT blockId color.

(** Some cell, moved by [offset] along [direction], lies on a cell of
    [s.blocks]: the cells that stay free are counted against all cells. *)
Definition hasBlocksAround (cells : list Cell) (s : State) (offset : Z)
  (direction : Direction) : bool :=
  negb (len (filter (fun c =>
          let xPos := match direction with DirX => x c + offset | DirY => x c end in
          let yPos := match direction with DirY => y c + offset | DirX => y c end in
          len (filter (fun b => (xPos =? x b) && (yPos =? y b)) (blocks s)) =? 0)
        cells)
        =? len cells).

(** Some cell, moved by [offset] along [direction], leaves the board. *)
Definition hasBoundaryAround (cells : list Cell) (s : State) (offset : Z)
  (direction : Direction) : bool :=
  negb (len (filter (fun c =>
          match direction with
          | DirX => (0 - Block.WIDTH <? x c + offset)
                    && (x c + offset <? Viewport.CANVAS_WIDTH)
          | DirY => y c + offset <? Viewport.CANVAS_HEIGHT
          end)
        cells)
        =? len cells).

Definition boundaryX (cells : list Cell) (s : State) (offset : Z) : list Cell :=
  match currentBlock s with
  | None => cells
  | Some cur =>
      if collided cur then cells
      else
        let hasBlocksBeside := hasBlocksAround cells s offset DirX in
        let hasBoundaryBeside := hasBoundaryAround cells s offset DirX in
        if hasBlocksBeside || hasBoundaryBeside then cells
        else map (fun cell => with_x (x cell + offset) cell) cells
  end.

Definition boundaryY (cells : list Cell) (s : State) (offset : Z) : list Cell :=
  match currentBlock s with
  | None => cells
  | Some cur =>
      if collided cur then cells
      else
        let hasBlocksBelow := hasBlocksAround cells s offset DirY in
        let hasBoundaryBelow := hasBoundaryAround cells s offset DirY in
        if hasBlocksBelow || hasBoundaryBelow then cells
        else map (fun cell => with_y (y cell + offset) cell) cells
  end.

(** [x1 === x2 && y1 === y2 - Block.HEIGHT]: the first point sits right on
    top of the second. *)
Definition itemCollided (p1 p2 : Z * Z) : bool :=
  (fst p1 =? fst p2) && (snd p1 =? snd p2 - Block.HEIGHT).

(** [s.currentBlock!] is read without a test: with no current block the
    access to [cells] throws. *)
Definition collisionDetection (s : State) : option State :=
  let? cur := currentBlock s in
  let blockAndBoundaryCollided :=
    0 <? len (filter (fun c =>
                itemCollided (x c, y c) (x c, Viewport.CANVAS_HEIGHT))
              (cells cur)) in
  let blockAndBlocksCollided :=
    0 <? len (filter (fun c =>
                0 <? len (filter (fun b => itemCollided (x c, y c) (x b, y b))
                            (blocks s)))
              (cells cur)) in
  let collisionCondition := blockAndBoundaryCollided || blockAndBlocksCollided in
  Some
    (with_canHoldAgain (if collisionCondition then true else canHoldAgain s)
    (with_seed (if collisionCondition then RNG.hash (seed s) else seed s)
    (with_blocks (if collisionCondition then blocks s ++ cells cur else blocks s)
    (with_currentBlock (Some (with_collided collisionCondition cur)) s)))).

(** Line-clear resolution.  The first three constants of the source
    function are given names of their own; [block] is the current block.

    The cells of the block whose row holds [GRID_WIDTH] blocks. *)
Definition tetroBlockMakingLine (state : State) (block : Tetro) : list Cell :=
  filter (fun c =>
            len (filter (fun b => y b =? y c) (blocks state))
            =? Constants.GRID_WIDTH)
         (cells block).

(** One of those cells per row, the first met. *)
Definition blockMakingFullLine (state : State) (block : Tetro) : list Cell :=
  fold_left (fun (acc : list Cell) (cell : Cell) =>
               if 0 <? len (filter (fun c => y c =? y cell) acc)
               then acc else acc ++ [cell])
            (tetroBlockMakingLine state block) [].

(** The blocks of the rows that are full. *)
Definition AllBlockInFullLine (state : State) (block : Tetro) : list Cell :=
  filter (fun b =>
            0 <? len (filter (fun c => y b =? y c)
                        (blockMakingFullLine state block)))
         (blocks state).

(** [block?.collided] is false for a missing block; nothing in the function
    can throw.  [noOfLinesCleared] is a quotient of numbers: the length it
    divides is a multiple of [GRID_WIDTH] (lemma
    [AllBlockInFullLine_length]), so the quotient is the integer one. *)
Definition lineClearCheck (state : State) : State :=
  match currentBlock state with
  | None => with_changeInLevel false state
  | Some block =>
      if negb (collided block) then with_changeInLevel false state
      else
        let blockMakingFullLine := blockMakingFullLine state block in
        let AllBlockInFullLine := AllBlockInFullLine state block in
        if len AllBlockInFullLine =? 0 then with_changeInLevel false state
        else
          let blocksAbove :=
            map (fun block =>
                   let lineClearNoBelow :=
                     len (filter (fun c => y block <? y c) blockMakingFullLine) in
                   with_y (y block + lineClearNoBelow * Block.HEIGHT) block)
              (fold_left (fun (acc : list Cell) (block : Cell) =>
                            let isBlockGettingCleared :=
                              0 <? len (filter (fun c => y c =? y block)
                                          blockMakingFullLine) in
                            if isBlockGettingCleared then acc else acc ++ [block])
                 (filter (fun b =>
                            0 <? len (filter (fun c => y b <? y c)
                                        blockMakingFullLine))
                         (blocks state))
                 []) in
          let blocksBelow :=
            fold_left (fun (acc : list Cell) (block : Cell) =>
                         let isBlockGettingCleared :=
                           0 <? len (filter (fun c => y c =? y block)
                                       blockMakingFullLine) in
                         let isBlockInBlocksAbove :=
                           0 <? len (filter (fun c => String.eqb (id block) (id c))
                                       blocksAbove) in
                         if isBlockGettingCleared || isBlockInBlocksAbove
                         then acc else acc ++ [block])
              (filter (fun b =>
                         0 <? len (filter (fun c => y c <? y b)
                                     blockMakingFullLine))
                      (blocks state))
              [] in
          let noOfLinesCleared := len AllBlockInFullLine / Constants.GRID_WIDTH in
          let points' := points state + noOfLinesCleared * 100 in
          let level' := (lineClears state + noOfLinesCleared) / 10 in
          let changeInLevel' := negb (level state =? level') in
          with_changeInLevel changeInLevel'
          (with_level level'
          (with_highscore (if highscore state <? points' then points'
                           else highscore state)
          (with_clearedBlocks AllBlockInFullLine
          (with_points points'
          (with_lineClears (lineClears state + noOfLinesCleared)
          (with_blocks (blocksAbove ++ blocksBelow) state))))))
  end.

(** ** State processing *)

Definition initialState (initialSeed : Z) : State :=
  {| currentBlock := None;
     blocks := [];
     nextBlock := None;
     heldBlock := None;
     ghostBlock := None;
     blockCount := 0;
     lineClears := 0;
     level := 0;
     points := 0;
     highscore := 0;
     clearedBlocks := [];
     gameEnd := false;
     seed := initialSeed;
     canHoldAgain := true;
     changeInLevel := false |}.

Module Move.

(** [updatedCells[1]] is [undefined] for fewer than two cells. *)
Definition perform (direction : Direction) (offset : Z) (s : State)
  : option State :=
  match currentBlock s with
  | None => Some s
  | Some cur =>
      let updatedCells :=
        match direction with
        | DirX => boundaryX (cells cur) s offset
        | DirY => boundaryY (cells cur) s offset
        end in
      Some (with_currentBlock
              (Some (with_originBlock (lookup updatedCells 1)
                       (with_cells updatedCells cur)))
              s)
  end.

End Move.

Module Tick.

(** The piece factory.  [TetroShapes[randomNumber]] is [undefined] when the
    scaled seed is not one of the indices 0..6, and the table lookup that
    follows throws. *)
Definition createTetrominoes (x_ y_ blockCount seed : Z) (isPreview : bool)
  (state : State) : option Tetro :=
  let randomNumber := RNG.scale seed in
  let? chosenShape := lookup TetroShapes randomNumber in
  let? shapeMap := lookup (TetroStartPosMap chosenShape) 0 in
  let tetroColor := TetroColorMap chosenShape in
  let startPosX := x_ in
  let checkValidBlockSpawn :=
    len (filter (fun o =>
           let posX := startPosX + ox o * Block.WIDTH in
           let posY := Block.HEIGHT + oy o * Block.HEIGHT in
           len (filter (fun b => (posX =? x b) && (posY =? y b))
                  (blocks state)) =? 0)
         shapeMap) =? 4 in
  let startPosY := if checkValidBlockSpawn || isPreview then y_ else 0 in
  let tetro :=
    mapi (fun index o =>
            createBlock (startPosX + ox o * Block.WIDTH)
              (startPosY + oy o * Block.HEIGHT)
              (String.append "block " (string_of_number (blockCount + index)))
              tetroColor)
         shapeMap in
  let findPivot :=
    hd_error (filter (fun c => (x c =? startPosX) && (y c =? startPosY)) tetro) in
  Some {| cells := tetro;
          originBlock := findPivot;
          collided := false;
          rotation := 0;
          shape := chosenShape;
          pieceSeed := seed;
          blockStartCount := blockCount |}.

Definition mapGhostTetro (cells_ : list Cell) (block : Tetro) (offset : Z)
  : option (list Cell) :=
  mapiM (fun index cell =>
           let? bc := lookup (cells block) index in
           Some (with_color "grey" (with_y (y bc + offset) (with_x (x bc) cell))))
        cells_.

(** [time] is not read. *)
Definition perform (time : Z) (s : State) : option State :=
  let state := lineClearCheck s in
  let needsBlock :=
    match currentBlock state with
    | None => true
    | Some cur => collided cur
    end in
  let? block :=
    if needsBlock
    then createTetrominoes (Viewport.CANVAS_WIDTH / 2 - Block.WIDTH)
           Block.HEIGHT (blockCount state) (seed state) false state
    else currentBlock state in
  let ghostBlockYLocation :=
    map (fun c =>
           fold_left (fun acc b =>
                        if (x c =? x b) && (y b <? acc) && (y c <? y b)
                        then y b else acc)
                     (blocks state) 400
           - Block.HEIGHT)
        (cells block) in
  (* with no cell at all the minimum is Infinity, no index is selected and
     the read of block.cells[0].y below throws *)
  let? getMinY := Math_min ghostBlockYLocation in
  let getIndexOfLocation :=
    reducei_from (fun (acc : list Z) (val index : Z) =>
                    if val =? getMinY then acc ++ [index] else acc)
                 0 ghostBlockYLocation [] in
  let? yValueIndex :=
    fold_left (fun (acc : option (Z * Z)) (val : Z) =>
                 let? a := acc in
                 let? c := lookup (cells block) val in
                 Some (if y c <? snd a then a else (val, y c)))
              getIndexOfLocation (Some (0, 0)) in
  let? lowest := lookup (cells block) (fst yValueIndex) in
  let yOffset := getMinY - y lowest in
  let ghostTetroBlockCount :=
    match ghostBlock state with
    | Some g => blockStartCount g
    | None => blockCount state + 4
    end in
  let? ghostTetro :=
    createTetrominoes 0 0 ghostTetroBlockCount (pieceSeed block) true state in
  let? ghostCells := mapGhostTetro (cells ghostTetro) block yOffset in
  let? ghostCells' :=
    if hasBlocksAround ghostCells s 0 DirX
       || hasBoundaryAround ghostCells s 0 DirY
    then mapGhostTetro ghostCells block (yOffset - Block.HEIGHT)
    else Some ghostCells in
  let ghostBlock' := with_cells ghostCells' ghostTetro in
  let isBlockSpawningOnOtherBlocks :=
    0 <? len (filter (fun c =>
                0 <? len (filter (fun b => (x c =? x b) && (y c =? y b))
                            (blocks state)))
              (cells block)) in
  let nextTetroBlockCount :=
    match ghostBlock state with
    | Some _ => blockCount state + 4
    | None => blockCount state + 8
    end in
  let createNext :=
    createTetrominoes (Viewport.PREVIEW_WIDTH / 2) (Viewport.PREVIEW_HEIGHT / 2)
      nextTetroBlockCount (RNG.hash (seed state)) true state in
  let? nextBlock' :=
    match nextBlock state with
    | None => createNext
    | Some nb =>
        (* state.currentBlock!.collided *)
        let? cur := currentBlock state in
        if collided cur then createNext else Some nb
    end in
  let blockCount' :=
    if needsBlock
    then match ghostBlock state with
         | Some _ => blockCount state + 4
         | None => blockCount state + 8
         end
    else blockCount state in
  Some (with_gameEnd isBlockSpawningOnOtherBlocks
       (with_blockCount blockCount'
       (with_ghostBlock (Some ghostBlock')
       (with_nextBlock (Some nextBlock')
       (with_currentBlock (Some block) state))))).

End Tick.

Module Collision.
Definition perform (s : State) : option State := collisionDetection s.
End Collision.

Module Rotate.

(** The cells of [cells_] moved by a wall-kick candidate: the table's
    [x] is added to [x], the table's [y] is subtracted from [y]. *)
Definition kick (k : PieceStartLocation) (cells_ : list Cell) : list Cell :=
  map (fun cell =>
         with_y (y cell + - oy k * Block.HEIGHT)
           (with_x (x cell + ox k * Block.WIDTH) cell))
      cells_.

Definition checkAllCollision (s : State) (cells_ : list Cell) : bool :=
  hasBlocksAround cells_ s 0 DirX
  || hasBoundaryAround cells_ s 0 DirX
  || hasBoundaryAround cells_ s 0 DirY.

(** The rotated cells; [getRotationMap] and [centralRotationBlock] are read
    inside the callback. *)
Definition blockAfterRotation (cur : Tetro) (currentRotation : Z)
  (relativeToOriginXOffset relativeToOriginYOffset : Z) : option (list Cell) :=
  let getRotationMap := lookup (TetroStartPosMap (shape cur)) currentRotation in
  let centralRotationBlock := originBlock cur in
  mapiM (fun index cell =>
           let? rotationMap := getRotationMap in
           let? blockRotation := lookup rotationMap index in
           let? central := centralRotationBlock in
           let newPosX :=
             x central + (ox blockRotation + relativeToOriginXOffset) * Block.WIDTH in
           let newPosY :=
             y central + (oy blockRotation + relativeToOriginYOffset) * Block.HEIGHT in
           Some (createBlock newPosX newPosY (id cell) (color cell)))
        (cells cur).

Definition perform (s : State) : option State :=
  match currentBlock s with
  | None => Some s
  | Some cur =>
      let currentRotation :=
        Z.rem (rotation cur + 1) (len (TetroStartPosMap (shape cur))) in
      let? getPreviousRotationBlock :=
        lookup (TetroStartPosMap (shape cur)) (rotation cur) in
      let? previousPivot := lookup getPreviousRotationBlock 1 in
      let relativeToOriginXOffset := 0 - ox previousPivot in
      let relativeToOriginYOffset := 0 - oy previousPivot in
      let? rotated :=
        blockAfterRotation cur currentRotation
          relativeToOriginXOffset relativeToOriginYOffset in
      let rotatedBlockHasCollision := checkAllCollision s rotated in
      if negb rotatedBlockHasCollision
      then
        Some (with_currentBlock
                (Some (with_originBlock (lookup rotated 1)
                      (with_cells rotated
                      (with_rotation currentRotation cur))))
                s)
      else
        let? candidates :=
          lookup (PieceWallKickMap (shape cur)) currentRotation in
        let allWallKickPossibility :=
          filter (fun k => negb (checkAllCollision s (kick k rotated)))
                 candidates in
        if len allWallKickPossibility =? 0 then Some s
        else
          let? getFirstPossibleWallKick := lookup allWallKickPossibility 0 in
          let blockAfterWallKick := kick getFirstPossibleWallKick rotated in
          Some (with_currentBlock
                  (Some (with_originBlock (lookup blockAfterWallKick 1)
                        (with_cells blockAfterWallKick
                        (with_rotation currentRotation cur))))
                  s)
  end.

End Rotate.

Module Hold.

Definition perform (s : State) : option State :=
  match currentBlock s with
  | None => Some s
  | Some cur =>
      if collided cur || negb (canHoldAgain s) then Some s
      else
        let? currentBlock' :=
          match heldBlock s with
          | Some held =>
              Tick.createTetrominoes (Viewport.CANVAS_WIDTH / 2 - Block.WIDTH)
                Block.HEIGHT (blockStartCount held) (pieceSeed held) false s
          | None =>
              (* s.nextBlock!.blockStartCount *)
              let? next := nextBlock s in
              Tick.createTetrominoes (Viewport.CANVAS_WIDTH / 2 - Block.WIDTH)
                Block.HEIGHT (blockStartCount next) (pieceSeed next) false s
          end in
        let? nextBlock' :=
          match heldBlock s with
          | Some _ => Some (nextBlock s)
          | None =>
              let? t :=
                Tick.createTetrominoes (Viewport.PREVIEW_WIDTH / 2)
                  (Viewport.PREVIEW_HEIGHT / 2) (blockCount s + 4)
                  (RNG.hash (RNG.hash (seed s))) true s in
              Some (Some t)
          end in
        let? heldBlock' :=
          Tick.createTetrominoes (Viewport.PREVIEW_WIDTH / 2)
            (Viewport.PREVIEW_HEIGHT / 2) (blockStartCount cur) (pieceSeed cur)
            true s in
        Some (with_canHoldAgain false
             (with_seed (match heldBlock s with
                         | Some _ => seed s
                         | None => RNG.hash (seed s)
                         end)
             (with_blockCount (match heldBlock s with
                               | Some _ => blockCount s
                               | None => blockCount s + 4
                               end)
             (with_heldBlock (Some heldBlock')
             (with_nextBlock nextBlock'
             (with_currentBlock (Some currentBlock') s))))))
  end.

End Hold.

Module Drop.

(** [s.ghostBlock!.cells[index]] is read once per cell of the piece. *)
Definition perform (s : State) : option State :=
  match currentBlock s with
  | None => Some s
  | Some cur =>
      if collided cur then Some s
      else
        let? droppedCell :=
          mapiM (fun index cell =>
                   let? ghost := ghostBlock s in
                   let? g := lookup (cells ghost) index in
                   Some (with_y (y g) (with_x (x g) cell)))
                (cells cur) in
        Some (with_seed (RNG.hash (seed s))
             (with_blocks (blocks s ++ droppedCell)
             (with_canHoldAgain true
             (with_currentBlock
                (Some (with_collided true (with_cells droppedCell cur)))
                s))))
  end.

End Drop.

(** The actions, and the fold of the action stream over the state
    ([scan((state, action) => action.perform(state), initialState)]). *)
Inductive Action : Type :=
| Move (direction : Direction) (offset : Z)
| Tick (time : Z)
| Rotate
| Hold
| Drop
| Collision.

Definition perform (a : Action) (s : State) : option State :=
  match a with
  | Move direction offset => Move.perform direction offset s
  | Tick time => Tick.perform time s
  | Rotate => Rotate.perform s
  | Hold => Hold.perform s
  | Drop => Drop.perform s
  | Collision => Collision.perform s
  end.

(** The state after the whole sequence; [None] when some action throws. *)
Fixpoint run (s : State) (actions : list Action) : option State :=
  match actions with
  | [] => Some s
  | a :: rest => let? s' := perform a s in run s' rest
  end.

(** Every state the fold emits, in order. *)
Fixpoint scan (s : State) (actions : list Action) : option (list State) :=
  match actions with
  | [] => Some []
  | a :: rest =>
      let? s' := perform a s in
      let? states := scan s' rest in
      Some (s' :: states)
  end.

(** A state is reachable when some action sequence leads to it from an
    initial state. *)
Definition reachable (s : State) : Prop :=
  exists initialSeed actions, run (initialState initialSeed) actions = Some s.

(** ** Keyboard state (main.ts) *)

(** The fields of a [KeyboardEvent] that the key-state stream reads. *)
Record KeyboardEvent : Type := mkKeyboardEvent {
  code : string;
  type : string
}.

Record keyCodes : Type := mkKeyCodes {
  keyCode : string;
  isPressing : bool
}.

Definition moveKeys : list string :=
  ["ArrowLeft"; "ArrowRight"; "ArrowDown"]%string.

Definition otherKeys : list string := ["ArrowUp"; "KeyC"; "Space"]%string.

(** [keyToActionMap[k]] for a key code [k] that passed the filter of
    [keyState$]: [undefined] for the three keys that are no movement keys. *)
Definition keyToActionMap (k : string) : option Action :=
  if String.eqb k "ArrowLeft" then Some (Move DirX (- Block.WIDTH))
  else if String.eqb k "ArrowRight" then Some (Move DirX Block.WIDTH)
  else if String.eqb k "ArrowDown" then Some (Move DirY Block.HEIGHT)
  else None.

(** [a.includes(c)]. *)
Definition includes (a : list string) (c : string) : bool :=
  existsb (String.eqb c) a.

(** [a.findIndex(p)]: the first index that passes, or -1. *)
Fixpoint findIndex_from {A : Type} (p : A -> bool) (i : Z) (l : list A) : Z :=
  match l with
  | [] => -1
  | a :: l' => if p a then i else findIndex_from p (i + 1) l'
  end.

Definition findIndex {A : Type} (p : A -> bool) (l : list A) : Z :=
  findIndex_from p 0 l.

(** [a.slice(start, end)]: a negative index counts from the end, and both
    are clamped to the array. *)
Definition slice {A : Type} (l : list A) (start end_ : Z) : list A :=
  let clamp (i : Z) :=
    if i <? 0 then Z.max (len l + i) 0 else Z.min i (len l) in
  firstn (Z.to_nat (clamp end_ - clamp start)) (skipn (Z.to_nat (clamp start)) l).

(** The filter of [keyState$]: the keys the game knows. *)
Definition isGameKey (e : KeyboardEvent) : bool :=
  includes moveKeys (code e) || includes otherKeys (code e).

(** The [map] of [keyState$]. *)
Definition toKeyCodes (e : KeyboardEvent) : keyCodes :=
  {| keyCode := code e;
     isPressing := String.eqb (type e) "keydown" && includes moveKeys (code e) |}.

(** The accumulator of the [scan] of [keyState$]. *)
Definition updateKeyStates (keyStates : list keyCodes) (key : keyCodes)
  : list keyCodes :=
  let existingIndex :=
    findIndex (fun keyState => String.eqb (keyCode keyState) (keyCode key))
      keyStates in
  if negb (existingIndex =? -1)
  then slice keyStates 0 existingIndex
       ++ [key]
       ++ slice keyStates (existingIndex + 1) (len keyStates)
  else keyStates ++ [key].

(** The key states after the events [events], in the order they came. *)
Definition keyState (events : list KeyboardEvent) : list keyCodes :=
  fold_left updateKeyStates (map toKeyCodes (filter isGameKey events)) [].

(** The [map] of [movement$]: the actions of the keys that are pressed. *)
Definition movement (state : list keyCodes) : list (option Action) :=
  fold_left (fun (acc : list (option Action)) (k : keyCodes) =>
               if isPressing k then acc ++ [keyToActionMap (keyCode k)]
               else acc)
            state [].

(** ** Speed (constants.ts, main.ts) *)

(** [DifficultyMap], an object keyed by the levels 0 to 29: the frames a
    piece takes to fall by one cell. *)
Definition DifficultyMap : list Z :=
  [48; 43; 38; 33; 28; 23; 18; 13; 8; 6; 5; 5; 5; 4; 4; 4; 3; 3; 3; 2;
   2; 2; 2; 2; 2; 2; 2; 2; 2; 1].

(** [DifficultyMap[Math.min(29, level)]], which the game divides by 60 and
    multiplies by 1000 to get the interval of the falling tick in
    milliseconds; [undefined] when there is no such key. *)
Definition framesPerDrop (level : Z) : option Z :=
  lookup DifficultyMap (Z.min 29 level).

(** ** Vocabulary of the properties *)

(** The cell [c], moved by [offset] along [direction], stays on the board. *)
Definition insideBoard (direction : Direction) (offset : Z) (c : Cell) : Prop :=
  match direction with
  | DirX => 0 - Block.WIDTH < x c + offset < Viewport.CANVAS_WIDTH
  | DirY => y c + offset < Viewport.CANVAS_HEIGHT
  end.

(** The same with the left bound included, [-cellWidth <= x]. *)
Definition insideBoardClosedLeft (direction : Direction) (offset : Z) (c : Cell)
  : Prop :=
  match direction with
  | DirX => 0 - Block.WIDTH <= x c + offset < Viewport.CANVAS_WIDTH
  | DirY => y c + offset < Viewport.CANVAS_HEIGHT
  end.

(** The cell [c], moved by [offset] along [direction], lies on a committed
    block of [s]. *)
Definition occupied (s : State) (direction : Direction) (offset : Z) (c : Cell)
  : Prop :=
  exists b, In b (blocks s) /\
    match direction with
    | DirX => x c + offset = x b /\ y c = y b
    | DirY => x c = x b /\ y c + offset = y b
    end.

(** No two cells of [l] at the same [(x, y)]. *)
Definition distinctPositions (l : list Cell) : Prop :=
  NoDup (map (fun c => (x c, y c)) l).

(** Initial seeds as the program computes them, [RNG.hash] of a clock
    reading in milliseconds. *)
Definition seedO : Z := RNG.hash 1700000000000.
Definition seedT : Z := RNG.hash 1700000000001.
Definition seedI : Z := RNG.hash 1700000000022.

(** The cell moved by [offset] along [direction]. *)
Definition shiftCell (direction : Direction) (offset : Z) (c : Cell) : Cell :=
  match direction with
  | DirX => with_x (x c + offset) c
  | DirY => with_y (y c + offset) c
  end.

(** [{...s, currentBlock: {...cur, cells: cells', originBlock: cells'[1]}}]:
    the current block with new cells and the pivot read from them. *)
Definition withCells (cells' : list Cell) (cur : Tetro) (s : State) : State :=
  with_currentBlock
    (Some (with_originBlock (lookup cells' 1) (with_cells cells' cur))) s.

(** The state an action sequence leads to from the initial state (the
    initial state itself if an action throws on the way). *)
Definition stateAfter (initialSeed : Z) (actions : list Action) : State :=
  match run (initialState initialSeed) actions with
  | Some s => s
  | None => initialState initialSeed
  end.

(** A seed that [RNG.scale] maps to one of the seven shape indices. *)
Definition validSeed (sd : Z) : Prop := 0 <= RNG.scale sd < 7.

(** Hold has what it needs: a live current block, the permission to hold,
    and seeds from which the pieces it spawns can be drawn (the held piece
    if there is one, otherwise the preview and the preview to come). *)
Definition holdReady (s : State) (cur : Tetro) : Prop :=
  currentBlock s = Some cur /\ collided cur = false /\ canHoldAgain s = true /\
  validSeed (pieceSeed cur) /\
  match heldBlock s with
  | Some held => validSeed (pieceSeed held)
  | None =>
      exists next, nextBlock s = Some next /\ validSeed (pieceSeed next) /\
                   validSeed (RNG.hash (RNG.hash (seed s)))
  end.

(** The rotation index after a rotation. *)
Definition nextRotation (cur : Tetro) : Z :=
  (rotation cur + 1) mod len (TetroStartPosMap (shape cur)).

(** The cells of the block turned to its next rotation state about the
    pivot, before any collision test. *)
Definition naiveRotation (cur : Tetro) : option (list Cell) :=
  let? previous := lookup (TetroStartPosMap (shape cur)) (rotation cur) in
  let? previousPivot := lookup previous 1 in
  Rotate.blockAfterRotation cur (nextRotation cur)
    (0 - ox previousPivot) (0 - oy previousPivot).

(** The wall-kick candidates of the rotation transition, in table order. *)
Definition kicksFor (cur : Tetro) : option (list PieceStartLocation) :=
  lookup (PieceWallKickMap (shape cur)) (nextRotation cur).

(** [{...s, currentBlock: {...cur, rotation, cells, originBlock: cells[1]}}]. *)
Definition withRotation (rotation' : Z) (cells' : list Cell) (cur : Tetro)
  (s : State) : State :=
  with_currentBlock
    (Some (with_originBlock (lookup cells' 1)
          (with_cells cells' (with_rotation rotation' cur)))) s.

(** The cells pass the occupancy check and both boundary checks where they
    stand. *)
Definition passes (s : State) (cells_ : list Cell) : Prop :=
  forall c, In c cells_ ->
    ~ occupied s DirX 0 c /\ insideBoard DirX 0 c /\ insideBoard DirY 0 c.

(** A piece as the factory and the actions leave it: four cells, a rotation
    index of its shape, a pivot. *)
Definition wfTetro (t : Tetro) : Prop :=
  length (cells t) = 4%nat /\
  0 <= rotation t < len (TetroStartPosMap (shape t)) /\
  originBlock t <> None.

(** The number of committed blocks in the row [row]. *)
Definition rowCount (blocks_ : list Cell) (row : Z) : Z :=
  len (filter (fun b => y b =? row) blocks_).

(** The full rows a settled block completes: the distinct rows among its
    cells that hold [GRID_WIDTH] committed blocks. *)
Definition fullRows (state : State) (block : Tetro) : list Z :=
  nodup Z.eq_dec
    (filter (fun row => rowCount (blocks state) row =? Constants.GRID_WIDTH)
       (map y (cells block))).

(** A seed that starts a game with the pieces I, I, O, and the actions that
    lay them side by side on the floor: the row [y = 380] is full when the
    O piece has been dropped. *)
Definition seedIIO : Z := RNG.hash 1700000001104.

Definition fillBottomRow : list Action :=
  [Tick 0] ++ repeat (Move DirX (- Block.WIDTH)) 3
  ++ [Tick 1; Drop; Tick 2; Move DirX Block.WIDTH; Tick 3; Drop; Tick 4]
  ++ repeat (Move DirX Block.WIDTH) 4 ++ [Tick 5; Drop].

(** Two actions that are the same but for the clock reading a Tick carries. *)
Definition sameAction (a b : Action) : Prop :=
  match a, b with
  | Tick _, Tick _ => True
  | _, _ => a = b
  end.

(** The pieces in play along a run: shape and first cell id of the current
    block of every state. *)
Definition pieces (states : list State) : list (option (ShapeLetters * Z)) :=
  map (fun s => option_map (fun b => (shape b, blockStartCount b))
                  (currentBlock s))
      states.

(** A T piece turned upright, moved down to the floor and settled there by
    the collision check. *)
Definition settleUprightT : list Action :=
  [Tick 0; Rotate] ++ repeat (Move DirY Block.HEIGHT) 17 ++ [Collision].

(** The shape of the states the actions produce: before the first Tick
    there is neither current block nor preview; afterwards the current block
    is well formed, a ghost of four cells and a preview stand beside it, and
    every piece carries a seed a shape can be drawn from. *)
Definition wellFormed (s : State) : Prop :=
  (forall held, heldBlock s = Some held -> validSeed (pieceSeed held)) /\
  match currentBlock s with
  | None => nextBlock s = None
  | Some cur =>
      wfTetro cur /\ validSeed (pieceSeed cur) /\
      (exists ghost, ghostBlock s = Some ghost /\ length (cells ghost) = 4%nat) /\
      (exists next, nextBlock s = Some next /\ validSeed (pieceSeed next))
  end.

(** The committed block, if any, on which the cell [c] lies. *)
Definition overlaps (blocks_ : list Cell) (c : Cell) : Prop :=
  exists b, In b blocks_ /\ x c = x b /\ y c = y b.

(** A Tick has to spawn: there is no current block, or it has collided. *)
Definition needsBlock (s : State) : Prop :=
  match currentBlock s with
  | None => True
  | Some cur => collided cur = true
  end.

(** The state a game is restarted from: the initial state with the
    highscore carried over and the seed hashed once more
    ([{...initialState, highscore: s.highscore, seed: RNG.hash(s.seed)}]). *)
Definition restartState (initialSeed : Z) (s : State) : State :=
  with_seed (RNG.hash (seed s))
    (with_highscore (highscore s) (initialState initialSeed)).

(** The score of a game whose highscore was [carried] at its start: 100
    points a line, a level every ten lines, the highscore the larger of the
    carried one and the points. *)
Definition scoreKept (carried : Z) (s : State) : Prop :=
  0 <= lineClears s /\ points s = 100 * lineClears s /\
  level s = lineClears s / 10 /\
  highscore s = Z.max carried (points s).

(** The state an action sequence leads to from [s0] ([s0] itself if an
    action throws on the way). *)
Definition stateFrom (s0 : State) (actions : list Action) : State :=
  match run s0 actions with
  | Some s => s
  | None => s0
  end.

(** The place of a cell. *)
Definition position (c : Cell) : Z * Z := (x c, y c).

(** The block rests: one of its cells stands on the floor or right on top
    of a committed block. *)
Definition rests (s : State) (cur : Tetro) : Prop :=
  exists c, In c (cells cur) /\
    (y c = Viewport.CANVAS_HEIGHT - Block.HEIGHT \/
     exists b, In b (blocks s) /\ x c = x b /\ y c = y b - Block.HEIGHT).

(** The places a piece of offsets [offsets] spawned at column [x_] would
    take on the spawn row are free of committed blocks. *)
Definition spawnFree (state : State) (x_ : Z) (offsets : PieceLocation) : Prop :=
  forall o, In o offsets ->
    ~ exists b, In b (blocks state) /\
                x b = x_ + ox o * Block.WIDTH /\
                y b = Block.HEIGHT + oy o * Block.HEIGHT.

(** The places of the offsets [offsets] about the base [(bx, by)]. *)
Definition placesAt (bx by_ : Z) (offsets : PieceLocation) : list (Z * Z) :=
  map (fun o => (bx + ox o * Block.WIDTH, by_ + oy o * Block.HEIGHT)) offsets.

(** The preview runs one step ahead of the seed: while the current block
    is live the preview carries the hash of the seed, and once the block is
    settled (the seed has been hashed) it carries the seed itself. *)
Definition previewAhead (s : State) : Prop :=
  match currentBlock s, nextBlock s with
  | Some cur, Some next =>
      pieceSeed next = if collided cur then seed s else RNG.hash (seed s)
  | _, _ => True
  end.

(** The number of the rows [rows] that lie below the cell [b]. *)
Definition rowsBelow (rows : list Z) (b : Cell) : Z :=
  len (filter (fun r => y b <? r) rows).

(** The cell moved down by one cell height for every row of [rows] below
    it. *)
Definition settled (rows : list Z) (b : Cell) : Cell :=
  with_y (y b + rowsBelow rows b * Block.HEIGHT) b.

(** The cell lies in one of the rows. *)
Definition inRows (rows : list Z) (b : Cell) : bool :=
  existsb (fun r => y b =? r) rows.

(** No string occurs twice, as a test. *)
Fixpoint distinct (l : list string) : bool :=
  match l with
  | [] => true
  | a :: rest => negb (existsb (String.eqb a) rest) && distinct rest
  end.

(** A rigid piece: its pivot is its second cell, and its cells stand on the
    places its rotation state gives about some base. *)
Definition rigid (t : Tetro) : Prop :=
  originBlock t = lookup (cells t) 1 /\
  exists bx by_ offsets,
    lookup (TetroStartPosMap (shape t)) (rotation t) = Some offsets /\
    map position (cells t) = placesAt bx by_ offsets.

(** The last event of the key [c] among [events]. *)
Definition lastEventOf (c : string) (events : list KeyboardEvent)
  : option KeyboardEvent :=
  find (fun e => String.eqb (code e) c) (rev events).

(** A column of the board: one of the [x] values [0, WIDTH, 2 WIDTH, ...]
    that leave a whole cell inside the canvas. *)
Definition onColumn (v : Z) : Prop :=
  0 <= v <= Viewport.CANVAS_WIDTH - Block.WIDTH /\ v mod Block.WIDTH = 0.

(** Everything on the board stands in a column: the committed blocks, the
    cells and the pivot of the current block, the cells of the ghost. *)
Definition inColumns (s : State) : Prop :=
  (forall b, In b (blocks s) -> onColumn (x b)) /\
  (forall cur, currentBlock s = Some cur ->
     (forall c, In c (cells cur) -> onColumn (x c)) /\
     (forall p, originBlock cur = Some p -> onColumn (x p))) /\
  (forall ghost, ghostBlock s = Some ghost ->
     forall c, In c (cells ghost) -> onColumn (x c)).

(** An action of the grid: a Move sideways goes by whole cells. *)
Definition gridAction (a : Action) : Prop :=
  match a with
  | Move DirX offset => offset mod Block.WIDTH = 0
  | _ => True
  end.

(** The row on which the cell [c] would stand if it fell alone: one cell
    above the highest committed block below it in its column, or the floor
    row (the first constant of the ghost computation of Tick). *)
Definition landingRow (blocks_ : list Cell) (c : Cell) : Z :=
  fold_left (fun (acc : Z) (b : Cell) =>
               if (x c =? x b) && (y b <? acc) && (y c <? y b)
               then y b else acc)
            blocks_ 400
  - Block.HEIGHT.

(** A tight piece: of two cells, the second stands at most two rows lower
    than the first, or they stand in one column and the piece fills every
    row from the first down to the second. *)
Definition tight (cells_ : list Cell) : Prop :=
  forall c1 c2,
    In c1 cells_ -> In c2 cells_ ->
    y c2 - y c1 <= 2 * Block.HEIGHT \/
    (x c1 = x c2 /\
     forall v, y c1 < v <= y c2 -> v mod Block.HEIGHT = 0 ->
               exists c3, In c3 cells_ /\ x c3 = x c1 /\ y c3 = v).

(** The rows of the board: [y] a multiple of the cell height. *)
Definition onRow (v : Z) : Prop := v mod Block.HEIGHT = 0.

(** Everything on the board stands on a row: the committed blocks, the
    cells and the pivot of the current block, the cells of the ghost. *)
Definition onRows (s : State) : Prop :=
  (forall b, In b (blocks s) -> onRow (y b)) /\
  (forall cur, currentBlock s = Some cur ->
     (forall c, In c (cells cur) -> onRow (y c)) /\
     (forall p, originBlock cur = Some p -> onRow (y p))) /\
  (forall ghost, ghostBlock s = Some ghost ->
     forall c, In c (cells ghost) -> onRow (y c)).

(** An action of the rows: a Move down goes by whole cells. *)
Definition rowAction (a : Action) : Prop :=
  match a with
  | Move DirY offset => onRow offset
  | _ => True
  end.

(** There is room to turn the piece [t] about the base [(bx, by)]: the
    places of every rotation state of its shape lie inside the board and
    free of committed blocks. *)
Definition roomToTurn (s : State) (t : Tetro) (bx by_ : Z) : Prop :=
  forall offsets p,
    In offsets (TetroStartPosMap (shape t)) ->
    In p (placesAt bx by_ offsets) ->
    0 - Block.WIDTH < fst p < Viewport.CANVAS_WIDTH /\
    snd p < Viewport.CANVAS_HEIGHT /\
    ~ exists b, In b (blocks s) /\ x b = fst p /\ y b = snd p.

(** The unit in the last place of the double nearest to the integer [n]:
    integers below [2^53] in magnitude are doubles themselves, and from
    [2^k] up to [2^(k+1)], [k >= 53], the doubles are the multiples of
    [2^(k-52)]. *)
Definition ulp (n : Z) : Z :=
  if Z.abs n <? 2 ^ 53 then 1 else 2 ^ (Z.log2 (Z.abs n) - 52).

(** [r] is [n] rounded to double precision, to nearest and ties to even:
    a multiple of the unit in the last place, at most half a unit away,
    and the even multiple when [n] lies halfway between two.  (No overflow:
    [n] is taken far below [2^1024].) *)
Definition nearestDouble (n r : Z) : Prop :=
  (ulp n | r) /\
  2 * Z.abs (r - n) <= ulp n /\
  (2 * Z.abs (r - n) = ulp n -> Z.even (r / ulp n) = true).

(** The order of the action stream.  [main.ts] merges [tick$], which emits
    a Tick every 10 ms, with [collideTick$], which emits a Collision every
    1000 ms, and with the keys, which give Move, Rotate, Hold and Drop: a
    Tick comes before the first Collision. *)
Definition isTick (a : Action) : bool :=
  match a with
  | Tick _ => true
  | _ => false
  end.

Definition hasTick (actions : list Action) : bool := existsb isTick actions.

Fixpoint tickFirst (actions : list Action) : bool :=
  match actions with
  | [] => true
  | Tick _ :: _ => true
  | Collision :: _ => false
  | _ :: rest => tickFirst rest
  end.

(** The states [startGame] is called with: the initial state, whose seed is
    the hash of the clock reading, and, when a game is over, the restart
    state made of the last state of that game. *)
Inductive gameStart (clock : Z) : State -> Prop :=
| firstGame : gameStart clock (initialState (RNG.hash clock))
| nextGame (s0 s : State) (actions : list Action) :
    gameStart clock s0 -> run s0 actions = Some s -> gameEnd s = true ->
    gameStart clock (restartState (RNG.hash clock) s).

(** The seed is a value of [RNG.hash]. *)
Definition hashedSeed (s : State) : Prop :=
  exists z, 0 <= z /\ seed s = RNG.hash z.

(** A state of a game in play: well formed, with a hashed seed. *)
Definition inPlay (s : State) : Prop := wellFormed s /\ hashedSeed s.

(** Twelve pieces dropped where they spawn: the thirteenth spawns on the
    pile and the game is over.  [secondGame] is the game restarted from
    there. *)
Definition stackToTheTop : list Action :=
  concat (repeat [Tick 0; Drop] 12) ++ [Tick 0].

Definition secondGame : State :=
  restartState seedO (stateAfter seedO stackToTheTop).

(** ** Proof automation *)

(** Bounds between numerals, by evaluation of closed terms. *)
Ltac by_evaluation :=
  vm_compute;
  repeat match goal with
         | |- _ /\ _ => split
         | |- _ -> False => let H := fresh in intro H; discriminate H
         | |- _ = _ => reflexivity
         end.

(** Case analysis along a chain of [let?]: the cases that throw are closed,
    the values are named. *)
Ltac bind_cases :=
  repeat match goal with
         | |- context [bind ?m _] =>
             destruct m eqn:?; cbn [bind]; [|discriminate]
         end.

(** One step along a chain of [let?], with names for the value and the
    equation. *)
Ltac bind_case v H :=
  match goal with
  | |- context [bind ?m _] =>
      destruct m as [v|] eqn:H; cbn [bind]; [|discriminate]
  end.

(** ** Arrays: counting by [filter] *)

Lemma len_nonneg {A : Type} (l : list A) : 0 <= len l.
Proof. unfold len. lia. Qed.

Lemma len_cons {A : Type} (a : A) (l : list A) : len (a :: l) = len l + 1.
Proof. unfold len. cbn [length]. lia. Qed.

Lemma len_app {A : Type} (l1 l2 : list A) : len (l1 ++ l2) = len l1 + len l2.
Proof. unfold len. rewrite length_app. lia. Qed.

Lemma len_filter_le {A : Type} (p : A -> bool) (l : list A) :
  len (filter p l) <= len l.
Proof.
  induction l as [|a l IH]; cbn [filter]; [lia|].
  destruct (p a); rewrite ?len_cons; lia.
Qed.

(** [filter(p).length === length] says that every element passes. *)
Lemma len_filter_all {A : Type} (p : A -> bool) (l : list A) :
  (len (filter p l) =? len l) = forallb p l.
Proof.
  induction l as [|a l IH]; cbn [filter forallb]; [reflexivity|].
  pose proof (len_filter_le p l) as Hle.
  destruct (p a); cbn [andb]; rewrite ?len_cons.
  - rewrite <- IH. destruct (Z.eqb_spec (len (filter p l)) (len l)).
    + apply Z.eqb_eq. lia.
    + apply Z.eqb_neq. lia.
  - apply Z.eqb_neq. lia.
Qed.

(** [filter(p).length > 0] says that some element passes. *)
Lemma len_filter_pos {A : Type} (p : A -> bool) (l : list A) :
  (0 <? len (filter p l)) = existsb p l.
Proof.
  induction l as [|a l IH]; cbn [filter existsb]; [reflexivity|].
  destruct (p a); cbn [orb]; [|exact IH].
  rewrite len_cons. pose proof (len_nonneg (filter p l)).
  apply Z.ltb_lt. lia.
Qed.

(** [filter(p).length === 0] says that none does. *)
Lemma len_filter_zero {A : Type} (p : A -> bool) (l : list A) :
  (len (filter p l) =? 0) = negb (existsb p l).
Proof.
  rewrite <- len_filter_pos. pose proof (len_nonneg (filter p l)).
  destruct (Z.ltb_spec 0 (len (filter p l))); cbn [negb].
  - apply Z.eqb_neq. lia.
  - apply Z.eqb_eq. lia.
Qed.

Lemma negb_forallb {A : Type} (p : A -> bool) (l : list A) :
  negb (forallb p l) = existsb (fun a => negb (p a)) l.
Proof.
  induction l as [|a l IH]; cbn [forallb existsb negb]; [reflexivity|].
  rewrite negb_andb, IH. reflexivity.
Qed.

Lemma existsb_ext_in {A : Type} (p q : A -> bool) (l : list A) :
  (forall a, In a l -> p a = q a) -> existsb p l = existsb q l.
Proof.
  induction l as [|a l IH]; intros Hpq; cbn [existsb]; [reflexivity|].
  rewrite (Hpq a (or_introl eq_refl)), IH; [reflexivity|].
  intros b Hb. apply Hpq. right. exact Hb.
Qed.

(** ** Spatial predicates *)

Lemma hasBoundaryAround_existsb cells s offset direction :
  hasBoundaryAround cells s offset direction =
  existsb (fun c =>
             negb match direction with
                  | DirX => (0 - Block.WIDTH <? x c + offset)
                            && (x c + offset <? Viewport.CANVAS_WIDTH)
                  | DirY => y c + offset <? Viewport.CANVAS_HEIGHT
                  end) cells.
Proof.
  unfold hasBoundaryAround. rewrite len_filter_all, negb_forallb. reflexivity.
Qed.

Lemma hasBlocksAround_existsb cells s offset direction :
  hasBlocksAround cells s offset direction =
  existsb (fun c =>
             existsb (fun b =>
                        (match direction with DirX => x c + offset | DirY => x c end
                         =? x b)
                        && (match direction with DirY => y c + offset | DirX => y c end
                            =? y b))
                     (blocks s)) cells.
Proof.
  unfold hasBlocksAround. rewrite len_filter_all, negb_forallb.
  apply existsb_ext_in. intros c _. rewrite len_filter_zero, negb_involutive.
  reflexivity.
Qed.

Lemma hasBoundaryAround_iff cells s offset direction :
  hasBoundaryAround cells s offset direction = true <->
  exists c, In c cells /\ ~ insideBoard direction offset c.
Proof.
  rewrite hasBoundaryAround_existsb, existsb_exists.
  split; intros [c [Hin Hc]]; exists c; split; auto.
  - apply negb_true_iff in Hc. unfold insideBoard.
    destruct direction.
    + apply andb_false_iff in Hc. rewrite !Z.ltb_ge in Hc. lia.
    + apply Z.ltb_ge in Hc. lia.
  - apply negb_true_iff. unfold insideBoard in Hc.
    destruct direction.
    + apply andb_false_iff. rewrite !Z.ltb_ge. lia.
    + apply Z.ltb_ge. lia.
Qed.

Lemma hasBlocksAround_iff cells s offset direction :
  hasBlocksAround cells s offset direction = true <->
  exists c, In c cells /\ occupied s direction offset c.
Proof.
  rewrite hasBlocksAround_existsb, existsb_exists.
  split.
  - intros [c [Hin Hc]]. exists c. split; auto.
    apply existsb_exists in Hc. destruct Hc as [b [Hb Heq]].
    exists b. split; auto.
    apply andb_true_iff in Heq. rewrite !Z.eqb_eq in Heq.
    destruct direction; exact Heq.
  - intros [c [Hin [b [Hb Heq]]]]. exists c. split; auto.
    apply existsb_exists. exists b. split; auto.
    apply andb_true_iff. rewrite !Z.eqb_eq.
    destruct direction; exact Heq.
Qed.

(** C8, as amended.  [hasBoundaryAround] is true exactly when some cell,
    moved by the offset along the axis, leaves the allowed region: along x
    the allowed region is the open interval [(-cellWidth, canvasWidth)] for
    the moved x coordinate (the left bound [-cellWidth] itself is outside),
    along y only [y < canvasHeight] is required (no ceiling). *)
Theorem hasBoundaryAround_open_interval :
  forall (cells : list Cell) (s : State) (offset : Z) (direction : Direction),
    hasBoundaryAround cells s offset direction = true <->
    exists c, In c cells /\
      match direction with
      | DirX => ~ (- Block.WIDTH < x c + offset < Viewport.CANVAS_WIDTH)
      | DirY => ~ (y c + offset < Viewport.CANVAS_HEIGHT)
      end.
Proof.
  intros cells s offset direction. rewrite hasBoundaryAround_iff.
  split; intros [c [Hin Hc]]; exists c; split; auto;
    destruct direction; unfold insideBoard in *; cbn in *; lia.
Qed.

(** C8, as stated, fails: with the half-open interval
    [[-cellWidth, canvasWidth)] a cell at [x = 0] moved by [-cellWidth]
    would be allowed, and the predicate reports it out of bounds. *)
Lemma hasBoundaryAround_not_half_open :
  ~ (forall (cells : list Cell) (s : State) (offset : Z) (direction : Direction),
        hasBoundaryAround cells s offset direction = true <->
        exists c, In c cells /\ ~ insideBoardClosedLeft direction offset c).
Proof.
  intros H.
  destruct (H [createBlock 0 20 "block 0" "cyan"] (initialState seedI)
              (- Block.WIDTH) DirX) as [Hto _].
  destruct (Hto eq_refl) as [c [[<- | []] Hc]].
  apply Hc. cbv. split; [discriminate | reflexivity].
Qed.

(** ** Pseudo-random numbers *)

Lemma fl_exact (n : Z) : Z.abs n < 2 ^ 53 -> fl n = n.
Proof.
  intros H. unfold fl. cbv zeta.
  destruct (Z.ltb_spec (Z.abs n) (2 ^ 53)); [reflexivity | lia].
Qed.

Lemma fl_nonneg (n : Z) : 0 <= n -> 0 <= fl n.
Proof.
  intros H. unfold fl. cbv zeta.
  destruct (Z.ltb_spec (Z.abs n) (2 ^ 53)) as [_|Hbig]; [exact H|].
  rewrite Z.abs_eq in * by exact H.
  assert (Hu : 0 < 2 ^ (Z.log2 n - 52)).
  { apply Z.pow_pos_nonneg; [lia|].
    assert (53 <= Z.log2 n); [|lia].
    apply Z.log2_le_pow2; lia. }
  set (u := 2 ^ (Z.log2 n - 52)) in *.
  assert (Hq : 0 <= n / u) by (apply Z.div_pos; lia).
  apply Z.mul_nonneg_nonneg; [destruct n; cbn; lia|].
  apply Z.mul_nonneg_nonneg; [|lia].
  destruct (2 * (n mod u) <? u); [lia|].
  destruct (u <? 2 * (n mod u)); [lia|].
  destruct (Z.even (n / u)); lia.
Qed.

(** [fl] against the IEEE 754 specification of the Standard Library, on the
    products and sums that [RNG.hash] forms below. *)
Example fl_ieee_agree :
  map fl_ieee
      [RNG.a * 8162680; RNG.a * 8162680 + RNG.c;
       RNG.a * 230538014; fl (RNG.a * 230538014) + RNG.c;
       RNG.a * 1700000000000; fl (RNG.a * 1700000000000) + RNG.c;
       RNG.a * 2147483647; 2 ^ 53 + 1; 2 ^ 53 + 3; 2 ^ 54 + 6; 12345]
  = map (fun n => Some (fl n))
      [RNG.a * 8162680; RNG.a * 8162680 + RNG.c;
       RNG.a * 230538014; fl (RNG.a * 230538014) + RNG.c;
       RNG.a * 1700000000000; fl (RNG.a * 1700000000000) + RNG.c;
       RNG.a * 2147483647; 2 ^ 53 + 1; 2 ^ 53 + 3; 2 ^ 54 + 6; 12345].
Proof. vm_compute. reflexivity. Qed.

(** [RNG.hash] against its evaluation on IEEE 754 doubles: small seeds,
    seeds around the end of the exact range, clock readings, hashes. *)
Example hash_ieee_agree :
  map hash_ieee
      [0; 1; 12345; 8162278; 8162679; 8162680; 123456789; 230538014;
       2147483647; 1700000000000; 1700000000001; 1700000000022;
       1700000001104; 1515978752; 472121344]
  = map (fun seed => Some (RNG.hash seed))
      [0; 1; 12345; 8162278; 8162679; 8162680; 123456789; 230538014;
       2147483647; 1700000000000; 1700000000001; 1700000000022;
       1700000001104; 1515978752; 472121344].
Proof. vm_compute. reflexivity. Qed.

(** [RNG.scale] against its evaluation on IEEE 754 doubles, at both ends of
    the range and on both sides of every multiple of [(m - 1) / 7]. *)
Example scale_ieee_agree :
  map scale_ieee
      [0; 1; 306783377; 306783378; 306783379; 613566756; 613566757;
       920350134; 920350135; 1227133512; 1227133513; 1227133514;
       1533916890; 1533916891; 1533916892; 1840700268; 1840700269;
       1840700270; 2147483645; 2147483646; 2147483647;
       1515978752; 472121344; 23592960]
  = map (fun hash => Some (RNG.scale hash))
      [0; 1; 306783377; 306783378; 306783379; 613566756; 613566757;
       920350134; 920350135; 1227133512; 1227133513; 1227133514;
       1533916890; 1533916891; 1533916892; 1840700268; 1840700269;
       1840700270; 2147483645; 2147483646; 2147483647;
       1515978752; 472121344; 23592960].
Proof. vm_compute. reflexivity. Qed.

Lemma hash_exact (seed : Z) :
  0 <= seed -> RNG.a * seed + RNG.c < 2 ^ 53 ->
  RNG.hash seed = (RNG.a * seed + RNG.c) mod RNG.m.
Proof.
  intros Hs Hb. unfold RNG.hash.
  assert (Ha : 0 <= RNG.a * seed) by (unfold RNG.a; lia).
  assert (Hc : 0 < RNG.c) by reflexivity.
  rewrite (fl_exact (RNG.a * seed)) by (rewrite Z.abs_eq; lia).
  rewrite fl_exact by (rewrite Z.abs_eq; lia).
  apply Z.rem_mod_nonneg; [lia | reflexivity].
Qed.

Lemma hash_range (seed : Z) : 0 <= seed -> 0 <= RNG.hash seed < RNG.m.
Proof.
  intros Hs. unfold RNG.hash.
  assert (Ha : 0 <= fl (RNG.a * seed)).
  { apply fl_nonneg. unfold RNG.a. lia. }
  assert (Hc : 0 <= fl (fl (RNG.a * seed) + RNG.c)).
  { apply fl_nonneg. unfold RNG.c. lia. }
  split.
  - apply Z.rem_nonneg; [discriminate | exact Hc].
  - apply Z.rem_bound_pos; [exact Hc | reflexivity].
Qed.

Lemma scale_floor (v : Z) :
  RNG.scale v * (RNG.m - 1) <= 7 * v < (RNG.scale v + 1) * (RNG.m - 1).
Proof.
  unfold RNG.scale.
  assert (Hm : 0 < RNG.m - 1) by reflexivity.
  pose proof (Z.div_mod (7 * v) (RNG.m - 1) ltac:(lia)).
  pose proof (Z.mod_pos_bound (7 * v) (RNG.m - 1) Hm).
  lia.
Qed.

Lemma scale_range (v : Z) : 0 <= v < RNG.m - 1 -> 0 <= RNG.scale v < 7.
Proof.
  intros Hv. unfold RNG.scale.
  assert (Hm : 0 < RNG.m - 1) by reflexivity.
  split.
  - apply Z.div_pos; lia.
  - apply Z.div_lt_upper_bound; lia.
Qed.

(** *** Rounding *)

Lemma ulp_pos (n : Z) : 0 < ulp n.
Proof.
  unfold ulp. destruct (Z.ltb_spec (Z.abs n) (2 ^ 53)); [lia|].
  apply Z.pow_pos_nonneg; [lia|].
  assert (53 <= Z.log2 (Z.abs n)); [|lia].
  apply Z.log2_le_pow2; lia.
Qed.

(** From [2^53] on the unit in the last place is even. *)
Lemma ulp_even (n : Z) : 2 ^ 53 <= n -> exists k, 0 < k /\ ulp n = 2 * k.
Proof.
  intros H. unfold ulp. rewrite Z.abs_eq by lia.
  destruct (Z.ltb_spec n (2 ^ 53)); [lia|].
  assert (Hl : 53 <= Z.log2 n) by (apply Z.log2_le_pow2; lia).
  exists (2 ^ (Z.log2 n - 53)). split.
  - apply Z.pow_pos_nonneg; lia.
  - rewrite <- Z.pow_succ_r by lia. f_equal. lia.
Qed.

Lemma ulp_le (n : Z) : 2 ^ 53 <= n -> 2 ^ 52 * ulp n <= n.
Proof.
  intros H. unfold ulp. rewrite Z.abs_eq by lia.
  destruct (Z.ltb_spec n (2 ^ 53)); [lia|].
  assert (Hl : 53 <= Z.log2 n) by (apply Z.log2_le_pow2; lia).
  rewrite <- Z.pow_add_r by lia.
  replace (52 + (Z.log2 n - 52)) with (Z.log2 n) by lia.
  apply Z.log2_spec. lia.
Qed.

(** [fl n] is a multiple [q] of the unit in the last place, not below the
    one under [n], at most half a unit from [n], and even at half a unit. *)
Lemma fl_ulp (n : Z) :
  0 <= n ->
  exists q, fl n = q * ulp n /\ n / ulp n <= q /\
    2 * Z.abs (q * ulp n - n) <= ulp n /\
    (2 * Z.abs (q * ulp n - n) = ulp n -> Z.even q = true).
Proof.
  intros Hn. pose proof (ulp_pos n) as Hu.
  unfold fl, ulp in *. cbv zeta. rewrite Z.abs_eq in * by exact Hn.
  destruct (Z.ltb_spec n (2 ^ 53)) as [Hsmall|Hbig].
  - exists n. rewrite Z.div_1_r. repeat split; lia.
  - set (u := 2 ^ (Z.log2 n - 52)) in *.
    pose proof (Z.div_mod n u ltac:(lia)) as Hdiv.
    pose proof (Z.mod_pos_bound n u Hu) as Hmod.
    assert (Hsgn : Z.sgn n = 1) by (apply Z.sgn_pos; lia).
    rewrite Hsgn, Z.mul_1_l.
    destruct (Z.ltb_spec (2 * (n mod u)) u) as [Hlo|Hlo].
    { exists (n / u). repeat split; lia. }
    destruct (Z.ltb_spec u (2 * (n mod u))) as [Hhi|Hhi].
    { exists (n / u + 1). repeat split; lia. }
    destruct (Z.even (n / u)) eqn:Hev.
    { exists (n / u). repeat split; try lia. intros _. exact Hev. }
    exists (n / u + 1). repeat split; try lia. intros _.
    rewrite Z.even_add, Hev. reflexivity.
Qed.

(** [fl] rounds to nearest, ties to even. *)
Lemma fl_nearest (n : Z) : 0 <= n -> nearestDouble n (fl n).
Proof.
  intros Hn. destruct (fl_ulp n Hn) as [q [Hq [_ [Hd Ht]]]].
  pose proof (ulp_pos n) as Hu.
  unfold nearestDouble. rewrite Hq. split; [|split].
  - exists q. reflexivity.
  - exact Hd.
  - intros Htie. rewrite Z.div_mul by lia. exact (Ht Htie).
Qed.

(** Rounding to nearest, ties to even, has one result. *)
Lemma nearestDouble_unique (n r r' : Z) :
  nearestDouble n r -> nearestDouble n r' -> r = r'.
Proof.
  intros [[k Hk] [Hd Ht]] [[k' Hk'] [Hd' Ht']].
  pose proof (ulp_pos n) as Hu. subst r r'.
  rewrite Z.div_mul in Ht, Ht' by lia.
  set (u := ulp n) in *.
  assert (Hkk : k = k' \/ k' = k + 1 \/ k = k' + 1) by nia.
  destruct Hkk as [-> | [-> | ->]]; [reflexivity | |].
  - assert (H1 : 2 * Z.abs (k * u - n) = u) by nia.
    assert (H2 : 2 * Z.abs ((k + 1) * u - n) = u) by nia.
    specialize (Ht H1). specialize (Ht' H2).
    rewrite Z.even_add, Ht in Ht'. discriminate.
  - assert (H1 : 2 * Z.abs (k' * u - n) = u) by nia.
    assert (H2 : 2 * Z.abs ((k' + 1) * u - n) = u) by nia.
    specialize (Ht H2). specialize (Ht' H1).
    rewrite Z.even_add, Ht' in Ht. discriminate.
Qed.

(** A number of [2^53] or more is rounded to an even number, [2^53] or
    more. *)
Lemma fl_large (n : Z) : 2 ^ 53 <= n -> 2 ^ 53 <= fl n /\ Z.even (fl n) = true.
Proof.
  intros Hn. destruct (fl_ulp n ltac:(lia)) as [q [Hq [Hle _]]].
  destruct (ulp_even n Hn) as [k [Hk Hu]].
  pose proof (ulp_le n Hn) as Hlow.
  assert (Hq52 : 2 ^ 52 <= q).
  { etransitivity; [|exact Hle]. apply Z.div_le_lower_bound; lia. }
  rewrite Hq, Hu. split.
  - nia.
  - rewrite Z.even_mul, (Z.even_mul 2 k). cbn. apply orb_true_r.
Qed.

(** [hash] as two roundings and a remainder. *)
Lemma hash_rounded (seed : Z) :
  0 <= seed ->
  nearestDouble (RNG.a * seed) (fl (RNG.a * seed)) /\
  nearestDouble (fl (RNG.a * seed) + RNG.c) (fl (fl (RNG.a * seed) + RNG.c)) /\
  RNG.hash seed = fl (fl (RNG.a * seed) + RNG.c) mod RNG.m.
Proof.
  intros Hs.
  assert (Ha : 0 <= RNG.a * seed) by (unfold RNG.a; lia).
  pose proof (fl_nonneg _ Ha) as Hp.
  assert (Hsum : 0 <= fl (RNG.a * seed) + RNG.c) by (unfold RNG.c; lia).
  split; [exact (fl_nearest _ Ha)|]. split; [exact (fl_nearest _ Hsum)|].
  unfold RNG.hash. apply Z.rem_mod_nonneg; [|reflexivity].
  exact (fl_nonneg _ Hsum).
Qed.

(** *** The value [2^31 - 1] is never returned *)

(** The exact congruential step gives [2^31 - 1] at the seeds congruent to
    230538014 modulo [2^31] ([1857678181] is the inverse of [a]): at none
    below. *)
Lemma congruential_not_last (seed : Z) :
  0 <= seed < 230538014 ->
  (RNG.a * seed + RNG.c) mod RNG.m <> RNG.m - 1.
Proof.
  intros Hs Heq.
  pose proof (Z.div_mod (RNG.a * seed + RNG.c) RNG.m ltac:(discriminate))
    as Hdiv.
  rewrite Heq in Hdiv.
  set (q := (RNG.a * seed + RNG.c) / RNG.m) in *.
  unfold RNG.a, RNG.c, RNG.m in *.
  assert (Ht : seed
               = 2147483648 * (1857678181 * q + 1857678181 - 954594553 * seed)
                 - 1857678181 * 12346) by lia.
  lia.
Qed.

(** Where nothing is rounded the seed is below 230538014; where the sum is
    rounded it is rounded to an even number, and so is its remainder. *)
Lemma hash_not_last (seed : Z) : 0 <= seed -> RNG.hash seed <> RNG.m - 1.
Proof.
  intros Hs.
  destruct (Z.lt_ge_cases (RNG.a * seed + RNG.c) (2 ^ 53)) as [Hexact|Hround].
  - rewrite (hash_exact seed Hs Hexact).
    apply congruential_not_last. unfold RNG.a, RNG.c in Hexact. lia.
  - unfold RNG.hash.
    assert (Hsum : 2 ^ 53 <= fl (RNG.a * seed) + RNG.c).
    { destruct (Z.lt_ge_cases (RNG.a * seed) (2 ^ 53)) as [Hp|Hp].
      - rewrite fl_exact; [exact Hround|].
        rewrite Z.abs_eq; [exact Hp | unfold RNG.a; lia].
      - destruct (fl_large _ Hp) as [Hbig _]. unfold RNG.c. lia. }
    destruct (fl_large _ Hsum) as [Hbig Heven].
    set (v := fl (fl (RNG.a * seed) + RNG.c)) in *.
    rewrite Z.rem_mod_nonneg by (try reflexivity; lia).
    apply Z.even_spec in Heven. destruct Heven as [k Hk].
    intros Heq.
    pose proof (Z.div_mod v RNG.m ltac:(discriminate)) as Hdiv.
    rewrite Heq in Hdiv. unfold RNG.m in Hdiv. lia.
Qed.

(** A shape can be drawn from every hash. *)
Lemma hash_scale_range (seed : Z) :
  0 <= seed -> 0 <= RNG.scale (RNG.hash seed) < 7.
Proof.
  intros Hs. apply scale_range.
  pose proof (hash_range seed Hs). pose proof (hash_not_last seed Hs). lia.
Qed.

(** C4, as amended.  [hash] is the linear-congruential step evaluated in
    double precision.  For a seed in [0, 2^53) it is [s mod 2^31], where
    [p] is [1103515245 * seed] rounded to a double and [s] is [p + 12345]
    rounded to a double (to nearest, ties to even, which has one result);
    so for a seed [>= 0] with [1103515245 * seed + 12345 < 2^53], where
    nothing is rounded, it is [(1103515245 * seed + 12345) mod 2^31].  For
    every seed in [0, 2^53) the hash lies in [0, 2^31 - 1): the value
    [2^31 - 1] is never returned.  [scale v] is
    [floor (v / (2^31 - 1) * 7)] and lies in [0, 7) for every [v] in
    [0, 2^31 - 1), so [scale] of every hash is one of the seven shape
    indices. *)
Theorem hash_scale_contract :
  (forall seed, 0 <= seed -> 1103515245 * seed + 12345 < 2 ^ 53 ->
     RNG.hash seed = (1103515245 * seed + 12345) mod 2 ^ 31) /\
  (forall seed, 0 <= seed < 2 ^ 53 ->
     exists p s,
       nearestDouble (1103515245 * seed) p /\ nearestDouble (p + 12345) s /\
       RNG.hash seed = s mod 2 ^ 31) /\
  (forall n r r', nearestDouble n r -> nearestDouble n r' -> r = r') /\
  (forall seed, 0 <= seed < 2 ^ 53 -> 0 <= RNG.hash seed < 2 ^ 31 - 1) /\
  (forall v, 0 <= v < 2 ^ 31 - 1 ->
     RNG.scale v * (2 ^ 31 - 1) <= 7 * v < (RNG.scale v + 1) * (2 ^ 31 - 1) /\
     0 <= RNG.scale v < 7) /\
  (forall seed, 0 <= seed < 2 ^ 53 ->
     RNG.scale (RNG.hash seed) * (2 ^ 31 - 1) <= 7 * RNG.hash seed
       < (RNG.scale (RNG.hash seed) + 1) * (2 ^ 31 - 1) /\
     0 <= RNG.scale (RNG.hash seed) < 7).
Proof.
  split; [|split; [|split; [|split; [|split]]]].
  - intros seed Hs Hb. exact (hash_exact seed Hs Hb).
  - intros seed [Hs _]. destruct (hash_rounded seed Hs) as [Hp [Hsum Hh]].
    exists (fl (RNG.a * seed)), (fl (fl (RNG.a * seed) + RNG.c)).
    split; [exact Hp|]. split; [exact Hsum | exact Hh].
  - exact nearestDouble_unique.
  - intros seed [Hs _]. pose proof (hash_range seed Hs) as Hr.
    pose proof (hash_not_last seed Hs) as Hn.
    change RNG.m with (2 ^ 31) in Hr, Hn. lia.
  - intros v Hv. split; [exact (scale_floor v) | exact (scale_range v Hv)].
  - intros seed [Hs _].
    split; [exact (scale_floor _) | exact (hash_scale_range seed Hs)].
Qed.

(** The last seed of the exact range; the first seed past it whose hash
    differs from the exact step, found through the two roundings (the sum
    lies halfway between two doubles and goes to the even one); a clock
    reading; the last value [scale] takes to a shape index. *)
Lemma hash_scale_contract_witness :
  RNG.hash 8162278 = (1103515245 * 8162278 + 12345) mod 2 ^ 31 /\
  RNG.hash 8162680 = 9007641820068944 mod 2 ^ 31 /\
  0 <= RNG.hash 1700000000000 < 2 ^ 31 - 1 /\
  0 <= RNG.scale 2147483646 < 7 /\
  0 <= RNG.scale (RNG.hash 1700000000000) < 7.
Proof.
  destruct hash_scale_contract
    as [Hhash [Hrounded [Hone [Hrange [Hscale Hshape]]]]].
  split; [|split; [|split; [|split]]].
  - apply Hhash; [lia | reflexivity].
  - destruct (Hrounded 8162680 ltac:(lia)) as [p [s [Hp [Hs ->]]]].
    assert (Hp0 : nearestDouble (1103515245 * 8162680) 9007641820056600).
    { split; [exists 4503820910028300; reflexivity|].
      split; [vm_compute; discriminate | intros H; vm_compute in H; discriminate H]. }
    rewrite (Hone _ _ _ Hp Hp0) in Hs.
    assert (Hs0 : nearestDouble (9007641820056600 + 12345) 9007641820068944).
    { split; [exists 4503820910034472; reflexivity|].
      split; [vm_compute; discriminate | intros _; reflexivity]. }
    rewrite (Hone _ _ _ Hs Hs0). reflexivity.
  - apply Hrange. lia.
  - apply Hscale. lia.
  - apply Hshape. lia.
Defined.

(** C4, as stated, fails: past [2^53] the product and the sum are rounded,
    so [hash 8162680] is 183696464, where the exact congruential step gives
    183696465. *)
Lemma hash_scale_counterexample :
  0 <= 8162680 /\
  RNG.hash 8162680 = 183696464 /\
  (1103515245 * 8162680 + 12345) mod 2 ^ 31 = 183696465 /\
  RNG.hash 8162680 <> (1103515245 * 8162680 + 12345) mod 2 ^ 31.
Proof.
  split; [lia|]. split; [vm_compute; reflexivity|].
  split; [vm_compute; reflexivity|]. vm_compute. discriminate.
Qed.

(** ** Move *)

Lemma boundary_cells direction offset s cur :
  currentBlock s = Some cur ->
  match direction with
  | DirX => boundaryX (cells cur) s offset
  | DirY => boundaryY (cells cur) s offset
  end
  = if collided cur
       || hasBlocksAround (cells cur) s offset direction
       || hasBoundaryAround (cells cur) s offset direction
    then cells cur
    else map (shiftCell direction offset) (cells cur).
Proof.
  intros Hcur. unfold boundaryX, boundaryY. rewrite Hcur.
  destruct direction; destruct (collided cur); reflexivity.
Qed.

Lemma Move_perform_current direction offset s cur :
  currentBlock s = Some cur ->
  Move.perform direction offset s =
  Some (withCells
          (if collided cur
              || hasBlocksAround (cells cur) s offset direction
              || hasBoundaryAround (cells cur) s offset direction
           then cells cur
           else map (shiftCell direction offset) (cells cur))
          cur s).
Proof.
  intros Hcur. unfold Move.perform. rewrite Hcur.
  rewrite <- (boundary_cells direction offset s cur Hcur).
  destruct direction; reflexivity.
Qed.

(** Putting back the cells a block already has changes the pivot only. *)
Lemma withCells_same s cur :
  currentBlock s = Some cur ->
  (withCells (cells cur) cur s = s <-> originBlock cur = lookup (cells cur) 1).
Proof.
  intros Hcur. destruct s, cur. cbn in *. subst.
  unfold withCells, with_currentBlock, with_originBlock, with_cells. cbn.
  split.
  - intros H. injection H as H. symmetry. exact H.
  - intros ->. reflexivity.
Qed.

(** C6, as amended.  Move is all-or-nothing.  With no current block it
    returns the state unchanged.  With a current block [cur] it returns the
    state with new cells [cells'] for it and the pivot read again from them
    ([cells'[1]]), where: for a live block, if some cell moved by the
    offset would lie on a committed block or off the board, [cells'] are
    the old cells (so for [Move("x", -cellWidth)] with a cell at the left
    edge, [x <= 0]); for a live block that is free to move, every cell is
    moved by the offset; for a collided block [cells'] are the old cells,
    and the state as a whole is unchanged exactly when the pivot already
    was [cells[1]]. *)
Theorem Move_all_or_nothing :
  forall (direction : Direction) (offset : Z) (s : State),
    (currentBlock s = None -> Move.perform direction offset s = Some s) /\
    (forall cur, currentBlock s = Some cur ->
       exists cells',
         Move.perform direction offset s = Some (withCells cells' cur s) /\
         (collided cur = false ->
          (exists c, In c (cells cur) /\
             (occupied s direction offset c \/ ~ insideBoard direction offset c)) ->
          cells' = cells cur) /\
         (collided cur = false ->
          direction = DirX -> offset = - Block.WIDTH ->
          (exists c, In c (cells cur) /\ x c <= 0) ->
          cells' = cells cur) /\
         (collided cur = false ->
          (forall c, In c (cells cur) ->
             ~ occupied s direction offset c /\ insideBoard direction offset c) ->
          cells' = map (shiftCell direction offset) (cells cur)) /\
         (collided cur = true ->
          cells' = cells cur /\
          (Move.perform direction offset s = Some s <->
           originBlock cur = lookup (cells cur) 1))).
Proof.
  intros direction offset s. split.
  - intros Hnone. unfold Move.perform. rewrite Hnone. reflexivity.
  - intros cur Hcur. eexists. split; [apply Move_perform_current; exact Hcur|].
    assert (Hrej : collided cur = false ->
              (exists c, In c (cells cur) /\
                 (occupied s direction offset c
                  \/ ~ insideBoard direction offset c)) ->
              (if collided cur
                  || hasBlocksAround (cells cur) s offset direction
                  || hasBoundaryAround (cells cur) s offset direction
               then cells cur
               else map (shiftCell direction offset) (cells cur)) = cells cur).
    { intros Hlive [c [Hin [Hocc | Hout]]]; rewrite Hlive; cbn [orb].
      - assert (Hb : hasBlocksAround (cells cur) s offset direction = true)
          by (apply hasBlocksAround_iff; exists c; auto).
        rewrite Hb. reflexivity.
      - assert (Hb : hasBoundaryAround (cells cur) s offset direction = true)
          by (apply hasBoundaryAround_iff; exists c; auto).
        rewrite Hb, orb_true_r. reflexivity. }
    split; [exact Hrej|]. split; [|split].
    + intros Hlive -> -> [c [Hin Hx]]. apply Hrej; [exact Hlive|].
      exists c. split; [exact Hin|]. right. unfold insideBoard.
      change Block.WIDTH with 20. lia.
    + intros Hlive Hfree. rewrite Hlive. cbn [orb].
      destruct (hasBlocksAround (cells cur) s offset direction) eqn:Hb.
      { apply hasBlocksAround_iff in Hb. destruct Hb as [c [Hin Hocc]].
        destruct (Hfree c Hin) as [Hn _]. contradiction. }
      destruct (hasBoundaryAround (cells cur) s offset direction) eqn:Hd.
      { apply hasBoundaryAround_iff in Hd. destruct Hd as [c [Hin Hout]].
        destruct (Hfree c Hin) as [_ Hi]. contradiction. }
      reflexivity.
    + intros Hcol. rewrite Hcol. cbn [orb]. split; [reflexivity|].
      rewrite (Move_perform_current direction offset s cur Hcur), Hcol.
      cbn [orb]. rewrite <- (withCells_same s cur Hcur).
      split; [intros H; injection H as H; exact H | intros ->; reflexivity].
Qed.

(** An I piece moved three times to the left stands against the left wall;
    one more move to the left is rejected. *)
Lemma Move_all_or_nothing_witness :
  let s := stateAfter seedI
             [Tick 0; Move DirX (- Block.WIDTH); Move DirX (- Block.WIDTH);
              Move DirX (- Block.WIDTH)] in
  exists cur,
    currentBlock s = Some cur /\
    map x (cells cur) = [0; 20; 40; 60] /\
    Move.perform DirX (- Block.WIDTH) s = Some (withCells (cells cur) cur s).
Proof.
  intros s.
  destruct (Move_all_or_nothing DirX (- Block.WIDTH) s) as [_ Hmove].
  destruct (currentBlock s) as [cur|] eqn:Hcur;
    [| vm_compute in Hcur; discriminate Hcur].
  exists cur. destruct (Hmove cur eq_refl) as [cells' [Hperform [_ [Hleft _]]]].
  assert (Hval : Some cur = currentBlock s) by (symmetry; exact Hcur).
  vm_compute in Hval. injection Hval as Hval.
  assert (Hcells : cells' = cells cur).
  { apply Hleft; try reflexivity.
    - rewrite Hval. reflexivity.
    - rewrite Hval. eexists. split; [left; reflexivity|]. cbn. lia. }
  split; [reflexivity|]. split.
  - rewrite Hval. reflexivity.
  - rewrite Hperform, Hcells. reflexivity.
Defined.

(** C6, as stated, fails in its last sentence: after [Tick] and [Drop] the
    current block has collided, its cells are at the ghost's place and its
    pivot still is the cell of the spawn position; a Move then leaves the
    cells where they are but sets the pivot to [cells[1]], so the state it
    returns is not the state it was given. *)
Lemma Move_collided_not_noop :
  exists s cur,
    run (initialState seedO) [Tick 0; Drop] = Some s /\
    currentBlock s = Some cur /\ collided cur = true /\
    Move.perform DirX Block.WIDTH s <> Some s.
Proof.
  exists (stateAfter seedO [Tick 0; Drop]).
  destruct (currentBlock (stateAfter seedO [Tick 0; Drop])) as [cur|] eqn:Hcur;
    [| vm_compute in Hcur; discriminate Hcur].
  exists cur. split; [vm_compute; reflexivity|]. split; [reflexivity|].
  assert (Hval : Some cur = currentBlock (stateAfter seedO [Tick 0; Drop]))
    by (symmetry; exact Hcur).
  vm_compute in Hval. injection Hval as Hval.
  split; [rewrite Hval; reflexivity|].
  intros Heq.
  apply (f_equal (fun o : option State =>
                    match o with
                    | Some s' =>
                        match currentBlock s' with
                        | Some b => option_map y (originBlock b)
                        | None => None
                        end
                    | None => None
                    end)) in Heq.
  vm_compute in Heq. discriminate Heq.
Qed.


(** ** The piece factory *)

Lemma lookup_TetroShapes (n : Z) :
  0 <= n < 7 -> exists sh, lookup TetroShapes n = Some sh.
Proof.
  intros Hn.
  assert (Hcases : n = 0 \/ n = 1 \/ n = 2 \/ n = 3 \/ n = 4 \/ n = 5 \/ n = 6)
    by lia.
  destruct Hcases as [-> | [-> | [-> | [-> | [-> | [-> | ->]]]]]];
    eexists; reflexivity.
Qed.

Lemma createTetrominoes_some x_ y_ bc sd isPreview state :
  validSeed sd ->
  exists t, Tick.createTetrominoes x_ y_ bc sd isPreview state = Some t /\
            pieceSeed t = sd /\ blockStartCount t = bc /\
            collided t = false /\ rotation t = 0.
Proof.
  intros Hsd. destruct (lookup_TetroShapes _ Hsd) as [sh Hsh].
  unfold Tick.createTetrominoes. rewrite Hsh. cbn [bind].
  destruct sh; cbn [TetroStartPosMap lookup Z.ltb Z.compare Z.to_nat nth_error bind];
    eexists; (split; [reflexivity|]); repeat split.
Qed.

Lemma createTetrominoes_inv x_ y_ bc sd isPreview state t :
  Tick.createTetrominoes x_ y_ bc sd isPreview state = Some t ->
  validSeed sd /\ pieceSeed t = sd /\ blockStartCount t = bc /\
  collided t = false /\ rotation t = 0 /\
  lookup TetroShapes (RNG.scale sd) = Some (shape t).
Proof.
  unfold Tick.createTetrominoes, validSeed.
  destruct (lookup TetroShapes (RNG.scale sd)) as [sh|] eqn:Hsh;
    cbn [bind]; [|discriminate].
  assert (Hrange : 0 <= RNG.scale sd < 7).
  { unfold lookup in Hsh.
    destruct (Z.ltb_spec (RNG.scale sd) 0); [discriminate|].
    assert (Hlt : (Z.to_nat (RNG.scale sd) < length TetroShapes)%nat).
    { apply nth_error_Some. rewrite Hsh. discriminate. }
    cbn [TetroShapes length] in Hlt. lia. }
  destruct (lookup (TetroStartPosMap sh) 0) as [shapeMap|]; cbn [bind];
    [|discriminate].
  intros H. injection H as <-. cbn. repeat split; lia.
Qed.

(** ** Hold *)

Lemma Hold_refused (s : State) :
  canHoldAgain s = false -> Hold.perform s = Some s.
Proof.
  intros Hcan. unfold Hold.perform.
  destruct (currentBlock s) as [cur|]; [|reflexivity].
  rewrite Hcan, orb_true_r. reflexivity.
Qed.

Lemma Hold_performs (s : State) (cur : Tetro) :
  holdReady s cur ->
  exists s1 cur1 held1,
    Hold.perform s = Some s1 /\
    canHoldAgain s1 = false /\
    currentBlock s1 = Some cur1 /\ collided cur1 = false /\
    heldBlock s1 = Some held1 /\
    pieceSeed held1 = pieceSeed cur /\
    blockStartCount held1 = blockStartCount cur /\
    match heldBlock s with
    | Some held =>
        pieceSeed cur1 = pieceSeed held /\
        blockStartCount cur1 = blockStartCount held /\
        nextBlock s1 = nextBlock s /\ seed s1 = seed s /\
        blockCount s1 = blockCount s
    | None =>
        option_map pieceSeed (Some cur1) = option_map pieceSeed (nextBlock s) /\
        option_map pieceSeed (nextBlock s1) = Some (RNG.hash (RNG.hash (seed s))) /\
        seed s1 = RNG.hash (seed s) /\ blockCount s1 = blockCount s + 4
    end.
Proof.
  intros [Hcur [Hlive [Hcan [Hseed Hspawn]]]].
  unfold Hold.perform. rewrite Hcur, Hlive, Hcan. cbn [orb negb].
  destruct (createTetrominoes_some (Viewport.PREVIEW_WIDTH / 2)
              (Viewport.PREVIEW_HEIGHT / 2) (blockStartCount cur)
              (pieceSeed cur) true s Hseed)
    as [held1 [Eheld [Hhs [Hhc _]]]].
  destruct (heldBlock s) as [held|].
  - destruct (createTetrominoes_some (Viewport.CANVAS_WIDTH / 2 - Block.WIDTH)
                Block.HEIGHT (blockStartCount held) (pieceSeed held) false s
                Hspawn)
      as [cur1 [Ecur [Hcs [Hcc [Hcl _]]]]].
    rewrite Ecur. cbn [bind]. rewrite Eheld. cbn [bind].
    eexists. exists cur1, held1. split; [reflexivity|].
    cbn. repeat split; assumption.
  - destruct Hspawn as [next [Hnext [Hns Hnn]]]. rewrite Hnext. cbn [bind].
    destruct (createTetrominoes_some (Viewport.CANVAS_WIDTH / 2 - Block.WIDTH)
                Block.HEIGHT (blockStartCount next) (pieceSeed next) false s
                Hns)
      as [cur1 [Ecur [Hcs [Hcc [Hcl _]]]]].
    destruct (createTetrominoes_some (Viewport.PREVIEW_WIDTH / 2)
                (Viewport.PREVIEW_HEIGHT / 2) (blockCount s + 4)
                (RNG.hash (RNG.hash (seed s))) true s Hnn)
      as [next1 [Enext [Hn1 _]]].
    rewrite Ecur. cbn [bind]. rewrite Enext. cbn [bind].
    rewrite Eheld. cbn [bind].
    eexists. exists cur1, held1. split; [reflexivity|].
    cbn. rewrite Hcs, Hn1. repeat split; assumption.
Qed.

(** ** Drop *)

(** A map whose callback reads [g[index]] goes through when [g] is long
    enough. *)
Lemma mapiM_from_lookup {A B C : Type} (g : list C) (f : A -> C -> B)
  (l : list A) (i : Z) :
  0 <= i -> (Z.to_nat i + length l <= length g)%nat ->
  exists bs,
    mapiM_from (fun index a => let? c := lookup g index in Some (f a c)) i l
    = Some bs /\ length bs = length l.
Proof.
  revert i. induction l as [|a l IH]; intros i Hi Hlen; cbn [mapiM_from].
  - exists []. split; reflexivity.
  - cbn [length] in Hlen.
    destruct (nth_error g (Z.to_nat i)) as [c|] eqn:Hc.
    2:{ apply nth_error_None in Hc. lia. }
    unfold lookup at 1. destruct (Z.ltb_spec i 0); [lia|].
    rewrite Hc. cbn [bind].
    destruct (IH (i + 1)) as [bs [Hbs Hl]]; [lia | lia |].
    rewrite Hbs. cbn [bind]. exists (f a c :: bs).
    split; [reflexivity | cbn [length]; congruence].
Qed.

(** Drop of a live block returns a state as soon as the ghost has a cell
    for every cell of the block; the block is then marked collided and
    holding is allowed again. *)
Lemma Drop_performs (s : State) (cur ghost : Tetro) :
  currentBlock s = Some cur -> collided cur = false ->
  ghostBlock s = Some ghost ->
  (length (cells cur) <= length (cells ghost))%nat ->
  exists s' cur',
    Drop.perform s = Some s' /\ canHoldAgain s' = true /\
    currentBlock s' = Some cur' /\ collided cur' = true /\
    seed s' = RNG.hash (seed s).
Proof.
  intros Hcur Hlive Hghost Hlen. unfold Drop.perform.
  rewrite Hcur, Hlive, Hghost. cbn [bind]. unfold mapiM.
  destruct (mapiM_from_lookup (cells ghost)
              (fun cell g => with_y (y g) (with_x (x g) cell))
              (cells cur) 0) as [dropped [Hd _]]; [lia | cbn; lia |].
  rewrite Hd. cbn [bind]. eexists. eexists.
  split; [reflexivity|]. repeat split.
Qed.

(** C9.  [canHoldAgain] is true in the initial state; a Collision that
    settles the block and a Drop of a live block set it to true; a Hold
    that goes through sets it to false, the current block becoming the held
    one and the held one (or, with nothing held, the preview) the current
    one; a Hold asked for while it is false returns the state unchanged.
    So of two Holds in a row the first swaps and the second does nothing,
    [canHoldAgain] staying false. *)
Theorem hold_gating :
  (forall initialSeed, canHoldAgain (initialState initialSeed) = true) /\
  (forall s cur,
     currentBlock s = Some cur ->
     exists s' cur',
       Collision.perform s = Some s' /\ currentBlock s' = Some cur' /\
       (collided cur' = true -> canHoldAgain s' = true)) /\
  (forall s cur ghost,
     currentBlock s = Some cur -> collided cur = false ->
     ghostBlock s = Some ghost ->
     (length (cells cur) <= length (cells ghost))%nat ->
     exists s' cur',
       Drop.perform s = Some s' /\ currentBlock s' = Some cur' /\
       collided cur' = true /\ canHoldAgain s' = true) /\
  (forall s, canHoldAgain s = false -> Hold.perform s = Some s) /\
  (forall s cur,
     holdReady s cur ->
     exists s1 cur1 held1,
       Hold.perform s = Some s1 /\
       canHoldAgain s1 = false /\
       currentBlock s1 = Some cur1 /\ collided cur1 = false /\
       heldBlock s1 = Some held1 /\
       pieceSeed held1 = pieceSeed cur /\
       option_map pieceSeed (Some cur1)
       = option_map pieceSeed (match heldBlock s with
                               | Some held => Some held
                               | None => nextBlock s
                               end) /\
       Hold.perform s1 = Some s1).
Proof.
  split; [reflexivity|]. split; [|split; [|split; [exact Hold_refused|]]].
  - intros s cur Hcur. unfold Collision.perform, collisionDetection.
    rewrite Hcur. cbn [bind]. eexists. eexists.
    split; [reflexivity|]. split; [reflexivity|].
    cbn. intros ->. reflexivity.
  - intros s cur ghost Hcur Hlive Hghost Hlen.
    destruct (Drop_performs s cur ghost Hcur Hlive Hghost Hlen)
      as [s' [cur' [Hp [Hcan [Hc' [Hcol _]]]]]].
    exists s', cur'. repeat split; assumption.
  - intros s cur Hready.
    destruct (Hold_performs s cur Hready)
      as [s1 [cur1 [held1 [Hp [Hcan [Hc1 [Hl1 [Hh1 [Hhs [_ Hrest]]]]]]]]]].
    exists s1, cur1, held1. repeat split; try assumption.
    + destruct (heldBlock s) as [held|]; cbn [option_map].
      * destruct Hrest as [-> _]. reflexivity.
      * destruct Hrest as [Hn _]. exact Hn.
    + apply Hold_refused. exact Hcan.
Qed.

(** After the first Tick of a game, Hold puts the T piece aside and a second
    Hold is refused. *)
Lemma hold_gating_witness :
  exists s1,
    Hold.perform (stateAfter seedT [Tick 0]) = Some s1 /\
    canHoldAgain s1 = false /\ Hold.perform s1 = Some s1.
Proof.
  destruct hold_gating as [_ [_ [_ [_ Hhold]]]].
  set (s := stateAfter seedT [Tick 0]).
  assert (Hcur : exists cur, currentBlock s = Some cur /\ collided cur = false
                             /\ pieceSeed cur = seedT).
  { vm_compute. eexists. repeat split. }
  destruct Hcur as [cur [Hcur [Hlive Hseed]]].
  assert (Hnext : exists next, nextBlock s = Some next
                               /\ pieceSeed next = RNG.hash seedT).
  { vm_compute. eexists. repeat split. }
  destruct Hnext as [next [Hnext Hnseed]].
  assert (Hheld : heldBlock s = None) by (vm_compute; reflexivity).
  assert (Hready : holdReady s cur).
  { unfold holdReady. rewrite Hheld, Hseed.
    split; [exact Hcur|]. split; [exact Hlive|]. split; [reflexivity|].
    split; [by_evaluation|].
    exists next. rewrite Hnseed. split; [exact Hnext|]. split; by_evaluation. }
  destruct (Hhold s cur Hready)
    as [s1 [cur1 [held1 [Hp [Hcan [_ [_ [_ [_ [_ H2]]]]]]]]]].
  exists s1. split; [exact Hp|]. split; [exact Hcan | exact H2].
Defined.

(** ** Rotate *)

Lemma checkAllCollision_false_iff (s : State) (cells_ : list Cell) :
  Rotate.checkAllCollision s cells_ = false <-> passes s cells_.
Proof.
  unfold Rotate.checkAllCollision, passes.
  rewrite !orb_false_iff, <- !not_true_iff_false.
  rewrite hasBlocksAround_iff, !hasBoundaryAround_iff.
  split.
  - intros [[Hocc Hx] Hy] c Hin. split; [|split].
    + intros H. apply Hocc. exists c. auto.
    + unfold insideBoard.
      destruct (Z_lt_dec (0 - Block.WIDTH) (x c + 0)) as [H1|H1];
        [destruct (Z_lt_dec (x c + 0) Viewport.CANVAS_WIDTH) as [H2|H2]|].
      * split; assumption.
      * exfalso. apply Hx. exists c. split; [exact Hin|].
        unfold insideBoard. intros [_ H]. contradiction.
      * exfalso. apply Hx. exists c. split; [exact Hin|].
        unfold insideBoard. intros [H _]. contradiction.
    + destruct (Z_lt_dec (y c + 0) Viewport.CANVAS_HEIGHT) as [H|H];
        [exact H|].
      exfalso. apply Hy. exists c. split; [exact Hin | exact H].
  - intros Hpass. split; [split|]; intros [c [Hin Hc]];
      destruct (Hpass c Hin) as [Ho [Hx Hy]]; contradiction.
Qed.

Lemma filter_first_passing {A : Type} (p : A -> bool) (pre : list A) (k : A)
  (post : list A) :
  (forall a, In a pre -> p a = false) -> p k = true ->
  filter p (pre ++ k :: post) = k :: filter p post.
Proof.
  intros Hpre Hk. induction pre as [|a pre IH]; cbn [app filter].
  - rewrite Hk. reflexivity.
  - rewrite (Hpre a (or_introl eq_refl)). apply IH.
    intros b Hb. apply Hpre. right. exact Hb.
Qed.

Lemma filter_none_passing {A : Type} (p : A -> bool) (l : list A) :
  (forall a, In a l -> p a = false) -> filter p l = [].
Proof.
  intros Hl. induction l as [|a l IH]; cbn [filter]; [reflexivity|].
  rewrite (Hl a (or_introl eq_refl)). apply IH.
  intros b Hb. apply Hl. right. exact Hb.
Qed.

Lemma len_TetroStartPosMap_pos (sh : ShapeLetters) :
  0 < len (TetroStartPosMap sh).
Proof. destruct sh; reflexivity. Qed.

Lemma nextRotation_rem (cur : Tetro) :
  0 <= rotation cur ->
  Z.rem (rotation cur + 1) (len (TetroStartPosMap (shape cur)))
  = nextRotation cur.
Proof.
  intros Hr. unfold nextRotation.
  pose proof (len_TetroStartPosMap_pos (shape cur)).
  apply Z.rem_mod_nonneg; lia.
Qed.

Lemma Rotate_perform_current s cur rotated kicks :
  currentBlock s = Some cur -> 0 <= rotation cur ->
  naiveRotation cur = Some rotated -> kicksFor cur = Some kicks ->
  Rotate.perform s =
  if Rotate.checkAllCollision s rotated
  then match filter (fun k => negb (Rotate.checkAllCollision s
                                      (Rotate.kick k rotated))) kicks with
       | [] => Some s
       | k :: _ =>
           Some (withRotation (nextRotation cur) (Rotate.kick k rotated) cur s)
       end
  else Some (withRotation (nextRotation cur) rotated cur s).
Proof.
  intros Hcur Hr Hnaive Hkicks. unfold Rotate.perform.
  rewrite Hcur, (nextRotation_rem cur Hr).
  unfold naiveRotation in Hnaive. unfold kicksFor in Hkicks.
  destruct (lookup (TetroStartPosMap (shape cur)) (rotation cur))
    as [previous|]; cbn [bind] in *; [|discriminate].
  destruct (lookup previous 1) as [previousPivot|]; cbn [bind] in *;
    [|discriminate].
  rewrite Hnaive. cbn [bind].
  destruct (Rotate.checkAllCollision s rotated); cbn [negb]; [|reflexivity].
  rewrite Hkicks. cbn [bind].
  destruct (filter _ kicks) as [|k rest].
  - reflexivity.
  - rewrite len_cons. pose proof (len_nonneg rest) as Hn.
    destruct (Z.eqb_spec (len rest + 1) 0); [lia|]. reflexivity.
Qed.

Lemma Rotate_defined (cur : Tetro) :
  wfTetro cur ->
  exists rotated kicks,
    naiveRotation cur = Some rotated /\ kicksFor cur = Some kicks /\
    length rotated = 4%nat.
Proof.
  intros [Hcells [Hrot Hpivot]].
  destruct cur as [cs origin col rot sh sd bc]. cbn in *.
  destruct origin as [central|]; [clear Hpivot | contradiction].
  destruct cs as [|c0 [|c1 [|c2 [|c3 [|c4 cs]]]]]; try discriminate Hcells.
  unfold naiveRotation, kicksFor, nextRotation. cbn [rotation shape].
  destruct sh;
    match type of Hrot with
    | context [len ?l] =>
        let n := eval vm_compute in (len l) in change (len l) with n in Hrot
    end;
    (assert (Hcases : rot = 0 \/ rot = 1 \/ rot = 2 \/ rot = 3) by lia
     || assert (Hcases : rot = 0) by lia);
    repeat match type of Hcases with
           | _ \/ _ => destruct Hcases as [-> | Hcases]
           | _ = _ => subst rot
           end;
    first [ exfalso; lia
          | eexists; eexists; (split; [reflexivity|]); split; reflexivity ].
Qed.

(** C7.  Rotate returns the state unchanged when there is no current block.
    Otherwise the next rotation index is [(rotation + 1) mod] the number of
    rotation states of the shape, and with [rotated] the naively rotated
    cells and [kicks] the wall-kick candidates of that transition: if
    [rotated] passes the occupancy and boundary checks it is committed;
    if not, the first candidate in table order whose moved cells pass is
    applied, its [x] added to every cell's x and its [y] subtracted from
    every cell's y (in cell widths and heights); and if no candidate passes
    the state is returned unchanged.  For a well-formed piece the rotated
    cells and the candidates exist. *)
Theorem Rotate_wall_kick :
  forall s : State,
    (currentBlock s = None -> Rotate.perform s = Some s) /\
    (forall cur, currentBlock s = Some cur -> wfTetro cur ->
       exists rotated kicks,
         naiveRotation cur = Some rotated /\ kicksFor cur = Some kicks) /\
    (forall cur rotated kicks,
       currentBlock s = Some cur -> 0 <= rotation cur ->
       naiveRotation cur = Some rotated -> kicksFor cur = Some kicks ->
       (passes s rotated ->
        Rotate.perform s = Some (withRotation (nextRotation cur) rotated cur s)) /\
       (~ passes s rotated ->
        (forall pre k post,
           kicks = pre ++ k :: post ->
           (forall k', In k' pre -> ~ passes s (Rotate.kick k' rotated)) ->
           passes s (Rotate.kick k rotated) ->
           Rotate.perform s =
           Some (withRotation (nextRotation cur) (Rotate.kick k rotated) cur s)) /\
        ((forall k, In k kicks -> ~ passes s (Rotate.kick k rotated)) ->
         Rotate.perform s = Some s))) /\
    (forall k cells_,
       map x (Rotate.kick k cells_)
       = map (fun c => x c + ox k * Block.WIDTH) cells_ /\
       map y (Rotate.kick k cells_)
       = map (fun c => y c - oy k * Block.HEIGHT) cells_).
Proof.
  intros s. split; [|split; [|split]].
  - intros Hnone. unfold Rotate.perform. rewrite Hnone. reflexivity.
  - intros cur _ Hwf.
    destruct (Rotate_defined cur Hwf) as [rotated [kicks [Hr [Hk _]]]].
    exists rotated, kicks. split; assumption.
  - intros cur rotated kicks Hcur Hrot Hnaive Hkicks.
    pose proof (Rotate_perform_current s cur rotated kicks Hcur Hrot Hnaive
                  Hkicks) as Hperform.
    split.
    + intros Hpass. apply checkAllCollision_false_iff in Hpass.
      rewrite Hperform, Hpass. reflexivity.
    + intros Hfail.
      assert (Hcoll : Rotate.checkAllCollision s rotated = true).
      { apply not_false_iff_true. intros H. apply Hfail.
        apply checkAllCollision_false_iff. exact H. }
      rewrite Hperform, Hcoll. split.
      * intros pre k post -> Hpre Hk.
        rewrite filter_first_passing; [reflexivity| |].
        -- intros k' Hin. apply negb_false_iff, not_false_iff_true.
           intros H. apply (Hpre k' Hin).
           apply checkAllCollision_false_iff. exact H.
        -- apply negb_true_iff, checkAllCollision_false_iff. exact Hk.
      * intros Hnone. rewrite filter_none_passing; [reflexivity|].
        intros k Hin. apply negb_false_iff, not_false_iff_true.
        intros H. apply (Hnone k Hin).
        apply checkAllCollision_false_iff. exact H.
  - intros k cells_. unfold Rotate.kick. rewrite !map_map. split.
    + reflexivity.
    + apply map_ext. intros c. cbn. lia.
Qed.

(** An upright I piece against the left wall: the naive rotation leaves the
    board, the first two candidates fail, the third, [(2, 0)], is applied. *)
Lemma Rotate_wall_kick_witness :
  let s := stateAfter seedI
             ([Tick 0; Rotate] ++ repeat (Move DirX (- Block.WIDTH)) 5) in
  exists s' cur',
    Rotate.perform s = Some s' /\ currentBlock s' = Some cur' /\
    rotation cur' = 2 /\ map x (cells cur') = [60; 40; 20; 0].
Proof.
  intros s.
  destruct (Rotate_wall_kick s) as [_ [_ [Hrotate _]]].
  destruct (currentBlock s) as [cur|] eqn:Hcur;
    [| vm_compute in Hcur; discriminate Hcur].
  assert (Hval : Some cur = currentBlock s) by (symmetry; exact Hcur).
  vm_compute in Hval. injection Hval as Hval.
  destruct (naiveRotation cur) as [rotated|] eqn:Hnaive;
    [| rewrite Hval in Hnaive; vm_compute in Hnaive; discriminate Hnaive].
  assert (Hrv : Some rotated = naiveRotation cur) by (symmetry; exact Hnaive).
  rewrite Hval in Hrv. vm_compute in Hrv. injection Hrv as Hrv.
  assert (Hkicks : kicksFor cur
                   = Some ([loc 0 0; loc (-1) 0]
                           ++ loc 2 0 :: [loc (-1) 2; loc 2 (-1)])).
  { rewrite Hval. reflexivity. }
  assert (Hrot : 0 <= rotation cur) by (rewrite Hval; cbn; lia).
  destruct (Hrotate cur rotated _ eq_refl Hrot Hnaive Hkicks) as [_ Hkick].
  assert (Hfails : forall cs, Rotate.checkAllCollision s cs = true ->
                              ~ passes s cs).
  { intros cs Hc Hp. apply checkAllCollision_false_iff in Hp.
    rewrite Hp in Hc. discriminate Hc. }
  destruct Hkick as [Hfirst _].
  { apply Hfails. rewrite Hrv. vm_compute. reflexivity. }
  eexists. eexists. split.
  - apply (Hfirst _ _ _ eq_refl).
    + intros k' [<- | [<- | []]]; apply Hfails; rewrite Hrv;
        vm_compute; reflexivity.
    + apply checkAllCollision_false_iff. rewrite Hrv. vm_compute. reflexivity.
  - rewrite Hval, Hrv. split; [reflexivity|]. split; reflexivity.
Defined.

(** ** Line clears *)

Lemma existsb_map {A B : Type} (f : A -> B) (p : B -> bool) (l : list A) :
  existsb p (map f l) = existsb (fun a => p (f a)) l.
Proof.
  induction l as [|a l IH]; cbn [map existsb]; [reflexivity|].
  rewrite IH. reflexivity.
Qed.

(** Counting with a disjunction of two tests that never hold together. *)
Lemma len_filter_orb {A : Type} (p q : A -> bool) (l : list A) :
  (forall a, In a l -> p a = true -> q a = false) ->
  len (filter (fun a => p a || q a) l) = len (filter p l) + len (filter q l).
Proof.
  induction l as [|a l IH]; intros Hdis; cbn [filter]; [reflexivity|].
  assert (IH' := IH (fun b Hb => Hdis b (or_intror Hb))).
  pose proof (Hdis a (or_introl eq_refl)) as Ha.
  destruct (p a); cbn [orb].
  - rewrite (Ha eq_refl), !len_cons, IH'. lia.
  - destruct (q a); rewrite ?len_cons, IH'; lia.
Qed.

(** The blocks lying in one of several distinct rows, each holding [n]
    blocks, are [n] times the number of rows. *)
Lemma len_filter_rows (blocks_ : list Cell) (n : Z) (rows : list Z) :
  NoDup rows ->
  (forall r, In r rows -> rowCount blocks_ r = n) ->
  len (filter (fun b => existsb (fun r => y b =? r) rows) blocks_)
  = n * len rows.
Proof.
  induction rows as [|r rows IH]; intros Hnd Hn.
  - cbn [existsb]. rewrite filter_none_passing by reflexivity.
    change (len (@nil Z)) with 0. change (len (@nil Cell)) with 0. lia.
  - inversion Hnd as [|r' rows' Hnotin Hnd']; subst.
    cbn [existsb]. rewrite len_filter_orb.
    + rewrite IH; [|exact Hnd'|intros r' Hr'; apply Hn; right; exact Hr'].
      rewrite len_cons. fold (rowCount blocks_ r).
      rewrite (Hn r (or_introl eq_refl)). lia.
    + intros b _ Hb. apply Z.eqb_eq in Hb.
      apply not_true_iff_false. intros Hex.
      apply existsb_exists in Hex. destruct Hex as [r' [Hin Heq]].
      apply Z.eqb_eq in Heq. apply Hnotin. congruence.
Qed.

(** Keeping the first cell of every row: the rows of the result are
    distinct, and they are the rows that were there. *)
Lemma first_of_each_row (l acc : list Cell) :
  NoDup (map y acc) ->
  NoDup (map y (fold_left
                  (fun (acc : list Cell) (cell : Cell) =>
                     if 0 <? len (filter (fun c => y c =? y cell) acc)
                     then acc else acc ++ [cell]) l acc)) /\
  (forall r,
     In r (map y (fold_left
                    (fun (acc : list Cell) (cell : Cell) =>
                       if 0 <? len (filter (fun c => y c =? y cell) acc)
                       then acc else acc ++ [cell]) l acc))
     <-> In r (map y acc) \/ In r (map y l)).
Proof.
  revert acc. induction l as [|cell l IH]; intros acc Hnd; cbn [fold_left map].
  - split; [exact Hnd|]. intros r. cbn [In]. tauto.
  - rewrite len_filter_pos.
    destruct (existsb (fun c => y c =? y cell) acc) eqn:Hex.
    + destruct (IH acc Hnd) as [Hnd' Hin]. split; [exact Hnd'|].
      intros r. rewrite Hin. cbn [In].
      apply existsb_exists in Hex. destruct Hex as [c [Hc Heq]].
      apply Z.eqb_eq in Heq.
      assert (In (y cell) (map y acc)) by (rewrite <- Heq; apply in_map; exact Hc).
      split; [tauto|]. intros [H1 | [<- | H2]]; tauto.
    + assert (Hnew : NoDup (map y (acc ++ [cell]))).
      { rewrite map_app. cbn [map].
        apply NoDup_app; [exact Hnd | constructor; [intros []|constructor] |].
        intros r Hr [<- | []].
        apply in_map_iff in Hr. destruct Hr as [c [Heq Hc]].
        assert (Ht : existsb (fun c => y c =? y cell) acc = true).
        { apply existsb_exists. exists c. split; [exact Hc|].
          apply Z.eqb_eq. exact Heq. }
        rewrite Ht in Hex. discriminate Hex. }
      destruct (IH (acc ++ [cell]) Hnew) as [Hnd' Hin]. split; [exact Hnd'|].
      intros r. rewrite Hin, map_app, in_app_iff. cbn [map In]. tauto.
Qed.

Lemma blockMakingFullLine_rows (state : State) (block : Tetro) :
  NoDup (map y (blockMakingFullLine state block)) /\
  (forall r, In r (map y (blockMakingFullLine state block))
             <-> In r (fullRows state block)).
Proof.
  unfold blockMakingFullLine.
  destruct (first_of_each_row (tetroBlockMakingLine state block) [])
    as [Hnd Hin]; [constructor|].
  split; [exact Hnd|]. intros r. rewrite Hin. cbn [map In].
  unfold fullRows, tetroBlockMakingLine, rowCount.
  rewrite nodup_In, filter_In, !in_map_iff. split.
  - intros [[] | [c [<- Hc]]]. apply filter_In in Hc. destruct Hc as [Hc Hfull].
    split; [exists c; auto | exact Hfull].
  - intros [[c [<- Hc]] Hfull]. right. exists c. split; [reflexivity|].
    apply filter_In. split; assumption.
Qed.

Lemma blockMakingFullLine_len (state : State) (block : Tetro) :
  len (blockMakingFullLine state block) = len (fullRows state block).
Proof.
  destruct (blockMakingFullLine_rows state block) as [Hnd Hin].
  assert (H1 : (length (map y (blockMakingFullLine state block))
                <= length (fullRows state block))%nat).
  { apply NoDup_incl_length; [exact Hnd|]. intros r Hr. apply Hin. exact Hr. }
  assert (H2 : (length (fullRows state block)
                <= length (map y (blockMakingFullLine state block)))%nat).
  { apply NoDup_incl_length; [apply NoDup_nodup|].
    intros r Hr. apply Hin. exact Hr. }
  rewrite length_map in H1, H2. unfold len. lia.
Qed.

(** The cleared blocks are [GRID_WIDTH] for every full row. *)
Lemma AllBlockInFullLine_length (state : State) (block : Tetro) :
  len (AllBlockInFullLine state block)
  = Constants.GRID_WIDTH * len (fullRows state block).
Proof.
  rewrite <- blockMakingFullLine_len.
  destruct (blockMakingFullLine_rows state block) as [Hnd Hin].
  unfold AllBlockInFullLine.
  rewrite (filter_ext _
             (fun b => existsb (fun r => y b =? r)
                         (map y (blockMakingFullLine state block)))).
  - rewrite (len_filter_rows (blocks state) Constants.GRID_WIDTH); [|exact Hnd|].
    + unfold len. rewrite length_map. reflexivity.
    + intros r Hr. apply Hin in Hr. unfold fullRows in Hr.
      apply nodup_In, filter_In in Hr. destruct Hr as [_ Hr].
      apply Z.eqb_eq in Hr. exact Hr.
  - intros b. rewrite len_filter_pos, existsb_map. reflexivity.
Qed.

Lemma lineClearCheck_scores (state : State) (block : Tetro) :
  currentBlock state = Some block -> collided block = true ->
  1 <= len (fullRows state block) ->
  let k := len (fullRows state block) in
  let state' := lineClearCheck state in
  points state' = points state + 100 * k /\
  lineClears state' = lineClears state + k /\
  level state' = (lineClears state + k) / 10 /\
  changeInLevel state' = negb (level state =? (lineClears state + k) / 10) /\
  highscore state' = Z.max (highscore state) (points state + 100 * k) /\
  clearedBlocks state' = AllBlockInFullLine state block.
Proof.
  intros Hcur Hcol Hk k state'. subst state'.
  unfold lineClearCheck. rewrite Hcur, Hcol. cbn [negb]. cbv zeta.
  rewrite AllBlockInFullLine_length. fold k.
  assert (Hq : Constants.GRID_WIDTH * k / Constants.GRID_WIDTH = k).
  { rewrite Z.mul_comm. apply Z.div_mul. discriminate. }
  destruct (Z.eqb_spec (Constants.GRID_WIDTH * k) 0) as [H0|_].
  { change Constants.GRID_WIDTH with 10 in H0. lia. }
  rewrite Hq.
  cbn [points lineClears level changeInLevel highscore clearedBlocks
       with_changeInLevel with_level with_highscore with_clearedBlocks
       with_points with_lineClears with_blocks].
  repeat split; try lia.
  destruct (Z.ltb_spec (highscore state) (points state + k * 100)); lia.
Qed.

(** Tick changes the current block, the preview, the ghost, the id counter
    and the game-over flag of the state that line-clear resolution returns,
    and nothing else. *)
Lemma Tick_perform_keeps (time : Z) (s s' : State) :
  Tick.perform time s = Some s' ->
  blocks s' = blocks (lineClearCheck s) /\
  points s' = points (lineClearCheck s) /\
  lineClears s' = lineClears (lineClearCheck s) /\
  level s' = level (lineClearCheck s) /\
  changeInLevel s' = changeInLevel (lineClearCheck s) /\
  highscore s' = highscore (lineClearCheck s) /\
  clearedBlocks s' = clearedBlocks (lineClearCheck s) /\
  seed s' = seed (lineClearCheck s) /\
  canHoldAgain s' = canHoldAgain (lineClearCheck s) /\
  heldBlock s' = heldBlock (lineClearCheck s).
Proof.
  unfold Tick.perform. cbv zeta. bind_cases.
  intros H. injection H as <-. repeat split.
Qed.

(** C5.  When the settled current block completes [k >= 1] full rows, the
    state after line-clear resolution has [points] increased by [100 * k],
    [lineClears] increased by [k], [level] equal to the new [lineClears]
    divided by 10, rounded down, [changeInLevel] true exactly when that
    level is not the old one, and [highscore] the maximum of the old
    highscore and the new points; and the Tick that runs the resolution
    hands these values on. *)
Theorem line_clear_scoring :
  forall (state : State) (block : Tetro) (k : Z),
    currentBlock state = Some block -> collided block = true ->
    k = len (fullRows state block) -> 1 <= k ->
    (let state' := lineClearCheck state in
     points state' = points state + 100 * k /\
     lineClears state' = lineClears state + k /\
     level state' = lineClears state' / 10 /\
     (changeInLevel state' = true <-> level state' <> level state) /\
     highscore state' = Z.max (highscore state) (points state')) /\
    (forall time state',
       Tick.perform time state = Some state' ->
       points state' = points state + 100 * k /\
       lineClears state' = lineClears state + k /\
       level state' = lineClears state' / 10 /\
       (changeInLevel state' = true <-> level state' <> level state) /\
       highscore state' = Z.max (highscore state) (points state')).
Proof.
  intros state block k Hcur Hcol -> Hk.
  destruct (lineClearCheck_scores state block Hcur Hcol Hk)
    as [Hp [Hl [Hlv [Hch [Hhs _]]]]].
  assert (Hflag : forall old new : Z, negb (old =? new) = true <-> new <> old).
  { intros old new. rewrite negb_true_iff, Z.eqb_neq. split; congruence. }
  split.
  - cbv zeta. rewrite Hp, Hl, Hlv, Hch, Hhs. repeat split; apply Hflag.
  - intros time state' Htick.
    destruct (Tick_perform_keeps time state state' Htick)
      as [_ [-> [-> [-> [-> [-> _]]]]]].
    rewrite Hp, Hl, Hlv, Hch, Hhs. repeat split; apply Hflag.
Qed.

(** Two I pieces and an O piece laid side by side fill the bottom row; the
    next Tick clears it and scores 100 points. *)
Lemma line_clear_scoring_witness :
  exists state state',
    run (initialState seedIIO) fillBottomRow = Some state /\
    Tick.perform 6 state = Some state' /\
    points state' = 100 /\ lineClears state' = 1 /\ level state' = 0 /\
    highscore state' = 100.
Proof.
  set (state := stateAfter seedIIO fillBottomRow).
  assert (Hrun : run (initialState seedIIO) fillBottomRow = Some state)
    by (vm_compute; reflexivity).
  destruct (currentBlock state) as [block|] eqn:Hcur;
    [| vm_compute in Hcur; discriminate Hcur].
  assert (Hval : Some block = currentBlock state) by (symmetry; exact Hcur).
  vm_compute in Hval. injection Hval as Hval.
  assert (Hcol : collided block = true) by (rewrite Hval; reflexivity).
  assert (Hk : 1 = len (fullRows state block))
    by (rewrite Hval; vm_compute; reflexivity).
  destruct (Tick.perform 6 state) as [state'|] eqn:Htick;
    [| vm_compute in Htick; discriminate Htick].
  destruct (line_clear_scoring state block 1 Hcur Hcol Hk ltac:(lia))
    as [_ Htickscore].
  destruct (Htickscore 6 state' Htick) as [Hp [Hl [Hlv [_ Hhs]]]].
  exists state, state'. split; [exact Hrun|]. split; [exact Htick|].
  rewrite Hhs, Hlv, Hl, Hp.
  repeat split; vm_compute; reflexivity.
Defined.

(** ** The fold of the actions *)

Lemma sameAction_refl (a : Action) : sameAction a a.
Proof. destruct a; cbn; auto. Qed.

Lemma Forall2_sameAction_refl (actions : list Action) :
  Forall2 sameAction actions actions.
Proof.
  induction actions as [|a actions IH]; constructor;
    [apply sameAction_refl | exact IH].
Qed.

(** The clock reading of a Tick is not used. *)
Lemma perform_sameAction (a b : Action) (s : State) :
  sameAction a b -> perform a s = perform b s.
Proof.
  destruct a, b; cbn; intros H; try discriminate H; try reflexivity;
    injection H as -> ->; reflexivity.
Qed.

Lemma scan_sameAction (actions1 actions2 : list Action) :
  Forall2 sameAction actions1 actions2 ->
  forall s, scan s actions1 = scan s actions2.
Proof.
  induction 1 as [|a b rest1 rest2 Hab _ IH]; intros s; cbn [scan];
    [reflexivity|].
  rewrite (perform_sameAction a b s Hab).
  destruct (perform b s) as [s'|]; cbn [bind]; [|reflexivity].
  rewrite IH. reflexivity.
Qed.

Lemma run_sameAction (actions1 actions2 : list Action) :
  Forall2 sameAction actions1 actions2 ->
  forall s, run s actions1 = run s actions2.
Proof.
  induction 1 as [|a b rest1 rest2 Hab _ IH]; intros s; cbn [run];
    [reflexivity|].
  rewrite (perform_sameAction a b s Hab).
  destruct (perform b s) as [s'|]; cbn [bind]; [apply IH | reflexivity].
Qed.

(** C3.  The fold is deterministic: from the same snapshot, the same
    sequence of actions (also when the Ticks carry other clock readings)
    gives the same outcome, the same final snapshot and the same snapshots
    on the way, so the same [blocks], the same pieces and the same
    [points] at every step. *)
Theorem fold_deterministic :
  forall (s1 s2 : State) (actions1 actions2 : list Action),
    s1 = s2 ->
    actions1 = actions2 \/ Forall2 sameAction actions1 actions2 ->
    run s1 actions1 = run s2 actions2 /\
    scan s1 actions1 = scan s2 actions2 /\
    (forall states1 states2,
       scan s1 actions1 = Some states1 -> scan s2 actions2 = Some states2 ->
       states1 = states2 /\
       map blocks states1 = map blocks states2 /\
       pieces states1 = pieces states2 /\
       map points states1 = map points states2).
Proof.
  intros s1 s2 actions1 actions2 <- Hsame.
  assert (H : Forall2 sameAction actions1 actions2).
  { destruct Hsame as [<- | H]; [apply Forall2_sameAction_refl | exact H]. }
  pose proof (run_sameAction actions1 actions2 H s1) as Hrun.
  pose proof (scan_sameAction actions1 actions2 H s1) as Hscan.
  split; [exact Hrun|]. split; [exact Hscan|].
  intros states1 states2 H1 H2. rewrite Hscan, H2 in H1.
  injection H1 as <-. repeat split.
Qed.

(** A game replayed with other clock readings. *)
Lemma fold_deterministic_witness :
  run (initialState seedIIO) fillBottomRow
  = run (initialState seedIIO)
      (map (fun a => match a with Tick time => Tick (10 * time) | _ => a end)
           fillBottomRow).
Proof.
  apply fold_deterministic; [reflexivity|].
  right. repeat constructor.
Defined.

(** ** Rotation of a settled piece *)

(** C10.  Rotate returns the state unchanged only when there is no current
    block; it does not look at [collided].  There is a reachable state whose
    current block has collided, its cells being in [blocks], where the naive
    rotation is blocked and a wall kick goes through: Rotate returns a state
    whose current block, still marked collided, has other cells, while
    [blocks] keeps the cells merged before. *)
Theorem Rotate_moves_settled_piece :
  (forall s, currentBlock s = None -> Rotate.perform s = Some s) /\
  exists s cur rotated s' cur',
    run (initialState seedT) settleUprightT = Some s /\
    currentBlock s = Some cur /\ collided cur = true /\
    (forall c, In c (cells cur) -> In c (blocks s)) /\
    naiveRotation cur = Some rotated /\
    Rotate.checkAllCollision s rotated = true /\
    Rotate.perform s = Some s' /\
    currentBlock s' = Some cur' /\ collided cur' = true /\
    cells cur' <> cells cur /\
    map (fun c => (x c, y c)) (cells cur')
    = [(120, 320); (100, 320); (100, 340); (80, 320)] /\
    blocks s' = blocks s.
Proof.
  split.
  - intros s Hnone. unfold Rotate.perform. rewrite Hnone. reflexivity.
  - set (s := stateAfter seedT settleUprightT).
    destruct (currentBlock s) as [cur|] eqn:Hcur;
      [| vm_compute in Hcur; discriminate Hcur].
    assert (Hval : Some cur = currentBlock s) by (symmetry; exact Hcur).
    vm_compute in Hval. injection Hval as Hval.
    destruct (naiveRotation cur) as [rotated|] eqn:Hnaive;
      [| rewrite Hval in Hnaive; vm_compute in Hnaive; discriminate Hnaive].
    assert (Hrv : Some rotated = naiveRotation cur) by (symmetry; exact Hnaive).
    rewrite Hval in Hrv. vm_compute in Hrv. injection Hrv as Hrv.
    destruct (Rotate.perform s) as [s'|] eqn:Hrot;
      [| vm_compute in Hrot; discriminate Hrot].
    assert (Hsv : Some s' = Rotate.perform s) by (symmetry; exact Hrot).
    vm_compute in Hsv. injection Hsv as Hsv.
    destruct (currentBlock s') as [cur'|] eqn:Hcur';
      [| rewrite Hsv in Hcur'; discriminate Hcur'].
    assert (Hval' : Some cur' = currentBlock s') by (symmetry; exact Hcur').
    rewrite Hsv in Hval'. cbn in Hval'. injection Hval' as Hval'.
    exists s, cur, rotated, s', cur'.
    split; [vm_compute; reflexivity|].
    split; [exact Hcur|].
    split; [rewrite Hval; reflexivity|].
    split.
    { rewrite Hval. intros c Hin. vm_compute in Hin. vm_compute.
      repeat (destruct Hin as [<- | Hin];
              [repeat ((left; reflexivity) || right)|]).
      destruct Hin. }
    split; [exact Hnaive|].
    split; [rewrite Hrv; vm_compute; reflexivity|].
    split; [exact Hrot|].
    split; [exact Hcur'|].
    split; [rewrite Hval'; reflexivity|].
    split.
    { rewrite Hval, Hval'. intros H.
      apply (f_equal (map x)) in H. vm_compute in H. discriminate H. }
    split; [rewrite Hval'; reflexivity|].
    rewrite Hsv. vm_compute. reflexivity.
Qed.

(** ** Collision *)

(** Collision is not defined on a snapshot without a current block, the
    initial one for instance: [collisionDetection] reads
    [s.currentBlock!.cells] and throws, where [Move], [Rotate], [Hold] and
    [Drop] test for the missing block and return the state. *)
Theorem Collision_throws_without_current_block :
  (forall s, currentBlock s = None -> Collision.perform s = None) /\
  (forall initialSeed,
     Collision.perform (initialState initialSeed) = None /\
     run (initialState initialSeed) [Collision] = None /\
     Move.perform DirY Block.HEIGHT (initialState initialSeed)
     = Some (initialState initialSeed) /\
     Rotate.perform (initialState initialSeed) = Some (initialState initialSeed) /\
     Hold.perform (initialState initialSeed) = Some (initialState initialSeed) /\
     Drop.perform (initialState initialSeed) = Some (initialState initialSeed)).
Proof.
  split.
  - intros s Hnone. unfold Collision.perform, collisionDetection.
    rewrite Hnone. reflexivity.
  - intros initialSeed. repeat split.
Qed.

(** C1.  The invariant breaks: Collision does not look at [collided], so
    after [Tick] and [Drop] have put the O piece on the floor and merged its
    cells into [blocks], the collision check finds the piece on the floor
    and merges the same cells a second time. *)
Theorem Collision_after_Drop_duplicates_blocks :
  exists s2 s3,
    run (initialState seedO) [Tick 0; Drop] = Some s2 /\
    distinctPositions (blocks s2) /\
    Collision.perform s2 = Some s3 /\
    run (initialState seedO) [Tick 0; Drop; Collision] = Some s3 /\
    map (fun c => (x c, y c)) (blocks s3)
    = [(80, 360); (80, 380); (100, 360); (100, 380);
       (80, 360); (80, 380); (100, 360); (100, 380)] /\
    ~ distinctPositions (blocks s3).
Proof.
  exists (stateAfter seedO [Tick 0; Drop]),
         (stateAfter seedO [Tick 0; Drop; Collision]).
  split; [vm_compute; reflexivity|].
  split.
  { unfold distinctPositions. vm_compute.
    repeat (constructor; [cbn; intuition discriminate|]). constructor. }
  split; [vm_compute; reflexivity|].
  split; [vm_compute; reflexivity|].
  split; [vm_compute; reflexivity|].
  unfold distinctPositions. intros H. vm_compute in H.
  inversion H as [|p l Hnotin _]. apply Hnotin.
  right. right. right. left. reflexivity.
Qed.

(** ** Well-formed states *)

Lemma lookup_second {A : Type} (a b : A) (l : list A) :
  lookup (a :: b :: l) 1 = Some b.
Proof. reflexivity. Qed.

Lemma lookup_four {A : Type} (l : list A) :
  length l = 4%nat -> lookup l 1 <> None.
Proof.
  destruct l as [|a [|b l]]; intros Hl; try discriminate Hl.
  rewrite lookup_second. discriminate.
Qed.

(** What the factory returns is a well-formed piece whose pivot is its
    second cell. *)
Lemma createTetrominoes_wf x_ y_ bc sd isPreview state t :
  Tick.createTetrominoes x_ y_ bc sd isPreview state = Some t ->
  wfTetro t /\ originBlock t = lookup (cells t) 1.
Proof.
  unfold Tick.createTetrominoes.
  destruct (lookup TetroShapes (RNG.scale sd)) as [sh|]; cbn [bind];
    [|discriminate].
  destruct sh; cbn [TetroStartPosMap lookup Z.ltb Z.compare Z.to_nat nth_error bind];
    cbv zeta;
    match goal with
    | |- context [if ?b then y_ else 0] =>
        generalize (if b then y_ else 0); intros startPosY
    end;
    intros H; injection H as <-;
    unfold wfTetro, mapi;
    cbn [cells rotation shape originBlock mapi_from length createBlock ox oy
         filter x y hd_error];
    change Block.WIDTH with 20; change Block.HEIGHT with 20;
    repeat match goal with
           | |- context [Z.eqb ?a ?b] => destruct (Z.eqb_spec a b); try lia
           end;
    cbn [andb filter hd_error];
    (split; [split; [reflexivity | split; [split; [lia|reflexivity] | discriminate]]
            | reflexivity]).
Qed.

Lemma mapiM_from_length {A B : Type} (f : Z -> A -> option B) (l : list A) :
  forall i bs, mapiM_from f i l = Some bs -> length bs = length l.
Proof.
  induction l as [|a l IH]; intros i bs; cbn [mapiM_from].
  - intros H. injection H as <-. reflexivity.
  - destruct (f i a) as [b|]; cbn [bind]; [|discriminate].
    destruct (mapiM_from f (i + 1) l) as [bs'|] eqn:Hbs; cbn [bind];
      [|discriminate].
    intros H. injection H as <-. cbn [length]. f_equal. exact (IH _ _ Hbs).
Qed.

(** What a throwing map keeps of every element, it keeps of the array. *)
Lemma mapiM_from_map {A B C : Type} (f : Z -> A -> option B) (g : B -> C)
  (h : A -> C) (l : list A) :
  (forall i a b, f i a = Some b -> g b = h a) ->
  forall i bs, mapiM_from f i l = Some bs -> map g bs = map h l.
Proof.
  intros Hf. induction l as [|a l IH]; intros i bs; cbn [mapiM_from].
  - intros H. injection H as <-. reflexivity.
  - destruct (f i a) as [b|] eqn:Hb; cbn [bind]; [|discriminate].
    destruct (mapiM_from f (i + 1) l) as [bs'|] eqn:Hbs; cbn [bind];
      [|discriminate].
    intros H. injection H as <-. cbn [map].
    rewrite (Hf _ _ _ Hb), (IH _ _ Hbs). reflexivity.
Qed.

(** The naive rotation keeps the id and the colour of every cell. *)
Lemma naiveRotation_ids (cur : Tetro) (rotated : list Cell) :
  naiveRotation cur = Some rotated ->
  map id rotated = map id (cells cur) /\
  map color rotated = map color (cells cur).
Proof.
  unfold naiveRotation.
  destruct (lookup (TetroStartPosMap (shape cur)) (rotation cur))
    as [previous|]; cbn [bind]; [|discriminate].
  destruct (lookup previous 1) as [previousPivot|]; cbn [bind]; [|discriminate].
  unfold Rotate.blockAfterRotation, mapiM. intros H. split.
  - apply (mapiM_from_map _ id id _) in H; [exact H|].
    intros i a b. bind_cases. intros Hb. injection Hb as <-. reflexivity.
  - apply (mapiM_from_map _ color color _) in H; [exact H|].
    intros i a b. bind_cases. intros Hb. injection Hb as <-. reflexivity.
Qed.

(** Replacing the current block by a well-formed one of the same seed keeps
    a state well formed. *)
Lemma wellFormed_with_currentBlock (s : State) (cur cur' : Tetro) :
  wellFormed s -> currentBlock s = Some cur ->
  wfTetro cur' -> pieceSeed cur' = pieceSeed cur ->
  wellFormed (with_currentBlock (Some cur') s).
Proof.
  unfold wellFormed. intros [Hheld Hs] Hcur Hwf Hseed. rewrite Hcur in Hs.
  cbn. split; [exact Hheld|]. rewrite Hseed. tauto.
Qed.

Lemma wfTetro_cells (cur : Tetro) (cells' : list Cell) :
  wfTetro cur -> length cells' = 4%nat ->
  wfTetro (with_originBlock (lookup cells' 1) (with_cells cells' cur)).
Proof.
  intros [_ [Hrot _]] Hlen. unfold wfTetro. cbn.
  split; [exact Hlen|]. split; [exact Hrot|]. apply lookup_four. exact Hlen.
Qed.

Lemma wellFormed_Move direction offset (s s' : State) :
  wellFormed s -> Move.perform direction offset s = Some s' -> wellFormed s'.
Proof.
  intros Hwf. destruct (currentBlock s) as [cur|] eqn:Hcur.
  - rewrite (Move_perform_current direction offset s cur Hcur).
    intros H. injection H as <-. unfold withCells.
    pose proof Hwf as [_ Hs]. rewrite Hcur in Hs. destruct Hs as [Hcurwf _].
    apply (wellFormed_with_currentBlock s cur); try assumption; [|reflexivity].
    apply wfTetro_cells; [exact Hcurwf|].
    destruct Hcurwf as [Hlen _].
    destruct (_ || _ || _); [exact Hlen | rewrite length_map; exact Hlen].
  - unfold Move.perform. rewrite Hcur. intros H. injection H as <-. exact Hwf.
Qed.

Lemma wfTetro_rotation (cur : Tetro) (cells' : list Cell) :
  wfTetro cur -> length cells' = 4%nat ->
  wfTetro (with_originBlock (lookup cells' 1)
             (with_cells cells' (with_rotation (nextRotation cur) cur))).
Proof.
  intros _ Hlen. unfold wfTetro. cbn.
  split; [exact Hlen|]. split; [|apply lookup_four; exact Hlen].
  unfold nextRotation. apply Z.mod_pos_bound.
  apply len_TetroStartPosMap_pos.
Qed.

(** Rotate of a well-formed piece returns a state, with a well-formed piece
    of the same seed and nothing else changed. *)
Lemma Rotate_performs (s : State) (cur : Tetro) :
  currentBlock s = Some cur -> wfTetro cur ->
  exists s' cur',
    Rotate.perform s = Some s' /\ s' = with_currentBlock (Some cur') s /\
    wfTetro cur' /\ pieceSeed cur' = pieceSeed cur /\
    collided cur' = collided cur /\ shape cur' = shape cur /\
    map id (cells cur') = map id (cells cur).
Proof.
  intros Hcur Hwf.
  destruct (Rotate_defined cur Hwf) as [rotated [kicks [Hr [Hk Hlen]]]].
  pose proof Hwf as [_ [[Hrot _] _]].
  rewrite (Rotate_perform_current s cur rotated kicks Hcur Hrot Hr Hk).
  destruct (naiveRotation_ids cur rotated Hr) as [Hids _].
  destruct (Rotate.checkAllCollision s rotated).
  - destruct (filter _ kicks) as [|k rest].
    + exists s, cur. split; [reflexivity|]. split.
      * destruct s; cbn in *; subst; reflexivity.
      * split; [exact Hwf | repeat split].
    + eexists. eexists. split; [reflexivity|]. split; [reflexivity|].
      split; [apply wfTetro_rotation; [exact Hwf|]|].
      * unfold Rotate.kick. rewrite length_map. exact Hlen.
      * cbn. repeat split. unfold Rotate.kick. rewrite map_map. exact Hids.
  - eexists. eexists. split; [reflexivity|]. split; [reflexivity|].
    split; [apply wfTetro_rotation; assumption|].
    cbn. repeat split. exact Hids.
Qed.

Lemma wellFormed_Rotate (s s' : State) :
  wellFormed s -> Rotate.perform s = Some s' -> wellFormed s'.
Proof.
  intros Hwf. destruct (currentBlock s) as [cur|] eqn:Hcur.
  - pose proof Hwf as [_ Hs]. rewrite Hcur in Hs. destruct Hs as [Hcurwf _].
    destruct (Rotate_performs s cur Hcur Hcurwf)
      as [s1 [cur1 [Hp [-> [Hwf1 [Hseed _]]]]]].
    rewrite Hp. intros H. injection H as <-.
    apply (wellFormed_with_currentBlock s cur); assumption.
  - unfold Rotate.perform. rewrite Hcur. intros H. injection H as <-. exact Hwf.
Qed.

Lemma wellFormed_Collision (s s' : State) :
  wellFormed s -> Collision.perform s = Some s' -> wellFormed s'.
Proof.
  unfold Collision.perform, collisionDetection, wellFormed.
  intros [Hheld Hs].
  destruct (currentBlock s) as [cur|]; cbn [bind]; [|discriminate].
  intros H. injection H as <-. cbn. split; [exact Hheld|].
  destruct Hs as [[Hlen [Hrot Hpivot]] Hrest].
  split; [|exact Hrest]. unfold wfTetro. cbn. tauto.
Qed.

Lemma wellFormed_Drop (s s' : State) :
  wellFormed s -> Drop.perform s = Some s' -> wellFormed s'.
Proof.
  unfold Drop.perform. intros Hwf.
  destruct (currentBlock s) as [cur|] eqn:Hcur;
    [|intros H; injection H as <-; exact Hwf].
  destruct (collided cur); [intros H; injection H as <-; exact Hwf|].
  destruct (mapiM _ (cells cur)) as [dropped|] eqn:Hd; cbn [bind];
    [|discriminate].
  intros H. injection H as <-.
  apply mapiM_from_length in Hd.
  destruct Hwf as [Hheld Hs]. rewrite Hcur in Hs.
  destruct Hs as [[Hlen [Hrot Hpivot]] Hrest].
  unfold wellFormed. cbn. split; [exact Hheld|].
  split; [|exact Hrest]. unfold wfTetro. cbn.
  split; [congruence|]. tauto.
Qed.

Lemma wellFormed_Hold (s s' : State) :
  wellFormed s -> Hold.perform s = Some s' -> wellFormed s'.
Proof.
  unfold Hold.perform. intros Hwf.
  destruct (currentBlock s) as [cur|] eqn:Hcur;
    [|intros H; injection H as <-; exact Hwf].
  destruct (collided cur || negb (canHoldAgain s));
    [intros H; injection H as <-; exact Hwf|].
  destruct Hwf as [Hheld Hs]. rewrite Hcur in Hs.
  destruct Hs as [_ [_ [Hghost [next [Hnext Hnseed]]]]].
  rewrite Hnext. cbn [bind].
  destruct (heldBlock s) as [held|] eqn:Hh.
  - destruct (Tick.createTetrominoes _ _ (blockStartCount held) _ _ _)
      as [cur1|] eqn:E1; cbn [bind]; [|discriminate].
    destruct (Tick.createTetrominoes _ _ (blockStartCount cur) _ _ _)
      as [held1|] eqn:E2; cbn [bind]; [|discriminate].
    intros H. injection H as <-.
    destruct (createTetrominoes_wf _ _ _ _ _ _ _ E1) as [Hwf1 _].
    destruct (createTetrominoes_inv _ _ _ _ _ _ _ E1) as [Hv1 [Hs1 _]].
    destruct (createTetrominoes_inv _ _ _ _ _ _ _ E2) as [Hv2 [Hs2 _]].
    unfold wellFormed. cbn. split.
    + intros held' H. injection H as <-. rewrite Hs2. exact Hv2.
    + split; [exact Hwf1|]. rewrite Hs1. split; [exact Hv1|].
      split; [exact Hghost|]. exists next. split; [reflexivity | assumption].
  - destruct (Tick.createTetrominoes _ _ (blockStartCount next) _ _ _)
      as [cur1|] eqn:E1; cbn [bind]; [|discriminate].
    destruct (Tick.createTetrominoes _ _ (blockCount s + 4) _ _ _)
      as [next1|] eqn:E3; cbn [bind]; [|discriminate].
    destruct (Tick.createTetrominoes _ _ (blockStartCount cur) _ _ _)
      as [held1|] eqn:E2; cbn [bind]; [|discriminate].
    intros H. injection H as <-.
    destruct (createTetrominoes_wf _ _ _ _ _ _ _ E1) as [Hwf1 _].
    destruct (createTetrominoes_inv _ _ _ _ _ _ _ E1) as [Hv1 [Hs1 _]].
    destruct (createTetrominoes_inv _ _ _ _ _ _ _ E2) as [Hv2 [Hs2 _]].
    destruct (createTetrominoes_inv _ _ _ _ _ _ _ E3) as [Hv3 [Hs3 _]].
    unfold wellFormed. cbn. split.
    + intros held' H. injection H as <-. rewrite Hs2. exact Hv2.
    + split; [exact Hwf1|]. rewrite Hs1. split; [exact Hv1|].
      split; [exact Hghost|]. exists next1. split; [reflexivity|].
      rewrite Hs3. exact Hv3.
Qed.

(** Line-clear resolution touches the committed blocks and the score and
    nothing of the pieces, the seed or the id counter. *)
Lemma lineClearCheck_frame (s : State) :
  currentBlock (lineClearCheck s) = currentBlock s /\
  nextBlock (lineClearCheck s) = nextBlock s /\
  heldBlock (lineClearCheck s) = heldBlock s /\
  ghostBlock (lineClearCheck s) = ghostBlock s /\
  seed (lineClearCheck s) = seed s /\
  blockCount (lineClearCheck s) = blockCount s /\
  canHoldAgain (lineClearCheck s) = canHoldAgain s /\
  gameEnd (lineClearCheck s) = gameEnd s.
Proof.
  unfold lineClearCheck.
  destruct (currentBlock s) as [block|] eqn:Hcur; [|cbn; rewrite Hcur; tauto].
  destruct (negb (collided block)); [cbn; rewrite Hcur; tauto|].
  cbv zeta.
  destruct (len (AllBlockInFullLine s block) =? 0); cbn; rewrite Hcur; tauto.
Qed.

(** ** Tick *)

Lemma wellFormed_lineClearCheck (s : State) :
  wellFormed s -> wellFormed (lineClearCheck s).
Proof.
  destruct (lineClearCheck_frame s) as [Ec [En [Eh [Eg _]]]].
  unfold wellFormed. rewrite Ec, En, Eh, Eg. tauto.
Qed.

(** Mapping the ghost a second time reads the places from the block again:
    only the offset counts. *)
Lemma mapGhostTetro_again (block : Tetro) (offset offset' : Z)
  (cells_ ghostCells : list Cell) :
  Tick.mapGhostTetro cells_ block offset = Some ghostCells ->
  Tick.mapGhostTetro ghostCells block offset'
  = Tick.mapGhostTetro cells_ block offset'.
Proof.
  unfold Tick.mapGhostTetro, mapiM. generalize 0 as i. revert ghostCells.
  induction cells_ as [|c cells_ IH]; intros ghostCells i; cbn [mapiM_from].
  - intros H. injection H as <-. reflexivity.
  - destruct (lookup (cells block) i) as [bc|] eqn:Hbc; cbn [bind];
      [|discriminate].
    destruct (mapiM_from _ (i + 1) cells_) as [rest|] eqn:Hrest; cbn [bind];
      [|discriminate].
    intros H. injection H as <-. cbn [mapiM_from]. rewrite Hbc. cbn [bind].
    rewrite (IH rest (i + 1) Hrest). reflexivity.
Qed.

(** What a Tick that returns has done: it ran line-clear resolution, kept
    or spawned the current block, spawned a ghost from the block's seed and
    put its cells on the places of the block moved down by some [offset],
    kept or spawned the preview, and set the id counter and the game-over
    flag. *)
Lemma Tick_perform_inv (time : Z) (s s' : State) :
  Tick.perform time s = Some s' ->
  exists block ghostTetro ghostCells offset next' blockCount',
    (match currentBlock (lineClearCheck s) with
     | Some cur =>
         if collided cur
         then Tick.createTetrominoes (Viewport.CANVAS_WIDTH / 2 - Block.WIDTH)
                Block.HEIGHT (blockCount (lineClearCheck s))
                (seed (lineClearCheck s)) false (lineClearCheck s) = Some block
         else block = cur
     | None =>
         Tick.createTetrominoes (Viewport.CANVAS_WIDTH / 2 - Block.WIDTH)
           Block.HEIGHT (blockCount (lineClearCheck s))
           (seed (lineClearCheck s)) false (lineClearCheck s) = Some block
     end) /\
    Tick.createTetrominoes 0 0
      (match ghostBlock (lineClearCheck s) with
       | Some g => blockStartCount g
       | None => blockCount (lineClearCheck s) + 4
       end) (pieceSeed block) true (lineClearCheck s) = Some ghostTetro /\
    Tick.mapGhostTetro (cells ghostTetro) block offset = Some ghostCells /\
    (nextBlock (lineClearCheck s) = Some next' \/
     Tick.createTetrominoes (Viewport.PREVIEW_WIDTH / 2)
       (Viewport.PREVIEW_HEIGHT / 2)
       (match ghostBlock (lineClearCheck s) with
        | Some _ => blockCount (lineClearCheck s) + 4
        | None => blockCount (lineClearCheck s) + 8
        end) (RNG.hash (seed (lineClearCheck s))) true (lineClearCheck s)
     = Some next') /\
    s' = with_gameEnd
           (existsb (fun c =>
                       existsb (fun b => (x c =? x b) && (y c =? y b))
                         (blocks (lineClearCheck s)))
                    (cells block))
           (with_blockCount blockCount'
           (with_ghostBlock (Some (with_cells ghostCells ghostTetro))
           (with_nextBlock (Some next')
           (with_currentBlock (Some block) (lineClearCheck s))))).
Proof.
  unfold Tick.perform. cbv zeta.
  bind_case block Hblock. bind_case getMinY Hmin.
  bind_case yValueIndex Hfold. bind_case lowest Hlow.
  bind_case ghostTetro Hghost. bind_case ghostCells Hcells.
  bind_case ghostCells' Hcells'. bind_case next' Hnext.
  intros H. injection H as <-.
  assert (Hb : match currentBlock (lineClearCheck s) with
               | Some cur =>
                   if collided cur
                   then Tick.createTetrominoes
                          (Viewport.CANVAS_WIDTH / 2 - Block.WIDTH)
                          Block.HEIGHT (blockCount (lineClearCheck s))
                          (seed (lineClearCheck s)) false (lineClearCheck s)
                        = Some block
                   else block = cur
               | None =>
                   Tick.createTetrominoes
                     (Viewport.CANVAS_WIDTH / 2 - Block.WIDTH)
                     Block.HEIGHT (blockCount (lineClearCheck s))
                     (seed (lineClearCheck s)) false (lineClearCheck s)
                   = Some block
               end).
  { destruct (currentBlock (lineClearCheck s)) as [cur|]; [|exact Hblock].
    destruct (collided cur); [exact Hblock|].
    injection Hblock as <-. reflexivity. }
  assert (Hn : nextBlock (lineClearCheck s) = Some next' \/
               Tick.createTetrominoes (Viewport.PREVIEW_WIDTH / 2)
                 (Viewport.PREVIEW_HEIGHT / 2)
                 (match ghostBlock (lineClearCheck s) with
                  | Some _ => blockCount (lineClearCheck s) + 4
                  | None => blockCount (lineClearCheck s) + 8
                  end) (RNG.hash (seed (lineClearCheck s))) true
                 (lineClearCheck s) = Some next').
  { destruct (nextBlock (lineClearCheck s)) as [nb|]; [|right; exact Hnext].
    destruct (currentBlock (lineClearCheck s)) as [cur|]; cbn [bind] in Hnext;
      [|discriminate].
    destruct (collided cur); [right; exact Hnext|].
    left. exact Hnext. }
  rewrite len_filter_pos.
  rewrite (existsb_ext_in _
             (fun c => existsb (fun b => (x c =? x b) && (y c =? y b))
                         (blocks (lineClearCheck s))))
    by (intros c _; apply len_filter_pos).
  destruct (hasBlocksAround ghostCells s 0 DirX
            || hasBoundaryAround ghostCells s 0 DirY).
  - rewrite (mapGhostTetro_again _ _ _ _ _ Hcells) in Hcells'.
    eexists block, ghostTetro, ghostCells', _, next', _.
    split; [exact Hb|]. split; [exact Hghost|]. split; [exact Hcells'|].
    split; [exact Hn|]. reflexivity.
  - injection Hcells' as <-.
    eexists block, ghostTetro, ghostCells, _, next', _.
    split; [exact Hb|]. split; [exact Hghost|]. split; [exact Hcells|].
    split; [exact Hn|]. reflexivity.
Qed.

Lemma mapGhostTetro_length (cells_ ghostCells : list Cell) (block : Tetro)
  (offset : Z) :
  Tick.mapGhostTetro cells_ block offset = Some ghostCells ->
  length ghostCells = length cells_.
Proof. unfold Tick.mapGhostTetro, mapiM. apply mapiM_from_length. Qed.

Lemma wellFormed_Tick (time : Z) (s s' : State) :
  wellFormed s -> Tick.perform time s = Some s' -> wellFormed s'.
Proof.
  intros Hwf Htick. apply wellFormed_lineClearCheck in Hwf.
  destruct (Tick_perform_inv time s s' Htick)
    as [block [ghostTetro [ghostCells [offset [next' [blockCount'
         [Hblock [Hghost [Hcells [Hnext ->]]]]]]]]]].
  destruct Hwf as [Hheld Hs].
  assert (Hb : wfTetro block /\ validSeed (pieceSeed block)).
  { destruct (currentBlock (lineClearCheck s)) as [cur|].
    - destruct (collided cur).
      + destruct (createTetrominoes_wf _ _ _ _ _ _ _ Hblock) as [H1 _].
        destruct (createTetrominoes_inv _ _ _ _ _ _ _ Hblock) as [H2 [-> _]].
        split; assumption.
      + subst block. destruct Hs as [H1 [H2 _]]. split; assumption.
    - destruct (createTetrominoes_wf _ _ _ _ _ _ _ Hblock) as [H1 _].
      destruct (createTetrominoes_inv _ _ _ _ _ _ _ Hblock) as [H2 [-> _]].
      split; assumption. }
  assert (Hn : validSeed (pieceSeed next')).
  { destruct Hnext as [Hnext | Hnext].
    - destruct (currentBlock (lineClearCheck s)) as [cur|].
      + destruct Hs as [_ [_ [_ [next [Hn Hv]]]]].
        rewrite Hn in Hnext. injection Hnext as <-. exact Hv.
      + rewrite Hs in Hnext. discriminate Hnext.
    - destruct (createTetrominoes_inv _ _ _ _ _ _ _ Hnext) as [H2 [-> _]].
      exact H2. }
  unfold wellFormed. cbn. split; [exact Hheld|].
  destruct Hb as [Hb1 Hb2]. split; [exact Hb1|]. split; [exact Hb2|].
  split.
  - eexists. split; [reflexivity|]. cbn.
    rewrite (mapGhostTetro_length _ _ _ _ Hcells).
    destruct (createTetrominoes_wf _ _ _ _ _ _ _ Hghost) as [[Hlen _] _].
    exact Hlen.
  - exists next'. split; [reflexivity | exact Hn].
Qed.

Lemma wellFormed_perform (a : Action) (s s' : State) :
  wellFormed s -> perform a s = Some s' -> wellFormed s'.
Proof.
  destruct a; cbn [perform].
  - apply wellFormed_Move.
  - apply wellFormed_Tick.
  - apply wellFormed_Rotate.
  - apply wellFormed_Hold.
  - apply wellFormed_Drop.
  - apply wellFormed_Collision.
Qed.

Lemma wellFormed_run (actions : list Action) :
  forall s s', wellFormed s -> run s actions = Some s' -> wellFormed s'.
Proof.
  induction actions as [|a actions IH]; intros s s' Hwf; cbn [run].
  - intros H. injection H as <-. exact Hwf.
  - destruct (perform a s) as [s1|] eqn:Ha; cbn [bind]; [|discriminate].
    apply IH. exact (wellFormed_perform a s s1 Hwf Ha).
Qed.

Lemma wellFormed_initialState (initialSeed : Z) :
  wellFormed (initialState initialSeed).
Proof. unfold wellFormed. cbn. split; [discriminate | reflexivity]. Qed.

Lemma lookup_in_range {A : Type} (l : list A) (j : Z) :
  0 <= j < len l -> exists a, lookup l j = Some a.
Proof.
  intros Hj. unfold lookup. destruct (Z.ltb_spec j 0); [lia|].
  destruct (nth_error l (Z.to_nat j)) as [a|] eqn:Ha; [exists a; reflexivity|].
  apply nth_error_None in Ha. unfold len in Hj. lia.
Qed.

(** The indices collected while walking an array from index [i] lie in the
    array. *)
Lemma reducei_from_indices (m : Z) (l : list Z) :
  forall (i : Z) (acc : list Z) (hi : Z),
    (forall j, In j acc -> 0 <= j < hi) -> 0 <= i -> i + len l <= hi ->
    forall j,
      In j (reducei_from (fun (acc : list Z) (val index : Z) =>
                            if val =? m then acc ++ [index] else acc)
                         i l acc) ->
      0 <= j < hi.
Proof.
  induction l as [|v l IH]; intros i acc hi Hacc Hi Hhi j; cbn [reducei_from].
  - apply Hacc.
  - rewrite len_cons in Hhi. pose proof (len_nonneg l).
    apply IH; [|lia|lia].
    destruct (v =? m); [|exact Hacc].
    intros k Hk. apply in_app_iff in Hk. destruct Hk as [Hk | [<- | []]];
      [apply Hacc; exact Hk | lia].
Qed.

(** Choosing the lowest cell among indices of the block never reads outside
    the block. *)
Lemma yValueIndex_some (cells_ : list Cell) (indices : list Z) :
  (forall j, In j indices -> 0 <= j < len cells_) ->
  forall a0 : Z * Z,
    0 <= fst a0 < len cells_ ->
    exists r,
      fold_left (fun (acc : option (Z * Z)) (val : Z) =>
                   let? a := acc in
                   let? c := lookup cells_ val in
                   Some (if y c <? snd a then a else (val, y c)))
                indices (Some a0) = Some r /\
      0 <= fst r < len cells_.
Proof.
  induction indices as [|v indices IH]; intros Hin a0 Ha0; cbn [fold_left].
  - exists a0. split; [reflexivity | exact Ha0].
  - cbn [bind].
    destruct (lookup_in_range cells_ v (Hin v (or_introl eq_refl))) as [c Hc].
    rewrite Hc. cbn [bind]. apply IH.
    + intros j Hj. apply Hin. right. exact Hj.
    + destruct (y c <? snd a0); [exact Ha0|]. cbn [fst].
      apply Hin. left. reflexivity.
Qed.

Lemma mapGhostTetro_some (cells_ : list Cell) (block : Tetro) (offset : Z) :
  (length cells_ <= length (cells block))%nat ->
  exists ghostCells, Tick.mapGhostTetro cells_ block offset = Some ghostCells.
Proof.
  intros Hlen. unfold Tick.mapGhostTetro, mapiM.
  destruct (mapiM_from_lookup (cells block)
              (fun cell bc =>
                 with_color "grey" (with_y (y bc + offset) (with_x (x bc) cell)))
              cells_ 0) as [ghostCells [H _]]; [lia | cbn; lia |].
  exists ghostCells. exact H.
Qed.

(** Tick returns a state on every well-formed state, provided that, when it
    has to spawn, shapes can be drawn from the seed and from its hash. *)
Lemma Tick_performs (time : Z) (s : State) :
  wellFormed s ->
  (needsBlock s -> validSeed (seed s) /\ validSeed (RNG.hash (seed s))) ->
  exists s', Tick.perform time s = Some s'.
Proof.
  intros Hwf Hseeds. apply wellFormed_lineClearCheck in Hwf.
  destruct (lineClearCheck_frame s) as [Ec [_ [_ [_ [Es _]]]]].
  unfold needsBlock in Hseeds. rewrite <- Ec, <- Es in Hseeds.
  unfold Tick.perform. cbv zeta.
  destruct Hwf as [_ Hs].
  (* the current block *)
  assert (Hblock : exists block,
             (if match currentBlock (lineClearCheck s) with
                 | Some cur => collided cur
                 | None => true
                 end
              then Tick.createTetrominoes
                     (Viewport.CANVAS_WIDTH / 2 - Block.WIDTH) Block.HEIGHT
                     (blockCount (lineClearCheck s)) (seed (lineClearCheck s))
                     false (lineClearCheck s)
              else currentBlock (lineClearCheck s)) = Some block /\
             wfTetro block /\ validSeed (pieceSeed block)).
  { destruct (currentBlock (lineClearCheck s)) as [cur|].
    - destruct (collided cur) eqn:Hcol.
      + destruct (Hseeds eq_refl) as [Hv _].
        destruct (createTetrominoes_some
                    (Viewport.CANVAS_WIDTH / 2 - Block.WIDTH) Block.HEIGHT
                    (blockCount (lineClearCheck s)) _ false (lineClearCheck s)
                    Hv) as [block [E [Hsd _]]].
        exists block. split; [exact E|].
        destruct (createTetrominoes_wf _ _ _ _ _ _ _ E) as [H1 _].
        rewrite Hsd. split; assumption.
      + exists cur. destruct Hs as [H1 [H2 _]].
        split; [reflexivity|]. split; assumption.
    - destruct (Hseeds I) as [Hv _].
      destruct (createTetrominoes_some
                  (Viewport.CANVAS_WIDTH / 2 - Block.WIDTH) Block.HEIGHT
                  (blockCount (lineClearCheck s)) _ false (lineClearCheck s)
                  Hv) as [block [E [Hsd _]]].
      exists block. split; [exact E|].
      destruct (createTetrominoes_wf _ _ _ _ _ _ _ E) as [H1 _].
      rewrite Hsd. split; assumption. }
  destruct Hblock as [block [-> [[Hlen [Hrot Hpivot]] Hvalid]]]. cbn [bind].
  assert (Hlen4 : len (cells block) = 4) by (unfold len; rewrite Hlen; reflexivity).
  (* the lowest free place *)
  destruct (cells block) as [|c0 rest] eqn:Hcells; [discriminate Hlen|].
  assert (Hblen : length (cells block) = 4%nat) by (rewrite Hcells; exact Hlen).
  cbn [map Math_min bind]. rewrite <- Hcells.
  match goal with
  | |- context [fold_left ?f ?idx (Some (0, 0))] =>
      destruct (yValueIndex_some (cells block) idx) with (a0 := (0, 0))
        as [yValueIndex [Hfold Hrange]]
  end.
  { intros j Hj. rewrite Hcells, Hlen4.
    revert j Hj. apply reducei_from_indices; [intros j []|lia|].
    cbn [length] in Hlen. rewrite len_cons. unfold len.
    rewrite length_map. lia. }
  { cbn [fst]. rewrite Hcells, Hlen4. lia. }
  rewrite Hfold. cbn [bind].
  destruct (lookup_in_range (cells block) (fst yValueIndex) Hrange)
    as [lowest Hlow].
  rewrite Hlow. cbn [bind].
  (* the ghost *)
  match goal with
  | |- context [Tick.createTetrominoes 0 0 ?bc (pieceSeed block) true ?st] =>
      destruct (createTetrominoes_some 0 0 bc (pieceSeed block) true st Hvalid)
        as [ghostTetro [Hghost _]]
  end.
  rewrite Hghost. cbn [bind].
  destruct (createTetrominoes_wf _ _ _ _ _ _ _ Hghost) as [[Hglen _] _].
  match goal with
  | |- context [Tick.mapGhostTetro (cells ghostTetro) block ?off] =>
      destruct (mapGhostTetro_some (cells ghostTetro) block off)
        as [ghostCells Hgc]; [lia|]
  end.
  rewrite Hgc. cbn [bind].
  assert (Hgc' : exists ghostCells',
             (if hasBlocksAround ghostCells s 0 DirX
                 || hasBoundaryAround ghostCells s 0 DirY
              then Tick.mapGhostTetro ghostCells block
                     (fold_left Z.min
                        (map (fun c =>
                                fold_left
                                  (fun acc b =>
                                     if (x c =? x b) && (y b <? acc)
                                        && (y c <? y b)
                                     then y b else acc)
                                  (blocks (lineClearCheck s)) 400
                                - Block.HEIGHT) rest)
                        (fold_left
                           (fun acc b =>
                              if (x c0 =? x b) && (y b <? acc) && (y c0 <? y b)
                              then y b else acc)
                           (blocks (lineClearCheck s)) 400 - Block.HEIGHT)
                      - y lowest - Block.HEIGHT)
              else Some ghostCells) = Some ghostCells').
  { destruct (hasBlocksAround ghostCells s 0 DirX
              || hasBoundaryAround ghostCells s 0 DirY).
    - apply mapGhostTetro_some.
      rewrite (mapGhostTetro_length _ _ _ _ Hgc). lia.
    - exists ghostCells. reflexivity. }
  destruct Hgc' as [ghostCells' ->]. cbn [bind].
  (* the preview *)
  destruct (nextBlock (lineClearCheck s)) as [nb|] eqn:Hnb;
    destruct (currentBlock (lineClearCheck s)) as [cur|] eqn:Hc;
    cbn [bind]; try rewrite Hc in Hs; try rewrite Hc in Hseeds.
  - destruct (collided cur) eqn:Hcol; [|eexists; reflexivity].
    destruct (Hseeds eq_refl) as [_ Hv].
    match goal with
    | |- context [Tick.createTetrominoes ?a ?b ?bc ?sd true ?st] =>
        destruct (createTetrominoes_some a b bc sd true st Hv)
          as [next' [-> _]]
    end.
    cbn [bind]. eexists. reflexivity.
  - first [discriminate Hs | rewrite Hs in Hnb; discriminate Hnb].
  - destruct Hs as [_ [_ [_ [next [Hn _]]]]].
    first [discriminate Hn | rewrite Hn in Hnb; discriminate Hnb].
  - destruct (Hseeds I) as [_ Hv].
    match goal with
    | |- context [Tick.createTetrominoes ?a ?b ?bc ?sd true ?st] =>
        destruct (createTetrominoes_some a b bc sd true st Hv)
          as [next' [-> _]]
    end.
    cbn [bind]. eexists. reflexivity.
Qed.

Lemma validSeed_dec (sd : Z) : {validSeed sd} + {~ validSeed sd}.
Proof.
  unfold validSeed.
  destruct (Z_le_dec 0 (RNG.scale sd)); [|right; lia].
  destruct (Z_lt_dec (RNG.scale sd) 7); [left; lia | right; lia].
Qed.

Lemma needsBlock_dec (s : State) : {needsBlock s} + {~ needsBlock s}.
Proof.
  unfold needsBlock. destruct (currentBlock s) as [cur|]; [|left; exact I].
  destruct (collided cur); [left; reflexivity | right; discriminate].
Qed.

(** Hold returns a state on every well-formed state, provided that, with
    nothing held, a shape can be drawn for the preview to come. *)
Lemma Hold_total (s : State) :
  wellFormed s ->
  (heldBlock s = None -> validSeed (RNG.hash (RNG.hash (seed s)))) ->
  exists s', Hold.perform s = Some s'.
Proof.
  intros [Hheld Hs] Hseed.
  destruct (currentBlock s) as [cur|] eqn:Hcur.
  2:{ exists s. unfold Hold.perform. rewrite Hcur. reflexivity. }
  destruct (collided cur) eqn:Hcol.
  { exists s. unfold Hold.perform. rewrite Hcur, Hcol. reflexivity. }
  destruct (canHoldAgain s) eqn:Hcan.
  2:{ exists s. apply Hold_refused. exact Hcan. }
  destruct Hs as [_ [Hv [_ [next [Hnext Hnv]]]]].
  destruct (Hold_performs s cur) as [s1 [_ [_ [Hp _]]]].
  - unfold holdReady. split; [exact Hcur|]. split; [exact Hcol|].
    split; [exact Hcan|]. split; [exact Hv|].
    destruct (heldBlock s) as [held|] eqn:Hh.
    + apply Hheld. reflexivity.
    + exists next. split; [exact Hnext|]. split; [exact Hnv|].
      apply Hseed. reflexivity.
  - exists s1. exact Hp.
Qed.

(** X1.  Every state an action sequence reaches from the initial state is
    well formed: before the first Tick there is neither current block nor
    preview, and from then on the current block has four cells, a rotation
    index of its shape and a pivot, and a ghost of four cells and a preview
    stand beside it. *)
Theorem reachable_states_well_formed :
  forall (initialSeed : Z) (actions : list Action) (s : State),
    run (initialState initialSeed) actions = Some s ->
    (forall held, heldBlock s = Some held -> validSeed (pieceSeed held)) /\
    match currentBlock s with
    | None => nextBlock s = None
    | Some cur =>
        (length (cells cur) = 4%nat /\
         0 <= rotation cur < len (TetroStartPosMap (shape cur)) /\
         originBlock cur <> None) /\
        validSeed (pieceSeed cur) /\
        (exists ghost, ghostBlock s = Some ghost /\
                       length (cells ghost) = 4%nat) /\
        (exists next, nextBlock s = Some next /\ validSeed (pieceSeed next))
    end.
Proof.
  intros initialSeed actions s Hrun.
  exact (wellFormed_run actions _ s (wellFormed_initialState initialSeed) Hrun).
Qed.

(** Where an action can throw on a well-formed state. *)
Lemma throws_only (s : State) (a : Action) :
  wellFormed s -> perform a s = None ->
  (a = Collision /\ currentBlock s = None) \/
  ((exists time, a = Tick time) /\ needsBlock s /\
   (~ validSeed (seed s) \/ ~ validSeed (RNG.hash (seed s)))) \/
  (a = Hold /\ heldBlock s = None /\
   ~ validSeed (RNG.hash (RNG.hash (seed s)))).
Proof.
  intros Hwf Hnone.
  destruct a as [direction offset | time | | | | ]; cbn [perform] in Hnone.
  - unfold Move.perform in Hnone.
    destruct (currentBlock s); discriminate Hnone.
  - right. left. split; [exists time; reflexivity|].
    destruct (needsBlock_dec s) as [Hneeds|Hneeds].
    + split; [exact Hneeds|].
      destruct (validSeed_dec (seed s)) as [Hv1|Hv1]; [|left; exact Hv1].
      destruct (validSeed_dec (RNG.hash (seed s))) as [Hv2|Hv2];
        [|right; exact Hv2].
      destruct (Tick_performs time s Hwf) as [s' Hs']; [tauto|].
      rewrite Hs' in Hnone. discriminate Hnone.
    + destruct (Tick_performs time s Hwf) as [s' Hs']; [tauto|].
      rewrite Hs' in Hnone. discriminate Hnone.
  - destruct (currentBlock s) as [cur|] eqn:Hcur.
    + destruct Hwf as [_ Hs]. rewrite Hcur in Hs. destruct Hs as [Hcurwf _].
      destruct (Rotate_performs s cur Hcur Hcurwf) as [s' [cur' [Hp _]]].
      rewrite Hp in Hnone. discriminate Hnone.
    + unfold Rotate.perform in Hnone. rewrite Hcur in Hnone.
      discriminate Hnone.
  - right. right. split; [reflexivity|].
    destruct (heldBlock s) as [held|] eqn:Hh.
    + destruct (Hold_total s Hwf) as [s' Hs']; [rewrite Hh; discriminate|].
      rewrite Hs' in Hnone. discriminate Hnone.
    + split; [reflexivity|].
      destruct (validSeed_dec (RNG.hash (RNG.hash (seed s)))) as [Hv|Hv];
        [|exact Hv].
      destruct (Hold_total s Hwf) as [s' Hs']; [intros _; exact Hv|].
      rewrite Hs' in Hnone. discriminate Hnone.
  - destruct (currentBlock s) as [cur|] eqn:Hcur.
    + destruct (collided cur) eqn:Hcol.
      * unfold Drop.perform in Hnone. rewrite Hcur, Hcol in Hnone.
        discriminate Hnone.
      * destruct Hwf as [_ Hs]. rewrite Hcur in Hs.
        destruct Hs as [[Hlen _] [_ [[ghost [Hg Hglen]] _]]].
        destruct (Drop_performs s cur ghost Hcur Hcol Hg) as [s' [_ [Hp _]]];
          [lia|].
        rewrite Hp in Hnone. discriminate Hnone.
    + unfold Drop.perform in Hnone. rewrite Hcur in Hnone. discriminate Hnone.
  - left. split; [reflexivity|].
    unfold Collision.perform, collisionDetection in Hnone.
    destruct (currentBlock s); [discriminate Hnone | reflexivity].
Qed.

(** X2.  On a state reached from the initial state an action throws in
    three cases only: Collision when there is no current block; Tick when
    it has to spawn and no shape can be drawn from the seed or from its
    hash; Hold when nothing is held and no shape can be drawn from the
    hash of the hash of the seed.  Move, Rotate and Drop never throw. *)
Theorem throw_sites :
  forall (initialSeed : Z) (actions : list Action) (s : State) (a : Action),
    run (initialState initialSeed) actions = Some s ->
    perform a s = None ->
    (a = Collision /\ currentBlock s = None) \/
    ((exists time, a = Tick time) /\ needsBlock s /\
     (~ validSeed (seed s) \/ ~ validSeed (RNG.hash (seed s)))) \/
    (a = Hold /\ heldBlock s = None /\
     ~ validSeed (RNG.hash (RNG.hash (seed s)))).
Proof.
  intros initialSeed actions s a Hrun Hnone.
  apply throws_only; [|exact Hnone].
  exact (wellFormed_run actions _ s (wellFormed_initialState initialSeed) Hrun).
Qed.
Lemma throw_sites_witness :
  (Collision = Collision /\ currentBlock (initialState seedO) = None) \/
  ((exists time, Collision = Tick time) /\ needsBlock (initialState seedO) /\
   (~ validSeed (seed (initialState seedO))
    \/ ~ validSeed (RNG.hash (seed (initialState seedO))))) \/
  (Collision = Hold /\ heldBlock (initialState seedO) = None /\
   ~ validSeed (RNG.hash (RNG.hash (seed (initialState seedO))))).
Proof.
  apply (throw_sites seedO [] (initialState seedO) Collision); reflexivity.
Defined.

Lemma reachable_states_well_formed_witness :
  exists s cur ghost,
    run (initialState seedIIO) fillBottomRow = Some s /\
    currentBlock s = Some cur /\ length (cells cur) = 4%nat /\
    ghostBlock s = Some ghost /\ length (cells ghost) = 4%nat.
Proof.
  assert (Hrun : run (initialState seedIIO) fillBottomRow
                 = Some (stateAfter seedIIO fillBottomRow))
    by (vm_compute; reflexivity).
  pose proof (reachable_states_well_formed seedIIO fillBottomRow _ Hrun)
    as [_ Hs].
  destruct (currentBlock (stateAfter seedIIO fillBottomRow)) as [cur|] eqn:Hcur.
  - destruct Hs as [[Hlen _] [_ [[ghost [Hg Hglen]] _]]].
    exists (stateAfter seedIIO fillBottomRow), cur, ghost.
    split; [exact Hrun|]. split; [exact Hcur|]. split; [exact Hlen|].
    split; [exact Hg | exact Hglen].
  - vm_compute in Hcur. discriminate Hcur.
Defined.

(** ** What the actions leave alone *)

(** The state line-clear resolution hands to the rest of an action: Tick
    runs it, the other actions do not touch the score. *)
Lemma perform_scores (a : Action) (s s' : State) :
  perform a s = Some s' ->
  let base := match a with Tick _ => lineClearCheck s | _ => s end in
  points s' = points base /\ lineClears s' = lineClears base /\
  level s' = level base /\ highscore s' = highscore base.
Proof.
  destruct a as [direction offset | time | | | | ]; cbn [perform]; cbv zeta.
  - unfold Move.perform. destruct (currentBlock s);
      intros H; injection H as <-; repeat split.
  - intros H. destruct (Tick_perform_keeps time s s' H)
      as [_ [Hp [Hl [Hlv [_ [Hh _]]]]]]. repeat split; assumption.
  - destruct (currentBlock s) as [cur|] eqn:Hcur.
    + unfold Rotate.perform. rewrite Hcur. bind_cases.
      destruct (negb _); [intros H; injection H as <-; repeat split|].
      bind_cases. destruct (_ =? 0); [intros H; injection H as <-; repeat split|].
      bind_cases. intros H; injection H as <-; repeat split.
    + unfold Rotate.perform. rewrite Hcur.
      intros H; injection H as <-; repeat split.
  - unfold Hold.perform. destruct (currentBlock s) as [cur|];
      [|intros H; injection H as <-; repeat split].
    destruct (_ || _); [intros H; injection H as <-; repeat split|].
    bind_cases. intros H; injection H as <-; repeat split.
  - unfold Drop.perform. destruct (currentBlock s) as [cur|];
      [|intros H; injection H as <-; repeat split].
    destruct (collided cur); [intros H; injection H as <-; repeat split|].
    bind_cases. intros H; injection H as <-; repeat split.
  - unfold Collision.perform, collisionDetection. bind_cases.
    intros H; injection H as <-; repeat split.
Qed.

(** A resolution leaves the score as it is, or clears [n >= 1] lines. *)
Lemma lineClearCheck_counts (s : State) :
  (points (lineClearCheck s) = points s /\
   lineClears (lineClearCheck s) = lineClears s /\
   level (lineClearCheck s) = level s /\
   highscore (lineClearCheck s) = highscore s) \/
  exists n,
    1 <= n /\
    points (lineClearCheck s) = points s + 100 * n /\
    lineClears (lineClearCheck s) = lineClears s + n /\
    level (lineClearCheck s) = (lineClears s + n) / 10 /\
    highscore (lineClearCheck s) = Z.max (highscore s) (points s + 100 * n).
Proof.
  destruct (currentBlock s) as [block|] eqn:Hcur.
  2:{ left. unfold lineClearCheck. rewrite Hcur. repeat split. }
  destruct (collided block) eqn:Hcol.
  2:{ left. unfold lineClearCheck. rewrite Hcur, Hcol. repeat split. }
  destruct (Z_le_dec 1 (len (fullRows s block))) as [Hk|Hk].
  - right. exists (len (fullRows s block)). split; [exact Hk|].
    destruct (lineClearCheck_scores s block Hcur Hcol Hk)
      as [Hp [Hl [Hlv [_ [Hh _]]]]].
    repeat split; assumption.
  - left. unfold lineClearCheck. rewrite Hcur, Hcol. cbn [negb]. cbv zeta.
    rewrite AllBlockInFullLine_length.
    pose proof (len_nonneg (fullRows s block)).
    replace (len (fullRows s block)) with 0 by lia.
    cbn. repeat split.
Qed.

Lemma scoreKept_lineClearCheck (carried : Z) (s : State) :
  scoreKept carried s -> scoreKept carried (lineClearCheck s).
Proof.
  unfold scoreKept. intros [Hl [Hp [Hlv Hh]]].
  destruct (lineClearCheck_counts s) as [[-> [-> [-> ->]]] | [n [Hn [-> [-> [-> ->]]]]]].
  - repeat split; assumption.
  - repeat split; try lia.
Qed.

Lemma scoreKept_perform (carried : Z) (a : Action) (s s' : State) :
  scoreKept carried s -> perform a s = Some s' -> scoreKept carried s'.
Proof.
  intros Hs Ha. destruct (perform_scores a s s' Ha) as [Hp [Hl [Hlv Hh]]].
  assert (Hbase : scoreKept carried
                    match a with Tick _ => lineClearCheck s | _ => s end).
  { destruct a; try exact Hs. apply scoreKept_lineClearCheck. exact Hs. }
  unfold scoreKept in *. rewrite Hp, Hl, Hlv, Hh. exact Hbase.
Qed.

Lemma scoreKept_run (carried : Z) (actions : list Action) :
  forall s s', scoreKept carried s -> run s actions = Some s' ->
               scoreKept carried s'.
Proof.
  induction actions as [|a actions IH]; intros s s' Hs; cbn [run].
  - intros H. injection H as <-. exact Hs.
  - destruct (perform a s) as [s1|] eqn:Ha; cbn [bind]; [|discriminate].
    apply IH. exact (scoreKept_perform carried a s s1 Hs Ha).
Qed.

(** X3.  In every state of a game started from the initial state the score
    is consistent: [points] is 100 times [lineClears], [level] is
    [lineClears] divided by ten, rounded down, and [highscore] equals
    [points]. *)
Theorem score_consistent :
  forall (initialSeed : Z) (actions : list Action) (s : State),
    run (initialState initialSeed) actions = Some s ->
    0 <= lineClears s /\ points s = 100 * lineClears s /\
    level s = lineClears s / 10 /\ highscore s = points s.
Proof.
  intros initialSeed actions s Hrun.
  destruct (scoreKept_run 0 actions (initialState initialSeed) s) as
    [Hl [Hp [Hlv Hh]]]; [|exact Hrun|].
  - unfold scoreKept. cbn. lia.
  - repeat split; try assumption. lia.
Qed.

(** X4.  A game restarted from a finished one carries the highscore: in
    every state of the new game [highscore] is the larger of the carried
    highscore and the new game's [points], so it never falls below the
    carried one, and the score of the new game is consistent from zero. *)
Theorem restart_carries_highscore :
  forall (initialSeed : Z) (finished : State) (actions : list Action)
         (s : State),
    0 <= highscore finished ->
    run (restartState initialSeed finished) actions = Some s ->
    highscore s = Z.max (highscore finished) (points s) /\
    highscore finished <= highscore s /\
    points s = 100 * lineClears s /\ level s = lineClears s / 10.
Proof.
  intros initialSeed finished actions s Hh0 Hrun.
  destruct (scoreKept_run (highscore finished) actions
              (restartState initialSeed finished) s) as [Hl [Hp [Hlv Hh]]];
    [|exact Hrun|].
  - unfold scoreKept. cbn. lia.
  - repeat split; try assumption. lia.
Qed.

Lemma score_consistent_witness :
  exists s,
    run (initialState seedIIO) (fillBottomRow ++ [Tick 6]) = Some s /\
    points s = 100 * lineClears s /\ highscore s = points s /\ points s = 100.
Proof.
  assert (Hrun : run (initialState seedIIO) (fillBottomRow ++ [Tick 6])
                 = Some (stateAfter seedIIO (fillBottomRow ++ [Tick 6])))
    by (vm_compute; reflexivity).
  destruct (score_consistent seedIIO _ _ Hrun) as [_ [Hp [_ Hh]]].
  eexists. split; [exact Hrun|]. split; [exact Hp|]. split; [exact Hh|].
  vm_compute. reflexivity.
Defined.

Lemma restart_carries_highscore_witness :
  exists s,
    run (restartState seedO (stateAfter seedIIO (fillBottomRow ++ [Tick 6])))
        [Tick 0; Drop]
    = Some s /\ highscore s = 100 /\ points s = 0.
Proof.
  assert (Hfinished :
            0 <= highscore (stateAfter seedIIO (fillBottomRow ++ [Tick 6])))
    by (vm_compute; discriminate).
  assert (Hrun :
    run (restartState seedO (stateAfter seedIIO (fillBottomRow ++ [Tick 6])))
        [Tick 0; Drop]
    = Some (stateFrom
              (restartState seedO
                 (stateAfter seedIIO (fillBottomRow ++ [Tick 6])))
              [Tick 0; Drop])) by (vm_compute; reflexivity).
  destruct (restart_carries_highscore seedO
              (stateAfter seedIIO (fillBottomRow ++ [Tick 6]))
              [Tick 0; Drop]
              (stateFrom
                 (restartState seedO
                    (stateAfter seedIIO (fillBottomRow ++ [Tick 6])))
                 [Tick 0; Drop])
              Hfinished Hrun) as [Hh _].
  exists (stateFrom
            (restartState seedO
               (stateAfter seedIIO (fillBottomRow ++ [Tick 6])))
            [Tick 0; Drop]).
  split; [exact Hrun|].
  split; [rewrite Hh|]; vm_compute; reflexivity.
Defined.

Lemma perform_monotone (a : Action) (s s' : State) :
  perform a s = Some s' ->
  points s <= points s' /\ lineClears s <= lineClears s' /\
  highscore s <= highscore s'.
Proof.
  intros Ha. destruct (perform_scores a s s' Ha) as [Hp [Hl [_ Hh]]].
  rewrite Hp, Hl, Hh. destruct a; try lia.
  destruct (lineClearCheck_counts s)
    as [[-> [-> [_ ->]]] | [n [Hn [-> [-> [_ ->]]]]]]; lia.
Qed.

(** X5.  Along any run, from any state, [points], [lineClears] and
    [highscore] never decrease. *)
Theorem scores_never_decrease :
  forall (s : State) (actions : list Action) (s' : State),
    run s actions = Some s' ->
    points s <= points s' /\ lineClears s <= lineClears s' /\
    highscore s <= highscore s'.
Proof.
  intros s actions. revert s.
  induction actions as [|a actions IH]; intros s s'; cbn [run].
  - intros H. injection H as <-. lia.
  - destruct (perform a s) as [s1|] eqn:Ha; cbn [bind]; [|discriminate].
    intros Hrun. pose proof (perform_monotone a s s1 Ha).
    pose proof (IH s1 s' Hrun). lia.
Qed.

Lemma scores_never_decrease_witness :
  points (stateAfter seedIIO fillBottomRow)
  <= points (stateFrom (stateAfter seedIIO fillBottomRow) [Tick 6; Drop]).
Proof.
  assert (Hrun : run (stateAfter seedIIO fillBottomRow) [Tick 6; Drop]
                 = Some (stateFrom (stateAfter seedIIO fillBottomRow)
                           [Tick 6; Drop]))
    by (vm_compute; reflexivity).
  destruct (scores_never_decrease (stateAfter seedIIO fillBottomRow)
              [Tick 6; Drop]
              (stateFrom (stateAfter seedIIO fillBottomRow) [Tick 6; Drop])
              Hrun) as [Hp _].
  exact Hp.
Defined.

(** ** The seed *)

Lemma perform_seed (a : Action) (s s' : State) :
  perform a s = Some s' ->
  match a with
  | Move _ _ | Rotate | Tick _ => seed s' = seed s
  | Drop =>
      match currentBlock s with
      | Some cur => if collided cur then seed s' = seed s
                    else seed s' = RNG.hash (seed s)
      | None => seed s' = seed s
      end
  | Collision =>
      match currentBlock s' with
      | Some cur' => if collided cur' then seed s' = RNG.hash (seed s)
                     else seed s' = seed s
      | None => False
      end
  | Hold => seed s' = seed s \/
            (heldBlock s = None /\ seed s' = RNG.hash (seed s))
  end.
Proof.
  destruct a as [direction offset | time | | | | ]; cbn [perform].
  - unfold Move.perform. destruct (currentBlock s);
      intros H; injection H as <-; reflexivity.
  - intros H. destruct (Tick_perform_keeps time s s' H)
      as [_ [_ [_ [_ [_ [_ [_ [Hs _]]]]]]]].
    rewrite Hs. apply lineClearCheck_frame.
  - destruct (currentBlock s) as [cur|] eqn:Hcur.
    + unfold Rotate.perform. rewrite Hcur. bind_cases.
      destruct (negb _); [intros H; injection H as <-; reflexivity|].
      bind_cases. destruct (_ =? 0); [intros H; injection H as <-; reflexivity|].
      bind_cases. intros H; injection H as <-; reflexivity.
    + unfold Rotate.perform. rewrite Hcur.
      intros H; injection H as <-; reflexivity.
  - unfold Hold.perform. destruct (currentBlock s) as [cur|];
      [|intros H; injection H as <-; left; reflexivity].
    destruct (_ || _); [intros H; injection H as <-; left; reflexivity|].
    bind_cases. intros H; injection H as <-. cbn.
    destruct (heldBlock s); [left; reflexivity | right; split; reflexivity].
  - unfold Drop.perform. destruct (currentBlock s) as [cur|];
      [|intros H; injection H as <-; reflexivity].
    destruct (collided cur); [intros H; injection H as <-; reflexivity|].
    bind_cases. intros H; injection H as <-; reflexivity.
  - unfold Collision.perform, collisionDetection. bind_cases.
    intros H; injection H as <-. cbn.
    destruct (_ || _); reflexivity.
Qed.

Lemma perform_seed_step (a : Action) (s s' : State) :
  perform a s = Some s' ->
  seed s' = seed s \/ seed s' = RNG.hash (seed s).
Proof.
  intros Ha. pose proof (perform_seed a s s' Ha) as H.
  destruct a; try (left; exact H).
  - destruct H as [H | [_ H]]; [left | right]; exact H.
  - destruct (currentBlock s) as [cur|]; [|left; exact H].
    destruct (collided cur); [left | right]; exact H.
  - destruct (currentBlock s') as [cur'|]; [|contradiction].
    destruct (collided cur'); [right | left]; exact H.
Qed.

(** X6.  The seed changes by [RNG.hash] only: Move, Rotate and Tick leave
    it as it is, every other action leaves it or hashes it once, and after
    any run the seed is the first seed hashed at most once per action. *)
Theorem seed_is_iterated_hash :
  forall (s : State) (actions : list Action) (s' : State),
    run s actions = Some s' ->
    (forall a s1 s2,
       perform a s1 = Some s2 ->
       match a with
       | Move _ _ | Rotate | Tick _ => seed s2 = seed s1
       | _ => seed s2 = seed s1 \/ seed s2 = RNG.hash (seed s1)
       end) /\
    exists n : nat,
      (n <= length actions)%nat /\ seed s' = Nat.iter n RNG.hash (seed s).
Proof.
  intros s actions s' Hrun. split.
  - intros a s1 s2 Ha. pose proof (perform_seed a s1 s2 Ha) as H.
    pose proof (perform_seed_step a s1 s2 Ha) as H'.
    destruct a; assumption.
  - revert s s' Hrun.
    induction actions as [|a actions IH]; intros s s'; cbn [run].
    + intros H. injection H as <-. exists 0%nat. split; [lia | reflexivity].
    + destruct (perform a s) as [s1|] eqn:Ha; cbn [bind]; [|discriminate].
      intros Hrun. destruct (IH s1 s' Hrun) as [n [Hn Hs]].
      destruct (perform_seed_step a s s1 Ha) as [H | H]; rewrite H in Hs.
      * exists n. split; [cbn [length]; lia | exact Hs].
      * exists (S n). split; [cbn [length]; lia|].
        rewrite Hs. rewrite Nat.iter_succ_r. reflexivity.
Qed.

Lemma seed_is_iterated_hash_witness :
  exists n : nat,
    (n <= length fillBottomRow)%nat /\
    seed (stateAfter seedIIO fillBottomRow)
    = Nat.iter n RNG.hash (seed (initialState seedIIO)).
Proof.
  assert (Hrun : run (initialState seedIIO) fillBottomRow
                 = Some (stateAfter seedIIO fillBottomRow))
    by (vm_compute; reflexivity).
  destruct (seed_is_iterated_hash (initialState seedIIO) fillBottomRow
              (stateAfter seedIIO fillBottomRow) Hrun) as [_ H].
  exact H.
Defined.

(** ** The committed blocks *)

(** X7.  The committed blocks change in two ways only: Tick leaves them as
    line-clear resolution returns them, and Drop and Collision, when they
    settle the current block, append its cells at the end.  Move, Rotate and
    Hold never touch them. *)
Theorem blocks_grow_by_settling :
  forall (a : Action) (s s' : State),
    perform a s = Some s' ->
    match a with
    | Move _ _ | Rotate | Hold => blocks s' = blocks s
    | Tick _ => blocks s' = blocks (lineClearCheck s)
    | Drop | Collision =>
        blocks s' = blocks s \/
        exists cur', currentBlock s' = Some cur' /\ collided cur' = true /\
                     blocks s' = blocks s ++ cells cur'
    end.
Proof.
  intros a s s'.
  destruct a as [direction offset | time | | | | ]; cbn [perform].
  - unfold Move.perform. destruct (currentBlock s);
      intros H; injection H as <-; reflexivity.
  - intros H. apply (Tick_perform_keeps time s s' H).
  - destruct (currentBlock s) as [cur|] eqn:Hcur.
    + unfold Rotate.perform. rewrite Hcur. bind_cases.
      destruct (negb _); [intros H; injection H as <-; reflexivity|].
      bind_cases. destruct (_ =? 0); [intros H; injection H as <-; reflexivity|].
      bind_cases. intros H; injection H as <-; reflexivity.
    + unfold Rotate.perform. rewrite Hcur.
      intros H; injection H as <-; reflexivity.
  - unfold Hold.perform. destruct (currentBlock s) as [cur|];
      [|intros H; injection H as <-; reflexivity].
    destruct (_ || _); [intros H; injection H as <-; reflexivity|].
    bind_cases. intros H; injection H as <-. reflexivity.
  - unfold Drop.perform. destruct (currentBlock s) as [cur|];
      [|intros H; injection H as <-; left; reflexivity].
    destruct (collided cur); [intros H; injection H as <-; left; reflexivity|].
    bind_cases. intros H; injection H as <-. right.
    eexists. split; [reflexivity|]. split; reflexivity.
  - unfold Collision.perform, collisionDetection. bind_cases.
    intros H; injection H as <-. cbn.
    destruct (_ || _); [right | left; reflexivity].
    eexists. split; [reflexivity|]. split; reflexivity.
Qed.

Lemma blocks_grow_by_settling_witness :
  blocks (stateFrom (stateAfter seedO [Tick 0]) [Drop])
  = blocks (stateAfter seedO [Tick 0]) \/
  exists cur',
    currentBlock (stateFrom (stateAfter seedO [Tick 0]) [Drop]) = Some cur' /\
    collided cur' = true /\
    blocks (stateFrom (stateAfter seedO [Tick 0]) [Drop])
    = blocks (stateAfter seedO [Tick 0]) ++ cells cur'.
Proof.
  assert (Hdrop : perform Drop (stateAfter seedO [Tick 0])
                  = Some (stateFrom (stateAfter seedO [Tick 0]) [Drop]))
    by (vm_compute; reflexivity).
  exact (blocks_grow_by_settling Drop (stateAfter seedO [Tick 0])
           (stateFrom (stateAfter seedO [Tick 0]) [Drop]) Hdrop).
Defined.

(** ** Drop and Collision in full *)

Lemma lookup_skipn {A : Type} (g : list A) (i : Z) (a : A) :
  0 <= i -> lookup g i = Some a ->
  skipn (Z.to_nat i) g = a :: skipn (Z.to_nat (i + 1)) g.
Proof.
  intros Hi. unfold lookup. destruct (Z.ltb_spec i 0); [lia|].
  replace (Z.to_nat (i + 1)) with (S (Z.to_nat i)) by lia.
  generalize (Z.to_nat i) as n. clear.
  intros n. revert g. induction n as [|n IH]; intros g; destruct g as [|b g];
    cbn [nth_error skipn]; try discriminate.
  - intros H. injection H as ->. reflexivity.
  - intros H. rewrite (IH g H). destruct g; reflexivity.
Qed.

(** A map that reads [g[index]] for every element walks along [g]. *)
Lemma mapiM_from_reads {A B C D : Type} (g : list C) (f : A -> C -> B)
  (h : B -> D) (h' : C -> D) (l : list A) :
  (forall a c, h (f a c) = h' c) ->
  forall i bs,
    0 <= i ->
    mapiM_from (fun index a => let? c := lookup g index in Some (f a c)) i l
    = Some bs ->
    map h bs = map h' (firstn (length l) (skipn (Z.to_nat i) g)).
Proof.
  intros Hf. induction l as [|a l IH]; intros i bs Hi; cbn [mapiM_from].
  - intros H. injection H as <-. reflexivity.
  - destruct (lookup g i) as [c|] eqn:Hc; cbn [bind]; [|discriminate].
    destruct (mapiM_from _ (i + 1) l) as [bs'|] eqn:Hbs; cbn [bind];
      [|discriminate].
    intros H. injection H as <-.
    rewrite (lookup_skipn g i c Hi Hc). cbn [length firstn map].
    rewrite Hf. f_equal. apply IH; [lia | exact Hbs].
Qed.

(** X8.  Drop of a live block puts every cell on the place of the ghost
    cell of the same index and keeps its id and colour; the block is marked
    collided with its rotation and its pivot as they were, its cells are
    appended to the committed blocks, holding is allowed again and the seed
    is hashed. *)
Theorem Drop_snaps_to_ghost :
  forall (s s' : State) (cur ghost : Tetro),
    currentBlock s = Some cur -> collided cur = false ->
    ghostBlock s = Some ghost ->
    length (cells cur) = length (cells ghost) ->
    Drop.perform s = Some s' ->
    exists cur',
      currentBlock s' = Some cur' /\ collided cur' = true /\
      map position (cells cur') = map position (cells ghost) /\
      map id (cells cur') = map id (cells cur) /\
      map color (cells cur') = map color (cells cur) /\
      rotation cur' = rotation cur /\ originBlock cur' = originBlock cur /\
      blocks s' = blocks s ++ cells cur' /\
      canHoldAgain s' = true /\ seed s' = RNG.hash (seed s).
Proof.
  intros s s' cur ghost Hcur Hlive Hghost Hlen. unfold Drop.perform.
  rewrite Hcur, Hlive, Hghost. cbn [bind]. unfold mapiM.
  destruct (mapiM_from _ 0 (cells cur)) as [dropped|] eqn:Hd; cbn [bind];
    [|discriminate].
  intros H. injection H as <-. eexists. split; [reflexivity|]. cbn.
  split; [reflexivity|]. split; [|split; [|split]].
  - rewrite (mapiM_from_reads (cells ghost)
               (fun cell g => with_y (y g) (with_x (x g) cell))
               position position (cells cur) (fun a c => eq_refl) 0 dropped
               ltac:(lia) Hd).
    cbn [Z.to_nat skipn]. rewrite Hlen, firstn_all. reflexivity.
  - apply (mapiM_from_map _ id id _) in Hd; [exact Hd|].
    intros i a b. bind_cases. intros Hb. injection Hb as <-. reflexivity.
  - apply (mapiM_from_map _ color color _) in Hd; [exact Hd|].
    intros i a b. bind_cases. intros Hb. injection Hb as <-. reflexivity.
  - repeat split.
Qed.

Lemma Drop_snaps_to_ghost_witness :
  exists cur',
    currentBlock (stateFrom (stateAfter seedO [Tick 0]) [Drop]) = Some cur' /\
    map position (cells cur') = [(80, 360); (80, 380); (100, 360); (100, 380)].
Proof.
  assert (Hcur : exists cur ghost,
             currentBlock (stateAfter seedO [Tick 0]) = Some cur /\
             collided cur = false /\
             ghostBlock (stateAfter seedO [Tick 0]) = Some ghost /\
             length (cells cur) = length (cells ghost) /\
             map position (cells ghost)
             = [(80, 360); (80, 380); (100, 360); (100, 380)]).
  { vm_compute. eexists. eexists. repeat split. }
  destruct Hcur as [cur [ghost [Hcur [Hlive [Hghost [Hlen Hpos]]]]]].
  assert (Hdrop : Drop.perform (stateAfter seedO [Tick 0])
                  = Some (stateFrom (stateAfter seedO [Tick 0]) [Drop]))
    by (vm_compute; reflexivity).
  destruct (Drop_snaps_to_ghost (stateAfter seedO [Tick 0])
              (stateFrom (stateAfter seedO [Tick 0]) [Drop]) cur ghost
              Hcur Hlive Hghost Hlen Hdrop) as [cur' [Hc' [_ [Hp _]]]].
  exists cur'. split; [exact Hc'|]. rewrite Hp. exact Hpos.
Defined.

Lemma collisionCondition_iff (s : State) (cur : Tetro) :
  ((0 <? len (filter (fun c =>
                        itemCollided (x c, y c) (x c, Viewport.CANVAS_HEIGHT))
                     (cells cur)))
   || (0 <? len (filter (fun c =>
                           0 <? len (filter (fun b =>
                                               itemCollided (x c, y c)
                                                 (x b, y b))
                                       (blocks s)))
                        (cells cur)))) = true
  <-> rests s cur.
Proof.
  rewrite !len_filter_pos. rewrite orb_true_iff, !existsb_exists.
  unfold rests, itemCollided. cbn [fst snd]. split.
  - intros [[c [Hin Hc]] | [c [Hin Hc]]]; exists c; (split; [exact Hin|]).
    + left. apply andb_true_iff in Hc. destruct Hc as [_ Hc].
      apply Z.eqb_eq in Hc. exact Hc.
    + right. rewrite len_filter_pos in Hc. apply existsb_exists in Hc.
      destruct Hc as [b [Hb Hc]]. exists b. split; [exact Hb|].
      apply andb_true_iff in Hc. rewrite !Z.eqb_eq in Hc. exact Hc.
  - intros [c [Hin [Hfloor | [b [Hb [Hx Hy]]]]]].
    + left. exists c. split; [exact Hin|].
      apply andb_true_iff. rewrite !Z.eqb_eq. split; [reflexivity | exact Hfloor].
    + right. exists c. split; [exact Hin|].
      rewrite len_filter_pos. apply existsb_exists. exists b.
      split; [exact Hb|]. apply andb_true_iff. rewrite !Z.eqb_eq.
      split; assumption.
Qed.

(** X9.  Collision, given a current block, always returns a state, with
    the same cells for the block, and marks the block collided exactly when
    it rests now (some cell on the floor row or right on top of a committed
    block), whatever the mark was before.  If it rests, its cells are
    appended to the committed blocks, the seed is hashed and holding is
    allowed; if not, blocks, seed and hold permission stay as they are. *)
Theorem Collision_settles_iff_resting :
  forall (s : State) (cur : Tetro),
    currentBlock s = Some cur ->
    exists s' cur',
      Collision.perform s = Some s' /\ currentBlock s' = Some cur' /\
      cells cur' = cells cur /\
      (collided cur' = true <-> rests s cur) /\
      (rests s cur ->
       blocks s' = blocks s ++ cells cur /\ seed s' = RNG.hash (seed s) /\
       canHoldAgain s' = true) /\
      (~ rests s cur ->
       collided cur' = false /\ blocks s' = blocks s /\ seed s' = seed s /\
       canHoldAgain s' = canHoldAgain s).
Proof.
  intros s cur Hcur. unfold Collision.perform, collisionDetection.
  rewrite Hcur. cbn [bind]. eexists. eexists.
  split; [reflexivity|]. split; [reflexivity|]. cbn.
  pose proof (collisionCondition_iff s cur) as Hiff.
  destruct (_ || _) eqn:Hcond.
  - assert (Hr : rests s cur) by (apply Hiff; reflexivity).
    split; [reflexivity|]. split; [tauto|]. split; [repeat split|].
    intros Hn. contradiction.
  - assert (Hr : ~ rests s cur).
    { intros H. apply Hiff in H. discriminate H. }
    split; [reflexivity|]. split; [split; [discriminate | contradiction]|].
    split; [contradiction | repeat split].
Qed.

(** A T piece in the air is left as it is. *)
Lemma Collision_settles_iff_resting_witness :
  exists s' cur',
    Collision.perform (stateAfter seedT [Tick 0]) = Some s' /\
    currentBlock s' = Some cur' /\ collided cur' = false /\
    blocks s' = blocks (stateAfter seedT [Tick 0]).
Proof.
  assert (Hcur : exists cur,
             currentBlock (stateAfter seedT [Tick 0]) = Some cur /\
             forallb (fun c => negb (y c =? 380)) (cells cur) = true /\
             blocks (stateAfter seedT [Tick 0]) = []).
  { vm_compute. eexists. repeat split. }
  destruct Hcur as [cur [Hcur [Hair Hblocks]]].
  destruct (Collision_settles_iff_resting (stateAfter seedT [Tick 0]) cur Hcur)
    as [s' [cur' [Hp [Hc' [_ [_ [_ Hno]]]]]]].
  destruct Hno as [Hcol [Hb _]].
  { intros [c [Hin [Hfloor | [b [Hb _]]]]].
    - rewrite forallb_forall in Hair. specialize (Hair c Hin).
      apply negb_true_iff, Z.eqb_neq in Hair. apply Hair. exact Hfloor.
    - rewrite Hblocks in Hb. destruct Hb. }
  exists s', cur'. repeat split; assumption.
Defined.

(** ** The piece factory in full *)

Lemma map_mapi_from {A B C : Type} (f : Z -> A -> B) (g : B -> C) (h : A -> C)
  (l : list A) :
  (forall i a, g (f i a) = h a) ->
  forall i, map g (mapi_from f i l) = map h l.
Proof.
  intros Hf. induction l as [|a l IH]; intros i; cbn [mapi_from map];
    [reflexivity|].
  rewrite Hf, IH. reflexivity.
Qed.

Lemma lookup_cons_succ {A : Type} (a : A) (l : list A) (k : Z) :
  0 <= k -> lookup (a :: l) (k + 1) = lookup l k.
Proof.
  intros Hk. unfold lookup.
  destruct (Z.ltb_spec (k + 1) 0); [lia|]. destruct (Z.ltb_spec k 0); [lia|].
  replace (Z.to_nat (k + 1)) with (S (Z.to_nat k)) by lia. reflexivity.
Qed.

Lemma lookup_mapi_from {A B : Type} (f : Z -> A -> B) (l : list A) :
  forall i k b,
    lookup (mapi_from f i l) k = Some b ->
    exists a, lookup l k = Some a /\ b = f (i + k) a.
Proof.
  induction l as [|a l IH]; intros i k b; cbn [mapi_from].
  - unfold lookup. destruct (k <? 0); [discriminate|].
    destruct (Z.to_nat k); discriminate.
  - destruct (Z.ltb_spec k 0) as [Hneg|Hpos].
    { unfold lookup. destruct (Z.ltb_spec k 0); [discriminate | lia]. }
    destruct (Z.eq_dec k 0) as [-> | Hk].
    + cbn. intros H. injection H as <-. exists a.
      split; [reflexivity|]. f_equal. lia.
    + replace k with ((k - 1) + 1) by lia.
      rewrite !lookup_cons_succ by lia. intros H.
      destruct (IH (i + 1) (k - 1) b H) as [a' [Ha' ->]].
      exists a'. split; [exact Ha'|]. f_equal. lia.
Qed.

Lemma forallb_ext_all {A : Type} (p q : A -> bool) (l : list A) :
  (forall a, p a = q a) -> forallb p l = forallb q l.
Proof.
  intros Hpq. induction l as [|a l IH]; cbn [forallb]; [reflexivity|].
  rewrite Hpq, IH. reflexivity.
Qed.

(** What the factory returns, written out. *)
Lemma createTetrominoes_explicit x_ y_ bc sd isPreview state t :
  Tick.createTetrominoes x_ y_ bc sd isPreview state = Some t ->
  exists sh offsets,
    lookup TetroShapes (RNG.scale sd) = Some sh /\
    lookup (TetroStartPosMap sh) 0 = Some offsets /\
    length offsets = 4%nat /\
    t = (let startPosY :=
           if forallb (fun o =>
                         negb (existsb (fun b =>
                                          (x_ + ox o * Block.WIDTH =? x b)
                                          && (Block.HEIGHT + oy o * Block.HEIGHT
                                              =? y b))
                                 (blocks state)))
                      offsets
              || isPreview
           then y_ else 0 in
         let tetro :=
           mapi (fun index o =>
                   createBlock (x_ + ox o * Block.WIDTH)
                     (startPosY + oy o * Block.HEIGHT)
                     (String.append "block " (string_of_number (bc + index)))
                     (TetroColorMap sh))
                offsets in
         {| cells := tetro;
            originBlock :=
              hd_error (filter (fun c => (x c =? x_) && (y c =? startPosY))
                          tetro);
            collided := false;
            rotation := 0;
            shape := sh;
            pieceSeed := sd;
            blockStartCount := bc |}).
Proof.
  unfold Tick.createTetrominoes.
  destruct (lookup TetroShapes (RNG.scale sd)) as [sh|]; cbn [bind];
    [|discriminate].
  destruct (lookup (TetroStartPosMap sh) 0) as [offsets|] eqn:Hoff;
    cbn [bind]; [|discriminate].
  assert (Hlen : length offsets = 4%nat).
  { destruct sh; cbn in Hoff; injection Hoff as <-; reflexivity. }
  intros H. injection H as <-. exists sh, offsets.
  split; [reflexivity|]. split; [exact Hoff|]. split; [exact Hlen|].
  cbv zeta.
  replace 4 with (len offsets) by (unfold len; rewrite Hlen; reflexivity).
  rewrite len_filter_all.
  rewrite (forallb_ext_all _
             (fun o =>
                negb (existsb (fun b =>
                                 (x_ + ox o * Block.WIDTH =? x b)
                                 && (Block.HEIGHT + oy o * Block.HEIGHT =? y b))
                        (blocks state)))).
  - reflexivity.
  - intros o. apply len_filter_zero.
Qed.

Lemma spawnFree_forallb (state : State) (x_ : Z) (offsets : PieceLocation) :
  forallb (fun o =>
             negb (existsb (fun b =>
                              (x_ + ox o * Block.WIDTH =? x b)
                              && (Block.HEIGHT + oy o * Block.HEIGHT =? y b))
                     (blocks state)))
          offsets = true
  <-> spawnFree state x_ offsets.
Proof.
  rewrite forallb_forall. unfold spawnFree. split.
  - intros H o Hin [b [Hb [Hx Hy]]]. specialize (H o Hin).
    apply negb_true_iff in H.
    assert (Ht : existsb (fun b =>
                            (x_ + ox o * Block.WIDTH =? x b)
                            && (Block.HEIGHT + oy o * Block.HEIGHT =? y b))
                   (blocks state) = true).
    { apply existsb_exists. exists b. split; [exact Hb|].
      apply andb_true_iff. rewrite !Z.eqb_eq. split; congruence. }
    rewrite Ht in H. discriminate H.
  - intros H o Hin. apply negb_true_iff, not_true_iff_false. intros Hex.
    apply existsb_exists in Hex. destruct Hex as [b [Hb Heq]].
    apply andb_true_iff in Heq. rewrite !Z.eqb_eq in Heq.
    apply (H o Hin). exists b. split; [exact Hb|]. split; symmetry; apply Heq.
Qed.

(** X10.  The piece factory throws exactly when the seed does not scale to
    a shape index.  Otherwise it returns a live piece of the shape drawn
    from the seed, in rotation 0, whose four cells are the offsets of that
    rotation about [(x, startY)], with ids ["block n"] for [n] counted from
    the id counter, the colour of the shape and the size of a grid cell,
    and whose pivot is the second cell, at [(x, startY)].  [startY] is the
    [y] asked for when the piece is a preview or its places on the spawn
    row are free, and 0 when they are not. *)
Theorem createTetrominoes_spawns :
  forall (x_ y_ bc sd : Z) (isPreview : bool) (state : State),
    (Tick.createTetrominoes x_ y_ bc sd isPreview state = None
     <-> ~ validSeed sd) /\
    (forall t,
       Tick.createTetrominoes x_ y_ bc sd isPreview state = Some t ->
       exists offsets startY,
         lookup TetroShapes (RNG.scale sd) = Some (shape t) /\
         lookup (TetroStartPosMap (shape t)) 0 = Some offsets /\
         rotation t = 0 /\ collided t = false /\
         pieceSeed t = sd /\ blockStartCount t = bc /\
         map position (cells t) = placesAt x_ startY offsets /\
         originBlock t = lookup (cells t) 1 /\
         option_map position (originBlock t) = Some (x_, startY) /\
         (forall k c,
            lookup (cells t) k = Some c ->
            id c = String.append "block " (string_of_number (bc + k)) /\
            color c = TetroColorMap (shape t) /\
            width c = Block.WIDTH /\ height c = Block.HEIGHT) /\
         (isPreview = true \/ spawnFree state x_ offsets -> startY = y_) /\
         (isPreview = false -> ~ spawnFree state x_ offsets -> startY = 0)).
Proof.
  intros x_ y_ bc sd isPreview state. split.
  - destruct (Tick.createTetrominoes x_ y_ bc sd isPreview state) as [t|] eqn:E.
    + destruct (createTetrominoes_inv _ _ _ _ _ _ _ E) as [Hv _].
      split; [discriminate | contradiction].
    + split; [|reflexivity]. intros _ Hv.
      destruct (createTetrominoes_some x_ y_ bc sd isPreview state Hv)
        as [t [Ht _]].
      rewrite Ht in E. discriminate E.
  - intros t E.
    destruct (createTetrominoes_wf _ _ _ _ _ _ _ E) as [_ Hpivot].
    destruct (createTetrominoes_explicit _ _ _ _ _ _ _ E)
      as [sh [offsets [Hsh [Hoff [Hlen Ht]]]]].
    cbv zeta in Ht.
    set (free := forallb _ offsets) in Ht.
    assert (Hfree : free = true <-> spawnFree state x_ offsets)
      by apply spawnFree_forallb.
    clearbody free.
    exists offsets, (if free || isPreview then y_ else 0).
    rewrite Hpivot. subst t. cbn [cells shape rotation collided pieceSeed
                                  blockStartCount].
    split; [exact Hsh|]. split; [exact Hoff|].
    split; [reflexivity|]. split; [reflexivity|].
    split; [reflexivity|]. split; [reflexivity|].
    split; [apply map_mapi_from; reflexivity|].
    split; [reflexivity|].
    split.
    { destruct sh; cbn in Hoff; injection Hoff as <-; unfold mapi;
        cbn [mapi_from]; rewrite lookup_second;
        unfold position, createBlock; cbn [option_map x y ox oy];
        change Block.WIDTH with 20; change Block.HEIGHT with 20;
        f_equal; f_equal; lia. }
    split.
    { intros k c Hc. unfold mapi in Hc.
      destruct (lookup_mapi_from _ _ _ _ _ Hc) as [o [_ ->]].
      rewrite Z.add_0_l. repeat split. }
    split.
    + intros [-> | Hf]; [rewrite orb_true_r; reflexivity|].
      apply Hfree in Hf. rewrite Hf. reflexivity.
    + intros -> Hnf. destruct free; [|reflexivity].
      exfalso. apply Hnf, Hfree. reflexivity.
Qed.

(** The first two pieces of a game: the I piece spawns on the spawn row,
    its preview where the preview is asked for. *)
Lemma createTetrominoes_spawns_witness :
  exists t offsets,
    Tick.createTetrominoes 80 20 0 seedI false (initialState seedI) = Some t /\
    map position (cells t) = placesAt 80 20 offsets /\
    lookup (TetroStartPosMap (shape t)) 0 = Some offsets.
Proof.
  destruct (createTetrominoes_spawns 80 20 0 seedI false (initialState seedI))
    as [_ Hspawn].
  destruct (Tick.createTetrominoes 80 20 0 seedI false (initialState seedI))
    as [t|] eqn:E; [|vm_compute in E; discriminate E].
  destruct (Hspawn t eq_refl)
    as [offsets [startY [_ [Hoff [_ [_ [_ [_ [Hpos [_ [_ [_ [Hy _]]]]]]]]]]]]].
  exists t, offsets. split; [reflexivity|]. split; [|exact Hoff].
  rewrite Hpos. rewrite Hy; [reflexivity|].
  right. intros o _ [b [Hb _]]. destruct Hb.
Defined.

(** ** Tick in full *)

(** The ids of a spawned piece count up from the id counter. *)
Lemma createTetrominoes_ids x_ y_ bc sd isPreview state t :
  Tick.createTetrominoes x_ y_ bc sd isPreview state = Some t ->
  map id (cells t)
  = map (fun k => String.append "block " (string_of_number (bc + k)))
      [0; 1; 2; 3].
Proof.
  intros E.
  destruct (createTetrominoes_explicit _ _ _ _ _ _ _ E)
    as [sh [offsets [_ [_ [Hlen ->]]]]].
  destruct offsets as [|o0 [|o1 [|o2 [|o3 [|o4 offsets]]]]];
    try discriminate Hlen.
  reflexivity.
Qed.

(** X11.  After a Tick on a well-formed state the ghost is the shadow of the
    current block: its four cells stand in the columns of the block's
    cells, all moved down by one and the same offset, and are grey.  The
    ghost is a piece drawn from the seed of the block and takes its ids from
    the ghost before it (from the id counter plus four when there was
    none), so that they do not change from one Tick to the next. *)
Theorem Tick_ghost_shadows_block :
  forall (time : Z) (s s' : State),
    wellFormed s -> Tick.perform time s = Some s' ->
    exists block ghost offset,
      currentBlock s' = Some block /\ ghostBlock s' = Some ghost /\
      map position (cells ghost)
      = map (fun c => (x c, y c + offset)) (cells block) /\
      (forall g, In g (cells ghost) -> color g = "grey"%string) /\
      pieceSeed ghost = pieceSeed block /\
      blockStartCount ghost
      = match ghostBlock s with
        | Some g => blockStartCount g
        | None => blockCount s + 4
        end /\
      map id (cells ghost)
      = map (fun k => String.append "block "
                        (string_of_number (blockStartCount ghost + k)))
          [0; 1; 2; 3].
Proof.
  intros time s s' Hwf Htick.
  pose proof (wellFormed_Tick time s s' Hwf Htick) as Hwf'.
  destruct (lineClearCheck_frame s) as [_ [_ [_ [Eg [_ [Ebc _]]]]]].
  destruct (Tick_perform_inv time s s' Htick)
    as [block [ghostTetro [ghostCells [offset [next' [blockCount'
         [_ [Hghost [Hcells [_ ->]]]]]]]]]].
  destruct Hwf' as [_ Hs']. cbn in Hs'. destruct Hs' as [[Hlen _] _].
  destruct (createTetrominoes_wf _ _ _ _ _ _ _ Hghost) as [[Hglen _] _].
  destruct (createTetrominoes_inv _ _ _ _ _ _ _ Hghost)
    as [_ [Hseed [Hcount _]]].
  pose proof (createTetrominoes_ids _ _ _ _ _ _ _ Hghost) as Hids.
  rewrite Eg, Ebc in Hcount, Hids. rewrite <- Hcount in Hids.
  exists block, (with_cells ghostCells ghostTetro), offset.
  split; [reflexivity|]. split; [reflexivity|].
  unfold Tick.mapGhostTetro, mapiM in Hcells. cbn.
  split; [|split; [|split; [exact Hseed | split; [exact Hcount|]]]].
  - rewrite (mapiM_from_reads (cells block)
               (fun cell bc =>
                  with_color "grey"
                    (with_y (y bc + offset) (with_x (x bc) cell)))
               position (fun c => (x c, y c + offset)) (cells ghostTetro)
               (fun a c => eq_refl) 0 ghostCells ltac:(lia) Hcells).
    cbn [Z.to_nat skipn]. rewrite Hglen, <- Hlen, firstn_all. reflexivity.
  - intros g Hg.
    apply (mapiM_from_map _ color (fun _ => "grey"%string) _) in Hcells.
    + apply (in_map color) in Hg. rewrite Hcells in Hg.
      apply in_map_iff in Hg. destruct Hg as [c [Hc _]]. symmetry. exact Hc.
    + intros i a b. bind_cases. intros Hb. injection Hb as <-. reflexivity.
  - apply (mapiM_from_map _ id id _) in Hcells.
    + rewrite Hcells. exact Hids.
    + intros i a b. bind_cases. intros Hb. injection Hb as <-. reflexivity.
Qed.

(** The ghost of the first piece, an O, lies on the floor under it. *)
Lemma Tick_ghost_shadows_block_witness :
  exists block ghost offset,
    currentBlock (stateAfter seedO [Tick 0]) = Some block /\
    ghostBlock (stateAfter seedO [Tick 0]) = Some ghost /\
    map position (cells ghost)
    = map (fun c => (x c, y c + offset)) (cells block).
Proof.
  assert (Htick : Tick.perform 0 (initialState seedO)
                  = Some (stateAfter seedO [Tick 0]))
    by (vm_compute; reflexivity).
  destruct (Tick_ghost_shadows_block 0 (initialState seedO)
              (stateAfter seedO [Tick 0]) (wellFormed_initialState seedO)
              Htick)
    as [block [ghost [offset [Hb [Hg [Hpos _]]]]]].
  exists block, ghost, offset. split; [exact Hb|]. split; [exact Hg|].
  exact Hpos.
Defined.

(** X12.  A Tick that returns leaves a current block, and raises the
    game-over flag exactly when a cell of that block lies on a committed
    block; whatever the flag was before is forgotten. *)
Theorem Tick_game_over_iff_overlap :
  forall (time : Z) (s s' : State),
    Tick.perform time s = Some s' ->
    exists block,
      currentBlock s' = Some block /\
      (gameEnd s' = true
       <-> exists c, In c (cells block) /\ overlaps (blocks s') c).
Proof.
  intros time s s' Htick.
  destruct (Tick_perform_inv time s s' Htick)
    as [block [ghostTetro [ghostCells [offset [next' [blockCount'
         [_ [_ [_ [_ ->]]]]]]]]]].
  exists block. split; [reflexivity|]. cbn.
  rewrite existsb_exists. unfold overlaps. split.
  - intros [c [Hc Hex]]. exists c. split; [exact Hc|].
    apply existsb_exists in Hex. destruct Hex as [b [Hb Heq]].
    apply andb_true_iff in Heq. rewrite !Z.eqb_eq in Heq.
    exists b. split; [exact Hb | exact Heq].
  - intros [c [Hc [b [Hb Heq]]]]. exists c. split; [exact Hc|].
    apply existsb_exists. exists b. split; [exact Hb|].
    apply andb_true_iff. rewrite !Z.eqb_eq. exact Heq.
Qed.

Lemma Tick_game_over_iff_overlap_witness :
  exists block,
    currentBlock (stateAfter seedO [Tick 0]) = Some block /\
    (gameEnd (stateAfter seedO [Tick 0]) = true
     <-> exists c, In c (cells block)
                   /\ overlaps (blocks (stateAfter seedO [Tick 0])) c).
Proof.
  apply (Tick_game_over_iff_overlap 0 (initialState seedO)
           (stateAfter seedO [Tick 0])).
  vm_compute. reflexivity.
Defined.

(** The pieces a Tick leaves: a live block is kept with the preview and the
    id counter; otherwise a block is spawned from the seed and a preview
    from its hash. *)
Lemma Tick_perform_pieces (time : Z) (s s' : State) :
  Tick.perform time s = Some s' ->
  exists block next',
    currentBlock s' = Some block /\ nextBlock s' = Some next' /\
    match currentBlock s with
    | Some cur =>
        if collided cur
        then pieceSeed block = seed s /\ collided block = false /\
             pieceSeed next' = RNG.hash (seed s)
        else block = cur /\ blockCount s' = blockCount s /\
             (nextBlock s = Some next' \/
              nextBlock s = None /\ pieceSeed next' = RNG.hash (seed s))
    | None =>
        pieceSeed block = seed s /\ collided block = false /\
        pieceSeed next' = RNG.hash (seed s) /\ nextBlock s = None
    end.
Proof.
  destruct (lineClearCheck_frame s) as [Ec [En [_ [_ [Es [Ebc _]]]]]].
  unfold Tick.perform. cbv zeta. rewrite !Ec, !En, !Es, !Ebc.
  destruct (currentBlock s) as [cur|]; [destruct (collided cur) eqn:Hlive|].
  - bind_case block Hblock. bind_case getMinY Hmin.
    bind_case yValueIndex Hfold. bind_case lowest Hlow.
    bind_case ghostTetro Hghost. bind_case ghostCells Hcells.
    bind_case ghostCells' Hcells'. bind_case next' Hnext.
    intros H. injection H as <-. exists block, next'.
    split; [reflexivity|]. split; [reflexivity|].
    destruct (createTetrominoes_inv _ _ _ _ _ _ _ Hblock)
      as [_ [Hsd [_ [Hcol _]]]].
    split; [exact Hsd|]. split; [exact Hcol|].
    destruct (nextBlock s); cbn [bind] in Hnext; rewrite ?Hlive in Hnext;
      apply createTetrominoes_inv in Hnext; apply Hnext.
  - bind_case block Hblock. injection Hblock as <-.
    bind_case getMinY Hmin.
    bind_case yValueIndex Hfold. bind_case lowest Hlow.
    bind_case ghostTetro Hghost. bind_case ghostCells Hcells.
    bind_case ghostCells' Hcells'. bind_case next' Hnext.
    intros H. injection H as <-. exists cur, next'.
    split; [reflexivity|]. split; [reflexivity|].
    split; [reflexivity|]. split; [reflexivity|].
    destruct (nextBlock s); cbn [bind] in Hnext; rewrite ?Hlive in Hnext.
    + left. exact Hnext.
    + right. split; [reflexivity|].
      apply createTetrominoes_inv in Hnext. apply Hnext.
  - bind_case block Hblock. bind_case getMinY Hmin.
    bind_case yValueIndex Hfold. bind_case lowest Hlow.
    bind_case ghostTetro Hghost. bind_case ghostCells Hcells.
    bind_case ghostCells' Hcells'. bind_case next' Hnext.
    intros H. injection H as <-. exists block, next'.
    split; [reflexivity|]. split; [reflexivity|].
    destruct (createTetrominoes_inv _ _ _ _ _ _ _ Hblock)
      as [_ [Hsd [_ [Hcol _]]]].
    split; [exact Hsd|]. split; [exact Hcol|].
    destruct (nextBlock s); cbn [bind] in Hnext; [discriminate Hnext|].
    split; [|reflexivity].
    apply createTetrominoes_inv in Hnext. apply Hnext.
Qed.

(** Line-clear resolution has nothing to do while the block is live. *)
Lemma lineClearCheck_live (s : State) (cur : Tetro) :
  currentBlock s = Some cur -> collided cur = false ->
  lineClearCheck s = with_changeInLevel false s.
Proof.
  intros Hcur Hlive. unfold lineClearCheck. rewrite Hcur, Hlive. reflexivity.
Qed.

(** X13.  A Tick on a well-formed state whose block is live leaves the
    block where it is: it resets [changeInLevel], sets the ghost and the
    game-over flag anew, and changes nothing else. *)
Theorem Tick_keeps_live_piece :
  forall (time : Z) (s s' : State) (cur : Tetro),
    wellFormed s -> currentBlock s = Some cur -> collided cur = false ->
    Tick.perform time s = Some s' ->
    exists ghost over,
      s' = with_gameEnd over
             (with_ghostBlock (Some ghost) (with_changeInLevel false s)).
Proof.
  intros time s s' cur [_ Hwf] Hcur Hlive Htick.
  rewrite Hcur in Hwf. destruct Hwf as [_ [_ [_ [next [Hnext _]]]]].
  destruct (Tick_perform_pieces time s s' Htick)
    as [block0 [next0 [Hb0 [Hn0 Hkept]]]].
  rewrite Hcur, Hlive, Hnext in Hkept.
  destruct Hkept as [-> [Hbc [Hn | [Hn _]]]]; [|discriminate Hn].
  injection Hn as <-.
  destruct (Tick_perform_inv time s s' Htick)
    as [block [ghostTetro [ghostCells [offset [next' [blockCount'
         [_ [_ [_ [_ Hs']]]]]]]]]].
  rewrite (lineClearCheck_live s cur Hcur Hlive) in Hs'.
  subst s'. cbn in Hb0, Hn0, Hbc. injection Hb0 as ->. injection Hn0 as ->.
  clear Htick. destruct s. cbn in *. subst. eexists. eexists. reflexivity.
Qed.

(** The second Tick of a game finds the first piece live. *)
Lemma Tick_keeps_live_piece_witness :
  exists ghost over,
    stateAfter seedO [Tick 0; Tick 1]
    = with_gameEnd over
        (with_ghostBlock (Some ghost)
           (with_changeInLevel false (stateAfter seedO [Tick 0]))).
Proof.
  assert (Hwf : wellFormed (stateAfter seedO [Tick 0])).
  { apply (wellFormed_run [Tick 0] (initialState seedO));
      [apply wellFormed_initialState | vm_compute; reflexivity]. }
  assert (Hcur : exists cur,
             currentBlock (stateAfter seedO [Tick 0]) = Some cur /\
             collided cur = false).
  { vm_compute. eexists. split; reflexivity. }
  destruct Hcur as [cur [Hcur Hlive]].
  assert (Htick : Tick.perform 1 (stateAfter seedO [Tick 0])
                  = Some (stateAfter seedO [Tick 0; Tick 1]))
    by (vm_compute; reflexivity).
  exact (Tick_keeps_live_piece 1 (stateAfter seedO [Tick 0])
           (stateAfter seedO [Tick 0; Tick 1]) cur Hwf Hcur Hlive Htick).
Defined.

(** ** The preview *)

Lemma previewAhead_with_currentBlock (s : State) (cur cur' : Tetro) :
  previewAhead s -> currentBlock s = Some cur ->
  collided cur' = collided cur ->
  previewAhead (with_currentBlock (Some cur') s).
Proof.
  unfold previewAhead. intros H Hcur Hcol. rewrite Hcur in H. cbn.
  rewrite Hcol. exact H.
Qed.

Lemma previewAhead_Move direction offset (s s' : State) :
  previewAhead s -> Move.perform direction offset s = Some s' ->
  previewAhead s'.
Proof.
  intros Hp. destruct (currentBlock s) as [cur|] eqn:Hcur.
  - rewrite (Move_perform_current direction offset s cur Hcur).
    intros H. injection H as <-.
    apply (previewAhead_with_currentBlock s cur); [exact Hp | exact Hcur|].
    reflexivity.
  - unfold Move.perform. rewrite Hcur. intros H. injection H as <-. exact Hp.
Qed.

Lemma previewAhead_Rotate (s s' : State) :
  previewAhead s -> Rotate.perform s = Some s' -> previewAhead s'.
Proof.
  intros Hp. destruct (currentBlock s) as [cur|] eqn:Hcur.
  - unfold Rotate.perform. rewrite Hcur. bind_cases.
    destruct (negb _).
    { intros H. injection H as <-.
      apply (previewAhead_with_currentBlock s cur); [exact Hp | exact Hcur|].
      reflexivity. }
    bind_cases. destruct (_ =? 0); [intros H; injection H as <-; exact Hp|].
    bind_cases. intros H. injection H as <-.
    apply (previewAhead_with_currentBlock s cur); [exact Hp | exact Hcur|].
    reflexivity.
  - unfold Rotate.perform. rewrite Hcur. intros H. injection H as <-. exact Hp.
Qed.

Lemma previewAhead_Tick (time : Z) (s s' : State) :
  previewAhead s -> Tick.perform time s = Some s' -> previewAhead s'.
Proof.
  intros Hp Htick.
  pose proof (perform_seed (Tick time) s s' Htick) as Hseed. cbn in Hseed.
  destruct (Tick_perform_pieces time s s' Htick)
    as [block [next' [Hb [Hn Hkept]]]].
  unfold previewAhead in *. rewrite Hb, Hn, Hseed.
  destruct (currentBlock s) as [cur|].
  - destruct (collided cur) eqn:Hcol.
    + destruct Hkept as [_ [-> ->]]. reflexivity.
    + destruct Hkept as [-> [_ [Hnext | [_ ->]]]].
      * rewrite Hnext in Hp. rewrite Hcol. exact Hp.
      * rewrite Hcol. reflexivity.
  - destruct Hkept as [_ [-> [-> _]]]. reflexivity.
Qed.

Lemma previewAhead_Drop (s s' : State) :
  previewAhead s -> Drop.perform s = Some s' -> previewAhead s'.
Proof.
  intros Hp. unfold Drop.perform.
  destruct (currentBlock s) as [cur|] eqn:Hcur;
    [|intros H; injection H as <-; exact Hp].
  destruct (collided cur) eqn:Hcol; [intros H; injection H as <-; exact Hp|].
  bind_cases. intros H. injection H as <-.
  unfold previewAhead in *. rewrite Hcur, Hcol in Hp. cbn.
  destruct (nextBlock s); [exact Hp | exact I].
Qed.

Lemma previewAhead_Hold (s s' : State) :
  previewAhead s -> Hold.perform s = Some s' -> previewAhead s'.
Proof.
  intros Hp. unfold Hold.perform.
  destruct (currentBlock s) as [cur|] eqn:Hcur;
    [|intros H; injection H as <-; exact Hp].
  destruct (collided cur) eqn:Hcol; cbn [orb];
    [intros H; injection H as <-; exact Hp|].
  destruct (canHoldAgain s); cbn [negb];
    [|intros H; injection H as <-; exact Hp].
  unfold previewAhead in Hp. rewrite Hcur, Hcol in Hp.
  destruct (heldBlock s) as [held|].
  - bind_case cur' Hcur'. cbn [bind]. bind_case held' Hheld'.
    intros H. injection H as <-. unfold previewAhead. cbn.
    destruct (createTetrominoes_inv _ _ _ _ _ _ _ Hcur') as [_ [_ [_ [-> _]]]].
    exact Hp.
  - destruct (nextBlock s) as [next|] eqn:Hnext; cbn [bind]; [|discriminate].
    destruct (Tick.createTetrominoes _ _ (blockStartCount next) _ _ _)
      as [cur'|] eqn:Hcur'; cbn [bind]; [|discriminate].
    destruct (Tick.createTetrominoes _ _ (blockCount s + 4) _ _ _)
      as [next'|] eqn:Hnext'; cbn [bind]; [|discriminate].
    bind_case held' Hheld'.
    intros H. injection H as <-. unfold previewAhead. cbn.
    destruct (createTetrominoes_inv _ _ _ _ _ _ _ Hcur') as [_ [_ [_ [-> _]]]].
    apply createTetrominoes_inv in Hnext'. apply Hnext'.
Qed.

Lemma previewAhead_Collision (s s' : State) (cur : Tetro) :
  previewAhead s -> currentBlock s = Some cur -> collided cur = false ->
  Collision.perform s = Some s' -> previewAhead s'.
Proof.
  intros Hp Hcur Hlive. unfold Collision.perform, collisionDetection.
  rewrite Hcur. cbn [bind]. intros H. injection H as <-.
  unfold previewAhead in *. rewrite Hcur, Hlive in Hp. cbn.
  destruct (nextBlock s); [|exact I].
  destruct (_ || _); exact Hp.
Qed.

(** X14.  The preview shows the piece to come.  Say the preview is ahead
    when it carries the hash of the seed while the block is live, and the
    seed itself once the block is settled.  Every action keeps the preview
    ahead, Collision provided the block it finds is live.  And when the
    preview is ahead, the block a Tick spawns in the place of a settled
    one carries the seed of the preview, so it has the shape the factory
    draws from that seed. *)
Theorem preview_shows_next_piece :
  forall (a : Action) (s s' : State),
    previewAhead s ->
    (a = Collision ->
     exists cur, currentBlock s = Some cur /\ collided cur = false) ->
    perform a s = Some s' ->
    previewAhead s' /\
    (forall time cur next,
       a = Tick time -> currentBlock s = Some cur -> collided cur = true ->
       nextBlock s = Some next ->
       exists block,
         currentBlock s' = Some block /\ collided block = false /\
         pieceSeed block = pieceSeed next /\
         lookup TetroShapes (RNG.scale (pieceSeed next)) = Some (shape block)).
Proof.
  intros a s s' Hp Hside Ha. split.
  - destruct a; cbn [perform] in Ha.
    + exact (previewAhead_Move _ _ s s' Hp Ha).
    + exact (previewAhead_Tick _ s s' Hp Ha).
    + exact (previewAhead_Rotate s s' Hp Ha).
    + exact (previewAhead_Hold s s' Hp Ha).
    + exact (previewAhead_Drop s s' Hp Ha).
    + destruct (Hside eq_refl) as [cur [Hcur Hlive]].
      exact (previewAhead_Collision s s' cur Hp Hcur Hlive Ha).
  - intros time cur next -> Hcur Hcol Hnext. cbn [perform] in Ha.
    unfold previewAhead in Hp. rewrite Hcur, Hnext, Hcol in Hp.
    destruct (lineClearCheck_frame s) as [Ec [_ [_ [_ [Es _]]]]].
    destruct (Tick_perform_inv time s s' Ha)
      as [block [ghostTetro [ghostCells [offset [next' [blockCount'
           [Hblock [_ [_ [_ ->]]]]]]]]]].
    rewrite Ec, Hcur, Hcol, Es in Hblock.
    exists block. split; [reflexivity|].
    destruct (createTetrominoes_inv _ _ _ _ _ _ _ Hblock)
      as [_ [Hsd [_ [Hlive [_ Hshape]]]]].
    rewrite Hp. split; [exact Hlive|]. split; [exact Hsd | exact Hshape].
Qed.

(** The first Tick of a game puts the preview ahead. *)
Lemma preview_shows_next_piece_witness :
  previewAhead (stateAfter seedO [Tick 0]).
Proof.
  assert (Hp : previewAhead (initialState seedO)) by exact I.
  assert (Hside : Tick 0 = Collision ->
                  exists cur, currentBlock (initialState seedO) = Some cur /\
                              collided cur = false)
    by (intros H; discriminate H).
  assert (Hrun : perform (Tick 0) (initialState seedO)
                 = Some (stateAfter seedO [Tick 0]))
    by (vm_compute; reflexivity).
  exact (proj1 (preview_shows_next_piece (Tick 0) (initialState seedO)
                  (stateAfter seedO [Tick 0]) Hp Hside Hrun)).
Defined.

(** ** Line clears: the blocks that stay *)

(** Collecting what fails a test, one by one, is a [filter]. *)
Lemma fold_left_keep {A : Type} (p : A -> bool) (l : list A) :
  forall acc,
    fold_left (fun (acc : list A) (a : A) => if p a then acc else acc ++ [a])
      l acc
    = acc ++ filter (fun a => negb (p a)) l.
Proof.
  induction l as [|a l IH]; intros acc; cbn [fold_left filter].
  - rewrite app_nil_r. reflexivity.
  - rewrite IH. destruct (p a); cbn [negb]; [reflexivity|].
    rewrite <- app_assoc. reflexivity.
Qed.

Lemma filter_andb {A : Type} (p q : A -> bool) (l : list A) :
  filter q (filter p l) = filter (fun a => p a && q a) l.
Proof.
  induction l as [|a l IH]; cbn [filter]; [reflexivity|].
  destruct (p a); cbn [andb filter]; rewrite IH; reflexivity.
Qed.

(** Two duplicate-free lists with the same elements pass a test equally
    often. *)
Lemma len_filter_same_elements {A : Type} (p : A -> bool) (l1 l2 : list A) :
  NoDup l1 -> NoDup l2 -> (forall a, In a l1 <-> In a l2) ->
  len (filter p l1) = len (filter p l2).
Proof.
  intros H1 H2 Hsame.
  assert (Ha : (length (filter p l1) <= length (filter p l2))%nat).
  { apply NoDup_incl_length; [apply NoDup_filter; exact H1|].
    intros a Ha. apply filter_In in Ha. apply filter_In.
    split; [apply Hsame|]; apply Ha. }
  assert (Hb : (length (filter p l2) <= length (filter p l1))%nat).
  { apply NoDup_incl_length; [apply NoDup_filter; exact H2|].
    intros a Ha'. apply filter_In in Ha'. apply filter_In.
    split; [apply Hsame|]; apply Ha'. }
  unfold len. lia.
Qed.

Lemma existsb_same_elements {A : Type} (p : A -> bool) (l1 l2 : list A) :
  (forall a, In a l1 <-> In a l2) -> existsb p l1 = existsb p l2.
Proof.
  intros Hsame. apply eq_true_iff_eq. rewrite !existsb_exists.
  split; intros [a [Ha Hp]]; exists a; (split; [apply Hsame; exact Ha | exact Hp]).
Qed.

Lemma len_filter_map {A B : Type} (f : A -> B) (p : B -> bool) (l : list A) :
  len (filter p (map f l)) = len (filter (fun a => p (f a)) l).
Proof.
  induction l as [|a l IH]; cbn [map filter]; [reflexivity|].
  destruct (p (f a)); rewrite ?len_cons, IH; reflexivity.
Qed.

(** The tests of line-clear resolution, read on the full rows. *)
Lemma cleared_inRows (state : State) (block : Tetro) (b : Cell) :
  (0 <? len (filter (fun c => y c =? y b) (blockMakingFullLine state block)))
  = inRows (fullRows state block) b.
Proof.
  destruct (blockMakingFullLine_rows state block) as [_ Hin].
  rewrite len_filter_pos. unfold inRows.
  rewrite <- (existsb_same_elements _ _ _ Hin), existsb_map.
  apply existsb_ext_in. intros c _. apply Z.eqb_sym.
Qed.

Lemma linesBelow_rowsBelow (state : State) (block : Tetro) (b : Cell) :
  len (filter (fun c => y b <? y c) (blockMakingFullLine state block))
  = rowsBelow (fullRows state block) b.
Proof.
  destruct (blockMakingFullLine_rows state block) as [Hnd Hin].
  unfold rowsBelow.
  rewrite <- (len_filter_same_elements _ _ _ Hnd
                (NoDup_nodup _ _) Hin).
  symmetry. apply len_filter_map.
Qed.

Lemma linesAbove_rows (state : State) (block : Tetro) (b : Cell) :
  (0 <? len (filter (fun c => y c <? y b) (blockMakingFullLine state block)))
  = existsb (fun r => r <? y b) (fullRows state block).
Proof.
  destruct (blockMakingFullLine_rows state block) as [_ Hin].
  rewrite len_filter_pos.
  rewrite <- (existsb_same_elements _ _ _ Hin), existsb_map. reflexivity.
Qed.

(** The committed blocks after a line clear, as the function builds them. *)
Lemma lineClearCheck_blocks (state : State) (block : Tetro) :
  currentBlock state = Some block -> collided block = true ->
  1 <= len (fullRows state block) ->
  let rows := fullRows state block in
  let above :=
    map (settled rows)
      (filter (fun b => (0 <? rowsBelow rows b) && negb (inRows rows b))
         (blocks state)) in
  blocks (lineClearCheck state)
  = above
    ++ filter (fun b =>
                 existsb (fun r => r <? y b) rows
                 && negb (inRows rows b
                          || existsb (fun c => String.eqb (id b) (id c)) above))
         (blocks state).
Proof.
  intros Hcur Hcol Hk rows above.
  unfold lineClearCheck. rewrite Hcur, Hcol. cbn [negb]. cbv zeta.
  rewrite AllBlockInFullLine_length.
  destruct (Z.eqb_spec (Constants.GRID_WIDTH * len (fullRows state block)) 0)
    as [H0|_].
  { change Constants.GRID_WIDTH with 10 in H0. lia. }
  cbn [blocks with_changeInLevel with_level with_highscore with_clearedBlocks
       with_points with_lineClears with_blocks].
  rewrite (fold_left_keep
             (fun b => 0 <? len (filter (fun c => y c =? y b)
                                   (blockMakingFullLine state block)))).
  cbn [app]. rewrite filter_andb.
  rewrite (map_ext _ (settled rows))
    by (intros b; unfold settled; rewrite linesBelow_rowsBelow; reflexivity).
  rewrite (filter_ext _
             (fun b => (0 <? rowsBelow rows b) && negb (inRows rows b)))
    by (intros b; rewrite linesBelow_rowsBelow, cleared_inRows; reflexivity).
  fold above. f_equal.
  rewrite (fold_left_keep
             (fun b => (0 <? len (filter (fun c => y c =? y b)
                                    (blockMakingFullLine state block)))
                       || (0 <? len (filter (fun c => String.eqb (id b) (id c))
                                       above)))).
  cbn [app]. rewrite filter_andb. apply filter_ext. intros b.
  rewrite linesAbove_rows, cleared_inRows, len_filter_pos. reflexivity.
Qed.

Lemma distinct_NoDup (l : list string) : distinct l = true -> NoDup l.
Proof.
  induction l as [|a l IH]; cbn [distinct]; intros H; constructor.
  - apply andb_true_iff in H. destruct H as [H _].
    apply negb_true_iff in H. intros Hin.
    assert (Ht : existsb (String.eqb a) l = true).
    { apply existsb_exists. exists a. split; [exact Hin | apply String.eqb_refl]. }
    rewrite Ht in H. discriminate H.
  - apply IH. apply andb_true_iff in H. apply H.
Qed.

(** Blocks with distinct ids are told apart by their id. *)
Lemma same_id_same_block (l : list Cell) (a b : Cell) :
  NoDup (map id l) -> In a l -> In b l -> id a = id b -> a = b.
Proof.
  induction l as [|c l IH]; intros Hnd Ha Hb Hid; [destruct Ha|].
  cbn [map] in Hnd. inversion Hnd as [|i ids Hnotin Hnd']; subst.
  destruct Ha as [-> | Ha], Hb as [-> | Hb].
  - reflexivity.
  - exfalso. apply Hnotin. rewrite Hid. apply in_map. exact Hb.
  - exfalso. apply Hnotin. rewrite <- Hid. apply in_map. exact Ha.
  - apply IH; assumption.
Qed.

Lemma settled_id (rows : list Z) (b : Cell) : id (settled rows b) = id b.
Proof. reflexivity. Qed.

(** A cell with no row below it stays where it is. *)
Lemma settled_none_below (rows : list Z) (b : Cell) :
  (0 <? rowsBelow rows b) = false -> settled rows b = b.
Proof.
  intros H. unfold settled.
  assert (H0 : rowsBelow rows b = 0).
  { pose proof (len_nonneg (filter (fun r => y b <? r) rows)) as Hn.
    unfold rowsBelow in *. apply Z.ltb_ge in H. lia. }
  rewrite H0. destruct b. unfold with_y. cbn. f_equal. lia.
Qed.

(** A cell is not among the shifted ones unless it is shifted itself. *)
Lemma above_ids (rows : list Z) (blocks_ : list Cell) (b : Cell) :
  In b blocks_ -> inRows rows b = false ->
  ((0 <? rowsBelow rows b) = true ->
   existsb (fun c => String.eqb (id b) (id c))
     (map (settled rows)
        (filter (fun b => (0 <? rowsBelow rows b) && negb (inRows rows b))
           blocks_)) = true) /\
  (NoDup (map id blocks_) -> (0 <? rowsBelow rows b) = false ->
   existsb (fun c => String.eqb (id b) (id c))
     (map (settled rows)
        (filter (fun b => (0 <? rowsBelow rows b) && negb (inRows rows b))
           blocks_)) = false).
Proof.
  intros Hb Hin. split.
  - intros Hbelow. apply existsb_exists. exists (settled rows b). split.
    + apply in_map, filter_In. split; [exact Hb|].
      rewrite Hbelow, Hin. reflexivity.
    + rewrite settled_id. apply String.eqb_refl.
  - intros Hnd Hbelow. apply not_true_iff_false. intros Hex.
    apply existsb_exists in Hex. destruct Hex as [c [Hc Hid]].
    apply in_map_iff in Hc. destruct Hc as [b0 [<- Hb0]].
    apply filter_In in Hb0. destruct Hb0 as [Hb0 Hp].
    rewrite settled_id in Hid. apply String.eqb_eq in Hid.
    assert (b = b0) by (apply (same_id_same_block blocks_); assumption).
    subst b0. rewrite Hbelow in Hp. discriminate Hp.
Qed.

(** X15.  What a line clear leaves of the committed blocks.  When the
    settled block completes at least one row, every block that is left
    comes from a block outside the full rows, moved down by one cell height
    for every full row below it, and otherwise as it was.  If the committed
    blocks have distinct ids, none of those is lost: the blocks left are the
    blocks outside the full rows that have a full row below them, moved
    down, followed by the blocks outside the full rows that have none. *)
Theorem line_clear_compacts :
  forall (state : State) (block : Tetro),
    currentBlock state = Some block -> collided block = true ->
    1 <= len (fullRows state block) ->
    (forall b',
       In b' (blocks (lineClearCheck state)) ->
       exists b,
         In b (blocks state) /\ inRows (fullRows state block) b = false /\
         b' = settled (fullRows state block) b) /\
    (NoDup (map id (blocks state)) ->
     blocks (lineClearCheck state)
     = map (settled (fullRows state block))
         (filter (fun b => (0 <? rowsBelow (fullRows state block) b)
                           && negb (inRows (fullRows state block) b))
            (blocks state))
       ++ filter (fun b => negb (0 <? rowsBelow (fullRows state block) b)
                           && negb (inRows (fullRows state block) b))
            (blocks state)).
Proof.
  intros state block Hcur Hcol Hk.
  rewrite (lineClearCheck_blocks state block Hcur Hcol Hk). cbv zeta.
  split.
  - intros b' Hb'. apply in_app_iff in Hb'. destruct Hb' as [Hb' | Hb'].
    + apply in_map_iff in Hb'. destruct Hb' as [b [<- Hb]].
      apply filter_In in Hb. destruct Hb as [Hb Hp].
      apply andb_true_iff in Hp. destruct Hp as [_ Hp].
      apply negb_true_iff in Hp. exists b. auto.
    + apply filter_In in Hb'. destruct Hb' as [Hb' Hp].
      apply andb_true_iff in Hp. destruct Hp as [_ Hp].
      apply negb_true_iff, orb_false_iff in Hp. destruct Hp as [Hin Hids].
      exists b'. split; [exact Hb'|]. split; [exact Hin|].
      symmetry. apply settled_none_below.
      destruct (0 <? rowsBelow (fullRows state block) b') eqn:Hbelow;
        [|reflexivity].
      destruct (above_ids _ _ b' Hb' Hin) as [Hshared _].
      rewrite (Hshared Hbelow) in Hids. discriminate Hids.
  - intros Hnd. f_equal. apply filter_ext_in. intros b Hb.
    destruct (inRows (fullRows state block) b) eqn:Hin;
      cbn [orb negb]; [rewrite !andb_false_r; reflexivity|].
    destruct (above_ids (fullRows state block) _ b Hb Hin) as [Hshared Hnone].
    destruct (0 <? rowsBelow (fullRows state block) b) eqn:Hbelow.
    + rewrite (Hshared eq_refl). cbn [negb]. apply andb_false_r.
    + rewrite (Hnone Hnd eq_refl). cbn [negb]. rewrite !andb_true_r.
      destruct (fullRows state block) as [|r rows] eqn:Hrows;
        [change (len (@nil Z)) with 0 in Hk; lia|].
      apply existsb_exists. exists r. split; [left; reflexivity|].
      unfold inRows in Hin. cbn [existsb] in Hin.
      apply orb_false_iff in Hin. destruct Hin as [Hne _].
      unfold rowsBelow in Hbelow. rewrite len_filter_pos in Hbelow.
      cbn [existsb] in Hbelow. apply orb_false_iff in Hbelow.
      destruct Hbelow as [Hnlt _].
      apply Z.eqb_neq in Hne. apply Z.ltb_ge in Hnlt. apply Z.ltb_lt. lia.
Qed.

(** The row the pieces I, I, O fill is cleared; the two cells of the O
    piece above it come down to the floor. *)
Lemma line_clear_compacts_witness :
  exists block,
    currentBlock (stateAfter seedIIO fillBottomRow) = Some block /\
    map position (blocks (lineClearCheck (stateAfter seedIIO fillBottomRow)))
    = [(160, 380); (180, 380)].
Proof.
  destruct (currentBlock (stateAfter seedIIO fillBottomRow)) as [block|] eqn:Hcur;
    [| vm_compute in Hcur; discriminate Hcur].
  assert (Hval : Some block = currentBlock (stateAfter seedIIO fillBottomRow))
    by (symmetry; exact Hcur).
  vm_compute in Hval. injection Hval as Hval.
  assert (Hcol : collided block = true) by (rewrite Hval; reflexivity).
  assert (Hk : 1 = len (fullRows (stateAfter seedIIO fillBottomRow) block))
    by (rewrite Hval; vm_compute; reflexivity).
  assert (Hnd : NoDup (map id (blocks (stateAfter seedIIO fillBottomRow))))
    by (apply distinct_NoDup; vm_compute; reflexivity).
  destruct (line_clear_compacts (stateAfter seedIIO fillBottomRow) block
              Hcur Hcol ltac:(lia)) as [_ Heq].
  exists block. split; [reflexivity|].
  rewrite (Heq Hnd), Hval. vm_compute. reflexivity.
Defined.

(** ** Rigid pieces *)

Lemma lookup_In {A : Type} (l : list A) (k : Z) (a : A) :
  lookup l k = Some a -> In a l.
Proof.
  unfold lookup. destruct (k <? 0); [discriminate|]. apply nth_error_In.
Qed.

Lemma lookup_some_range {A : Type} (l : list A) (k : Z) (a : A) :
  lookup l k = Some a -> 0 <= k < len l.
Proof.
  unfold lookup. destruct (Z.ltb_spec k 0) as [|Hk]; [discriminate|].
  intros Hnth.
  assert (Hlt : (Z.to_nat k < length l)%nat)
    by (apply nth_error_Some; rewrite Hnth; discriminate).
  unfold len. lia.
Qed.

Lemma lookup_map {A B : Type} (f : A -> B) (l : list A) (k : Z) :
  lookup (map f l) k = option_map f (lookup l k).
Proof.
  unfold lookup. destruct (k <? 0); [reflexivity|]. apply nth_error_map.
Qed.

(** Every rotation state of every shape has four offsets. *)
Lemma TetroStartPosMap_four (sh : ShapeLetters) (r : Z)
  (offsets : PieceLocation) :
  lookup (TetroStartPosMap sh) r = Some offsets -> length offsets = 4%nat.
Proof.
  intros H. apply lookup_In in H.
  destruct sh; cbn in H;
    repeat (destruct H as [<- | H]; [reflexivity|]); destruct H.
Qed.

Lemma rigid_wfTetro (t : Tetro) : rigid t -> wfTetro t.
Proof.
  intros [Hpivot [bx [by_ [offsets [Hoff Hpos]]]]].
  pose proof (TetroStartPosMap_four _ _ _ Hoff) as Hlen.
  assert (Hcells : length (cells t) = 4%nat).
  { rewrite <- (length_map position), Hpos. unfold placesAt.
    rewrite length_map. exact Hlen. }
  split; [exact Hcells|]. split; [exact (lookup_some_range _ _ _ Hoff)|].
  rewrite Hpivot. apply lookup_four. exact Hcells.
Qed.

(** The factory makes rigid pieces. *)
Lemma createTetrominoes_rigid x_ y_ bc sd isPreview state t :
  Tick.createTetrominoes x_ y_ bc sd isPreview state = Some t -> rigid t.
Proof.
  intros E. destruct (createTetrominoes_wf _ _ _ _ _ _ _ E) as [_ Hpivot].
  split; [exact Hpivot|].
  destruct (createTetrominoes_explicit _ _ _ _ _ _ _ E)
    as [sh [offsets [_ [Hoff [_ ->]]]]].
  cbv zeta. cbn [cells shape rotation].
  eexists x_, _, offsets. split; [exact Hoff|].
  apply map_mapi_from. reflexivity.
Qed.

(** Moving every cell moves the base. *)
Lemma placesAt_shift direction offset (cells_ : list Cell) bx by_ offsets :
  map position cells_ = placesAt bx by_ offsets ->
  map position (map (shiftCell direction offset) cells_)
  = match direction with
    | DirX => placesAt (bx + offset) by_ offsets
    | DirY => placesAt bx (by_ + offset) offsets
    end.
Proof.
  unfold placesAt. revert offsets.
  induction cells_ as [|c cells_ IH]; intros [|o offsets] H;
    try discriminate H.
  - destruct direction; reflexivity.
  - cbn [map] in H. injection H as Hx Hy Hrest. specialize (IH _ Hrest).
    destruct direction; cbn [map]; rewrite IH; f_equal;
      unfold position, shiftCell, with_x, with_y; cbn [x y];
      f_equal; lia.
Qed.

Lemma placesAt_kick (k : PieceStartLocation) (cells_ : list Cell)
  bx by_ offsets :
  map position cells_ = placesAt bx by_ offsets ->
  map position (Rotate.kick k cells_)
  = placesAt (bx + ox k * Block.WIDTH) (by_ + - oy k * Block.HEIGHT) offsets.
Proof.
  unfold placesAt, Rotate.kick. revert offsets.
  induction cells_ as [|c cells_ IH]; intros [|o offsets] H;
    try discriminate H; [reflexivity|].
  cbn [map] in H. injection H as Hx Hy Hrest. specialize (IH _ Hrest).
  cbn [map]. rewrite IH. f_equal.
  unfold position, with_x, with_y. cbn [x y]. f_equal; lia.
Qed.

(** The turn of a rigid piece stands on the places of the next rotation
    state about the same base. *)
Lemma naiveRotation_places (cur : Tetro) (rotated : list Cell)
  bx by_ offsets :
  originBlock cur = lookup (cells cur) 1 ->
  lookup (TetroStartPosMap (shape cur)) (rotation cur) = Some offsets ->
  map position (cells cur) = placesAt bx by_ offsets ->
  naiveRotation cur = Some rotated ->
  exists offsets',
    lookup (TetroStartPosMap (shape cur)) (nextRotation cur) = Some offsets' /\
    map position rotated = placesAt bx by_ offsets'.
Proof.
  intros Hpivot Hoff Hpos. unfold naiveRotation. rewrite Hoff. cbn [bind].
  destruct (lookup offsets 1) as [p|] eqn:Hp; cbn [bind]; [|discriminate].
  pose proof (TetroStartPosMap_four _ _ _ Hoff) as Hlen.
  assert (Hcells : length (cells cur) = 4%nat).
  { rewrite <- (length_map position), Hpos. unfold placesAt.
    rewrite length_map. exact Hlen. }
  destruct (originBlock cur) as [central|] eqn:Hcentral.
  2:{ exfalso. symmetry in Hpivot. revert Hpivot. apply lookup_four.
      exact Hcells. }
  assert (Hc : x central = bx + ox p * Block.WIDTH
               /\ y central = by_ + oy p * Block.HEIGHT).
  { assert (H : option_map position (Some central)
                = lookup (map position (cells cur)) 1)
      by (rewrite lookup_map, Hpivot; reflexivity).
    rewrite Hpos in H. unfold placesAt in H. rewrite lookup_map, Hp in H.
    cbn [option_map] in H. injection H as Hx Hy. split; assumption. }
  unfold Rotate.blockAfterRotation. rewrite Hcentral.
  destruct (lookup (TetroStartPosMap (shape cur)) (nextRotation cur))
    as [offsets'|] eqn:Hoff'.
  2:{ destruct (cells cur); [discriminate Hcells|]. discriminate. }
  pose proof (TetroStartPosMap_four _ _ _ Hoff') as Hlen'.
  unfold mapiM. intros H. exists offsets'. split; [reflexivity|].
  rewrite (mapiM_from_reads offsets'
             (fun cell blockRotation =>
                createBlock
                  (x central + (ox blockRotation + (0 - ox p)) * Block.WIDTH)
                  (y central + (oy blockRotation + (0 - oy p)) * Block.HEIGHT)
                  (id cell) (color cell))
             position
             (fun o => (x central + (ox o + (0 - ox p)) * Block.WIDTH,
                        y central + (oy o + (0 - oy p)) * Block.HEIGHT))
             (cells cur) (fun a c => eq_refl) 0 rotated ltac:(lia) H).
  cbn [Z.to_nat skipn]. rewrite Hcells, <- Hlen', firstn_all.
  unfold placesAt. apply map_ext. intros o.
  destruct Hc as [-> ->]. f_equal; lia.
Qed.

Lemma rigid_Move direction offset (s s' : State) :
  (forall cur, currentBlock s = Some cur -> rigid cur) ->
  Move.perform direction offset s = Some s' ->
  forall cur', currentBlock s' = Some cur' -> rigid cur'.
Proof.
  intros Hr. destruct (currentBlock s) as [cur|] eqn:Hcur.
  - rewrite (Move_perform_current direction offset s cur Hcur).
    intros H. injection H as <-. cbn. intros cur' H. injection H as <-.
    destruct (Hr cur eq_refl) as [_ [bx [by_ [offsets [Hoff Hpos]]]]].
    split; [reflexivity|]. cbn.
    destruct (collided cur || _ || _).
    + exists bx, by_, offsets. split; assumption.
    + pose proof (placesAt_shift direction offset _ _ _ _ Hpos) as Hshift.
      destruct direction; eexists _, _, offsets; (split; [exact Hoff|]);
        exact Hshift.
  - unfold Move.perform. rewrite Hcur. intros H. injection H as <-.
    rewrite Hcur. discriminate.
Qed.

Lemma rigid_Rotate (s s' : State) :
  (forall cur, currentBlock s = Some cur -> rigid cur) ->
  Rotate.perform s = Some s' ->
  forall cur', currentBlock s' = Some cur' -> rigid cur'.
Proof.
  intros Hr. destruct (currentBlock s) as [cur|] eqn:Hcur.
  - pose proof (Hr cur eq_refl) as Hrigid.
    pose proof (rigid_wfTetro cur Hrigid) as Hwf.
    destruct Hrigid as [Hpivot [bx [by_ [offsets [Hoff Hpos]]]]].
    destruct (Rotate_defined cur Hwf) as [rotated [kicks [Hnaive [Hk _]]]].
    pose proof Hwf as [_ [[Hrot _] _]].
    destruct (naiveRotation_places cur rotated bx by_ offsets
                Hpivot Hoff Hpos Hnaive) as [offsets' [Hoff' Hpos']].
    rewrite (Rotate_perform_current s cur rotated kicks Hcur Hrot Hnaive Hk).
    destruct (Rotate.checkAllCollision s rotated).
    + destruct (filter _ kicks) as [|k rest].
      * intros H. injection H as <-. rewrite Hcur.
        intros cur' H. injection H as <-. apply Hr. reflexivity.
      * intros H. injection H as <-. cbn. intros cur' H. injection H as <-.
        split; [reflexivity|]. cbn.
        eexists _, _, offsets'. split; [exact Hoff'|].
        apply placesAt_kick. exact Hpos'.
    + intros H. injection H as <-. cbn. intros cur' H. injection H as <-.
      split; [reflexivity|]. cbn.
      exists bx, by_, offsets'. split; assumption.
  - unfold Rotate.perform. rewrite Hcur. intros H. injection H as <-.
    rewrite Hcur. discriminate.
Qed.

Lemma rigid_Tick (time : Z) (s s' : State) :
  (forall cur, currentBlock s = Some cur -> rigid cur) ->
  Tick.perform time s = Some s' ->
  forall cur', currentBlock s' = Some cur' -> rigid cur'.
Proof.
  intros Hr Htick.
  destruct (lineClearCheck_frame s) as [Ec _].
  destruct (Tick_perform_inv time s s' Htick)
    as [block [ghostTetro [ghostCells [offset [next' [blockCount'
         [Hblock [_ [_ [_ ->]]]]]]]]]].
  cbn. intros cur' H. injection H as <-. rewrite Ec in Hblock.
  destruct (currentBlock s) as [cur|].
  - destruct (collided cur).
    + exact (createTetrominoes_rigid _ _ _ _ _ _ _ Hblock).
    + subst block. apply Hr. reflexivity.
  - exact (createTetrominoes_rigid _ _ _ _ _ _ _ Hblock).
Qed.

Lemma rigid_Hold (s s' : State) :
  (forall cur, currentBlock s = Some cur -> rigid cur) ->
  Hold.perform s = Some s' ->
  forall cur', currentBlock s' = Some cur' -> rigid cur'.
Proof.
  intros Hr. unfold Hold.perform.
  destruct (currentBlock s) as [cur|] eqn:Hcur;
    [|intros H; injection H as <-; rewrite Hcur; discriminate].
  destruct (collided cur || negb (canHoldAgain s)).
  { intros H. injection H as <-. rewrite Hcur. exact (Hr).  }
  destruct (heldBlock s) as [held|].
  - bind_case cur1 Hcur1. cbn [bind]. bind_case held1 Hheld1.
    intros H. injection H as <-. cbn. intros cur' H. injection H as <-.
    exact (createTetrominoes_rigid _ _ _ _ _ _ _ Hcur1).
  - destruct (nextBlock s) as [next|]; cbn [bind]; [|discriminate].
    destruct (Tick.createTetrominoes _ _ (blockStartCount next) _ _ _)
      as [cur1|] eqn:Hcur1; cbn [bind]; [|discriminate].
    destruct (Tick.createTetrominoes _ _ (blockCount s + 4) _ _ _)
      as [next1|]; cbn [bind]; [|discriminate].
    bind_case held1 Hheld1.
    intros H. injection H as <-. cbn. intros cur' H. injection H as <-.
    exact (createTetrominoes_rigid _ _ _ _ _ _ _ Hcur1).
Qed.

Lemma rigid_Collision (s s' : State) :
  (forall cur, currentBlock s = Some cur -> rigid cur) ->
  Collision.perform s = Some s' ->
  forall cur', currentBlock s' = Some cur' -> rigid cur'.
Proof.
  intros Hr. unfold Collision.perform, collisionDetection.
  destruct (currentBlock s) as [cur|]; cbn [bind]; [|discriminate].
  intros H. injection H as <-. cbn. intros cur' H. injection H as <-.
  exact (Hr cur eq_refl).
Qed.

(** X16.  Pieces stay rigid.  Call a piece rigid when its pivot is its
    second cell and its four cells stand on the places that the table gives
    for its shape and rotation state about some base.  The pieces the
    factory makes are rigid, and every action but Drop leaves a rigid
    current block rigid: Move shifts the base or leaves it, Rotate goes to
    the next rotation state about the same base or about the base moved by
    a wall kick, Tick and Hold keep the block or spawn one, Collision keeps
    its cells.  Drop is left out: it copies the places of the ghost and
    leaves the pivot where it was. *)
Theorem pieces_stay_rigid :
  forall (a : Action) (s s' : State),
    a <> Drop ->
    (forall cur, currentBlock s = Some cur -> rigid cur) ->
    perform a s = Some s' ->
    forall cur', currentBlock s' = Some cur' -> rigid cur'.
Proof.
  intros a s s' Hdrop Hr Ha.
  destruct a; cbn [perform] in Ha.
  - exact (rigid_Move _ _ s s' Hr Ha).
  - exact (rigid_Tick _ s s' Hr Ha).
  - exact (rigid_Rotate s s' Hr Ha).
  - exact (rigid_Hold s s' Hr Ha).
  - contradiction Hdrop. reflexivity.
  - exact (rigid_Collision s s' Hr Ha).
Qed.

(** The first piece, a T, turned once. *)
Lemma pieces_stay_rigid_witness :
  exists cur',
    currentBlock (stateAfter seedT [Tick 0; Rotate]) = Some cur' /\ rigid cur'.
Proof.
  assert (H0 : forall cur,
             currentBlock (initialState seedT) = Some cur -> rigid cur)
    by (intros cur H; discriminate H).
  assert (Htick : perform (Tick 0) (initialState seedT)
                  = Some (stateAfter seedT [Tick 0]))
    by (vm_compute; reflexivity).
  assert (Hrotate : perform Rotate (stateAfter seedT [Tick 0])
                    = Some (stateAfter seedT [Tick 0; Rotate]))
    by (vm_compute; reflexivity).
  assert (Hn1 : Tick 0 <> Drop) by discriminate.
  assert (Hn2 : Rotate <> Drop) by discriminate.
  destruct (currentBlock (stateAfter seedT [Tick 0; Rotate])) as [cur'|] eqn:Hcur;
    [| vm_compute in Hcur; discriminate Hcur].
  exists cur'. split; [reflexivity|].
  exact (pieces_stay_rigid Rotate (stateAfter seedT [Tick 0])
           (stateAfter seedT [Tick 0; Rotate]) Hn2
           (pieces_stay_rigid (Tick 0) (initialState seedT)
              (stateAfter seedT [Tick 0]) Hn1 H0 Htick)
           Hrotate cur' Hcur).
Defined.

(** ** Keyboard state *)

Lemma findIndex_from_spec {A : Type} (p : A -> bool) (l : list A) :
  forall i, 0 <= i ->
    (findIndex_from p i l = -1 /\ forall a, In a l -> p a = false) \/
    (exists l1 a l2,
       l = l1 ++ a :: l2 /\ p a = true /\
       (forall b, In b l1 -> p b = false) /\
       findIndex_from p i l = i + len l1).
Proof.
  induction l as [|a l IH]; intros i Hi; cbn [findIndex_from].
  - left. split; [reflexivity | intros a []].
  - destruct (p a) eqn:Hp.
    + right. exists [], a, l. split; [reflexivity|]. split; [exact Hp|].
      split; [intros b [] | change (len (@nil A)) with 0; lia].
    + destruct (IH (i + 1) ltac:(lia))
        as [[Hnone Hall] | [l1 [b [l2 [-> [Hb [Hl1 Hidx]]]]]]].
      * left. split; [exact Hnone|]. intros c [<- | Hc]; [exact Hp | auto].
      * right. exists (a :: l1), b, l2. split; [reflexivity|].
        split; [exact Hb|]. split.
        -- intros c [<- | Hc]; [exact Hp | auto].
        -- rewrite Hidx, len_cons. lia.
Qed.

Lemma slice_prefix {A : Type} (l1 l2 : list A) :
  slice (l1 ++ l2) 0 (len l1) = l1.
Proof.
  unfold slice. pose proof (len_nonneg l1). pose proof (len_nonneg l2).
  rewrite len_app.
  destruct (Z.ltb_spec (len l1) 0); [lia|]. cbn [Z.ltb Z.compare].
  rewrite Z.min_l by lia. rewrite Z.min_l by lia.
  rewrite Z.sub_0_r. cbn [Z.to_nat skipn].
  unfold len. rewrite Nat2Z.id, firstn_app, Nat.sub_diag, firstn_all.
  cbn [firstn]. apply app_nil_r.
Qed.

Lemma slice_suffix {A : Type} (l1 : list A) (a : A) (l2 : list A) :
  slice (l1 ++ a :: l2) (len l1 + 1) (len (l1 ++ a :: l2)) = l2.
Proof.
  unfold slice. pose proof (len_nonneg l1). pose proof (len_nonneg l2).
  rewrite len_app, len_cons.
  destruct (Z.ltb_spec (len l1 + 1) 0); [lia|].
  destruct (Z.ltb_spec (len l1 + (len l2 + 1)) 0); [lia|].
  rewrite Z.min_l by lia. rewrite Z.min_l by lia.
  replace (Z.to_nat (len l1 + 1)) with (length (l1 ++ [a]))
    by (rewrite length_app; cbn [length]; unfold len; lia).
  replace (l1 ++ a :: l2) with ((l1 ++ [a]) ++ l2)
    by (rewrite <- app_assoc; reflexivity).
  rewrite skipn_app, skipn_all, Nat.sub_diag. cbn [app skipn].
  apply firstn_all2. unfold len. lia.
Qed.

(** The accumulator replaces the entry of the key, or appends one. *)
Lemma updateKeyStates_spec (keyStates : list keyCodes) (key : keyCodes) :
  (updateKeyStates keyStates key = keyStates ++ [key] /\
   forall k, In k keyStates -> keyCode k <> keyCode key) \/
  (exists l1 old l2,
     keyStates = l1 ++ old :: l2 /\ keyCode old = keyCode key /\
     (forall k, In k l1 -> keyCode k <> keyCode key) /\
     updateKeyStates keyStates key = l1 ++ key :: l2).
Proof.
  unfold updateKeyStates, findIndex. cbv zeta.
  destruct (findIndex_from_spec
              (fun keyState => String.eqb (keyCode keyState) (keyCode key))
              keyStates 0 ltac:(lia))
    as [[-> Hall] | [l1 [old [l2 [-> [Hold [Hl1 ->]]]]]]].
  - left. split; [reflexivity|]. intros k Hk. apply String.eqb_neq. auto.
  - right. exists l1, old, l2. split; [reflexivity|].
    split; [apply String.eqb_eq; exact Hold|]. split.
    + intros k Hk. apply String.eqb_neq. auto.
    + pose proof (len_nonneg l1).
      destruct (Z.eqb_spec (0 + len l1) (-1)); [lia|]. cbn [negb].
      rewrite Z.add_0_l, slice_prefix, slice_suffix. reflexivity.
Qed.

Lemma movement_filter (state : list keyCodes) :
  movement state
  = map (fun k => keyToActionMap (keyCode k)) (filter isPressing state).
Proof.
  unfold movement.
  assert (H : forall acc,
             fold_left (fun (acc : list (option Action)) (k : keyCodes) =>
                          if isPressing k
                          then acc ++ [keyToActionMap (keyCode k)] else acc)
               state acc
             = acc ++ map (fun k => keyToActionMap (keyCode k))
                        (filter isPressing state)).
  { induction state as [|k state IH]; intros acc; cbn [fold_left filter].
    - rewrite app_nil_r. reflexivity.
    - rewrite IH. destruct (isPressing k); [|reflexivity].
      cbn [map]. rewrite <- app_assoc. reflexivity. }
  apply (H []).
Qed.

Lemma keyState_snoc (events : list KeyboardEvent) (e : KeyboardEvent) :
  keyState (events ++ [e])
  = if isGameKey e then updateKeyStates (keyState events) (toKeyCodes e)
    else keyState events.
Proof.
  unfold keyState. rewrite filter_app. cbn [filter].
  destruct (isGameKey e).
  - rewrite map_app, fold_left_app. reflexivity.
  - rewrite app_nil_r. reflexivity.
Qed.

Lemma lastEventOf_snoc (c : string) (events : list KeyboardEvent)
  (e : KeyboardEvent) :
  lastEventOf c (events ++ [e])
  = if String.eqb (code e) c then Some e else lastEventOf c events.
Proof. unfold lastEventOf. rewrite rev_app_distr. reflexivity. Qed.

(** The key states hold one entry for every game key that had an event,
    made from the last event of the key. *)
Lemma keyState_tracks (events : list KeyboardEvent) :
  NoDup (map keyCode (keyState events)) /\
  forall k,
    In k (keyState events)
    <-> exists e, lastEventOf (keyCode k) events = Some e /\
                  isGameKey e = true /\ k = toKeyCodes e.
Proof.
  induction events as [|e events IH] using rev_ind.
  - split; [constructor|]. intros k. split; [intros [] |].
    intros [e [H _]]. discriminate H.
  - destruct IH as [Hnd Hin]. rewrite keyState_snoc.
    assert (Hcode : forall e1 e2, code e1 = code e2 ->
                                  isGameKey e1 = isGameKey e2).
    { intros e1 e2 H. unfold isGameKey. rewrite H. reflexivity. }
    destruct (isGameKey e) eqn:Hgame.
    + destruct (updateKeyStates_spec (keyState events) (toKeyCodes e))
        as [[-> Hnew] | [l1 [old [l2 [Hks [Hold [Hl1 ->]]]]]]].
      * split.
        -- rewrite map_app. cbn [map].
           apply NoDup_app; [exact Hnd | constructor; [intros []|constructor]|].
           intros c Hc [<- | []]. apply in_map_iff in Hc.
           destruct Hc as [k [Hk Hink]]. exact (Hnew k Hink Hk).
        -- intros k. rewrite in_app_iff, lastEventOf_snoc. cbn [In].
           destruct (String.eqb_spec (code e) (keyCode k)) as [Heq|Hne].
           ++ split.
              ** intros [Hk | [<- | []]].
                 --- exfalso. apply (Hnew k Hk). symmetry. exact Heq.
                 --- exists e. auto.
              ** intros [e' [He' [_ ->]]]. injection He' as <-. auto.
           ++ rewrite <- Hin. split; [|auto].
              intros [Hk | [<- | []]]; [exact Hk|]. contradiction Hne.
              reflexivity.
      * rewrite Hks in Hnd, Hin. split.
        -- rewrite map_app in *. cbn [map] in *. rewrite Hold in Hnd.
           exact Hnd.
        -- assert (Hl2 : forall k, In k l2 -> keyCode k <> code e).
           { intros k Hk Heq. rewrite map_app in Hnd. cbn [map] in Hnd.
             apply NoDup_remove_2 in Hnd. apply Hnd.
             apply in_or_app. right. rewrite Hold. cbn [toKeyCodes keyCode].
             rewrite <- Heq. apply in_map. exact Hk. }
           intros k. rewrite lastEventOf_snoc.
           destruct (String.eqb_spec (code e) (keyCode k)) as [Heq|Hne].
           ++ split.
              ** intros Hk. apply in_app_iff in Hk.
                 destruct Hk as [Hk | [<- | Hk]].
                 --- exfalso. apply (Hl1 k Hk). symmetry. exact Heq.
                 --- exists e. auto.
                 --- exfalso. apply (Hl2 k Hk). symmetry. exact Heq.
              ** intros [e' [He' [_ ->]]]. injection He' as <-.
                 apply in_or_app. right. left. reflexivity.
           ++ rewrite <- Hin. rewrite !in_app_iff. cbn [In]. split.
              ** intros [Hk | [<- | Hk]]; [auto | | auto].
                 contradiction Hne. reflexivity.
              ** intros [Hk | [<- | Hk]]; [auto | | auto].
                 contradiction Hne. rewrite Hold. reflexivity.
    + split; [exact Hnd|]. intros k. rewrite lastEventOf_snoc.
      destruct (String.eqb_spec (code e) (keyCode k)) as [Heq|Hne];
        [|apply Hin].
      split.
      * intros Hk. apply Hin in Hk. destruct Hk as [e' [He' [Hg' ->]]].
        cbn [toKeyCodes keyCode] in Heq.
        rewrite (Hcode e e' Heq), Hg' in Hgame. discriminate Hgame.
      * intros [e' [He' [Hg' _]]]. injection He' as <-.
        rewrite Hg' in Hgame. discriminate Hgame.
Qed.

Lemma includes_In (a : list string) (c : string) :
  includes a c = true <-> In c a.
Proof.
  unfold includes. rewrite existsb_exists. split.
  - intros [c' [Hin Heq]]. apply String.eqb_eq in Heq. subst c'. exact Hin.
  - intros Hin. exists c. split; [exact Hin | apply String.eqb_refl].
Qed.

(** The movement keys have an action each, and no two the same. *)
Lemma keyToActionMap_moveKeys (c : string) :
  In c moveKeys ->
  keyToActionMap c <> None /\
  forall c', In c' moveKeys -> keyToActionMap c' = keyToActionMap c -> c' = c.
Proof.
  intros Hc. split.
  - destruct Hc as [<- | [<- | [<- | []]]]; discriminate.
  - intros c' Hc'.
    destruct Hc as [<- | [<- | [<- | []]]];
      destruct Hc' as [<- | [<- | [<- | []]]];
      intros H; first [reflexivity | vm_compute in H; discriminate H].
Qed.

Lemma pressed_key (e : KeyboardEvent) :
  isPressing (toKeyCodes e) = true
  <-> type e = "keydown"%string /\ In (code e) moveKeys.
Proof.
  cbn [toKeyCodes isPressing].
  rewrite andb_true_iff, String.eqb_eq, includes_In. reflexivity.
Qed.

(** X17.  The keyboard state follows the last event of every key.  After
    any sequence of keyboard events the state holds at most one entry for a
    key; the action of a movement key is among the actions sent on exactly
    when the last event of that key was a [keydown]; and every action sent
    on is the action of a movement key, never [undefined]. *)
Theorem movement_follows_keys :
  forall (events : list KeyboardEvent),
    NoDup (map keyCode (keyState events)) /\
    (forall c,
       In c moveKeys ->
       (In (keyToActionMap c) (movement (keyState events))
        <-> exists e, lastEventOf c events = Some e /\
                      type e = "keydown"%string)) /\
    (forall a,
       In a (movement (keyState events)) ->
       a <> None /\ exists c, In c moveKeys /\ a = keyToActionMap c).
Proof.
  intros events. destruct (keyState_tracks events) as [Hnd Htracks].
  split; [exact Hnd|]. rewrite movement_filter. split.
  - intros c Hc. rewrite in_map_iff. split.
    + intros [k [Hact Hk]]. apply filter_In in Hk. destruct Hk as [Hk Hpress].
      apply Htracks in Hk. destruct Hk as [e [Hlast [_ ->]]].
      apply pressed_key in Hpress. destruct Hpress as [Hdown Hmove].
      cbn [toKeyCodes keyCode] in Hact, Hlast.
      destruct (keyToActionMap_moveKeys c Hc) as [_ Hinj].
      rewrite (Hinj (code e) Hmove Hact) in Hlast.
      exists e. split; assumption.
    + intros [e [Hlast Hdown]].
      pose proof Hlast as Hfound. unfold lastEventOf in Hfound.
      apply find_some in Hfound. destruct Hfound as [_ Hcode].
      apply String.eqb_eq in Hcode. subst c.
      exists (toKeyCodes e). split; [reflexivity|]. apply filter_In. split.
      * apply Htracks. exists e. split; [exact Hlast|].
        split; [|reflexivity]. unfold isGameKey.
        apply orb_true_iff. left. apply includes_In. exact Hc.
      * apply pressed_key. split; assumption.
  - intros a Ha. apply in_map_iff in Ha. destruct Ha as [k [<- Hk]].
    apply filter_In in Hk. destruct Hk as [Hk Hpress].
    apply Htracks in Hk. destruct Hk as [e [_ [_ ->]]].
    apply pressed_key in Hpress. destruct Hpress as [_ Hmove].
    cbn [toKeyCodes keyCode].
    split; [apply keyToActionMap_moveKeys; exact Hmove|].
    exists (code e). split; [exact Hmove | reflexivity].
Qed.

(** Left pressed and released, then down pressed: only down is sent on. *)
Lemma movement_follows_keys_witness :
  In (keyToActionMap "ArrowDown")
     (movement (keyState [mkKeyboardEvent "ArrowLeft" "keydown";
                          mkKeyboardEvent "Space" "keydown";
                          mkKeyboardEvent "ArrowLeft" "keyup";
                          mkKeyboardEvent "ArrowDown" "keydown"]))
  <-> exists e,
        lastEventOf "ArrowDown"
          [mkKeyboardEvent "ArrowLeft" "keydown";
           mkKeyboardEvent "Space" "keydown";
           mkKeyboardEvent "ArrowLeft" "keyup";
           mkKeyboardEvent "ArrowDown" "keydown"] = Some e /\
        type e = "keydown"%string.
Proof.
  assert (Hc : In "ArrowDown"%string moveKeys)
    by (right; right; left; reflexivity).
  exact (proj1 (proj2 (movement_follows_keys
                         [mkKeyboardEvent "ArrowLeft" "keydown";
                          mkKeyboardEvent "Space" "keydown";
                          mkKeyboardEvent "ArrowLeft" "keyup";
                          mkKeyboardEvent "ArrowDown" "keydown"]))
           "ArrowDown"%string Hc).
Defined.

(** ** Speed *)

Lemma DifficultyMap_nth (i j : nat) :
  (i <= j <= 29)%nat ->
  1 <= nth j DifficultyMap 0 <= nth i DifficultyMap 0 /\
  nth i DifficultyMap 0 <= 48.
Proof.
  intros Hij.
  do 30 (destruct i as [|i];
         [do 30 (destruct j as [|j]; [cbn; lia|]); lia|]).
  lia.
Qed.

Lemma framesPerDrop_nth (level : Z) :
  0 <= level ->
  framesPerDrop level
  = Some (nth (Z.to_nat (Z.min 29 level)) DifficultyMap 0).
Proof.
  intros Hl. unfold framesPerDrop, lookup.
  destruct (Z.ltb_spec (Z.min 29 level) 0); [lia|].
  apply nth_error_nth'. change (length DifficultyMap) with 30%nat. lia.
Qed.

(** X18.  The speed of the falling tick is defined in every state of a
    game and never slows down as the level rises: the level of a reachable
    state is not negative, every level from 0 on has an entry of
    [DifficultyMap] after clamping to 29, between 1 and 48 frames, and a
    higher level never has more frames than a lower one.  A negative level
    would have none. *)
Theorem drop_speed_defined :
  (forall (initialSeed : Z) (actions : list Action) (s : State),
     run (initialState initialSeed) actions = Some s ->
     0 <= level s /\
     exists frames, framesPerDrop (level s) = Some frames /\
                    1 <= frames <= 48) /\
  (forall l1 l2 f1 f2,
     0 <= l1 <= l2 ->
     framesPerDrop l1 = Some f1 -> framesPerDrop l2 = Some f2 -> f2 <= f1) /\
  (forall l, l < 0 -> framesPerDrop l = None).
Proof.
  split; [|split].
  - intros initialSeed actions s Hrun.
    destruct (scoreKept_run 0 actions (initialState initialSeed) s)
      as [Hl [_ [Hlv _]]]; [unfold scoreKept; cbn; lia | exact Hrun |].
    assert (H0 : 0 <= level s) by (rewrite Hlv; apply Z.div_pos; lia).
    split; [exact H0|]. rewrite (framesPerDrop_nth _ H0).
    eexists. split; [reflexivity|].
    destruct (DifficultyMap_nth (Z.to_nat (Z.min 29 (level s)))
                (Z.to_nat (Z.min 29 (level s)))) as [H1 H2]; lia.
  - intros l1 l2 f1 f2 Hl H1 H2.
    rewrite framesPerDrop_nth in H1, H2 by lia.
    injection H1 as <-. injection H2 as <-.
    apply DifficultyMap_nth. lia.
  - intros l Hl. unfold framesPerDrop, lookup.
    destruct (Z.ltb_spec (Z.min 29 l) 0); [reflexivity | lia].
Qed.

(** After the first line clear the level is still 0: 48 frames. *)
Lemma drop_speed_defined_witness :
  0 <= level (stateAfter seedIIO (fillBottomRow ++ [Tick 6])) /\
  exists frames,
    framesPerDrop (level (stateAfter seedIIO (fillBottomRow ++ [Tick 6])))
    = Some frames /\ 1 <= frames <= 48.
Proof.
  assert (Hrun : run (initialState seedIIO) (fillBottomRow ++ [Tick 6])
                 = Some (stateAfter seedIIO (fillBottomRow ++ [Tick 6])))
    by (vm_compute; reflexivity).
  exact (proj1 drop_speed_defined seedIIO (fillBottomRow ++ [Tick 6])
           (stateAfter seedIIO (fillBottomRow ++ [Tick 6])) Hrun).
Defined.

(** ** Columns *)

Lemma onColumn_inside (v : Z) :
  v mod Block.WIDTH = 0 ->
  0 - Block.WIDTH < v < Viewport.CANVAS_WIDTH -> onColumn v.
Proof.
  unfold onColumn. change Block.WIDTH with 20.
  change Viewport.CANVAS_WIDTH with 200. intros Hmod Hin.
  split; [|exact Hmod]. pose proof (Z.div_mod v 20 ltac:(lia)). lia.
Qed.

Lemma aligned_add (a b : Z) :
  a mod Block.WIDTH = 0 -> b mod Block.WIDTH = 0 ->
  (a + b) mod Block.WIDTH = 0.
Proof.
  change Block.WIDTH with 20. intros Ha Hb.
  rewrite Z.add_mod, Ha, Hb by lia. reflexivity.
Qed.

Lemma aligned_cells (k : Z) : (k * Block.WIDTH) mod Block.WIDTH = 0.
Proof. apply Z.mod_mul. discriminate. Qed.

(** What a mapped array holds comes from the callback. *)
Lemma mapiM_from_In {A B : Type} (f : Z -> A -> option B) (l : list A) :
  forall i bs b,
    mapiM_from f i l = Some bs -> In b bs ->
    exists j a, In a l /\ f j a = Some b.
Proof.
  induction l as [|a l IH]; intros i bs b; cbn [mapiM_from].
  - intros H. injection H as <-. intros [].
  - destruct (f i a) as [b0|] eqn:Hb0; cbn [bind]; [|discriminate].
    destruct (mapiM_from f (i + 1) l) as [bs'|] eqn:Hbs; cbn [bind];
      [|discriminate].
    intros H. injection H as <-. intros [<- | Hin].
    + exists i, a. split; [left; reflexivity | exact Hb0].
    + destruct (IH _ _ _ Hbs Hin) as [j [a' [Ha' Hf]]].
      exists j, a'. split; [right; exact Ha' | exact Hf].
Qed.

(** A piece spawned at the spawn column stands in columns of the board. *)
Lemma createTetrominoes_columns y_ bc sd isPreview state t :
  Tick.createTetrominoes (Viewport.CANVAS_WIDTH / 2 - Block.WIDTH) y_ bc sd
    isPreview state = Some t ->
  (forall c, In c (cells t) -> onColumn (x c)) /\
  (forall p, originBlock t = Some p -> onColumn (x p)).
Proof.
  intros E.
  assert (Hcells : forall c, In c (cells t) -> onColumn (x c)).
  { destruct (createTetrominoes_explicit _ _ _ _ _ _ _ E)
      as [sh [offsets [_ [Hoff [_ ->]]]]].
    cbv zeta. cbn [cells]. intros c Hc. apply (in_map x) in Hc.
    unfold mapi in Hc.
    rewrite (map_mapi_from _ x
               (fun o => Viewport.CANVAS_WIDTH / 2 - Block.WIDTH
                         + ox o * Block.WIDTH)) in Hc by reflexivity.
    destruct sh; cbn in Hoff; injection Hoff as <-; cbn [map ox] in Hc;
      repeat (destruct Hc as [<- | Hc];
              [split; [vm_compute; split; discriminate | reflexivity]|]);
      destruct Hc. }
  split; [exact Hcells|].
  destruct (createTetrominoes_wf _ _ _ _ _ _ _ E) as [_ Hpivot].
  intros p Hp. rewrite Hpivot in Hp. apply Hcells.
  exact (lookup_In _ _ _ Hp).
Qed.

(** Line-clear resolution moves no block sideways. *)
Lemma lineClearCheck_columns (s : State) (b' : Cell) :
  In b' (blocks (lineClearCheck s)) ->
  exists b, In b (blocks s) /\ x b' = x b.
Proof.
  destruct (currentBlock s) as [block|] eqn:Hcur.
  2:{ unfold lineClearCheck. rewrite Hcur. cbn. intros H. exists b'. auto. }
  destruct (collided block) eqn:Hcol.
  2:{ unfold lineClearCheck. rewrite Hcur, Hcol. cbn. intros H.
      exists b'. auto. }
  destruct (Z.ltb_spec 0 (len (fullRows s block))) as [Hk|Hk].
  - rewrite (lineClearCheck_blocks s block Hcur Hcol ltac:(lia)). cbv zeta.
    intros H. apply in_app_iff in H. destruct H as [H | H].
    + apply in_map_iff in H. destruct H as [b [<- Hb]].
      apply filter_In in Hb. exists b. split; [apply Hb | reflexivity].
    + apply filter_In in H. exists b'. split; [apply H | reflexivity].
  - unfold lineClearCheck. rewrite Hcur, Hcol. cbn [negb]. cbv zeta.
    rewrite AllBlockInFullLine_length.
    pose proof (len_nonneg (fullRows s block)) as Hn.
    replace (len (fullRows s block)) with 0 by lia.
    cbn. intros H. exists b'. auto.
Qed.

Lemma inColumns_Move direction offset (s s' : State) :
  inColumns s -> gridAction (Move direction offset) ->
  Move.perform direction offset s = Some s' -> inColumns s'.
Proof.
  intros [Hblocks [Hcurrent Hghost]] Hgrid.
  destruct (currentBlock s) as [cur|] eqn:Hcur.
  2:{ unfold Move.perform. rewrite Hcur. intros H. injection H as <-.
      split; [exact Hblocks|]. split; [|exact Hghost].
      intros cur H. rewrite Hcur in H. discriminate H. }
  rewrite (Move_perform_current direction offset s cur Hcur).
  intros H. injection H as <-.
  destruct (Hcurrent cur eq_refl) as [Hcells _].
  split; [exact Hblocks|]. split; [|exact Hghost].
  cbn. intros cur' H. injection H as <-. cbn.
  assert (Hnew : forall c,
             In c (if collided cur
                      || hasBlocksAround (cells cur) s offset direction
                      || hasBoundaryAround (cells cur) s offset direction
                   then cells cur
                   else map (shiftCell direction offset) (cells cur)) ->
             onColumn (x c)).
  { destruct (collided cur); cbn [orb]; [exact Hcells|].
    destruct (hasBlocksAround (cells cur) s offset direction); cbn [orb];
      [exact Hcells|].
    destruct (hasBoundaryAround (cells cur) s offset direction) eqn:Hb;
      [exact Hcells|].
    intros c Hc. apply in_map_iff in Hc. destruct Hc as [c0 [<- Hc0]].
    destruct direction; [|exact (Hcells c0 Hc0)].
    cbn [shiftCell with_x x]. apply onColumn_inside.
    - apply aligned_add; [apply (Hcells c0 Hc0) | exact Hgrid].
    - destruct (Z.ltb_spec (0 - Block.WIDTH) (x c0 + offset)) as [Hl|Hl];
        [destruct (Z.ltb_spec (x c0 + offset) Viewport.CANVAS_WIDTH)
           as [Hr|Hr]; [split; assumption|]|];
        exfalso; apply not_true_iff_false in Hb; apply Hb;
        apply hasBoundaryAround_iff; exists c0; (split; [exact Hc0|]);
        unfold insideBoard; lia. }
  split; [exact Hnew|]. intros p Hp. apply Hnew. exact (lookup_In _ 1 _ Hp).
Qed.

(** The cells of a turn are whole cells away from the pivot. *)
Lemma naiveRotation_aligned (cur : Tetro) (rotated : list Cell) (p : Cell) :
  originBlock cur = Some p -> x p mod Block.WIDTH = 0 ->
  naiveRotation cur = Some rotated ->
  forall c, In c rotated -> x c mod Block.WIDTH = 0.
Proof.
  intros Hp Hal. unfold naiveRotation.
  destruct (lookup (TetroStartPosMap (shape cur)) (rotation cur))
    as [previous|]; cbn [bind]; [|discriminate].
  destruct (lookup previous 1) as [previousPivot|]; cbn [bind]; [|discriminate].
  unfold Rotate.blockAfterRotation, mapiM. rewrite Hp.
  intros H c Hc.
  destruct (mapiM_from_In _ _ _ _ _ H Hc) as [j [a [_ Hf]]].
  revert Hf. bind_cases. cbn [bind]. intros Hf. injection Hf as <-.
  cbn [createBlock x]. apply aligned_add; [exact Hal | apply aligned_cells].
Qed.

Lemma kick_aligned (k : PieceStartLocation) (cells_ : list Cell) :
  (forall c, In c cells_ -> x c mod Block.WIDTH = 0) ->
  forall c, In c (Rotate.kick k cells_) -> x c mod Block.WIDTH = 0.
Proof.
  intros H c Hc. unfold Rotate.kick in Hc. apply in_map_iff in Hc.
  destruct Hc as [c0 [<- Hc0]]. cbn [with_x with_y x].
  apply aligned_add; [exact (H c0 Hc0) | apply aligned_cells].
Qed.

Lemma passes_columns (s : State) (cells_ : list Cell) :
  Rotate.checkAllCollision s cells_ = false ->
  (forall c, In c cells_ -> x c mod Block.WIDTH = 0) ->
  forall c, In c cells_ -> onColumn (x c).
Proof.
  intros Hpass Hal c Hc. apply checkAllCollision_false_iff in Hpass.
  destruct (Hpass c Hc) as [_ [Hin _]]. unfold insideBoard in Hin.
  apply onColumn_inside; [exact (Hal c Hc) | lia].
Qed.

Lemma inColumns_Rotate (s s' : State) :
  wellFormed s -> inColumns s -> Rotate.perform s = Some s' -> inColumns s'.
Proof.
  intros [_ Hwf] [Hblocks [Hcurrent Hghost]].
  destruct (currentBlock s) as [cur|] eqn:Hcur.
  2:{ unfold Rotate.perform. rewrite Hcur. intros H. injection H as <-.
      split; [exact Hblocks|]. split; [|exact Hghost].
      intros cur H. rewrite Hcur in H. discriminate H. }
  destruct Hwf as [Hcurwf _].
  destruct (Rotate_defined cur Hcurwf) as [rotated [kicks [Hr [Hk _]]]].
  pose proof Hcurwf as [_ [[Hrot _] Hsome]].
  destruct (originBlock cur) as [p|] eqn:Hp; [|contradiction Hsome; reflexivity].
  destruct (Hcurrent cur eq_refl) as [_ Hpivot].
  assert (Hal : forall c, In c rotated -> x c mod Block.WIDTH = 0).
  { apply (naiveRotation_aligned cur rotated p Hp); [|exact Hr].
    apply (Hpivot p). exact Hp. }
  rewrite (Rotate_perform_current s cur rotated kicks Hcur Hrot Hr Hk).
  assert (Hdone : forall cells',
             (forall c, In c cells' -> onColumn (x c)) ->
             inColumns (withRotation (nextRotation cur) cells' cur s)).
  { intros cells' Hnew. split; [exact Hblocks|]. split; [|exact Hghost].
    cbn. intros cur' H. injection H as <-. cbn.
    split; [exact Hnew|]. intros q Hq. apply Hnew.
    exact (lookup_In _ 1 _ Hq). }
  destruct (Rotate.checkAllCollision s rotated) eqn:Hcoll.
  - destruct (filter _ kicks) as [|k rest] eqn:Hfilter.
    + intros H. injection H as <-.
      split; [exact Hblocks|]. split; [|exact Hghost].
      intros cur' H. rewrite Hcur in H. injection H as <-.
      exact (Hcurrent cur eq_refl).
    + intros H. injection H as <-. apply Hdone.
      assert (Hk' : In k (filter (fun k => negb (Rotate.checkAllCollision s
                                                   (Rotate.kick k rotated)))
                            kicks))
        by (rewrite Hfilter; left; reflexivity).
      apply filter_In in Hk'. destruct Hk' as [_ Hk'].
      apply negb_true_iff in Hk'.
      apply (passes_columns s); [exact Hk'|].
      apply kick_aligned. exact Hal.
  - intros H. injection H as <-. apply Hdone.
    apply (passes_columns s); assumption.
Qed.

Lemma inColumns_Tick (time : Z) (s s' : State) :
  wellFormed s -> inColumns s -> Tick.perform time s = Some s' ->
  inColumns s'.
Proof.
  intros Hwf [Hblocks [Hcurrent Hghost]] Htick.
  pose proof (wellFormed_Tick time s s' Hwf Htick) as Hwf'.
  destruct (lineClearCheck_frame s) as [Ec _].
  destruct (Tick_perform_inv time s s' Htick)
    as [block [ghostTetro [ghostCells [offset [next' [blockCount'
         [Hblock [Hg [Hcells [_ ->]]]]]]]]]].
  destruct Hwf' as [_ Hs']. cbn in Hs'. destruct Hs' as [[Hlen _] _].
  destruct (createTetrominoes_wf _ _ _ _ _ _ _ Hg) as [[Hglen _] _].
  rewrite Ec in Hblock.
  assert (Hb : (forall c, In c (cells block) -> onColumn (x c)) /\
               (forall p, originBlock block = Some p -> onColumn (x p))).
  { destruct (currentBlock s) as [cur|].
    - destruct (collided cur).
      + exact (createTetrominoes_columns _ _ _ _ _ _ Hblock).
      + subst block. apply Hcurrent. reflexivity.
    - exact (createTetrominoes_columns _ _ _ _ _ _ Hblock). }
  split; [|split].
  - cbn. intros b Hin. destruct (lineClearCheck_columns s b Hin)
      as [b0 [Hb0 ->]]. exact (Hblocks b0 Hb0).
  - cbn. intros cur' H. injection H as <-. exact Hb.
  - cbn. intros ghost H. injection H as <-. cbn. intros c Hc.
    unfold Tick.mapGhostTetro, mapiM in Hcells.
    pose proof (mapiM_from_reads (cells block)
                  (fun cell bc =>
                     with_color "grey"
                       (with_y (y bc + offset) (with_x (x bc) cell)))
                  x x (cells ghostTetro) (fun a c => eq_refl) 0 ghostCells
                  ltac:(lia) Hcells) as Hx.
    cbn [Z.to_nat skipn] in Hx. rewrite Hglen, <- Hlen, firstn_all in Hx.
    apply (in_map x) in Hc. rewrite Hx in Hc. apply in_map_iff in Hc.
    destruct Hc as [c0 [<- Hc0]]. exact (proj1 Hb c0 Hc0).
Qed.

Lemma inColumns_Hold (s s' : State) :
  inColumns s -> Hold.perform s = Some s' -> inColumns s'.
Proof.
  intros Hin. pose proof Hin as [Hblocks [Hcurrent Hghost]].
  unfold Hold.perform.
  destruct (currentBlock s) as [cur|] eqn:Hcur;
    [|intros H; injection H as <-; exact Hin].
  destruct (collided cur || negb (canHoldAgain s));
    [intros H; injection H as <-; exact Hin|].
  destruct (heldBlock s) as [held|].
  - bind_case cur1 Hcur1. cbn [bind]. bind_case held1 Hheld1.
    intros H. injection H as <-.
    split; [exact Hblocks|]. split; [|exact Hghost].
    cbn. intros cur' H. injection H as <-.
    exact (createTetrominoes_columns _ _ _ _ _ _ Hcur1).
  - destruct (nextBlock s) as [next|]; cbn [bind]; [|discriminate].
    destruct (Tick.createTetrominoes _ _ (blockStartCount next) _ _ _)
      as [cur1|] eqn:Hcur1; cbn [bind]; [|discriminate].
    destruct (Tick.createTetrominoes _ _ (blockCount s + 4) _ _ _)
      as [next1|]; cbn [bind]; [|discriminate].
    bind_case held1 Hheld1.
    intros H. injection H as <-.
    split; [exact Hblocks|]. split; [|exact Hghost].
    cbn. intros cur' H. injection H as <-.
    exact (createTetrominoes_columns _ _ _ _ _ _ Hcur1).
Qed.

Lemma inColumns_Drop (s s' : State) :
  inColumns s -> Drop.perform s = Some s' -> inColumns s'.
Proof.
  intros Hin. pose proof Hin as [Hblocks [Hcurrent Hghost]].
  unfold Drop.perform.
  destruct (currentBlock s) as [cur|] eqn:Hcur;
    [|intros H; injection H as <-; exact Hin].
  destruct (collided cur); [intros H; injection H as <-; exact Hin|].
  unfold mapiM.
  destruct (mapiM_from _ 0 (cells cur)) as [dropped|] eqn:Hd; cbn [bind];
    [|discriminate].
  intros H. injection H as <-.
  assert (Hnew : forall c, In c dropped -> onColumn (x c)).
  { intros c Hc. destruct (mapiM_from_In _ _ _ _ _ Hd Hc) as [j [a [_ Hf]]].
    revert Hf. destruct (ghostBlock s) as [ghost|] eqn:Hg; cbn [bind];
      [|discriminate].
    destruct (lookup (cells ghost) j) as [g|] eqn:Hj; cbn [bind];
      [|discriminate].
    intros Hf. injection Hf as <-. cbn [with_x with_y x].
    apply (Hghost ghost eq_refl). exact (lookup_In _ _ _ Hj). }
  split; [|split].
  - cbn. intros b Hb. apply in_app_iff in Hb.
    destruct Hb as [Hb | Hb]; [exact (Hblocks b Hb) | exact (Hnew b Hb)].
  - cbn. intros cur' H. injection H as <-. cbn.
    split; [exact Hnew | apply (Hcurrent cur eq_refl)].
  - exact Hghost.
Qed.

Lemma inColumns_Collision (s s' : State) :
  inColumns s -> Collision.perform s = Some s' -> inColumns s'.
Proof.
  intros [Hblocks [Hcurrent Hghost]].
  unfold Collision.perform, collisionDetection.
  destruct (currentBlock s) as [cur|] eqn:Hcur; cbn [bind]; [|discriminate].
  intros H. injection H as <-.
  destruct (Hcurrent cur eq_refl) as [Hcells Hpivot].
  split; [|split].
  - cbn. destruct (_ || _); [|exact Hblocks].
    intros b Hb. apply in_app_iff in Hb.
    destruct Hb as [Hb | Hb]; [exact (Hblocks b Hb) | exact (Hcells b Hb)].
  - cbn. intros cur' H. injection H as <-. cbn. split; assumption.
  - exact Hghost.
Qed.

Lemma inColumns_run (actions : list Action) :
  forall s s',
    wellFormed s -> inColumns s -> Forall gridAction actions ->
    run s actions = Some s' -> inColumns s'.
Proof.
  induction actions as [|a actions IH]; intros s s' Hwf Hin Hgrid; cbn [run].
  - intros H. injection H as <-. exact Hin.
  - destruct (perform a s) as [s1|] eqn:Ha; cbn [bind]; [|discriminate].
    inversion Hgrid as [|a' actions' Hga Hgrest]; subst.
    apply IH; [exact (wellFormed_perform a s s1 Hwf Ha) | | exact Hgrest].
    destruct a; cbn [perform] in Ha.
    + exact (inColumns_Move _ _ s s1 Hin Hga Ha).
    + exact (inColumns_Tick _ s s1 Hwf Hin Ha).
    + exact (inColumns_Rotate s s1 Hwf Hin Ha).
    + exact (inColumns_Hold s s1 Hin Ha).
    + exact (inColumns_Drop s s1 Hin Ha).
    + exact (inColumns_Collision s s1 Hin Ha).
Qed.

(** X19.  Nothing leaves the board sideways.  Along any run from the
    initial state in which the Moves sideways go by whole cells, every
    committed block, every cell of the current block and of the ghost, and
    the pivot, stand in a column of the board: [x] is a multiple of the
    cell width from 0 to the canvas width less one cell.  (The left bound
    the boundary check tests is [-WIDTH < x]; on the grid that is
    [0 <= x].) *)
Theorem blocks_stay_in_columns :
  forall (initialSeed : Z) (actions : list Action) (s : State),
    Forall gridAction actions ->
    run (initialState initialSeed) actions = Some s ->
    (forall b, In b (blocks s) -> onColumn (x b)) /\
    (forall cur, currentBlock s = Some cur ->
       (forall c, In c (cells cur) -> onColumn (x c)) /\
       (forall p, originBlock cur = Some p -> onColumn (x p))) /\
    (forall ghost, ghostBlock s = Some ghost ->
       forall c, In c (cells ghost) -> onColumn (x c)).
Proof.
  intros initialSeed actions s Hgrid Hrun.
  apply (inColumns_run actions (initialState initialSeed) s);
    [apply wellFormed_initialState | | exact Hgrid | exact Hrun].
  split; [intros b []|]. split; intros t H; discriminate H.
Qed.

(** The first piece pushed against the left wall: six Moves to the left,
    of which the last two are refused. *)
Lemma blocks_stay_in_columns_witness :
  exists cur,
    currentBlock (stateAfter seedO
                    (Tick 0 :: repeat (Move DirX (- Block.WIDTH)) 6))
    = Some cur /\
    Forall (fun c => onColumn (x c)) (cells cur).
Proof.
  assert (Hgrid : Forall gridAction
                    (Tick 0 :: repeat (Move DirX (- Block.WIDTH)) 6))
    by (repeat constructor).
  assert (Hrun : run (initialState seedO)
                   (Tick 0 :: repeat (Move DirX (- Block.WIDTH)) 6)
                 = Some (stateAfter seedO
                           (Tick 0 :: repeat (Move DirX (- Block.WIDTH)) 6)))
    by (vm_compute; reflexivity).
  destruct (currentBlock (stateAfter seedO
                            (Tick 0 :: repeat (Move DirX (- Block.WIDTH)) 6)))
    as [cur|] eqn:Hcur; [| vm_compute in Hcur; discriminate Hcur].
  exists cur. split; [reflexivity|]. apply Forall_forall.
  exact (proj1 (proj1 (proj2 (blocks_stay_in_columns seedO
                                (Tick 0 :: repeat (Move DirX (- Block.WIDTH)) 6)
                                (stateAfter seedO
                                   (Tick 0 :: repeat (Move DirX (- Block.WIDTH)) 6))
                                Hgrid Hrun)) cur Hcur)).
Defined.

(** ** The ghost as the landing place *)

Lemma landing_fold (c : Cell) (blocks_ : list Cell) :
  forall acc0,
    let r := fold_left (fun (acc : Z) (b : Cell) =>
                          if (x c =? x b) && (y b <? acc) && (y c <? y b)
                          then y b else acc)
                       blocks_ acc0 in
    (r = acc0 \/ exists b, In b blocks_ /\ x b = x c /\ y c < y b /\ r = y b) /\
    r <= acc0 /\
    (forall b, In b blocks_ -> x b = x c -> y c < y b -> r <= y b).
Proof.
  induction blocks_ as [|b0 blocks_ IH]; intros acc0; cbn [fold_left].
  - cbv zeta. split; [left; reflexivity|]. split; [lia | intros b []].
  - cbv zeta.
    destruct (IH (if (x c =? x b0) && (y b0 <? acc0) && (y c <? y b0)
                  then y b0 else acc0)) as [Hwho [Hle Hmin]].
    destruct (Z.eqb_spec (x c) (x b0)) as [Hx|Hx]; cbn [andb] in *.
    + destruct (Z.ltb_spec (y b0) acc0) as [Hlt|Hge]; cbn [andb] in *.
      * destruct (Z.ltb_spec (y c) (y b0)) as [Hbelow|Habove].
        -- split; [|split].
           ++ right. destruct Hwho as [-> | [b [Hb Hrest]]].
              ** exists b0. split; [left; reflexivity|]. auto.
              ** exists b. split; [right; exact Hb | exact Hrest].
           ++ lia.
           ++ intros b [<- | Hb] Hbx Hby; [exact Hle | auto].
        -- split; [|split; [exact Hle|]].
           ++ destruct Hwho as [-> | [b [Hb Hrest]]]; [left; reflexivity|].
              right. exists b. split; [right; exact Hb | exact Hrest].
           ++ intros b [<- | Hb] Hbx Hby; [lia | auto].
      * split; [|split; [exact Hle|]].
        -- destruct Hwho as [-> | [b [Hb Hrest]]]; [left; reflexivity|].
           right. exists b. split; [right; exact Hb | exact Hrest].
        -- intros b [<- | Hb] Hbx Hby; [lia | auto].
    + split; [|split; [exact Hle|]].
      * destruct Hwho as [-> | [b [Hb Hrest]]]; [left; reflexivity|].
        right. exists b. split; [right; exact Hb | exact Hrest].
      * intros b [<- | Hb] Hbx Hby; [congruence | auto].
Qed.

(** The landing row of a cell is the floor row, or the row above the
    highest block below the cell. *)
Lemma landingRow_spec (blocks_ : list Cell) (c : Cell) :
  (landingRow blocks_ c = 400 - Block.HEIGHT \/
   exists b, In b blocks_ /\ x b = x c /\ y c < y b /\
             landingRow blocks_ c = y b - Block.HEIGHT) /\
  landingRow blocks_ c <= 400 - Block.HEIGHT /\
  (forall b, In b blocks_ -> x b = x c -> y c < y b ->
             landingRow blocks_ c + Block.HEIGHT <= y b).
Proof.
  unfold landingRow. destruct (landing_fold c blocks_ 400) as [Hwho [Hle Hmin]].
  cbv zeta in Hwho, Hle, Hmin. split; [|split].
  - destruct Hwho as [-> | [b [Hb [Hx [Hy ->]]]]]; [left; reflexivity|].
    right. exists b. auto.
  - lia.
  - intros b Hb Hx Hy. specialize (Hmin b Hb Hx Hy). lia.
Qed.

Lemma fold_min_spec (l : list Z) :
  forall v,
    (fold_left Z.min l v = v \/ In (fold_left Z.min l v) l) /\
    fold_left Z.min l v <= v /\
    (forall u, In u l -> fold_left Z.min l v <= u).
Proof.
  induction l as [|a l IH]; intros v; cbn [fold_left].
  - split; [left; reflexivity|]. split; [lia | intros u []].
  - destruct (IH (Z.min v a)) as [Hwho [Hle Hmin]]. split; [|split].
    + destruct Hwho as [Heq | Hin]; [|right; right; exact Hin].
      rewrite Heq. destruct (Z.min_spec v a) as [[_ ->] | [_ ->]];
        [left; reflexivity | right; left; reflexivity].
    + lia.
    + intros u [<- | Hu]; [lia | auto].
Qed.

Lemma Math_min_spec (l : list Z) (m : Z) :
  Math_min l = Some m -> In m l /\ forall v, In v l -> m <= v.
Proof.
  destruct l as [|v l]; cbn [Math_min]; [discriminate|].
  intros H. injection H as <-.
  destruct (fold_min_spec l v) as [Hwho [Hle Hmin]]. split.
  - destruct Hwho as [-> | Hin]; [left; reflexivity | right; exact Hin].
  - intros u [<- | Hu]; [exact Hle | auto].
Qed.

(** The indices collected are the indices that hold the value. *)
Lemma reducei_from_spec (m : Z) (l : list Z) :
  forall (i : Z) (acc : list Z) (j : Z),
    0 <= i ->
    (In j (reducei_from (fun (acc : list Z) (val index : Z) =>
                           if val =? m then acc ++ [index] else acc)
                        i l acc)
     <-> In j acc \/ (i <= j /\ lookup l (j - i) = Some m)).
Proof.
  induction l as [|v l IH]; intros i acc j Hi; cbn [reducei_from].
  - split; [auto|]. intros [H | [_ H]]; [exact H|].
    unfold lookup in H. destruct (j - i <? 0); [discriminate|].
    destruct (Z.to_nat (j - i)); discriminate H.
  - rewrite IH by lia.
    assert (Hhead : lookup (v :: l) (j - i) = Some m
                    <-> (j = i /\ v = m) \/
                        (i + 1 <= j /\ lookup l (j - (i + 1)) = Some m)).
    { destruct (Z.eq_dec j i) as [->|Hne].
      - rewrite Z.sub_diag. cbn. split.
        + intros H. injection H as ->. left. auto.
        + intros [[_ ->] | [H _]]; [reflexivity | lia].
      - destruct (Z.ltb_spec j i) as [Hlt|Hge].
        + split.
          * unfold lookup. destruct (Z.ltb_spec (j - i) 0); [discriminate|lia].
          * intros [[H _] | [H _]]; lia.
        + replace (j - i) with (j - (i + 1) + 1) by lia.
          rewrite lookup_cons_succ by lia. split.
          * intros H. right. split; [lia | exact H].
          * intros [[H _] | [_ H]]; [lia | exact H]. }
    destruct (Z.eqb_spec v m) as [Hv|Hv].
    + rewrite in_app_iff. cbn [In]. rewrite Hhead. split.
      * intros [[H | [<- | []]] | H]; [auto | right; split; [lia|] | ].
        -- left. auto.
        -- right. split; [lia|]. right. exact H.
      * intros [H | [_ [[-> _] | H]]]; [auto | auto | auto].
    + rewrite Hhead. split.
      * intros [H | H]; [auto|]. right. split; [lia|]. right. exact H.
      * intros [H | [_ [[_ H] | H]]]; [auto | contradiction | auto].
Qed.

Lemma In_lookup {A : Type} (l : list A) (a : A) :
  In a l -> exists k, 0 <= k /\ lookup l k = Some a.
Proof.
  intros H. apply In_nth_error in H. destruct H as [n Hn].
  exists (Z.of_nat n). split; [lia|]. unfold lookup.
  destruct (Z.ltb_spec (Z.of_nat n) 0); [lia|]. rewrite Nat2Z.id. exact Hn.
Qed.

(** Choosing the lowest cell among some indices: the choice is one of the
    indices or the start, and no cell of the indices lies lower. *)
Lemma yValueIndex_spec (cells_ : list Cell) (indices : list Z) :
  forall (a r : Z * Z),
    fold_left (fun (acc : option (Z * Z)) (val : Z) =>
                 let? a := acc in
                 let? c := lookup cells_ val in
                 Some (if y c <? snd a then a else (val, y c)))
              indices (Some a) = Some r ->
    (r = a \/
     In (fst r) indices /\
     exists c, lookup cells_ (fst r) = Some c /\ snd r = y c) /\
    snd a <= snd r /\
    (forall v c, In v indices -> lookup cells_ v = Some c -> y c <= snd r).
Proof.
  induction indices as [|v indices IH]; intros a r; cbn [fold_left].
  - intros H. injection H as <-. split; [left; reflexivity|].
    split; [lia | intros v c []].
  - cbn [bind]. destruct (lookup cells_ v) as [c|] eqn:Hc; cbn [bind].
    2:{ intros H. exfalso. revert H. clear.
        induction indices as [|w indices IH]; cbn [fold_left bind];
          [discriminate | exact IH]. }
    intros H. destruct (IH _ _ H) as [Hwho [Hle Hmax]]. split; [|split].
    + destruct Hwho as [-> | [Hin Hrest]].
      * destruct (Z.ltb_spec (y c) (snd a)); [left; reflexivity|].
        right. cbn [fst snd]. split; [left; reflexivity|].
        exists c. split; [exact Hc | reflexivity].
      * right. split; [right; exact Hin | exact Hrest].
    + destruct (Z.ltb_spec (y c) (snd a)); cbn [snd] in Hle; lia.
    + intros w c' [<- | Hw] Hc'.
      * rewrite Hc in Hc'. injection Hc' as <-.
        destruct (Z.ltb_spec (y c) (snd a)); cbn [snd] in Hle; lia.
      * exact (Hmax w c' Hw Hc').
Qed.

Lemma yValueIndex_chosen (cells_ : list Cell) (indices : list Z) :
  forall (a r : Z * Z),
    fold_left (fun (acc : option (Z * Z)) (val : Z) =>
                 let? a := acc in
                 let? c := lookup cells_ val in
                 Some (if y c <? snd a then a else (val, y c)))
              indices (Some a) = Some r ->
    (exists v c, In v indices /\ lookup cells_ v = Some c /\ snd a <= y c) ->
    In (fst r) indices /\
    exists c, lookup cells_ (fst r) = Some c /\ snd r = y c.
Proof.
  induction indices as [|v indices IH]; intros a r; cbn [fold_left].
  - intros _ [v [c [[] _]]].
  - cbn [bind]. destruct (lookup cells_ v) as [c|] eqn:Hc; cbn [bind].
    2:{ intros H. exfalso. revert H. clear.
        induction indices as [|w indices IH]; cbn [fold_left bind];
          [discriminate | exact IH]. }
    intros H [v0 [c0 [Hv0 [Hc0 Hge]]]].
    destruct (yValueIndex_spec _ _ _ _ H) as [[Hr | [Hin Hrest]] _].
    2:{ split; [right; exact Hin | exact Hrest]. }
    destruct (Z.ltb_spec (y c) (snd a)) as [Hlt|Hnlt].
    + destruct Hv0 as [<- | Hv0].
      * rewrite Hc in Hc0. injection Hc0 as <-. lia.
      * destruct (IH a r H) as [Hin Hrest];
          [exists v0, c0; auto|]. split; [right; exact Hin | exact Hrest].
    + subst r. cbn [fst snd]. split; [left; reflexivity|].
      exists c. split; [exact Hc | reflexivity].
Qed.

Section Landing.

Variables (blocks_ cells_ : list Cell).
Hypothesis rows_blocks : forall b, In b blocks_ -> onRow (y b).
Hypothesis rows_cells :
  forall c, In c cells_ -> onRow (y c) /\ 0 <= y c <= 400 - Block.HEIGHT.
Hypothesis clear_cells : forall c, In c cells_ -> ~ overlaps blocks_ c.
Hypothesis tight_cells : tight cells_.

Variables (getMinY : Z) (yValueIndex : Z * Z) (lowest : Cell).
Hypothesis min_row :
  Math_min (map (landingRow blocks_) cells_) = Some getMinY.
Hypothesis lowest_index :
  fold_left (fun (acc : option (Z * Z)) (val : Z) =>
               let? a := acc in
               let? c := lookup cells_ val in
               Some (if y c <? snd a then a else (val, y c)))
            (reducei_from (fun (acc : list Z) (val index : Z) =>
                             if val =? getMinY then acc ++ [index] else acc)
                          0 (map (landingRow blocks_) cells_) [])
            (Some (0, 0))
  = Some yValueIndex.
Hypothesis lowest_cell : lookup cells_ (fst yValueIndex) = Some lowest.

Lemma landingRow_row (c : Cell) :
  In c cells_ ->
  onRow (landingRow blocks_ c) /\ y c <= landingRow blocks_ c.
Proof.
  intros Hc. destruct (rows_cells c Hc) as [Hrow Hrange].
  destruct (landingRow_spec blocks_ c) as [[-> | [b [Hb [Hx [Hy ->]]]]] _].
  - split; [reflexivity | lia].
  - pose proof (rows_blocks b Hb) as Hbrow. unfold onRow in *.
    change Block.HEIGHT with 20 in *.
    pose proof (Z.div_mod (y b) 20 ltac:(lia)).
    pose proof (Z.div_mod (y c) 20 ltac:(lia)).
    split; [|lia].
    replace (y b - 20) with (y b + (-1) * 20) by lia.
    rewrite Z.mod_add by lia. exact Hbrow.
Qed.

(** The cell the offset is measured from lands first, and is the lowest
    of the cells that do. *)
Lemma lowest_lands_first :
  In lowest cells_ /\ landingRow blocks_ lowest = getMinY /\
  (forall c, In c cells_ -> getMinY <= landingRow blocks_ c) /\
  (forall c, In c cells_ -> landingRow blocks_ c = getMinY ->
             y c <= y lowest).
Proof.
  destruct (Math_min_spec _ _ min_row) as [Hin Hmin].
  pose proof (fun j => reducei_from_spec getMinY
                         (map (landingRow blocks_) cells_) 0 [] j
                         ltac:(lia)) as Hidx.
  assert (Hmember : forall k c,
             0 <= k -> lookup cells_ k = Some c ->
             landingRow blocks_ c = getMinY ->
             In k (reducei_from
                     (fun (acc : list Z) (val index : Z) =>
                        if val =? getMinY then acc ++ [index] else acc)
                     0 (map (landingRow blocks_) cells_) [])).
  { intros k c Hk Hc HL. apply Hidx. right. split; [exact Hk|].
    rewrite Z.sub_0_r, lookup_map, Hc. cbn [option_map]. rewrite HL.
    reflexivity. }
  apply in_map_iff in Hin. destruct Hin as [c0 [HL0 Hc0]].
  destruct (In_lookup _ _ Hc0) as [k0 [Hk0 Hlook0]].
  destruct (yValueIndex_chosen _ _ _ _ lowest_index) as [Hchosen [c [Hc Hy]]].
  { exists k0, c0. split; [exact (Hmember k0 c0 Hk0 Hlook0 HL0)|].
    split; [exact Hlook0|]. cbn [snd]. apply (rows_cells c0 Hc0). }
  rewrite lowest_cell in Hc. injection Hc as <-.
  apply Hidx in Hchosen. destruct Hchosen as [[] | [_ Hchosen]].
  rewrite Z.sub_0_r, lookup_map, lowest_cell in Hchosen.
  cbn [option_map] in Hchosen. injection Hchosen as HL.
  split; [exact (lookup_In _ _ _ lowest_cell)|]. split; [exact HL|]. split.
  - intros c Hc. apply Hmin. apply in_map. exact Hc.
  - intros c Hc HLc. destruct (In_lookup _ _ Hc) as [k [Hk Hlook]].
    destruct (yValueIndex_spec _ _ _ _ lowest_index) as [_ [_ Hmax]].
    rewrite Hy in Hmax.
    exact (Hmax k c (Hmember k c Hk Hlook HLc) Hlook).
Qed.

(** Moved down by the offset, no cell goes more than one row past its
    landing row. *)
Lemma ghost_bound (c : Cell) :
  In c cells_ ->
  y c + (getMinY - y lowest) <= landingRow blocks_ c + Block.HEIGHT.
Proof.
  intros Hc.
  destruct lowest_lands_first as [Hlow [HL [Hmin Hmax]]].
  specialize (Hmin c Hc).
  destruct (Z.eq_dec (landingRow blocks_ c) getMinY) as [Heq|Hne].
  { specialize (Hmax c Hc Heq). change Block.HEIGHT with 20. lia. }
  destruct (landingRow_row c Hc) as [Hrow _].
  destruct (landingRow_row lowest Hlow) as [Hrowl _]. rewrite HL in Hrowl.
  assert (Hstep : getMinY + Block.HEIGHT <= landingRow blocks_ c).
  { unfold onRow in *. change Block.HEIGHT with 20 in *.
    pose proof (Z.div_mod (landingRow blocks_ c) 20 ltac:(lia)).
    pose proof (Z.div_mod getMinY 20 ltac:(lia)). lia. }
  destruct (tight_cells lowest c Hlow Hc) as [Hnear | [Hx Hfills]].
  { change Block.HEIGHT with 20 in *. lia. }
  exfalso.
  destruct (landingRow_spec blocks_ lowest)
    as [[Hfloor | [b [Hb [Hbx [Hby Hbl]]]]] _].
  - destruct (landingRow_spec blocks_ c) as [_ [Hle _]].
    rewrite HL in Hfloor. lia.
  - destruct (Z.le_gt_cases (y b) (y c)) as [Hbetween|Hbelow].
    + destruct (Hfills (y b) ltac:(lia) (rows_blocks b Hb))
        as [c3 [Hc3 [Hc3x Hc3y]]].
      apply (clear_cells c3 Hc3). exists b. split; [exact Hb|].
      split; [congruence | exact Hc3y].
    + destruct (landingRow_spec blocks_ c) as [_ [_ Hall]].
      specialize (Hall b Hb ltac:(congruence) ltac:(lia)).
      rewrite HL in Hbl. lia.
Qed.

(** A cell moved down no further than its landing row meets no block and
    stays above the floor. *)
Lemma above_landing_free (c : Cell) (d : Z) :
  In c cells_ -> 0 <= d -> y c + d <= landingRow blocks_ c ->
  y c + d <= 400 - Block.HEIGHT /\
  ~ exists b, In b blocks_ /\ x b = x c /\ y b = y c + d.
Proof.
  intros Hc Hd Hle.
  destruct (landingRow_spec blocks_ c) as [_ [Hfloor Hall]].
  split; [lia|]. intros [b [Hb [Hx Hy]]].
  destruct (Z.eq_dec d 0) as [->|Hpos].
  - apply (clear_cells c Hc). exists b. split; [exact Hb|].
    split; [congruence | lia].
  - specialize (Hall b Hb Hx ltac:(lia)). change Block.HEIGHT with 20 in *.
    lia.
Qed.

End Landing.

(** The row one to three rows below a row. *)
Lemma rows_between (a v : Z) :
  onRow a -> onRow v -> a < v <= a + 3 * Block.HEIGHT ->
  v = a + Block.HEIGHT \/ v = a + 2 * Block.HEIGHT \/ v = a + 3 * Block.HEIGHT.
Proof.
  unfold onRow. change Block.HEIGHT with 20. intros Ha Hv Hrange.
  pose proof (Z.div_mod a 20 ltac:(lia)).
  pose proof (Z.div_mod v 20 ltac:(lia)). lia.
Qed.

(** The pieces of the table are tight. *)
Lemma rigid_tight (t : Tetro) :
  rigid t -> (forall c, In c (cells t) -> onRow (y c)) -> tight (cells t).
Proof.
  intros [_ [bx [by_ [offsets [Hoff Hpos]]]]] Hrows.
  apply lookup_In in Hoff. unfold placesAt in Hpos.
  change Block.WIDTH with 20 in Hpos. change Block.HEIGHT with 20 in Hpos.
  destruct (cells t) as [|ca [|cb [|cc [|cd [|ce rest]]]]];
    destruct (shape t); cbn in Hoff;
    repeat (destruct Hoff as [<- | Hoff]; [|]); try destruct Hoff;
    try discriminate Hpos;
    cbn [map ox oy] in Hpos; unfold position in Hpos;
    injection Hpos as Hxa Hya Hxb Hyb Hxc Hyc Hxd Hyd;
    pose proof (Hrows ca ltac:(cbn; tauto)) as Hra;
    pose proof (Hrows cb ltac:(cbn; tauto)) as Hrb;
    pose proof (Hrows cc ltac:(cbn; tauto)) as Hrc;
    pose proof (Hrows cd ltac:(cbn; tauto)) as Hrd;
    intros c1 c2 H1 H2;
    destruct H1 as [<- | [<- | [<- | [<- | []]]]];
    destruct H2 as [<- | [<- | [<- | [<- | []]]]];
    change Block.HEIGHT with 20;
    first
      [ left; lia
      | right; split; [lia|]; intros v Hv Hmod;
        match goal with
        | Hv : y ?c1 < v <= _ |- _ =>
            assert (Hrow1 : onRow (y c1)) by assumption;
            destruct (rows_between (y c1) v Hrow1 Hmod
                        ltac:(change Block.HEIGHT with 20; lia))
              as [Hcase | [Hcase | Hcase]];
            change Block.HEIGHT with 20 in Hcase
        end;
        first [ exists ca; split; [cbn; tauto | split; lia]
              | exists cb; split; [cbn; tauto | split; lia]
              | exists cc; split; [cbn; tauto | split; lia]
              | exists cd; split; [cbn; tauto | split; lia] ] ].
Qed.

(** What Tick computes for the ghost of a live block. *)
Lemma Tick_perform_live (time : Z) (s s' : State) (cur : Tetro) :
  currentBlock s = Some cur -> collided cur = false ->
  Tick.perform time s = Some s' ->
  exists getMinY yValueIndex lowest ghostTetro ghostCells ghostCells',
    Math_min (map (landingRow (blocks s)) (cells cur)) = Some getMinY /\
    fold_left (fun (acc : option (Z * Z)) (val : Z) =>
                 let? a := acc in
                 let? c := lookup (cells cur) val in
                 Some (if y c <? snd a then a else (val, y c)))
              (reducei_from (fun (acc : list Z) (val index : Z) =>
                               if val =? getMinY then acc ++ [index] else acc)
                            0 (map (landingRow (blocks s)) (cells cur)) [])
              (Some (0, 0))
    = Some yValueIndex /\
    lookup (cells cur) (fst yValueIndex) = Some lowest /\
    length (cells ghostTetro) = 4%nat /\
    Tick.mapGhostTetro (cells ghostTetro) cur (getMinY - y lowest)
    = Some ghostCells /\
    (if hasBlocksAround ghostCells s 0 DirX
        || hasBoundaryAround ghostCells s 0 DirY
     then Tick.mapGhostTetro (cells ghostTetro) cur
            (getMinY - y lowest - Block.HEIGHT)
     else Some ghostCells) = Some ghostCells' /\
    ghostBlock s' = Some (with_cells ghostCells' ghostTetro) /\
    blocks s' = blocks s.
Proof.
  intros Hcur Hlive. unfold Tick.perform.
  rewrite (lineClearCheck_live s cur Hcur Hlive). cbv zeta.
  cbn [currentBlock blocks with_changeInLevel]. rewrite Hcur, Hlive.
  cbn [bind].
  change (map (fun c : Cell =>
                 fold_left
                   (fun (acc : Z) (b : Cell) =>
                      if (x c =? x b) && (y b <? acc) && (y c <? y b)
                      then y b else acc)
                   (blocks s) 400 - Block.HEIGHT) (cells cur))
    with (map (landingRow (blocks s)) (cells cur)).
  bind_case getMinY Hmin. bind_case yValueIndex Hfold.
  bind_case lowest Hlow. bind_case ghostTetro Hghost.
  bind_case ghostCells Hcells. bind_case ghostCells' Hcells'.
  bind_case next' Hnext. intros H. injection H as <-.
  exists getMinY, yValueIndex, lowest, ghostTetro, ghostCells, ghostCells'.
  split; [reflexivity|]. split; [exact Hfold|]. split; [exact Hlow|].
  destruct (createTetrominoes_wf _ _ _ _ _ _ _ Hghost) as [[Hglen _] _].
  split; [exact Hglen|]. split; [exact Hcells|]. split; [|split; reflexivity].
  destruct (hasBlocksAround ghostCells s 0 DirX
            || hasBoundaryAround ghostCells s 0 DirY); [|exact Hcells'].
  rewrite <- (mapGhostTetro_again _ _ _ _ _ Hcells). exact Hcells'.
Qed.

Lemma mapGhostTetro_places (cells_ ghostCells : list Cell) (block : Tetro)
  (offset : Z) :
  length cells_ = length (cells block) ->
  Tick.mapGhostTetro cells_ block offset = Some ghostCells ->
  map position ghostCells
  = map (fun c => (x c, y c + offset)) (cells block).
Proof.
  intros Hlen H. unfold Tick.mapGhostTetro, mapiM in H.
  rewrite (mapiM_from_reads (cells block)
             (fun cell bc =>
                with_color "grey" (with_y (y bc + offset) (with_x (x bc) cell)))
             position (fun c => (x c, y c + offset)) cells_
             (fun a c => eq_refl) 0 ghostCells ltac:(lia) H).
  cbn [Z.to_nat skipn]. rewrite Hlen, firstn_all. reflexivity.
Qed.

(** Cells that stand on the places of other cells moved down. *)
Lemma shadow_cells (ghostCells cells_ : list Cell) (offset : Z) :
  map position ghostCells = map (fun c => (x c, y c + offset)) cells_ ->
  (forall g, In g ghostCells ->
             exists c, In c cells_ /\ x g = x c /\ y g = y c + offset) /\
  (forall c, In c cells_ ->
             exists g, In g ghostCells /\ x g = x c /\ y g = y c + offset).
Proof.
  intros H. split.
  - intros g Hg. apply (in_map position) in Hg. rewrite H in Hg.
    apply in_map_iff in Hg. destruct Hg as [c [Heq Hc]].
    injection Heq as Hx Hy. exists c. auto.
  - intros c Hc.
    apply (in_map (fun c => (x c, y c + offset))) in Hc. rewrite <- H in Hc.
    apply in_map_iff in Hc. destruct Hc as [g [Heq Hg]].
    injection Heq as Hx Hy. exists g. auto.
Qed.

(** After a Tick on a live, rigid block that stands clear on rows of the
    board, the ghost is the block moved down as far as it goes. *)
Lemma ghost_lands :
  forall (time : Z) (s s' : State) (cur : Tetro),
    currentBlock s = Some cur -> collided cur = false -> rigid cur ->
    (forall c, In c (cells cur) ->
               onRow (y c) /\
               0 <= y c <= Viewport.CANVAS_HEIGHT - Block.HEIGHT) ->
    (forall b, In b (blocks s) -> onRow (y b)) ->
    (forall c, In c (cells cur) -> ~ overlaps (blocks s) c) ->
    Tick.perform time s = Some s' ->
    exists ghost offset,
      ghostBlock s' = Some ghost /\ blocks s' = blocks s /\ 0 <= offset /\
      map position (cells ghost)
      = map (fun c => (x c, y c + offset)) (cells cur) /\
      (forall c d,
         In c (cells cur) -> 0 <= d <= offset ->
         y c + d <= Viewport.CANVAS_HEIGHT - Block.HEIGHT /\
         ~ exists b, In b (blocks s) /\ x b = x c /\ y b = y c + d) /\
      rests s ghost.
Proof.
  intros time s s' cur Hcur Hlive Hrigid Hrows Hbrows Hclear Htick.
  pose proof (rigid_wfTetro cur Hrigid) as [Hlen _].
  assert (Htight : tight (cells cur))
    by (apply rigid_tight; [exact Hrigid | intros c Hc; apply Hrows; exact Hc]).
  destruct (Tick_perform_live time s s' cur Hcur Hlive Htick)
    as [getMinY [yValueIndex [lowest [ghostTetro [ghostCells [ghostCells'
         [Hmin [Hfold [Hlow [Hglen [Hghost [Hfinal [Hg Hb]]]]]]]]]]]]].
  change (Viewport.CANVAS_HEIGHT - Block.HEIGHT) with (400 - Block.HEIGHT)
    in *.
  pose proof (ghost_bound (blocks s) (cells cur) Hbrows Hrows Hclear Htight
                getMinY yValueIndex lowest Hmin Hfold Hlow) as Hbound.
  destruct (lowest_lands_first (blocks s) (cells cur) Hrows
              getMinY yValueIndex lowest Hmin Hfold Hlow)
    as [Hlowin [HL _]].
  pose proof (landingRow_row (blocks s) (cells cur) Hbrows Hrows) as Hlrow.
  destruct (Hlrow lowest Hlowin) as [Hminrow Hlowle]. rewrite HL in Hminrow, Hlowle.
  pose proof (mapGhostTetro_places (cells ghostTetro) ghostCells cur
                (getMinY - y lowest) (eq_trans Hglen (eq_sym Hlen)) Hghost)
    as Hpos0.
  destruct (shadow_cells _ _ _ Hpos0) as [Hfrom Hto].
  assert (Hfree : forall offset,
             (forall c, In c (cells cur) ->
                        y c + offset <= landingRow (blocks s) c) ->
             forall c d,
               In c (cells cur) -> 0 <= d <= offset ->
               y c + d <= 400 - Block.HEIGHT /\
               ~ exists b, In b (blocks s) /\ x b = x c /\ y b = y c + d).
  { intros offset Hall c d Hc Hd.
    apply (above_landing_free (blocks s) (cells cur) Hclear c d Hc);
      [lia|]. specialize (Hall c Hc). lia. }
  assert (Hrests : forall ghost offset c,
             map position (cells ghost)
             = map (fun c => (x c, y c + offset)) (cells cur) ->
             In c (cells cur) -> y c + offset = landingRow (blocks s) c ->
             rests s ghost).
  { intros ghost offset c Hpos Hc Hland.
    destruct (shadow_cells _ _ _ Hpos) as [_ Hto'].
    destruct (Hto' c Hc) as [g [Hgin [Hgx Hgy]]].
    exists g. split; [exact Hgin|].
    destruct (landingRow_spec (blocks s) c)
      as [[Hfloor | [b [Hbin [Hbx [_ Hbl]]]]] _].
    - left. change (Viewport.CANVAS_HEIGHT - Block.HEIGHT)
        with (400 - Block.HEIGHT). lia.
    - right. exists b. split; [exact Hbin|]. split; [congruence | lia]. }
  destruct (hasBlocksAround ghostCells s 0 DirX
            || hasBoundaryAround ghostCells s 0 DirY) eqn:Hdet.
  - (* the first place overshoots: one row up *)
    pose proof (mapGhostTetro_places (cells ghostTetro) ghostCells' cur
                  (getMinY - y lowest - Block.HEIGHT)
                  (eq_trans Hglen (eq_sym Hlen)) Hfinal) as Hpos.
    assert (Hover : exists c,
               In c (cells cur) /\
               y c + (getMinY - y lowest)
               = landingRow (blocks s) c + Block.HEIGHT /\
               0 < getMinY - y lowest).
    { apply orb_true_iff in Hdet. destruct Hdet as [Hdet | Hdet].
      - apply hasBlocksAround_iff in Hdet.
        destruct Hdet as [g [Hgin [b [Hbin [Hbx Hby]]]]].
        destruct (Hfrom g Hgin) as [c [Hc [Hgx Hgy]]].
        exists c. split; [exact Hc|].
        assert (Hpos' : 0 < getMinY - y lowest).
        { destruct (Z.eq_dec (getMinY - y lowest) 0) as [H0|H0]; [|lia].
          exfalso. apply (Hclear c Hc). exists b. split; [exact Hbin|].
          split; lia. }
        split; [|exact Hpos'].
        destruct (landingRow_spec (blocks s) c) as [_ [_ Hall]].
        specialize (Hall b Hbin ltac:(lia) ltac:(lia)).
        specialize (Hbound c Hc). lia.
      - apply hasBoundaryAround_iff in Hdet.
        destruct Hdet as [g [Hgin Hout]].
        destruct (Hfrom g Hgin) as [c [Hc [Hgx Hgy]]].
        unfold insideBoard in Hout.
        change Viewport.CANVAS_HEIGHT with 400 in Hout.
        exists c. split; [exact Hc|].
        destruct (landingRow_spec (blocks s) c) as [_ [Hfloor _]].
        specialize (Hbound c Hc). destruct (Hrows c Hc) as [_ Hrange].
        change Block.HEIGHT with 20 in *. lia. }
    destruct Hover as [c [Hc [Hland Hpositive]]].
    assert (Hstep : Block.HEIGHT <= getMinY - y lowest).
    { destruct (Hrows lowest Hlowin) as [Hlowrow _].
      unfold onRow in *. change Block.HEIGHT with 20 in *.
      pose proof (Z.div_mod getMinY 20 ltac:(lia)).
      pose proof (Z.div_mod (y lowest) 20 ltac:(lia)). lia. }
    exists (with_cells ghostCells' ghostTetro),
      (getMinY - y lowest - Block.HEIGHT).
    split; [exact Hg|]. split; [exact Hb|]. split; [lia|].
    split; [exact Hpos|]. split.
    + apply Hfree. intros c0 Hc0. specialize (Hbound c0 Hc0). lia.
    + apply (Hrests _ (getMinY - y lowest - Block.HEIGHT) c);
        [exact Hpos | exact Hc | lia].
  - (* the first place is free *)
    injection Hfinal as <-.
    apply orb_false_iff in Hdet. destruct Hdet as [Hnoblock Hinside].
    assert (Hall : forall c, In c (cells cur) ->
                             y c + (getMinY - y lowest)
                             <= landingRow (blocks s) c).
    { intros c Hc. specialize (Hbound c Hc).
      destruct (Z.le_gt_cases (y c + (getMinY - y lowest))
                  (landingRow (blocks s) c)) as [Hle|Hgt]; [exact Hle|].
      exfalso.
      destruct (Hrows c Hc) as [Hcrow _].
      destruct (Hrows lowest Hlowin) as [Hlowrow _].
      destruct (Hlrow c Hc) as [Hlandrow _].
      assert (Heq : y c + (getMinY - y lowest)
                    = landingRow (blocks s) c + Block.HEIGHT).
      { unfold onRow in *. change Block.HEIGHT with 20 in *.
        pose proof (Z.div_mod getMinY 20 ltac:(lia)).
        pose proof (Z.div_mod (y lowest) 20 ltac:(lia)).
        pose proof (Z.div_mod (y c) 20 ltac:(lia)).
        pose proof (Z.div_mod (landingRow (blocks s) c) 20 ltac:(lia)).
        lia. }
      destruct (Hto c Hc) as [g [Hgin [Hgx Hgy]]].
      destruct (landingRow_spec (blocks s) c)
        as [[Hfloor | [b [Hbin [Hbx [_ Hbl]]]]] _].
      - apply not_true_iff_false in Hinside. apply Hinside.
        apply hasBoundaryAround_iff. exists g. split; [exact Hgin|].
        unfold insideBoard. change Viewport.CANVAS_HEIGHT with 400.
        change Block.HEIGHT with 20 in *. lia.
      - apply not_true_iff_false in Hnoblock. apply Hnoblock.
        apply hasBlocksAround_iff. exists g. split; [exact Hgin|].
        exists b. split; [exact Hbin|]. split; lia. }
    exists (with_cells ghostCells ghostTetro), (getMinY - y lowest).
    split; [exact Hg|]. split; [exact Hb|]. split; [lia|].
    split; [exact Hpos0|]. split.
    + apply Hfree. exact Hall.
    + apply (Hrests _ (getMinY - y lowest) lowest);
        [exact Hpos0 | exact Hlowin | lia].
Qed.

(** X20.  The ghost is the landing place.  Take a state whose current
    block is live and rigid, stands on rows of the board from the top row
    to the floor row without lying on a committed block, and whose
    committed blocks stand on rows.  After a Tick the ghost is the block
    moved straight down by an offset that is not negative; on the way
    down to it the block meets no committed block and does not pass the
    floor; and the ghost rests: one of its cells stands on the floor row or
    right on top of a committed block. *)
Theorem ghost_is_landing_place :
  forall (time : Z) (s s' : State) (cur : Tetro),
    currentBlock s = Some cur -> collided cur = false -> rigid cur ->
    (forall c, In c (cells cur) ->
               onRow (y c) /\
               0 <= y c <= Viewport.CANVAS_HEIGHT - Block.HEIGHT) ->
    (forall b, In b (blocks s) -> onRow (y b)) ->
    (forall c, In c (cells cur) -> ~ overlaps (blocks s) c) ->
    Tick.perform time s = Some s' ->
    exists ghost offset,
      ghostBlock s' = Some ghost /\ blocks s' = blocks s /\ 0 <= offset /\
      map position (cells ghost)
      = map (fun c => (x c, y c + offset)) (cells cur) /\
      (forall c d,
         In c (cells cur) -> 0 <= d <= offset ->
         y c + d <= Viewport.CANVAS_HEIGHT - Block.HEIGHT /\
         ~ exists b, In b (blocks s) /\ x b = x c /\ y b = y c + d) /\
      rests s ghost.
Proof.
  intros time s s' cur Hcur Hlive Hrigid Hrows Hbrows Hclear Htick.
  exact (ghost_lands time s s' cur Hcur Hlive Hrigid Hrows Hbrows Hclear
           Htick).
Qed.

(** The second piece of a game, with the first one lying on the floor. *)
Lemma ghost_is_landing_place_witness :
  exists ghost offset,
    ghostBlock (stateAfter seedO [Tick 0; Drop; Tick 1; Tick 2]) = Some ghost /\
    0 <= offset /\
    rests (stateAfter seedO [Tick 0; Drop; Tick 1]) ghost.
Proof.
  destruct (currentBlock (stateAfter seedO [Tick 0; Drop; Tick 1]))
    as [cur|] eqn:Hcur; [| vm_compute in Hcur; discriminate Hcur].
  assert (Hval : Some cur
                 = currentBlock (stateAfter seedO [Tick 0; Drop; Tick 1]))
    by (symmetry; exact Hcur).
  vm_compute in Hval. injection Hval as Hval.
  assert (Hlive : collided cur = false) by (rewrite Hval; reflexivity).
  assert (Hspawn : Tick.perform 1 (stateAfter seedO [Tick 0; Drop])
                   = Some (stateAfter seedO [Tick 0; Drop; Tick 1]))
    by (vm_compute; reflexivity).
  assert (Hrigid : rigid cur).
  { destruct (Tick_perform_inv 1 _ _ Hspawn)
      as [block [ghostTetro [ghostCells [offset [next' [blockCount'
           [Hblock [_ [_ [_ Hs]]]]]]]]]].
    rewrite Hs in Hcur.
    cbn [currentBlock with_gameEnd with_blockCount with_ghostBlock
         with_nextBlock with_currentBlock] in Hcur.
    injection Hcur as <-.
    assert (Hold : exists old,
               currentBlock (lineClearCheck (stateAfter seedO [Tick 0; Drop]))
               = Some old /\ collided old = true)
      by (vm_compute; eexists; split; reflexivity).
    destruct Hold as [old [Hold Hcol]]. rewrite Hold, Hcol in Hblock.
    exact (createTetrominoes_rigid _ _ _ _ _ _ _ Hblock). }
  assert (Hrows : forallb (fun c => (y c mod Block.HEIGHT =? 0)
                                    && (0 <=? y c)
                                    && (y c <=? Viewport.CANVAS_HEIGHT
                                                 - Block.HEIGHT))
                    (cells cur) = true)
    by (rewrite Hval; vm_compute; reflexivity).
  assert (Hbrows : forallb (fun b => y b mod Block.HEIGHT =? 0)
                     (blocks (stateAfter seedO [Tick 0; Drop; Tick 1]))
                   = true)
    by (vm_compute; reflexivity).
  assert (Hclear : forallb (fun c =>
                              negb (existsb (fun b => (x c =? x b)
                                                      && (y c =? y b))
                                      (blocks (stateAfter seedO
                                                 [Tick 0; Drop; Tick 1]))))
                     (cells cur) = true)
    by (rewrite Hval; vm_compute; reflexivity).
  assert (Htick : Tick.perform 2 (stateAfter seedO [Tick 0; Drop; Tick 1])
                  = Some (stateAfter seedO [Tick 0; Drop; Tick 1; Tick 2]))
    by (vm_compute; reflexivity).
  destruct (ghost_is_landing_place 2
              (stateAfter seedO [Tick 0; Drop; Tick 1])
              (stateAfter seedO [Tick 0; Drop; Tick 1; Tick 2]) cur
              Hcur Hlive Hrigid)
    as [ghost [offset [Hg [_ [Hoff [_ [_ Hrests]]]]]]].
  - intros c Hc. rewrite forallb_forall in Hrows. specialize (Hrows c Hc).
    apply andb_true_iff in Hrows. destruct Hrows as [Hrows Hle].
    apply andb_true_iff in Hrows. destruct Hrows as [Hmod Hge].
    apply Z.eqb_eq in Hmod. apply Z.leb_le in Hge. apply Z.leb_le in Hle.
    split; [exact Hmod | split; assumption].
  - intros b Hb. rewrite forallb_forall in Hbrows.
    apply Z.eqb_eq. exact (Hbrows b Hb).
  - intros c Hc [b [Hb [Hx Hy]]]. rewrite forallb_forall in Hclear.
    specialize (Hclear c Hc). apply negb_true_iff in Hclear.
    assert (Ht : existsb (fun b => (x c =? x b) && (y c =? y b))
                   (blocks (stateAfter seedO [Tick 0; Drop; Tick 1]))
                 = true).
    { apply existsb_exists. exists b. split; [exact Hb|].
      apply andb_true_iff. rewrite !Z.eqb_eq. split; assumption. }
    rewrite Ht in Hclear. discriminate Hclear.
  - exact Htick.
  - exists ghost, offset. split; [exact Hg|]. split; assumption.
Defined.

(** ** Tick, then Drop *)

Lemma NoDup_map_in {A B : Type} (f : A -> B) (l : list A) :
  (forall a b, In a l -> In b l -> f a = f b -> a = b) ->
  NoDup l -> NoDup (map f l).
Proof.
  induction l as [|a l IH]; intros Hinj Hnd; cbn [map]; [constructor|].
  inversion Hnd as [|a' l' Hnotin Hnd']; subst. constructor.
  - intros Hin. apply in_map_iff in Hin. destruct Hin as [b [Hfb Hb]].
    apply Hnotin. rewrite (Hinj a b); [exact Hb | left; reflexivity | |].
    + right. exact Hb.
    + symmetry. exact Hfb.
  - apply IH; [|exact Hnd']. intros b c Hb Hc. apply Hinj; right; assumption.
Qed.

(** No rotation state of the table names a place twice. *)
Lemma TetroStartPosMap_distinct (sh : ShapeLetters) (r : Z)
  (offsets : PieceLocation) :
  lookup (TetroStartPosMap sh) r = Some offsets -> NoDup offsets.
Proof.
  intros H. apply lookup_In in H.
  destruct sh; cbn in H;
    repeat (destruct H as [<- | H]; [|]); try destruct H;
    repeat constructor; cbn [In]; intros Hin;
    repeat (destruct Hin as [Hin | Hin]; [discriminate Hin|]);
    destruct Hin.
Qed.

(** The cells of a rigid piece stand on four places. *)
Lemma rigid_distinct (t : Tetro) : rigid t -> NoDup (map position (cells t)).
Proof.
  intros [_ [bx [by_ [offsets [Hoff Hpos]]]]]. rewrite Hpos.
  unfold placesAt. apply NoDup_map_in.
  - intros [ox1 oy1] [ox2 oy2] _ _ H. cbn [ox oy] in H.
    change Block.WIDTH with 20 in H. change Block.HEIGHT with 20 in H.
    injection H as Hx Hy. f_equal; lia.
  - exact (TetroStartPosMap_distinct _ _ _ Hoff).
Qed.

(** Where Drop puts the cells. *)
Lemma Drop_places (s s' : State) (cur ghost : Tetro) :
  currentBlock s = Some cur -> collided cur = false ->
  ghostBlock s = Some ghost ->
  length (cells cur) = length (cells ghost) ->
  Drop.perform s = Some s' ->
  exists dropped,
    blocks s' = blocks s ++ dropped /\
    map position dropped = map position (cells ghost).
Proof.
  intros Hcur Hlive Hghost Hlen. unfold Drop.perform.
  rewrite Hcur, Hlive, Hghost. cbn [bind]. unfold mapiM.
  destruct (mapiM_from _ 0 (cells cur)) as [dropped|] eqn:Hd; cbn [bind];
    [|discriminate].
  intros H. injection H as <-. exists dropped. split; [reflexivity|].
  rewrite (mapiM_from_reads (cells ghost)
             (fun cell g => with_y (y g) (with_x (x g) cell))
             position position (cells cur) (fun a c => eq_refl) 0 dropped
             ltac:(lia) Hd).
  cbn [Z.to_nat skipn]. rewrite Hlen, firstn_all. reflexivity.
Qed.

(** X21.  A Tick followed by a Drop keeps the board in order.  Take a
    state whose committed blocks stand on rows at distinct places, and
    whose current block is live and rigid and stands clear of them on rows
    of the board.  After a Tick and a Drop the committed blocks are the old
    ones followed by the four cells of the block, moved straight down by one
    offset that is not negative, none of them below the floor row; and the
    committed blocks still stand at distinct places. *)
Theorem Tick_then_Drop_keeps_board :
  forall (time : Z) (s s2 : State) (cur : Tetro),
    currentBlock s = Some cur -> collided cur = false -> rigid cur ->
    (forall c, In c (cells cur) ->
               onRow (y c) /\
               0 <= y c <= Viewport.CANVAS_HEIGHT - Block.HEIGHT) ->
    (forall b, In b (blocks s) -> onRow (y b)) ->
    (forall c, In c (cells cur) -> ~ overlaps (blocks s) c) ->
    distinctPositions (blocks s) ->
    run s [Tick time; Drop] = Some s2 ->
    distinctPositions (blocks s2) /\
    exists dropped offset,
      blocks s2 = blocks s ++ dropped /\ 0 <= offset /\
      map position dropped
      = map (fun c => (x c, y c + offset)) (cells cur) /\
      (forall b, In b dropped ->
                 y b <= Viewport.CANVAS_HEIGHT - Block.HEIGHT).
Proof.
  intros time s s2 cur Hcur Hlive Hrigid Hrows Hbrows Hclear Hdistinct.
  cbn [run perform].
  destruct (Tick.perform time s) as [s1|] eqn:Htick; cbn [bind];
    [|discriminate].
  destruct (Drop.perform s1) as [s2'|] eqn:Hdrop; cbn [bind]; [|discriminate].
  intros H. injection H as <-.
  destruct (ghost_lands time s s1 cur Hcur Hlive Hrigid Hrows Hbrows Hclear
              Htick)
    as [ghost [offset [Hg [Hb [Hoff [Hpos [Hfree _]]]]]]].
  destruct (Tick_perform_pieces time s s1 Htick)
    as [block [next' [Hcur1 [_ Hkept]]]].
  rewrite Hcur, Hlive in Hkept. destruct Hkept as [-> _].
  pose proof (rigid_wfTetro cur Hrigid) as [Hlen _].
  assert (Hglen : length (cells cur) = length (cells ghost)).
  { rewrite <- (length_map position (cells ghost)), Hpos, length_map.
    reflexivity. }
  destruct (Drop_places s1 s2' cur ghost Hcur1 Hlive Hg Hglen Hdrop)
    as [dropped [Hblocks Hdropped]].
  rewrite Hb in Hblocks. rewrite Hpos in Hdropped.
  assert (Hfloor : forall b, In b dropped ->
                             y b <= Viewport.CANVAS_HEIGHT - Block.HEIGHT).
  { intros b Hin. destruct (shadow_cells _ _ _ Hdropped) as [Hfrom _].
    destruct (Hfrom b Hin) as [c [Hc [_ Hy]]].
    destruct (Hfree c offset Hc ltac:(lia)) as [Hle _]. lia. }
  split.
  - unfold distinctPositions in *. rewrite Hblocks, map_app.
    apply NoDup_app; [exact Hdistinct | |].
    + change (map (fun c => (x c, y c)) dropped) with (map position dropped).
      rewrite Hdropped.
      rewrite <- (map_map position (fun p => (fst p, snd p + offset))).
      apply NoDup_map_in; [|exact (rigid_distinct cur Hrigid)].
      intros [x1 y1] [x2 y2] _ _ H. cbn [fst snd] in H.
      injection H as Hx Hy. f_equal; lia.
    + intros p Hp Hq. apply in_map_iff in Hp. destruct Hp as [b [<- Hbin]].
      change (map (fun c => (x c, y c)) dropped) with (map position dropped)
        in Hq.
      rewrite Hdropped in Hq. apply in_map_iff in Hq.
      destruct Hq as [c [Heq Hc]]. injection Heq as Hx Hy.
      destruct (Hfree c offset Hc ltac:(lia)) as [_ Hno].
      apply Hno. exists b. split; [exact Hbin|]. split; congruence.
  - exists dropped, offset. split; [exact Hblocks|]. split; [exact Hoff|].
    split; [exact Hdropped | exact Hfloor].
Qed.

(** The second piece of a game dropped beside or onto the first. *)
Lemma Tick_then_Drop_keeps_board_witness :
  distinctPositions
    (blocks (stateAfter seedO [Tick 0; Drop; Tick 1; Tick 2; Drop])).
Proof.
  destruct (currentBlock (stateAfter seedO [Tick 0; Drop; Tick 1]))
    as [cur|] eqn:Hcur; [| vm_compute in Hcur; discriminate Hcur].
  assert (Hval : Some cur
                 = currentBlock (stateAfter seedO [Tick 0; Drop; Tick 1]))
    by (symmetry; exact Hcur).
  vm_compute in Hval. injection Hval as Hval.
  assert (Hlive : collided cur = false) by (rewrite Hval; reflexivity).
  assert (Hspawn : Tick.perform 1 (stateAfter seedO [Tick 0; Drop])
                   = Some (stateAfter seedO [Tick 0; Drop; Tick 1]))
    by (vm_compute; reflexivity).
  assert (Hrigid : rigid cur).
  { destruct (Tick_perform_inv 1 (stateAfter seedO [Tick 0; Drop])
                (stateAfter seedO [Tick 0; Drop; Tick 1]) Hspawn)
      as [block [ghostTetro [ghostCells [offset [next' [blockCount'
           [Hblock [_ [_ [_ Hs]]]]]]]]]].
    rewrite Hs in Hcur.
    cbn [currentBlock with_gameEnd with_blockCount with_ghostBlock
         with_nextBlock with_currentBlock] in Hcur.
    injection Hcur as <-.
    assert (Hold : exists old,
               currentBlock (lineClearCheck (stateAfter seedO [Tick 0; Drop]))
               = Some old /\ collided old = true)
      by (vm_compute; eexists; split; reflexivity).
    destruct Hold as [old [Hold Hcol]]. rewrite Hold, Hcol in Hblock.
    exact (createTetrominoes_rigid _ _ _ _ _ _ _ Hblock). }
  assert (Hrows : forallb (fun c => (y c mod Block.HEIGHT =? 0)
                                    && (0 <=? y c)
                                    && (y c <=? Viewport.CANVAS_HEIGHT
                                                 - Block.HEIGHT))
                    (cells cur) = true)
    by (rewrite Hval; vm_compute; reflexivity).
  assert (Hbrows : forallb (fun b => y b mod Block.HEIGHT =? 0)
                     (blocks (stateAfter seedO [Tick 0; Drop; Tick 1]))
                   = true)
    by (vm_compute; reflexivity).
  assert (Hclear : forallb (fun c =>
                              negb (existsb (fun b => (x c =? x b)
                                                      && (y c =? y b))
                                      (blocks (stateAfter seedO
                                                 [Tick 0; Drop; Tick 1]))))
                     (cells cur) = true)
    by (rewrite Hval; vm_compute; reflexivity).
  assert (Hplaces : map (fun c => (x c, y c))
                      (blocks (stateAfter seedO [Tick 0; Drop; Tick 1]))
                    = [(80, 360); (80, 380); (100, 360); (100, 380)])
    by (vm_compute; reflexivity).
  assert (Hdistinct : distinctPositions
                        (blocks (stateAfter seedO [Tick 0; Drop; Tick 1]))).
  { unfold distinctPositions. rewrite Hplaces.
    repeat constructor; cbn [In]; intros Hin;
      repeat (destruct Hin as [Hin | Hin]; [discriminate Hin|]);
      destruct Hin. }
  assert (Hrun : run (stateAfter seedO [Tick 0; Drop; Tick 1]) [Tick 2; Drop]
                 = Some (stateAfter seedO [Tick 0; Drop; Tick 1; Tick 2; Drop]))
    by (vm_compute; reflexivity).
  destruct (Tick_then_Drop_keeps_board 2
              (stateAfter seedO [Tick 0; Drop; Tick 1])
              (stateAfter seedO [Tick 0; Drop; Tick 1; Tick 2; Drop]) cur
              Hcur Hlive Hrigid)
    as [Hresult _].
  - intros c Hc. rewrite forallb_forall in Hrows. specialize (Hrows c Hc).
    apply andb_true_iff in Hrows. destruct Hrows as [Hrows Hle].
    apply andb_true_iff in Hrows. destruct Hrows as [Hmod Hge].
    apply Z.eqb_eq in Hmod. apply Z.leb_le in Hge. apply Z.leb_le in Hle.
    split; [exact Hmod | split; assumption].
  - intros b Hb. rewrite forallb_forall in Hbrows.
    apply Z.eqb_eq. exact (Hbrows b Hb).
  - intros c Hc [b [Hb [Hx Hy]]]. rewrite forallb_forall in Hclear.
    specialize (Hclear c Hc). apply negb_true_iff in Hclear.
    assert (Ht : existsb (fun b => (x c =? x b) && (y c =? y b))
                   (blocks (stateAfter seedO [Tick 0; Drop; Tick 1]))
                 = true).
    { apply existsb_exists. exists b. split; [exact Hb|].
      apply andb_true_iff. rewrite !Z.eqb_eq. split; assumption. }
    rewrite Ht in Hclear. discriminate Hclear.
  - exact Hdistinct.
  - exact Hrun.
  - exact Hresult.
Defined.

(** ** Rows *)

Lemma onRow_add (a b : Z) : onRow a -> onRow b -> onRow (a + b).
Proof.
  unfold onRow. change Block.HEIGHT with 20. intros Ha Hb.
  rewrite Z.add_mod, Ha, Hb by lia. reflexivity.
Qed.

Lemma onRow_cells (k : Z) : onRow (k * Block.HEIGHT).
Proof. apply Z.mod_mul. discriminate. Qed.

Lemma onRow_sub (a b : Z) : onRow a -> onRow b -> onRow (a - b).
Proof.
  unfold onRow. change Block.HEIGHT with 20. intros Ha Hb.
  rewrite Zminus_mod, Ha, Hb by lia. reflexivity.
Qed.

Lemma landingRow_onRow (blocks_ : list Cell) (c : Cell) :
  (forall b, In b blocks_ -> onRow (y b)) -> onRow (landingRow blocks_ c).
Proof.
  intros Hrows.
  destruct (landingRow_spec blocks_ c) as [[-> | [b [Hb [_ [_ ->]]]]] _].
  - reflexivity.
  - apply onRow_sub; [exact (Hrows b Hb) | reflexivity].
Qed.

(** A spawned piece stands on rows when it is asked for on a row. *)
Lemma createTetrominoes_rows x_ y_ bc sd isPreview state t :
  onRow y_ ->
  Tick.createTetrominoes x_ y_ bc sd isPreview state = Some t ->
  (forall c, In c (cells t) -> onRow (y c)) /\
  (forall p, originBlock t = Some p -> onRow (y p)).
Proof.
  intros Hy E.
  assert (Hcells : forall c, In c (cells t) -> onRow (y c)).
  { destruct (createTetrominoes_explicit _ _ _ _ _ _ _ E)
      as [sh [offsets [_ [_ [_ ->]]]]].
    cbv zeta. cbn [cells]. intros c Hc. unfold mapi in Hc.
    apply In_lookup in Hc. destruct Hc as [k [_ Hk]].
    destruct (lookup_mapi_from _ _ _ _ _ Hk) as [o [_ ->]].
    cbn [createBlock y]. apply onRow_add; [|apply onRow_cells].
    destruct (_ || _); [exact Hy | reflexivity]. }
  split; [exact Hcells|].
  destruct (createTetrominoes_wf _ _ _ _ _ _ _ E) as [_ Hpivot].
  intros p Hp. rewrite Hpivot in Hp. apply Hcells.
  exact (lookup_In _ _ _ Hp).
Qed.

(** Line-clear resolution moves blocks by whole rows. *)
Lemma lineClearCheck_rows (s : State) :
  (forall b, In b (blocks s) -> onRow (y b)) ->
  forall b', In b' (blocks (lineClearCheck s)) -> onRow (y b').
Proof.
  intros Hrows b'.
  destruct (currentBlock s) as [block|] eqn:Hcur.
  2:{ unfold lineClearCheck. rewrite Hcur. cbn. apply Hrows. }
  destruct (collided block) eqn:Hcol.
  2:{ unfold lineClearCheck. rewrite Hcur, Hcol. cbn. apply Hrows. }
  destruct (Z.ltb_spec 0 (len (fullRows s block))) as [Hk|Hk].
  - rewrite (lineClearCheck_blocks s block Hcur Hcol ltac:(lia)). cbv zeta.
    intros H. apply in_app_iff in H. destruct H as [H | H].
    + apply in_map_iff in H. destruct H as [b [<- Hb]].
      apply filter_In in Hb. unfold settled. cbn [with_y y].
      apply onRow_add; [apply Hrows, Hb | apply onRow_cells].
    + apply filter_In in H. apply Hrows, H.
  - unfold lineClearCheck. rewrite Hcur, Hcol. cbn [negb]. cbv zeta.
    rewrite AllBlockInFullLine_length.
    pose proof (len_nonneg (fullRows s block)) as Hn.
    replace (len (fullRows s block)) with 0 by lia.
    cbn. apply Hrows.
Qed.

(** The ghost a Tick leaves stands on rows when the block and the blocks
    do. *)
Lemma Tick_perform_ghost_rows (time : Z) (s s' : State) :
  Tick.perform time s = Some s' ->
  (forall b, In b (blocks (lineClearCheck s)) -> onRow (y b)) ->
  (forall block, currentBlock s' = Some block ->
                 forall c, In c (cells block) -> onRow (y c)) ->
  forall ghost, ghostBlock s' = Some ghost ->
                forall g, In g (cells ghost) -> onRow (y g).
Proof.
  unfold Tick.perform. cbv zeta.
  bind_case block Hblock.
  change (map (fun c : Cell =>
                 fold_left
                   (fun (acc : Z) (b : Cell) =>
                      if (x c =? x b) && (y b <? acc) && (y c <? y b)
                      then y b else acc)
                   (blocks (lineClearCheck s)) 400 - Block.HEIGHT)
              (cells block))
    with (map (landingRow (blocks (lineClearCheck s))) (cells block)).
  bind_case getMinY Hmin. bind_case yValueIndex Hfold.
  bind_case lowest Hlow. bind_case ghostTetro Hghost.
  bind_case ghostCells Hcells. bind_case ghostCells' Hcells'.
  bind_case next' Hnext. intros H. injection H as <-.
  intros Hbrows Hcrows ghost Hg g Hin.
  cbn in Hg. injection Hg as <-. cbn [cells with_cells] in Hin.
  specialize (Hcrows block eq_refl).
  assert (Hoffset : onRow (getMinY - y lowest)).
  { apply onRow_sub; [|exact (Hcrows lowest (lookup_In _ _ _ Hlow))].
    destruct (Math_min_spec _ _ Hmin) as [Hm _].
    apply in_map_iff in Hm. destruct Hm as [c [<- _]].
    apply landingRow_onRow. exact Hbrows. }
  assert (Hmapped : forall cells_ offset ghostCells0 g0,
             onRow offset ->
             Tick.mapGhostTetro cells_ block offset = Some ghostCells0 ->
             In g0 ghostCells0 -> onRow (y g0)).
  { intros cells_ offset ghostCells0 g0 Hoff Hmap Hg0.
    unfold Tick.mapGhostTetro, mapiM in Hmap.
    destruct (mapiM_from_In _ _ _ _ _ Hmap Hg0) as [j [a [_ Hf]]].
    revert Hf. bind_cases. intros Hf. injection Hf as <-.
    cbn [with_color with_y y].
    apply onRow_add; [|exact Hoff].
    match goal with
    | H : lookup (cells block) j = Some ?c |- _ =>
        exact (Hcrows c (lookup_In _ _ _ H))
    end. }
  destruct (hasBlocksAround ghostCells s 0 DirX
            || hasBoundaryAround ghostCells s 0 DirY).
  - assert (Hcell : onRow Block.HEIGHT) by reflexivity.
    exact (Hmapped _ _ _ g (onRow_sub _ _ Hoffset Hcell) Hcells' Hin).
  - injection Hcells' as <-. exact (Hmapped _ _ _ g Hoffset Hcells Hin).
Qed.

Lemma onRows_Move direction offset (s s' : State) :
  onRows s -> rowAction (Move direction offset) ->
  Move.perform direction offset s = Some s' -> onRows s'.
Proof.
  intros [Hblocks [Hcurrent Hghost]] Hgrid.
  destruct (currentBlock s) as [cur|] eqn:Hcur.
  2:{ unfold Move.perform. rewrite Hcur. intros H. injection H as <-.
      split; [exact Hblocks|]. split; [|exact Hghost].
      intros cur H. rewrite Hcur in H. discriminate H. }
  rewrite (Move_perform_current direction offset s cur Hcur).
  intros H. injection H as <-.
  destruct (Hcurrent cur eq_refl) as [Hcells _].
  split; [exact Hblocks|]. split; [|exact Hghost].
  cbn. intros cur' H. injection H as <-. cbn.
  assert (Hnew : forall c,
             In c (if collided cur
                      || hasBlocksAround (cells cur) s offset direction
                      || hasBoundaryAround (cells cur) s offset direction
                   then cells cur
                   else map (shiftCell direction offset) (cells cur)) ->
             onRow (y c)).
  { destruct (_ || _ || _); [exact Hcells|].
    intros c Hc. apply in_map_iff in Hc. destruct Hc as [c0 [<- Hc0]].
    destruct direction; [exact (Hcells c0 Hc0)|].
    cbn [shiftCell with_y y].
    apply onRow_add; [exact (Hcells c0 Hc0) | exact Hgrid]. }
  split; [exact Hnew|]. intros p Hp. apply Hnew. exact (lookup_In _ 1 _ Hp).
Qed.

Lemma naiveRotation_rows (cur : Tetro) (rotated : list Cell) (p : Cell) :
  originBlock cur = Some p -> onRow (y p) ->
  naiveRotation cur = Some rotated ->
  forall c, In c rotated -> onRow (y c).
Proof.
  intros Hp Hal. unfold naiveRotation.
  destruct (lookup (TetroStartPosMap (shape cur)) (rotation cur))
    as [previous|]; cbn [bind]; [|discriminate].
  destruct (lookup previous 1) as [previousPivot|]; cbn [bind]; [|discriminate].
  unfold Rotate.blockAfterRotation, mapiM. rewrite Hp.
  intros H c Hc.
  destruct (mapiM_from_In _ _ _ _ _ H Hc) as [j [a [_ Hf]]].
  revert Hf. bind_cases. cbn [bind]. intros Hf. injection Hf as <-.
  cbn [createBlock y]. apply onRow_add; [exact Hal | apply onRow_cells].
Qed.

Lemma kick_rows (k : PieceStartLocation) (cells_ : list Cell) :
  (forall c, In c cells_ -> onRow (y c)) ->
  forall c, In c (Rotate.kick k cells_) -> onRow (y c).
Proof.
  intros H c Hc. unfold Rotate.kick in Hc. apply in_map_iff in Hc.
  destruct Hc as [c0 [<- Hc0]]. cbn [with_x with_y y].
  apply onRow_add; [exact (H c0 Hc0) | apply onRow_cells].
Qed.

Lemma onRows_Rotate (s s' : State) :
  wellFormed s -> onRows s -> Rotate.perform s = Some s' -> onRows s'.
Proof.
  intros [_ Hwf] [Hblocks [Hcurrent Hghost]].
  destruct (currentBlock s) as [cur|] eqn:Hcur.
  2:{ unfold Rotate.perform. rewrite Hcur. intros H. injection H as <-.
      split; [exact Hblocks|]. split; [|exact Hghost].
      intros cur H. rewrite Hcur in H. discriminate H. }
  destruct Hwf as [Hcurwf _].
  destruct (Rotate_defined cur Hcurwf) as [rotated [kicks [Hr [Hk _]]]].
  pose proof Hcurwf as [_ [[Hrot _] Hsome]].
  destruct (originBlock cur) as [p|] eqn:Hp; [|contradiction Hsome; reflexivity].
  destruct (Hcurrent cur eq_refl) as [_ Hpivot].
  assert (Hal : forall c, In c rotated -> onRow (y c)).
  { apply (naiveRotation_rows cur rotated p Hp); [|exact Hr].
    apply (Hpivot p). exact Hp. }
  rewrite (Rotate_perform_current s cur rotated kicks Hcur Hrot Hr Hk).
  assert (Hdone : forall cells',
             (forall c, In c cells' -> onRow (y c)) ->
             onRows (withRotation (nextRotation cur) cells' cur s)).
  { intros cells' Hnew. split; [exact Hblocks|]. split; [|exact Hghost].
    cbn. intros cur' H. injection H as <-. cbn.
    split; [exact Hnew|]. intros q Hq. apply Hnew.
    exact (lookup_In _ 1 _ Hq). }
  destruct (Rotate.checkAllCollision s rotated).
  - destruct (filter _ kicks) as [|k rest].
    + intros H. injection H as <-.
      split; [exact Hblocks|]. split; [|exact Hghost].
      intros cur' H. rewrite Hcur in H. injection H as <-.
      exact (Hcurrent cur eq_refl).
    + intros H. injection H as <-. apply Hdone.
      apply kick_rows. exact Hal.
  - intros H. injection H as <-. apply Hdone. exact Hal.
Qed.

Lemma onRows_Tick (time : Z) (s s' : State) :
  onRows s -> Tick.perform time s = Some s' -> onRows s'.
Proof.
  intros [Hblocks [Hcurrent Hghost]] Htick.
  destruct (lineClearCheck_frame s) as [Ec _].
  pose proof (lineClearCheck_rows s Hblocks) as Hcleared.
  destruct (Tick_perform_inv time s s' Htick)
    as [block [ghostTetro [ghostCells [offset [next' [blockCount'
         [Hblock [_ [_ [_ Hs']]]]]]]]]].
  rewrite Ec in Hblock.
  assert (Hspawn : onRow Block.HEIGHT) by reflexivity.
  assert (Hb : (forall c, In c (cells block) -> onRow (y c)) /\
               (forall p, originBlock block = Some p -> onRow (y p))).
  { destruct (currentBlock s) as [cur|].
    - destruct (collided cur).
      + exact (createTetrominoes_rows _ _ _ _ _ _ _ Hspawn Hblock).
      + subst block. apply Hcurrent. reflexivity.
    - exact (createTetrominoes_rows _ _ _ _ _ _ _ Hspawn Hblock). }
  assert (Hcur' : currentBlock s' = Some block) by (rewrite Hs'; reflexivity).
  split; [|split].
  - rewrite Hs'. cbn. exact Hcleared.
  - rewrite Hcur'. intros cur' H. injection H as <-. exact Hb.
  - apply (Tick_perform_ghost_rows time s s' Htick Hcleared).
    rewrite Hcur'. intros block0 H. injection H as <-. apply Hb.
Qed.

Lemma onRows_Hold (s s' : State) :
  onRows s -> Hold.perform s = Some s' -> onRows s'.
Proof.
  intros Hin. pose proof Hin as [Hblocks [Hcurrent Hghost]].
  assert (Hspawn : onRow Block.HEIGHT) by reflexivity.
  unfold Hold.perform.
  destruct (currentBlock s) as [cur|] eqn:Hcur;
    [|intros H; injection H as <-; exact Hin].
  destruct (collided cur || negb (canHoldAgain s));
    [intros H; injection H as <-; exact Hin|].
  destruct (heldBlock s) as [held|].
  - bind_case cur1 Hcur1. cbn [bind]. bind_case held1 Hheld1.
    intros H. injection H as <-.
    split; [exact Hblocks|]. split; [|exact Hghost].
    cbn. intros cur' H. injection H as <-.
    exact (createTetrominoes_rows _ _ _ _ _ _ _ Hspawn Hcur1).
  - destruct (nextBlock s) as [next|]; cbn [bind]; [|discriminate].
    destruct (Tick.createTetrominoes _ _ (blockStartCount next) _ _ _)
      as [cur1|] eqn:Hcur1; cbn [bind]; [|discriminate].
    destruct (Tick.createTetrominoes _ _ (blockCount s + 4) _ _ _)
      as [next1|]; cbn [bind]; [|discriminate].
    bind_case held1 Hheld1.
    intros H. injection H as <-.
    split; [exact Hblocks|]. split; [|exact Hghost].
    cbn. intros cur' H. injection H as <-.
    exact (createTetrominoes_rows _ _ _ _ _ _ _ Hspawn Hcur1).
Qed.

Lemma onRows_Drop (s s' : State) :
  onRows s -> Drop.perform s = Some s' -> onRows s'.
Proof.
  intros Hin. pose proof Hin as [Hblocks [Hcurrent Hghost]].
  unfold Drop.perform.
  destruct (currentBlock s) as [cur|] eqn:Hcur;
    [|intros H; injection H as <-; exact Hin].
  destruct (collided cur); [intros H; injection H as <-; exact Hin|].
  unfold mapiM.
  destruct (mapiM_from _ 0 (cells cur)) as [dropped|] eqn:Hd; cbn [bind];
    [|discriminate].
  intros H. injection H as <-.
  assert (Hnew : forall c, In c dropped -> onRow (y c)).
  { intros c Hc. destruct (mapiM_from_In _ _ _ _ _ Hd Hc) as [j [a [_ Hf]]].
    revert Hf. destruct (ghostBlock s) as [ghost|] eqn:Hg; cbn [bind];
      [|discriminate].
    destruct (lookup (cells ghost) j) as [g|] eqn:Hj; cbn [bind];
      [|discriminate].
    intros Hf. injection Hf as <-. cbn [with_x with_y y].
    apply (Hghost ghost eq_refl). exact (lookup_In _ _ _ Hj). }
  split; [|split].
  - cbn. intros b Hb. apply in_app_iff in Hb.
    destruct Hb as [Hb | Hb]; [exact (Hblocks b Hb) | exact (Hnew b Hb)].
  - cbn. intros cur' H. injection H as <-. cbn.
    split; [exact Hnew | apply (Hcurrent cur eq_refl)].
  - exact Hghost.
Qed.

Lemma onRows_Collision (s s' : State) :
  onRows s -> Collision.perform s = Some s' -> onRows s'.
Proof.
  intros [Hblocks [Hcurrent Hghost]].
  unfold Collision.perform, collisionDetection.
  destruct (currentBlock s) as [cur|] eqn:Hcur; cbn [bind]; [|discriminate].
  intros H. injection H as <-.
  destruct (Hcurrent cur eq_refl) as [Hcells Hpivot].
  split; [|split].
  - cbn. destruct (_ || _); [|exact Hblocks].
    intros b Hb. apply in_app_iff in Hb.
    destruct Hb as [Hb | Hb]; [exact (Hblocks b Hb) | exact (Hcells b Hb)].
  - cbn. intros cur' H. injection H as <-. cbn. split; assumption.
  - exact Hghost.
Qed.

Lemma onRows_run (actions : list Action) :
  forall s s',
    wellFormed s -> onRows s -> Forall rowAction actions ->
    run s actions = Some s' -> onRows s'.
Proof.
  induction actions as [|a actions IH]; intros s s' Hwf Hin Hgrid; cbn [run].
  - intros H. injection H as <-. exact Hin.
  - destruct (perform a s) as [s1|] eqn:Ha; cbn [bind]; [|discriminate].
    inversion Hgrid as [|a' actions' Hga Hgrest]; subst.
    apply IH; [exact (wellFormed_perform a s s1 Hwf Ha) | | exact Hgrest].
    destruct a; cbn [perform] in Ha.
    + exact (onRows_Move _ _ s s1 Hin Hga Ha).
    + exact (onRows_Tick _ s s1 Hin Ha).
    + exact (onRows_Rotate s s1 Hwf Hin Ha).
    + exact (onRows_Hold s s1 Hin Ha).
    + exact (onRows_Drop s s1 Hin Ha).
    + exact (onRows_Collision s s1 Hin Ha).
Qed.

(** X22.  Everything stays on the rows.  Along any run from the initial
    state in which the Moves down go by whole cells, every committed
    block, every cell of the current block and of the ghost, and the pivot,
    have a [y] that is a multiple of the cell height: pieces spawn on rows,
    Move, Rotate and the wall kicks go by whole cells, the offset of the
    ghost is a difference of rows, and line clears move blocks down by
    whole rows. *)
Theorem blocks_stay_on_rows :
  forall (initialSeed : Z) (actions : list Action) (s : State),
    Forall rowAction actions ->
    run (initialState initialSeed) actions = Some s ->
    (forall b, In b (blocks s) -> onRow (y b)) /\
    (forall cur, currentBlock s = Some cur ->
       (forall c, In c (cells cur) -> onRow (y c)) /\
       (forall p, originBlock cur = Some p -> onRow (y p))) /\
    (forall ghost, ghostBlock s = Some ghost ->
       forall c, In c (cells ghost) -> onRow (y c)).
Proof.
  intros initialSeed actions s Hgrid Hrun.
  apply (onRows_run actions (initialState initialSeed) s);
    [apply wellFormed_initialState | | exact Hgrid | exact Hrun].
  split; [intros b []|]. split; intros t H; discriminate H.
Qed.

(** Three pieces laid on the floor and the row cleared. *)
Lemma blocks_stay_on_rows_witness :
  Forall (fun b => onRow (y b))
    (blocks (stateAfter seedIIO (fillBottomRow ++ [Tick 6]))).
Proof.
  assert (Hgrid : Forall rowAction (fillBottomRow ++ [Tick 6]))
    by (repeat constructor).
  assert (Hrun : run (initialState seedIIO) (fillBottomRow ++ [Tick 6])
                 = Some (stateAfter seedIIO (fillBottomRow ++ [Tick 6])))
    by (vm_compute; reflexivity).
  apply Forall_forall.
  exact (proj1 (blocks_stay_on_rows seedIIO (fillBottomRow ++ [Tick 6])
                  (stateAfter seedIIO (fillBottomRow ++ [Tick 6]))
                  Hgrid Hrun)).
Defined.

(** ** There and back *)

Lemma shiftCell_back direction offset (c : Cell) :
  shiftCell direction (- offset) (shiftCell direction offset c) = c.
Proof.
  destruct c, direction; unfold shiftCell, with_x, with_y; cbn; f_equal; lia.
Qed.

(** X23.  A Move and the Move back undo each other.  Take a live current
    block whose pivot is its second cell and whose cells stand free inside
    the board.  If the cells moved by the offset are free and inside the
    board too, then the Move by the offset followed by the Move by the
    opposite offset returns the state it started from. *)
Theorem Move_there_and_back :
  forall (direction : Direction) (offset : Z) (s : State) (cur : Tetro),
    currentBlock s = Some cur -> collided cur = false ->
    originBlock cur = lookup (cells cur) 1 ->
    passes s (cells cur) ->
    (forall c, In c (cells cur) ->
               ~ occupied s direction offset c /\
               insideBoard direction offset c) ->
    run s [Move direction offset; Move direction (- offset)] = Some s.
Proof.
  intros direction offset s cur Hcur Hlive Hpivot Hpasses Hfree.
  cbn [run perform].
  rewrite (Move_perform_current direction offset s cur Hcur), Hlive.
  assert (Hb1 : hasBlocksAround (cells cur) s offset direction = false).
  { apply not_true_iff_false. intros H. apply hasBlocksAround_iff in H.
    destruct H as [c [Hc Hocc]]. exact (proj1 (Hfree c Hc) Hocc). }
  assert (Hb2 : hasBoundaryAround (cells cur) s offset direction = false).
  { apply not_true_iff_false. intros H. apply hasBoundaryAround_iff in H.
    destruct H as [c [Hc Hout]]. exact (Hout (proj2 (Hfree c Hc))). }
  rewrite Hb1, Hb2. cbn [orb bind].
  set (moved := map (shiftCell direction offset) (cells cur)).
  set (s1 := withCells moved cur s).
  assert (Hcur1 : currentBlock s1
                  = Some (with_originBlock (lookup moved 1)
                            (with_cells moved cur))) by reflexivity.
  rewrite (Move_perform_current direction (- offset) s1 _ Hcur1).
  cbn [collided with_originBlock with_cells cells]. rewrite Hlive.
  assert (Hb3 : hasBlocksAround moved s1 (- offset) direction = false).
  { apply not_true_iff_false. intros H. apply hasBlocksAround_iff in H.
    destruct H as [c1 [Hc1 [b [Hb Hocc]]]].
    apply in_map_iff in Hc1. destruct Hc1 as [c [<- Hc]].
    destruct (Hpasses c Hc) as [Hno _]. apply Hno.
    exists b. split; [exact Hb|].
    destruct direction; cbn [shiftCell with_x with_y x y] in Hocc; lia. }
  assert (Hb4 : hasBoundaryAround moved s1 (- offset) direction = false).
  { apply not_true_iff_false. intros H. apply hasBoundaryAround_iff in H.
    destruct H as [c1 [Hc1 Hout]].
    apply in_map_iff in Hc1. destruct Hc1 as [c [<- Hc]].
    destruct (Hpasses c Hc) as [_ [Hx Hy]]. apply Hout.
    destruct direction; unfold insideBoard in *;
      cbn [shiftCell with_x with_y x y]; lia. }
  rewrite Hb3, Hb4. cbn [orb]. f_equal.
  assert (Hback : map (shiftCell direction (- offset)) moved = cells cur).
  { subst moved. rewrite map_map. rewrite <- (map_id (cells cur)) at 2.
    apply map_ext. intros c. apply shiftCell_back. }
  rewrite Hback. subst s1. unfold withCells.
  destruct s, cur. cbn in *. subst. reflexivity.
Qed.

(** The first piece of a game moved one cell to the left and back. *)
Lemma Move_there_and_back_witness :
  run (stateAfter seedT [Tick 0])
    [Move DirX (- Block.WIDTH); Move DirX (- (- Block.WIDTH))]
  = Some (stateAfter seedT [Tick 0]).
Proof.
  destruct (currentBlock (stateAfter seedT [Tick 0])) as [cur|] eqn:Hcur;
    [| vm_compute in Hcur; discriminate Hcur].
  assert (Hval : Some cur = currentBlock (stateAfter seedT [Tick 0]))
    by (symmetry; exact Hcur).
  vm_compute in Hval. injection Hval as Hval.
  assert (Hlive : collided cur = false) by (rewrite Hval; reflexivity).
  assert (Hpivot : originBlock cur = lookup (cells cur) 1)
    by (rewrite Hval; reflexivity).
  assert (Hblocks : blocks (stateAfter seedT [Tick 0]) = [])
    by (vm_compute; reflexivity).
  assert (Hin : forallb (fun c => (0 <? x c) && (x c <? 180) && (y c <? 400))
                  (cells cur) = true)
    by (rewrite Hval; vm_compute; reflexivity).
  apply (Move_there_and_back DirX (- Block.WIDTH) (stateAfter seedT [Tick 0])
           cur Hcur Hlive Hpivot).
  - intros c Hc. rewrite forallb_forall in Hin. specialize (Hin c Hc).
    apply andb_true_iff in Hin. destruct Hin as [Hin Hy].
    apply andb_true_iff in Hin. destruct Hin as [Hx0 Hx1].
    apply Z.ltb_lt in Hy. apply Z.ltb_lt in Hx0. apply Z.ltb_lt in Hx1.
    split; [|split].
    + intros [b [Hb _]]. rewrite Hblocks in Hb. destruct Hb.
    + unfold insideBoard. change Block.WIDTH with 20.
      change Viewport.CANVAS_WIDTH with 200. lia.
    + unfold insideBoard. change Viewport.CANVAS_HEIGHT with 400. lia.
  - intros c Hc. rewrite forallb_forall in Hin. specialize (Hin c Hc).
    apply andb_true_iff in Hin. destruct Hin as [Hin Hy].
    apply andb_true_iff in Hin. destruct Hin as [Hx0 Hx1].
    apply Z.ltb_lt in Hx0. apply Z.ltb_lt in Hx1.
    split.
    + intros [b [Hb _]]. rewrite Hblocks in Hb. destruct Hb.
    + unfold insideBoard. change Block.WIDTH with 20.
      change Viewport.CANVAS_WIDTH with 200. lia.
Defined.

(** One turn with room to turn: the next rotation state about the same
    base, no wall kick. *)
Lemma Rotate_free_step (s : State) (cur : Tetro) bx by_ offsets :
  currentBlock s = Some cur -> originBlock cur = lookup (cells cur) 1 ->
  lookup (TetroStartPosMap (shape cur)) (rotation cur) = Some offsets ->
  map position (cells cur) = placesAt bx by_ offsets ->
  roomToTurn s cur bx by_ ->
  exists cur1 offsets1,
    Rotate.perform s = Some (with_currentBlock (Some cur1) s) /\
    shape cur1 = shape cur /\ rotation cur1 = nextRotation cur /\
    originBlock cur1 = lookup (cells cur1) 1 /\
    lookup (TetroStartPosMap (shape cur1)) (rotation cur1) = Some offsets1 /\
    map position (cells cur1) = placesAt bx by_ offsets1 /\
    map id (cells cur1) = map id (cells cur).
Proof.
  intros Hcur Hpivot Hoff Hpos Hroom.
  assert (Hrigid : rigid cur).
  { split; [exact Hpivot|]. exists bx, by_, offsets. split; assumption. }
  pose proof (rigid_wfTetro cur Hrigid) as Hwf.
  destruct (Rotate_defined cur Hwf) as [rotated [kicks [Hnaive [Hk _]]]].
  pose proof Hwf as [_ [[Hrot _] _]].
  destruct (naiveRotation_places cur rotated bx by_ offsets
              Hpivot Hoff Hpos Hnaive) as [offsets1 [Hoff1 Hpos1]].
  destruct (naiveRotation_ids cur rotated Hnaive) as [Hids _].
  assert (Hfree : Rotate.checkAllCollision s rotated = false).
  { apply checkAllCollision_false_iff. intros c Hc.
    destruct (Hroom offsets1 (position c) (lookup_In _ _ _ Hoff1))
      as [Hx [Hy Hno]].
    { rewrite <- Hpos1. apply in_map. exact Hc. }
    cbn [position fst snd] in Hx, Hy, Hno. split; [|split].
    - intros [b [Hb [Hbx Hby]]]. apply Hno. exists b.
      split; [exact Hb|]. split; lia.
    - unfold insideBoard. lia.
    - unfold insideBoard. lia. }
  rewrite (Rotate_perform_current s cur rotated kicks Hcur Hrot Hnaive Hk),
    Hfree.
  eexists. exists offsets1. split; [reflexivity|]. cbn.
  split; [reflexivity|]. split; [reflexivity|]. split; [reflexivity|].
  split; [exact Hoff1|]. split; [exact Hpos1 | exact Hids].
Qed.

Lemma Rotate_free_steps (k : nat) :
  forall (s : State) (cur : Tetro) bx by_ offsets,
    currentBlock s = Some cur -> originBlock cur = lookup (cells cur) 1 ->
    lookup (TetroStartPosMap (shape cur)) (rotation cur) = Some offsets ->
    map position (cells cur) = placesAt bx by_ offsets ->
    roomToTurn s cur bx by_ ->
    exists cur' offsets',
      run s (repeat Rotate k) = Some (with_currentBlock (Some cur') s) /\
      shape cur' = shape cur /\
      rotation cur'
      = (rotation cur + Z.of_nat k) mod len (TetroStartPosMap (shape cur)) /\
      originBlock cur' = lookup (cells cur') 1 /\
      lookup (TetroStartPosMap (shape cur')) (rotation cur') = Some offsets' /\
      map position (cells cur') = placesAt bx by_ offsets' /\
      map id (cells cur') = map id (cells cur).
Proof.
  induction k as [|k IH]; intros s cur bx by_ offsets Hcur Hpivot Hoff Hpos Hroom.
  - exists cur, offsets. cbn [repeat run].
    pose proof (lookup_some_range _ _ _ Hoff) as Hrange.
    split; [destruct s; cbn in *; subst; reflexivity|].
    split; [reflexivity|]. split.
    { rewrite Z.add_0_r. symmetry. apply Z.mod_small. exact Hrange. }
    split; [exact Hpivot|]. split; [exact Hoff|]. split; [exact Hpos|].
    reflexivity.
  - destruct (Rotate_free_step s cur bx by_ offsets Hcur Hpivot Hoff Hpos Hroom)
      as [cur1 [offsets1 [Hstep [Hshape [Hrot [Hpivot1 [Hoff1 [Hpos1 Hids1]]]]]]]].
    cbn [repeat run perform]. rewrite Hstep. cbn [bind].
    destruct (IH (with_currentBlock (Some cur1) s) cur1 bx by_ offsets1
                eq_refl Hpivot1 Hoff1 Hpos1)
      as [cur' [offsets' [Hrun [Hshape' [Hrot' [Hpivot' [Hoff' [Hpos' Hids']]]]]]]].
    { unfold roomToTurn. rewrite Hshape. exact Hroom. }
    exists cur', offsets'. split.
    { rewrite Hrun. destruct s; reflexivity. }
    split; [congruence|]. split.
    { rewrite Hrot', Hrot, Hshape. unfold nextRotation.
      rewrite Z.add_mod_idemp_l.
      - f_equal. lia.
      - pose proof (lookup_some_range _ _ _ Hoff). lia. }
    split; [exact Hpivot'|]. split; [exact Hoff'|]. split; [exact Hpos'|].
    congruence.
Qed.

(** X24.  As many turns as the shape has rotation states bring a piece
    back.  Take a current block whose pivot is its second cell and whose
    cells stand on the places of its rotation state about a base, with room
    to turn about that base (the places of every rotation state of the
    shape are inside the board and free).  Then Rotate, performed once for
    every rotation state of the shape, changes nothing in the state but
    the current block, which ends in the rotation state it started in,
    with every cell on the place it started on, under the same id. *)
Theorem Rotate_round_trip :
  forall (s : State) (cur : Tetro) (bx by_ : Z) (offsets : PieceLocation),
    currentBlock s = Some cur -> originBlock cur = lookup (cells cur) 1 ->
    lookup (TetroStartPosMap (shape cur)) (rotation cur) = Some offsets ->
    map position (cells cur) = placesAt bx by_ offsets ->
    roomToTurn s cur bx by_ ->
    exists cur',
      run s (repeat Rotate (length (TetroStartPosMap (shape cur))))
      = Some (with_currentBlock (Some cur') s) /\
      rotation cur' = rotation cur /\ shape cur' = shape cur /\
      map position (cells cur') = map position (cells cur) /\
      map id (cells cur') = map id (cells cur).
Proof.
  intros s cur bx by_ offsets Hcur Hpivot Hoff Hpos Hroom.
  destruct (Rotate_free_steps (length (TetroStartPosMap (shape cur)))
              s cur bx by_ offsets Hcur Hpivot Hoff Hpos Hroom)
    as [cur' [offsets' [Hrun [Hshape [Hrot [_ [Hoff' [Hpos' Hids]]]]]]]].
  pose proof (lookup_some_range _ _ _ Hoff) as Hrange.
  assert (Hback : rotation cur' = rotation cur).
  { rewrite Hrot. fold (len (TetroStartPosMap (shape cur))).
    rewrite <- (Z.mul_1_l (len (TetroStartPosMap (shape cur)))) at 1.
    rewrite Z.mod_add by lia. apply Z.mod_small. exact Hrange. }
  exists cur'. split; [exact Hrun|]. split; [exact Hback|].
  split; [exact Hshape|]. split; [|exact Hids].
  rewrite Hshape, Hback, Hoff in Hoff'. injection Hoff' as <-.
  rewrite Hpos', Hpos. reflexivity.
Qed.

(** The first piece of a game, a T, turned four times where it spawns. *)
Lemma Rotate_round_trip_witness :
  exists cur cur',
    currentBlock (stateAfter seedT [Tick 0]) = Some cur /\
    run (stateAfter seedT [Tick 0])
      (repeat Rotate (length (TetroStartPosMap (shape cur))))
    = Some (with_currentBlock (Some cur') (stateAfter seedT [Tick 0])) /\
    rotation cur' = rotation cur /\
    map position (cells cur') = map position (cells cur).
Proof.
  destruct (currentBlock (stateAfter seedT [Tick 0])) as [cur|] eqn:Hcur;
    [| vm_compute in Hcur; discriminate Hcur].
  assert (Hval : Some cur = currentBlock (stateAfter seedT [Tick 0]))
    by (symmetry; exact Hcur).
  vm_compute in Hval. injection Hval as Hval.
  assert (Hpivot : originBlock cur = lookup (cells cur) 1)
    by (rewrite Hval; reflexivity).
  assert (Hoff : lookup (TetroStartPosMap (shape cur)) (rotation cur)
                 = Some [loc (-1) 0; loc 0 0; loc 0 (-1); loc 1 0])
    by (rewrite Hval; reflexivity).
  assert (Hpos : map position (cells cur)
                 = placesAt 80 20 [loc (-1) 0; loc 0 0; loc 0 (-1); loc 1 0])
    by (rewrite Hval; reflexivity).
  assert (Hblocks : blocks (stateAfter seedT [Tick 0]) = [])
    by (vm_compute; reflexivity).
  assert (Hshape : shape cur = ShT) by (rewrite Hval; reflexivity).
  assert (Hroom : roomToTurn (stateAfter seedT [Tick 0]) cur 80 20).
  { unfold roomToTurn. rewrite Hshape, Hblocks. intros offsets p Hin Hp.
    cbn in Hin.
    repeat (destruct Hin as [<- | Hin]; [|]); try destruct Hin;
      cbn in Hp;
      repeat (destruct Hp as [<- | Hp]; [|]); try destruct Hp;
      (split; [vm_compute; split; reflexivity|]);
      (split; [reflexivity|]); intros [b [[] _]]. }
  destruct (Rotate_round_trip (stateAfter seedT [Tick 0]) cur 80 20
              [loc (-1) 0; loc 0 0; loc 0 (-1); loc 1 0]
              Hcur Hpivot Hoff Hpos Hroom)
    as [cur' [Hrun [Hrot [_ [Hplaces _]]]]].
  exists cur, cur'. split; [reflexivity|]. split; [exact Hrun|].
  split; assumption.
Defined.

(** ** The one seed that stops the game *)

Lemma seed_in_range_run (actions : list Action) :
  forall s s',
    0 <= seed s < RNG.m -> run s actions = Some s' -> 0 <= seed s' < RNG.m.
Proof.
  induction actions as [|a actions IH]; intros s s' Hs; cbn [run].
  - intros H. injection H as <-. exact Hs.
  - destruct (perform a s) as [s1|] eqn:Ha; cbn [bind]; [|discriminate].
    apply IH. destruct (perform_seed_step a s s1 Ha) as [-> | ->];
      [exact Hs | apply hash_range; lia].
Qed.

(** Of the seeds the generator can give, one only scales to no shape. *)
Lemma invalid_seed (sd : Z) :
  0 <= sd < RNG.m -> ~ validSeed sd -> sd = RNG.m - 1.
Proof.
  intros Hrange Hinvalid.
  destruct (Z.eq_dec sd (RNG.m - 1)) as [Heq|Hne]; [exact Heq|].
  exfalso. apply Hinvalid. apply scale_range. lia.
Qed.

(** X25.  One seed only can stop the game.  Start the game, as the program
    does, from the hash of a clock reading that is not negative.  Then in
    every state reached the seed lies in [0, 2^31), and an action throws
    only if it is a Collision before the first Tick, or if the seed, its
    hash, or the hash of its hash is [2^31 - 1], the one value that
    [RNG.scale] takes to the index 7, past the end of [TetroShapes]. *)
Theorem crash_needs_last_seed :
  forall (clock : Z) (actions : list Action) (s : State) (a : Action),
    0 <= clock ->
    run (initialState (RNG.hash clock)) actions = Some s ->
    0 <= seed s < RNG.m /\
    (perform a s = None ->
     (a = Collision /\ currentBlock s = None) \/
     seed s = RNG.m - 1 \/ RNG.hash (seed s) = RNG.m - 1 \/
     RNG.hash (RNG.hash (seed s)) = RNG.m - 1).
Proof.
  intros clock actions s a Hclock Hrun.
  assert (Hseed : 0 <= seed s < RNG.m).
  { apply (seed_in_range_run actions (initialState (RNG.hash clock)) s);
      [|exact Hrun]. cbn [seed initialState]. apply hash_range. exact Hclock. }
  split; [exact Hseed|]. intros Hnone.
  pose proof (wellFormed_run actions _ s
                (wellFormed_initialState (RNG.hash clock)) Hrun) as Hwf.
  pose proof (hash_range (seed s) ltac:(lia)) as Hh1.
  pose proof (hash_range (RNG.hash (seed s)) ltac:(lia)) as Hh2.
  destruct (throws_only s a Hwf Hnone)
    as [Hcollision | [[_ [_ [Hinv | Hinv]]] | [_ [_ Hinv]]]].
  - left. exact Hcollision.
  - right. left. exact (invalid_seed _ Hseed Hinv).
  - right. right. left. exact (invalid_seed _ Hh1 Hinv).
  - right. right. right. exact (invalid_seed _ Hh2 Hinv).
Qed.

(** A game started at a clock reading, three pieces on. *)
Lemma crash_needs_last_seed_witness :
  0 <= seed (stateAfter seedIIO fillBottomRow) < RNG.m.
Proof.
  assert (Hrun : run (initialState (RNG.hash 1700000001104)) fillBottomRow
                 = Some (stateAfter seedIIO fillBottomRow))
    by (vm_compute; reflexivity).
  exact (proj1 (crash_needs_last_seed 1700000001104 fillBottomRow
                  (stateAfter seedIIO fillBottomRow) Drop ltac:(lia) Hrun)).
Defined.

(** ** Every action is defined in play *)

Lemma hashedSeed_valid (s : State) :
  hashedSeed s ->
  0 <= seed s /\ validSeed (seed s) /\ validSeed (RNG.hash (seed s)) /\
  validSeed (RNG.hash (RNG.hash (seed s))).
Proof.
  intros [z [Hz Hs]].
  assert (H0 : 0 <= seed s) by (rewrite Hs; apply hash_range; exact Hz).
  pose proof (hash_range (seed s) H0) as H1.
  split; [exact H0|]. unfold validSeed. split; [|split].
  - rewrite Hs. apply hash_scale_range. exact Hz.
  - apply hash_scale_range. exact H0.
  - apply hash_scale_range. lia.
Qed.

Lemma inPlay_perform (a : Action) (s s' : State) :
  inPlay s -> perform a s = Some s' -> inPlay s'.
Proof.
  intros [Hwf Hseed] Ha. split; [exact (wellFormed_perform a s s' Hwf Ha)|].
  destruct (perform_seed_step a s s' Ha) as [Hs | Hs].
  - destruct Hseed as [z Hz]. exists z. rewrite Hs. exact Hz.
  - exists (seed s). split; [|exact Hs].
    apply (hashedSeed_valid s Hseed).
Qed.

Lemma inPlay_run (actions : list Action) :
  forall s s', inPlay s -> run s actions = Some s' -> inPlay s'.
Proof.
  induction actions as [|a actions IH]; intros s s' Hs; cbn [run].
  - intros H. injection H as <-. exact Hs.
  - destruct (perform a s) as [s1|] eqn:Ha; cbn [bind]; [|discriminate].
    apply IH. exact (inPlay_perform a s s1 Hs Ha).
Qed.

(** A game starts in play, with no current block. *)
Lemma gameStart_inPlay (clock : Z) (s0 : State) :
  0 <= clock -> gameStart clock s0 -> inPlay s0 /\ currentBlock s0 = None.
Proof.
  intros Hclock Hstart. induction Hstart as [|s0 s actions _ [IH _] Hrun _].
  - split; [|reflexivity]. split; [apply wellFormed_initialState|].
    exists clock. split; [exact Hclock | reflexivity].
  - split; [|reflexivity]. split.
    + unfold wellFormed. cbn. split; [discriminate | reflexivity].
    + destruct (inPlay_run actions s0 s IH Hrun) as [_ Hseed].
      exists (seed s). split; [apply (hashedSeed_valid s Hseed) | reflexivity].
Qed.

(** In play an action throws in one case only: the seeds are hashes, and a
    shape can be drawn from every hash. *)
Lemma inPlay_throws (a : Action) (s : State) :
  inPlay s -> perform a s = None -> a = Collision /\ currentBlock s = None.
Proof.
  intros [Hwf Hseed] Hnone.
  destruct (hashedSeed_valid s Hseed) as [_ [Hv0 [Hv1 Hv2]]].
  destruct (throws_only s a Hwf Hnone)
    as [Hcollision | [[_ [_ [Hinv | Hinv]]] | [_ [_ Hinv]]]];
    [exact Hcollision | contradiction..].
Qed.

Lemma inPlay_performs (a : Action) (s : State) :
  inPlay s -> a <> Collision \/ currentBlock s <> None ->
  exists s', perform a s = Some s'.
Proof.
  intros Hs Hok.
  destruct (perform a s) as [s'|] eqn:Ha; [exists s'; reflexivity|].
  destruct (inPlay_throws a s Hs Ha) as [Hc Hnone].
  destruct Hok as [Hok | Hok]; contradiction.
Qed.

(** No action takes the current block away. *)
Lemma currentBlock_kept (a : Action) (s s' : State) :
  perform a s = Some s' -> currentBlock s <> None -> currentBlock s' <> None.
Proof.
  destruct a as [direction offset | time | | | | ]; cbn [perform].
  - unfold Move.perform. destruct (currentBlock s);
      intros H; injection H as <-; [discriminate | auto].
  - intros H _. destruct (Tick_perform_pieces time s s' H) as [b [n [-> _]]].
    discriminate.
  - unfold Rotate.perform. destruct (currentBlock s) as [cur|] eqn:Hcur;
      [|intros _ H; contradiction].
    bind_cases.
    destruct (negb _); [intros H; injection H as <-; discriminate|].
    bind_cases.
    destruct (_ =? 0);
      [intros H; injection H as <-; rewrite Hcur; discriminate|].
    bind_cases. intros H; injection H as <-; discriminate.
  - unfold Hold.perform. destruct (currentBlock s) as [cur|] eqn:Hcur;
      [|intros _ H; contradiction].
    destruct (_ || _);
      [intros H; injection H as <-; rewrite Hcur; discriminate|].
    bind_cases. intros H; injection H as <-; discriminate.
  - unfold Drop.perform. destruct (currentBlock s) as [cur|] eqn:Hcur;
      [|intros _ H; contradiction].
    destruct (collided cur);
      [intros H; injection H as <-; rewrite Hcur; discriminate|].
    bind_cases. intros H; injection H as <-; discriminate.
  - unfold Collision.perform, collisionDetection. bind_cases.
    intros H; injection H as <-; discriminate.
Qed.

(** Without a current block, Move, Rotate, Hold and Drop return the state
    as it is (and Collision returns nothing). *)
Lemma currentBlock_absent (a : Action) (s s' : State) :
  perform a s = Some s' -> currentBlock s = None -> isTick a = false ->
  s' = s.
Proof.
  intros Ha Hnone Htick.
  destruct a as [direction offset | time | | | | ]; cbn [perform] in Ha;
    try discriminate Htick.
  - unfold Move.perform in Ha. rewrite Hnone in Ha.
    injection Ha as <-. reflexivity.
  - unfold Rotate.perform in Ha. rewrite Hnone in Ha.
    injection Ha as <-. reflexivity.
  - unfold Hold.perform in Ha. rewrite Hnone in Ha.
    injection Ha as <-. reflexivity.
  - unfold Drop.perform in Ha. rewrite Hnone in Ha.
    injection Ha as <-. reflexivity.
  - unfold Collision.perform, collisionDetection in Ha. rewrite Hnone in Ha.
    discriminate Ha.
Qed.

Lemma currentBlock_run (actions : list Action) :
  forall s s', run s actions = Some s' ->
    (currentBlock s <> None -> currentBlock s' <> None) /\
    (hasTick actions = true -> currentBlock s' <> None) /\
    (currentBlock s = None -> hasTick actions = false -> s' = s).
Proof.
  induction actions as [|a actions IH]; intros s s'; cbn [run].
  - intros H. injection H as <-. split; [auto|]. split; [discriminate | auto].
  - destruct (perform a s) as [s1|] eqn:Ha; cbn [bind]; [|discriminate].
    intros Hrun. destruct (IH s1 s' Hrun) as [Hkept [Hticked Hsame]].
    split; [|split].
    + intros Hcur. apply Hkept. exact (currentBlock_kept a s s1 Ha Hcur).
    + unfold hasTick. cbn [existsb]. intros Hany.
      apply orb_true_iff in Hany. destruct Hany as [Hnow | Hlater].
      * apply Hkept. destruct a; try discriminate Hnow. cbn [perform] in Ha.
        destruct (Tick_perform_pieces time s s1 Ha) as [b [n [-> _]]].
        discriminate.
      * apply Hticked. exact Hlater.
    + unfold hasTick. cbn [existsb]. intros Hnone Hany.
      apply orb_false_iff in Hany. destruct Hany as [Hnow Hlater].
      pose proof (currentBlock_absent a s s1 Ha Hnone Hnow) as ->.
      apply Hsame; assumption.
Qed.

(** In play a stream runs through when there is a current block, or when a
    Tick comes before the first Collision. *)
Lemma inPlay_runs (stream : list Action) :
  forall s, inPlay s ->
    currentBlock s <> None \/ tickFirst stream = true ->
    exists s', run s stream = Some s'.
Proof.
  induction stream as [|a stream IH]; intros s Hs Hok; cbn [run].
  - exists s. reflexivity.
  - destruct (inPlay_performs a s Hs) as [s1 Ha].
    { destruct Hok as [Hcur | Hfirst]; [right; exact Hcur|].
      left. intros ->. discriminate Hfirst. }
    rewrite Ha. cbn [bind]. apply IH; [exact (inPlay_perform a s s1 Hs Ha)|].
    destruct Hok as [Hcur | Hfirst].
    + left. exact (currentBlock_kept a s s1 Ha Hcur).
    + destruct a; cbn [tickFirst] in Hfirst;
        try (right; exact Hfirst); try discriminate Hfirst.
      left. cbn [perform] in Ha.
      destruct (Tick_perform_pieces time s s1 Ha) as [b [n [-> _]]].
      discriminate.
Qed.

(** C2, as amended.  Take a game as the program starts it: from the initial
    snapshot, seeded with the hash of a clock reading, or, when a game is
    over, from the restart snapshot made of its last snapshot.  On every
    snapshot such a game reaches, the initial one included, Move, Tick,
    Rotate, Hold and Drop return a snapshot.  Collision, which reads
    [s.currentBlock!.cells] unguarded, throws exactly when there is no
    current block, and there is none exactly as long as no Tick has been
    performed.  So after a Tick every sequence of actions runs through, and
    before it every sequence in which a Tick comes before the first
    Collision, as in the stream of the program. *)
Theorem actions_defined_in_play :
  forall (clock : Z) (s0 : State) (actions : list Action) (s : State),
    0 <= clock < 2 ^ 53 ->
    gameStart clock s0 ->
    run s0 actions = Some s ->
    (forall a, a <> Collision -> exists s', perform a s = Some s') /\
    (perform Collision s = None <-> currentBlock s = None) /\
    (currentBlock s = None <-> hasTick actions = false) /\
    (forall more, hasTick actions = true \/ tickFirst more = true ->
       exists s', run s more = Some s').
Proof.
  intros clock s0 actions s Hclock Hstart Hrun.
  destruct (gameStart_inPlay clock s0 ltac:(lia) Hstart) as [Hs0 Hnone0].
  pose proof (inPlay_run actions s0 s Hs0 Hrun) as Hs.
  destruct (currentBlock_run actions s0 s Hrun) as [_ [Hticked Hsame]].
  assert (Hcur : currentBlock s = None <-> hasTick actions = false).
  { split.
    - intros Hnone. destruct (hasTick actions) eqn:Hany; [|reflexivity].
      exfalso. exact (Hticked eq_refl Hnone).
    - intros Hany. rewrite (Hsame Hnone0 Hany). exact Hnone0. }
  split; [|split; [|split]].
  - intros a Ha. apply inPlay_performs; [exact Hs | left; exact Ha].
  - split.
    + intros Hthrow. exact (proj2 (inPlay_throws Collision s Hs Hthrow)).
    + intros Hnone. cbn [perform].
      unfold Collision.perform, collisionDetection. rewrite Hnone. reflexivity.
  - exact Hcur.
  - intros more Hok. apply inPlay_runs; [exact Hs|].
    destruct Hok as [Hany | Hfirst]; [|right; exact Hfirst].
    left. intros Hnone. apply Hcur in Hnone. congruence.
Qed.

(** A second game, restarted after the first was lost, three actions on:
    every action is defined there, Collision too. *)
Lemma actions_defined_in_play_witness :
  (forall a, a <> Collision ->
     exists s',
       perform a (stateFrom secondGame [Hold; Tick 0; Collision]) = Some s') /\
  (perform Collision (stateFrom secondGame [Hold; Tick 0; Collision]) = None
   <-> currentBlock (stateFrom secondGame [Hold; Tick 0; Collision]) = None) /\
  (currentBlock (stateFrom secondGame [Hold; Tick 0; Collision]) = None
   <-> hasTick [Hold; Tick 0; Collision] = false) /\
  (forall more,
     hasTick [Hold; Tick 0; Collision] = true \/ tickFirst more = true ->
     exists s',
       run (stateFrom secondGame [Hold; Tick 0; Collision]) more = Some s').
Proof.
  assert (Hclock : 0 <= 1700000000000 < 2 ^ 53) by lia.
  assert (Hlost : run (initialState (RNG.hash 1700000000000)) stackToTheTop
                  = Some (stateAfter seedO stackToTheTop))
    by (vm_compute; reflexivity).
  assert (Hover : gameEnd (stateAfter seedO stackToTheTop) = true)
    by (vm_compute; reflexivity).
  assert (Hstart : gameStart 1700000000000 secondGame).
  { exact (nextGame 1700000000000 _ _ stackToTheTop
             (firstGame 1700000000000) Hlost Hover). }
  assert (Hrun : run secondGame [Hold; Tick 0; Collision]
                 = Some (stateFrom secondGame [Hold; Tick 0; Collision]))
    by (vm_compute; reflexivity).
  exact (actions_defined_in_play 1700000000000 secondGame
           [Hold; Tick 0; Collision]
           (stateFrom secondGame [Hold; Tick 0; Collision])
           Hclock Hstart Hrun).
Defined.

(** C2, as stated, fails on the initial snapshot: it is well formed and
    reachable, by no action at all, it has no current block, and Collision
    throws on it. *)
Lemma Collision_undefined_on_initial_snapshot :
  wellFormed (initialState seedO) /\
  reachable (initialState seedO) /\
  currentBlock (initialState seedO) = None /\
  perform Collision (initialState seedO) = None.
Proof.
  split; [apply wellFormed_initialState|].
  split; [exists seedO, []; reflexivity|].
  split; reflexivity.
Qed.
